(** * Plane-frame direct stiffness solver: model and properties

    A shallow embedding of [StructuralSolver] (lib/analysis/solver.ts) and of
    the data model of lib/types.ts.  JavaScript numbers are read as real
    numbers (exact arithmetic); exceptions are an explicit outcome type;
    [Record<string, _>] tables are association lists with overwrite. *)

From Stdlib Require Import Reals Lra Lia List String Bool Arith Permutation Sorted.
Import ListNotations.
Open Scope string_scope.
Open Scope R_scope.

(** ** Data model (lib/types.ts) *)

Record Node := mkNode { node_id : string; node_x : R; node_y : R }.

Inductive SupportType := pin | fixed | roller.

Record Support := mkSupport {
  support_id : string; nodeId : string; type : SupportType; angle : R }.

(** ['fixed' | 'pinned']; the rigid end is written [rigid] because [fixed]
    already names a support type. *)
Inductive MemberRelease := rigid | pinned.

Record Properties := mkProperties { prop_E : R; prop_I : R; prop_A : R }.

Record Member := mkMember {
  member_id : string; startNodeId : string; endNodeId : string;
  startRelease : MemberRelease; endRelease : MemberRelease;
  properties : Properties }.

Record Load := mkLoad {
  load_id : string; memberId : string; magnitude : R; position : R }.

Record Displacement := mkDisplacement { disp_dx : R; disp_dy : R; rotation : R }.

Record MemberForce := mkMemberForce {
  axial : R; shearStart : R; momentStart : R; shearEnd : R; momentEnd : R }.

Record Diagram := mkDiagram {
  diag_x : list R; shear : list R; moment : list R; displacement : list R }.

Record Reaction := mkReaction { Fx : R; Fy : R; Mz : R }.

(** A [Record<string, V>] object: keys with their values; assigning to an
    existing key overwrites it in place.  This is what [obj[k] = v] does for
    every key but "__proto__", which sets the prototype and creates no key:
    statements about the keys of a result exclude that identity. *)
Definition table (V : Type) := list (string * V).

Fixpoint table_set {V} (k : string) (v : V) (t : table V) : table V :=
  match t with
  | [] => [(k, v)]
  | (k', v') :: t' =>
      if String.eqb k' k then (k, v) :: t' else (k', v') :: table_set k v t'
  end.

Fixpoint table_get {V} (k : string) (t : table V) : option V :=
  match t with
  | [] => None
  | (k', v') :: t' => if String.eqb k' k then Some v' else table_get k t'
  end.

(** The object returned by [solve].  The [reactions] key is optional in the
    model because one return statement of [solve] leaves it out. *)
Record AnalysisResult := mkAnalysisResult {
  nodeDisplacements : table Displacement;
  memberForces : table MemberForce;
  diagrams : table Diagram;
  reactions : option (table Reaction) }.

(** ** Exceptions *)

(** [Error msg] is [new Error(msg)]; [TypeError] is what the engine raises on
    a property access through [undefined]. *)
Inductive exn := Error (message : string) | TypeError.

Inductive outcome (T : Type) := Return (a : T) | Throw (e : exn).
Arguments Return {T} a.
Arguments Throw {T} e.

Definition bind {T U} (m : outcome T) (f : T -> outcome U) : outcome U :=
  match m with Return a => f a | Throw e => Throw e end.

Notation "x <- m ;; f" := (bind m (fun x => f))
  (at level 61, m at next level, right associativity).

(** ** Dense matrices as arrays of rows (mathjs [matrix], [multiply], [transpose]) *)

Definition vector := list R.
Definition matrix := list (list R).

Definition vget (v : vector) (i : nat) : R := nth i v 0.
Definition mget (M : matrix) (i j : nat) : R := nth j (nth i M []) 0.

Definition Rsum (l : list R) : R := fold_right Rplus 0 l.

Definition dot (u v : vector) : R :=
  Rsum (map (fun p => fst p * snd p) (combine u v)).

Definition ncols (M : matrix) : nat := List.length (hd [] M).
Definition column (M : matrix) (j : nat) : vector := map (fun row => nth j row 0) M.
Definition transpose (M : matrix) : matrix := map (column M) (seq 0 (ncols M)).
Definition mat_vec (M : matrix) (v : vector) : vector := map (fun row => dot row v) M.
Definition multiply (M N : matrix) : matrix :=
  map (fun row => map (fun j => dot row (column N j)) (seq 0 (ncols N))) M.
Definition vadd (u v : vector) : vector := map (fun p => fst p + snd p) (combine u v).

(** ** Element formulator *)

Definition memberLength (startNode endNode : Node) : R :=
  let dx := node_x endNode - node_x startNode in
  let dy := node_y endNode - node_y startNode in
  sqrt (dx * dx + dy * dy).

(** The literal [T] of the solver. *)
Definition transformation (c s : R) : matrix :=
  [ [c; s; 0; 0; 0; 0];
    [- s; c; 0; 0; 0; 0];
    [0; 0; 1; 0; 0; 0];
    [0; 0; 0; c; s; 0];
    [0; 0; 0; - s; c; 0];
    [0; 0; 0; 0; 0; 1] ].

(** [k_local_vals] of [getMemberGlobalStiffnessMatrix], after the release
    branches. *)
Definition k_local_vals (member : Member) (L : R) : matrix :=
  let E := prop_E (properties member) in
  let I := prop_I (properties member) in
  let A := prop_A (properties member) in
  let w1 := (E * A) / L in
  let w2 := (12 * E * I) / L ^ 3 in
  let w3 := (6 * E * I) / L ^ 2 in
  let w4 := (4 * E * I) / L in
  let w5 := (2 * E * I) / L in
  match startRelease member, endRelease member with
  | pinned, rigid =>
      let w4_mod := (3 * E * I) / L in
      let w3_mod := (3 * E * I) / L ^ 2 in
      let w2_mod := (3 * E * I) / L ^ 3 in
      [ [w1; 0; 0; - w1; 0; 0];
        [0; w2_mod; 0; 0; - w2_mod; w3_mod];
        [0; 0; 0; 0; 0; 0];
        [- w1; 0; 0; w1; 0; 0];
        [0; - w2_mod; 0; 0; w2_mod; - w3_mod];
        [0; w3_mod; 0; 0; - w3_mod; w4_mod] ]
  | rigid, pinned =>
      let w4_mod := (3 * E * I) / L in
      let w3_mod := (3 * E * I) / L ^ 2 in
      let w2_mod := (3 * E * I) / L ^ 3 in
      [ [w1; 0; 0; - w1; 0; 0];
        [0; w2_mod; w3_mod; 0; - w2_mod; 0];
        [0; w3_mod; w4_mod; 0; - w3_mod; 0];
        [- w1; 0; 0; w1; 0; 0];
        [0; - w2_mod; - w3_mod; 0; w2_mod; 0];
        [0; 0; 0; 0; 0; 0] ]
  | pinned, pinned =>
      [ [w1; 0; 0; - w1; 0; 0];
        [0; 0; 0; 0; 0; 0];
        [0; 0; 0; 0; 0; 0];
        [- w1; 0; 0; w1; 0; 0];
        [0; 0; 0; 0; 0; 0];
        [0; 0; 0; 0; 0; 0] ]
  | rigid, rigid =>
      [ [w1; 0; 0; - w1; 0; 0];
        [0; w2; w3; 0; - w2; w3];
        [0; w3; w4; 0; - w3; w5];
        [- w1; 0; 0; w1; 0; 0];
        [0; - w2; - w3; 0; w2; - w3];
        [0; w3; w5; 0; - w3; w4] ]
  end.

Definition missing_nodes_message (member : Member) : string :=
  ("Invalid member " ++ member_id member ++ ": Missing node(s). Start: "
     ++ startNodeId member ++ ", End: " ++ endNodeId member)%string.

Definition zero_length_message (member : Member) : string :=
  ("Invalid member " ++ member_id member ++ ": Length is zero.")%string.

Definition getMemberGlobalStiffnessMatrix
    (member : Member) (startNode endNode : option Node) : outcome matrix :=
  match startNode, endNode with
  | Some startNode, Some endNode =>
      let dx := node_x endNode - node_x startNode in
      let dy := node_y endNode - node_y startNode in
      let L := sqrt (dx * dx + dy * dy) in
      if Req_dec_T L 0 then Throw (Error (zero_length_message member))
      else
        let c := dx / L in
        let s := dy / L in
        let k_local := k_local_vals member L in
        let T := transformation c s in
        Return (multiply (multiply (transpose T) k_local) T)
  | _, _ => Throw (Error (missing_nodes_message member))
  end.

(** [Math.atan2] on the reals. *)
Definition atan2 (y x : R) : R :=
  if Rlt_dec 0 x then atan (y / x)
  else if Rlt_dec x 0 then
    (if Rle_dec 0 y then atan (y / x) + PI else atan (y / x) - PI)
  else if Rlt_dec 0 y then PI / 2
  else if Rlt_dec y 0 then - (PI / 2)
  else 0.

Definition calculateLocalFixedEndForces
    (member : Member) (load : Load) (startNode endNode : option Node)
    : outcome vector :=
  match startNode, endNode with
  | Some startNode, Some endNode =>
      let dx := node_x endNode - node_x startNode in
      let dy := node_y endNode - node_y startNode in
      let L := sqrt (dx * dx + dy * dy) in
      let P := magnitude load in
      let a := position load in
      let b := L - a in
      let V_start_fixed := - (P * b * b * (3 * a + b)) / (L * L * L) in
      let M_start_fixed := - (P * a * b * b) / (L * L) in
      let V_end_fixed := - (P * a * a * (a + 3 * b)) / (L * L * L) in
      let M_end_fixed := (P * a * a * b) / (L * L) in
      let fy_start := V_start_fixed in
      let m_start := M_start_fixed in
      let fy_end := V_end_fixed in
      let m_end := M_end_fixed in
      match startRelease member, endRelease member with
      | pinned, pinned =>
          Return [0; - (P * b) / L; 0; 0; - (P * a) / L; 0]
      | pinned, rigid =>
          let M_rel := - m_start in
          let M_carry := 0.5 * M_rel in
          let V_change_FEF := (1.5 * M_rel) / L in
          Return [0; fy_start + V_change_FEF; 0;
                  0; fy_end - V_change_FEF; m_end + M_carry]
      | rigid, pinned =>
          let M_rel := - m_end in
          let M_carry := 0.5 * M_rel in
          let V_change_FEF := (1.5 * M_rel) / L in
          Return [0; fy_start + V_change_FEF; m_start + M_carry;
                  0; fy_end - V_change_FEF; 0]
      | rigid, rigid =>
          Return [0; fy_start; m_start; 0; fy_end; m_end]
      end
  | _, _ =>
      Throw (Error ("Invalid member " ++ member_id member ++ ": Missing node(s).")%string)
  end.

(** A 6x1 column matrix is kept as the vector of its entries, so that
    [math.multiply(M, column)] is [mat_vec M]. *)
Definition getGlobalFixedEndForces
    (member : Member) (load : Load) (startNode endNode : option Node)
    : outcome vector :=
  match endNode, startNode with
  | Some endNode, Some startNode =>
      let dx := node_x endNode - node_x startNode in
      let dy := node_y endNode - node_y startNode in
      let theta := atan2 dy dx in
      let c := cos theta in
      let s := sin theta in
      f <- calculateLocalFixedEndForces member load (Some startNode) (Some endNode) ;;
      let f_local := [vget f 0; vget f 1; vget f 2; vget f 3; vget f 4; vget f 5] in
      let T := transformation c s in
      Return (mat_vec (transpose T) f_local)
  | _, _ => Throw TypeError
  end.

(** ** Degree-of-freedom indexer *)

Definition dofKey (id kind : string) : string := (id ++ "-" ++ kind)%string.

Definition initializeDOF (nodes : list Node) : table nat :=
  fold_left
    (fun dofMap (entry : nat * Node) =>
       let (index, node) := entry in
       table_set (dofKey (node_id node) "r") (index * 3 + 2)%nat
         (table_set (dofKey (node_id node) "y") (index * 3 + 1)%nat
            (table_set (dofKey (node_id node) "x") (index * 3)%nat dofMap)))
    (combine (seq 0 (List.length nodes)) nodes) [].

Definition totalDOF (nodes : list Node) : nat := (List.length nodes * 3)%nat.

(** ** Global accumulators

    The global stiffness matrix, the load column and the displacement column
    are only read and written entry by entry ([get]/[set]) at indices below
    [totalDOF]; they are total functions of the index here. *)

Definition Matrix := nat -> nat -> R.
Definition Column := nat -> R.

Definition zeros2 : Matrix := fun _ _ => 0.
Definition zeros1 : Column := fun _ => 0.

Definition mset (K : Matrix) (row col : nat) (v : R) : Matrix :=
  fun i j => if (i =? row)%nat && (j =? col)%nat then v else K i j.

Definition cset (F : Column) (row : nat) (v : R) : Column :=
  fun i => if (i =? row)%nat then v else F i.

(** [math.subset(K, math.index(rows, cols))] and [math.subset(F, math.index(rows, 0))],
    read as the selected block as a matrix (a column), whatever the number
    of selected indices. *)
Definition subset2 (K : Matrix) (rows cols : list nat) : matrix :=
  map (fun i => map (fun j => K i j) cols) rows.
Definition subset1 (F : Column) (rows : list nat) : vector := map F rows.

Fixpoint forEachM {X S} (f : S -> X -> outcome S) (l : list X) (s : S) : outcome S :=
  match l with
  | [] => Return s
  | x :: l' => s' <- f s x ;; forEachM f l' s'
  end.

Definition findNode (nodes : list Node) (id : string) : option Node :=
  find (fun n => String.eqb (node_id n) id) nodes.

Definition findMember (members : list Member) (id : string) : option Member :=
  find (fun m => String.eqb (member_id m) id) members.

(** An index that is [undefined] makes [get]/[set] throw. *)
Definition defined {T} (o : option T) : outcome T :=
  match o with Some v => Return v | None => Throw TypeError end.

Definition dofIndices (dofMap : table nat) (startNode endNode : Node)
    : outcome (list nat) :=
  i0 <- defined (table_get (dofKey (node_id startNode) "x") dofMap) ;;
  i1 <- defined (table_get (dofKey (node_id startNode) "y") dofMap) ;;
  i2 <- defined (table_get (dofKey (node_id startNode) "r") dofMap) ;;
  i3 <- defined (table_get (dofKey (node_id endNode) "x") dofMap) ;;
  i4 <- defined (table_get (dofKey (node_id endNode) "y") dofMap) ;;
  i5 <- defined (table_get (dofKey (node_id endNode) "r") dofMap) ;;
  Return [i0; i1; i2; i3; i4; i5].

Definition addStiffness (K : Matrix) (k_global : matrix) (idx : list nat) : Matrix :=
  fold_left
    (fun K i =>
       fold_left
         (fun K j =>
            let val := mget k_global i j in
            let row := nth i idx 0%nat in
            let col := nth j idx 0%nat in
            let current := K row col in
            mset K row col (current + val))
         (seq 0 6) K)
    (seq 0 6) K.

Definition subtractForces (F : Column) (fef_global : vector) (idx : list nat) : Column :=
  fold_left
    (fun F i =>
       let row := nth i idx 0%nat in
       let current := F row in
       cset F row (current - vget fef_global i))
    (seq 0 6) F.

Definition assembleMember (nodes : list Node) (dofMap : table nat)
    (K : Matrix) (member : Member) : outcome Matrix :=
  let startNode := findNode nodes (startNodeId member) in
  let endNode := findNode nodes (endNodeId member) in
  k_global <- getMemberGlobalStiffnessMatrix member startNode endNode ;;
  startNode <- defined startNode ;;
  endNode <- defined endNode ;;
  idx <- dofIndices dofMap startNode endNode ;;
  Return (addStiffness K k_global idx).

Definition assembleLoad (nodes : list Node) (members : list Member)
    (dofMap : table nat) (F : Column) (load : Load) : outcome Column :=
  member <- defined (findMember members (memberId load)) ;;
  let startNode := findNode nodes (startNodeId member) in
  let endNode := findNode nodes (endNodeId member) in
  fef_global <- getGlobalFixedEndForces member load startNode endNode ;;
  startNode <- defined startNode ;;
  endNode <- defined endNode ;;
  idx <- dofIndices dofMap startNode endNode ;;
  Return (subtractForces F fef_global idx).

(** ** Boundary conditions *)

(** The entries one support pushes on [constrainedDOFs]; a failed lookup
    pushes [undefined], written [None]. *)
Definition supportConstraints (dofMap : table nat) (support : Support)
    : list (option nat) :=
  let xDOF := table_get (dofKey (nodeId support) "x") dofMap in
  let yDOF := table_get (dofKey (nodeId support) "y") dofMap in
  let rDOF := table_get (dofKey (nodeId support) "r") dofMap in
  match type support with
  | pin => [xDOF; yDOF]
  | fixed => [xDOF; yDOF; rDOF]
  | roller => [yDOF]
  end.

Definition constrainedDOFs (dofMap : table nat) (supports : list Support)
    : list (option nat) :=
  flat_map (supportConstraints dofMap) supports.

Definition includes (l : list (option nat)) (dof : nat) : bool :=
  existsb (fun o => match o with Some k => (k =? dof)%nat | None => false end) l.

Definition finalFreeDOFs (nodes : list Node) (dofMap : table nat)
    (supports : list Support) : list nat :=
  filter (fun dof => negb (includes (constrainedDOFs dofMap supports) dof))
    (seq 0 (totalDOF nodes)).

(** The diagonal regularisation loop. *)
Definition stabilize (n : nat) (K : Matrix) : Matrix :=
  fold_left
    (fun K i => if Rlt_dec (Rabs (K i i)) 1e-9 then mset K i i 1.0 else K)
    (seq 0 n) K.

Definition scatter (d_global : Column) (dofs : list nat) (d_f : vector) : Column :=
  fold_left
    (fun d (entry : nat * nat) => let (i, dof) := entry in cset d dof (vget d_f i))
    (combine (seq 0 (List.length dofs)) dofs) d_global.

(** ** Results extractor *)

(** The end-force recovery that [calculateResults] writes out twice (member
    loop and reaction loop): the member's global displacement column and
    [f_global = k_global * d_member_global + f_fixed_global]. *)
Definition memberEndForces (nodes : list Node) (loads : list Load)
    (dofMap : table nat) (d_global : Column) (member : Member)
    : outcome (vector * vector) :=
  let startNode := findNode nodes (startNodeId member) in
  let endNode := findNode nodes (endNodeId member) in
  startNode' <- defined startNode ;;
  endNode' <- defined endNode ;;
  startIdx <- defined (table_get (dofKey (node_id startNode') "x") dofMap) ;;
  endIdx <- defined (table_get (dofKey (node_id endNode') "x") dofMap) ;;
  let d_member_global :=
    [ d_global startIdx; d_global (startIdx + 1)%nat; d_global (startIdx + 2)%nat;
      d_global endIdx; d_global (endIdx + 1)%nat; d_global (endIdx + 2)%nat ] in
  f_fixed_global <-
    forEachM
      (fun f_fixed_global l =>
         fef <- getGlobalFixedEndForces member l startNode endNode ;;
         Return (vadd f_fixed_global fef))
      (filter (fun l => String.eqb (memberId l) (member_id member)) loads)
      [0; 0; 0; 0; 0; 0] ;;
  k_global <- getMemberGlobalStiffnessMatrix member startNode endNode ;;
  Return (d_member_global, vadd (mat_vec k_global d_member_global) f_fixed_global).

Definition numPoints : nat := 50.

(** [Set.prototype.add]: insertion order, no repetition. *)
Fixpoint Set_add (x : R) (s : list R) : list R :=
  match s with
  | [] => [x]
  | y :: s' => if Req_dec_T y x then s else y :: Set_add x s'
  end.

(** [Array.prototype.sort((a, b) => a - b)]. *)
Fixpoint insert_sorted (x : R) (l : list R) : list R :=
  match l with
  | [] => [x]
  | y :: l' => if Rle_dec x y then x :: l else y :: insert_sorted x l'
  end.

Definition sort_numeric (l : list R) : list R := fold_right insert_sorted [] l.

Definition loadsOn (loads : list Load) (member : Member) : list Load :=
  filter (fun l => String.eqb (memberId l) (member_id member)) loads.

Definition sortedPoints (loads : list Load) (member : Member) (L : R) : list R :=
  let evaluationPoints :=
    fold_left (fun s i => Set_add ((INR i / INR numPoints) * L) s)
      (seq 0 (numPoints + 1)) [] in
  let evaluationPoints :=
    fold_left
      (fun s l =>
         if Rle_dec 0 (position l) then
           if Rle_dec (position l) L then Set_add (position l) s else s
         else s)
      (loadsOn loads member) evaluationPoints in
  sort_numeric evaluationPoints.

(** [loadTerms_L] and the back-solved [theta_start].  The factor
    [1 / (E * I)] is the division of real numbers; the code's quotient is
    not a number when E I = 0, so statements about deflections carry the
    hypothesis E I <> 0. *)
Definition theta_start (loads : list Load) (member : Member)
    (dx dy L : R) (f_local : vector) (v1 th1 v2 : R) : R :=
  match startRelease member with
  | pinned =>
      let x_L := L in
      let M_start_for_calc := - vget f_local 2 in
      let V_start_for_calc := vget f_local 1 in
      let term1_L := M_start_for_calc * x_L * x_L / 2 in
      let term2_L := V_start_for_calc * x_L * x_L * x_L / 6 in
      let loadTerms_L :=
        fold_left
          (fun loadTerms_L load =>
             let a := position load in
             let P := magnitude load in
             let theta := atan2 dy dx in
             let Py_local := P * cos theta in
             if Rlt_dec a x_L then loadTerms_L + (Py_local / 6) * (x_L - a) ^ 3
             else loadTerms_L)
          (loadsOn loads member) 0 in
      let E := prop_E (properties member) in
      let I := prop_I (properties member) in
      let v_bending_L := (1 / (E * I)) * (term1_L + term2_L + loadTerms_L) in
      (v2 - v1 - v_bending_L) / L
  | rigid => th1
  end.

(** One pass of the [for (const x of sortedPoints)] body: the triple
    (shear, moment, deflection) pushed for [x].  The shear and the moment
    involve no division; for the deflection see [theta_start]. *)
Definition diagramPoint (loads : list Load) (member : Member)
    (dx dy : R) (f_local : vector) (v1 theta_start : R) (x : R) : R * R * R :=
  let V_start := vget f_local 1 in
  let M_start := - vget f_local 2 in
  let V := V_start in
  let M := M_start + V_start * x in
  let term1 := M_start * x * x / 2 in
  let term2 := V_start * x * x * x / 6 in
  let loadTerms := 0 in
  let '(V, M, loadTerms) :=
    fold_left
      (fun (acc : R * R * R) load =>
         let '(V, M, loadTerms) := acc in
         let a := position load in
         let P := magnitude load in
         let theta := atan2 dy dx in
         let Py_local := P * cos theta in
         if Rlt_dec a x then
           (V + Py_local, M + Py_local * (x - a), loadTerms + (Py_local / 6) * (x - a) ^ 3)
         else acc)
      (loadsOn loads member) (V, M, loadTerms) in
  let E := prop_E (properties member) in
  let I := prop_I (properties member) in
  let v_def := (1 / (E * I)) * (term1 + term2 + loadTerms) + theta_start * x + v1 in
  (V, M, v_def).

Definition memberDiagram (loads : list Load) (member : Member)
    (dx dy L : R) (f_local d_member_local : vector) : Diagram :=
  let v1 := vget d_member_local 1 in
  let th1 := vget d_member_local 2 in
  let v2 := vget d_member_local 4 in
  let points := sortedPoints loads member L in
  let th := theta_start loads member dx dy L f_local v1 th1 v2 in
  let vals := map (diagramPoint loads member dx dy f_local v1 th) points in
  {| diag_x := points;
     shear := map (fun t => fst (fst t)) vals;
     moment := map (fun t => snd (fst t)) vals;
     displacement := map snd vals |}.

(** Body of the member loop of [calculateResults]. *)
Definition memberResults (nodes : list Node) (loads : list Load)
    (dofMap : table nat) (d_global : Column)
    (acc : table MemberForce * table Diagram) (member : Member)
    : outcome (table MemberForce * table Diagram) :=
  let (memberForces, diagrams) := acc in
  let startNode := findNode nodes (startNodeId member) in
  let endNode := findNode nodes (endNodeId member) in
  fg <- memberEndForces nodes loads dofMap d_global member ;;
  let (d_member_global, f_global) := fg in
  startNode <- defined startNode ;;
  endNode <- defined endNode ;;
  let dx := node_x endNode - node_x startNode in
  let dy := node_y endNode - node_y startNode in
  let L := sqrt (dx * dx + dy * dy) in
  let c := dx / L in
  let s := dy / L in
  let T := transformation c s in
  let d_member_local := mat_vec T d_member_global in
  let f_local := mat_vec T f_global in
  let forces :=
    {| axial := vget f_local 0;
       shearStart := vget f_local 1;
       momentStart := vget f_local 2;
       shearEnd := - vget f_local 4;
       momentEnd := - vget f_local 5 |} in
  Return (table_set (member_id member) forces memberForces,
          table_set (member_id member)
            (memberDiagram loads member dx dy L f_local d_member_local) diagrams).

(** Body of the support loop of [calculateResults]. *)
Definition supportReaction (nodes : list Node) (members : list Member)
    (loads : list Load) (dofMap : table nat) (d_global : Column)
    (reactions : table Reaction) (support : Support) : outcome (table Reaction) :=
  match findNode nodes (nodeId support) with
  | None => Return reactions
  | Some node =>
      let connectedMembers :=
        filter
          (fun m => String.eqb (startNodeId m) (node_id node)
                    || String.eqb (endNodeId m) (node_id node))
          members in
      R3 <-
        forEachM
          (fun (acc : R * R * R) member =>
             let '(Rx, Ry, Mz) := acc in
             fg <- memberEndForces nodes loads dofMap d_global member ;;
             let f_global := snd fg in
             if String.eqb (startNodeId member) (node_id node) then
               Return (Rx + vget f_global 0, Ry + vget f_global 1, Mz + vget f_global 2)
             else
               Return (Rx + vget f_global 3, Ry + vget f_global 4, Mz + vget f_global 5))
          connectedMembers (0, 0, 0) ;;
      let '(Rx, Ry, Mz) := R3 in
      Return (table_set (node_id node) {| Fx := Rx; Fy := Ry; Mz := Mz |} reactions)
  end.

Definition calculateResults (nodes : list Node) (members : list Member)
    (supports : list Support) (loads : list Load) (dofMap : table nat)
    (d_global : Column) : outcome AnalysisResult :=
  let nodeDisplacements :=
    fold_left
      (fun t (entry : nat * Node) =>
         let (i, node) := entry in
         table_set (node_id node)
           {| disp_dx := d_global (i * 3)%nat;
              disp_dy := d_global (i * 3 + 1)%nat;
              rotation := d_global (i * 3 + 2)%nat |} t)
      (combine (seq 0 (List.length nodes)) nodes) [] in
  md <- forEachM (memberResults nodes loads dofMap d_global) members ([], []) ;;
  let (memberForces, diagrams) := md in
  reactions <-
    forEachM (supportReaction nodes members loads dofMap d_global) supports [] ;;
  Return {| nodeDisplacements := nodeDisplacements;
            memberForces := memberForces;
            diagrams := diagrams;
            reactions := Some reactions |}.

(** ** The solver *)

Definition singular_message : string := "Structure is unstable or singular matrix.".

Section Solver.

(** [math.inv] of the mathjs library: [None] when it throws. *)
Variable inv : matrix -> option matrix.

Definition assembleK (nodes : list Node) (members : list Member)
    (dofMap : table nat) : outcome Matrix :=
  forEachM (assembleMember nodes dofMap) members zeros2.

Definition assembleF (nodes : list Node) (members : list Member)
    (loads : list Load) (dofMap : table nat) : outcome Column :=
  forEachM (assembleLoad nodes members dofMap) loads zeros1.

Definition solveDisplacements (K : Matrix) (F : Column) (finalFreeDOFs : list nat)
    : outcome Column :=
  let d_global := zeros1 in
  match finalFreeDOFs with
  | [] => Return d_global
  | _ :: _ =>
      let K_ff := subset2 K finalFreeDOFs finalFreeDOFs in
      let F_f := subset1 F finalFreeDOFs in
      match inv K_ff with
      | Some K_ff_inv =>
          let d_f := mat_vec K_ff_inv F_f in
          Return (scatter d_global finalFreeDOFs d_f)
      | None => Throw (Error singular_message)
      end
  end.

Definition solve (nodes : list Node) (members : list Member)
    (supports : list Support) (loads : list Load) : outcome AnalysisResult :=
  let dofMap := initializeDOF nodes in
  match nodes with
  | [] => Return {| nodeDisplacements := []; memberForces := [];
                    diagrams := []; reactions := None |}
  | _ :: _ =>
      K <- assembleK nodes members dofMap ;;
      F <- assembleF nodes members loads dofMap ;;
      let free := finalFreeDOFs nodes dofMap supports in
      let K := stabilize (totalDOF nodes) K in
      d_global <- solveDisplacements K F free ;;
      calculateResults nodes members supports loads dofMap d_global
  end.

End Solver.

(** ** Reference formulas of classical frame analysis

    Written index by index from the textbook description, to be compared
    with the literal arrays of the solver. *)

Inductive dofKind := Axial | Transverse | Rotational.

Definition kindOf (i : nat) : dofKind :=
  match (i mod 3)%nat with
  | O => Axial
  | S O => Transverse
  | _ => Rotational
  end.

(** [false] for the three start unknowns, [true] for the three end unknowns. *)
Definition atEnd (i : nat) : bool := (3 <=? i)%nat.

(** The canonical beam-column pattern: axial decoupled from bending, bending
    block symmetric, signs alternating between start and end translations. *)
Definition canonicalEntry (w1 w2 w3 w4 w5 : R) (i j : nat) : R :=
  let sameEnd := Bool.eqb (atEnd i) (atEnd j) in
  match kindOf i, kindOf j with
  | Axial, Axial => if sameEnd then w1 else - w1
  | Transverse, Transverse => if sameEnd then w2 else - w2
  | Rotational, Rotational => if sameEnd then w4 else w5
  | Transverse, Rotational => if atEnd i then - w3 else w3
  | Rotational, Transverse => if atEnd j then - w3 else w3
  | _, _ => 0
  end.

Definition referenceStiffness (E I A L : R) (startRel endRel : MemberRelease)
    (i j : nat) : R :=
  let w1 := E * A / L in
  match startRel, endRel with
  | rigid, rigid =>
      canonicalEntry w1 (12 * E * I / L ^ 3) (6 * E * I / L ^ 2)
        (4 * E * I / L) (2 * E * I / L) i j
  | pinned, rigid =>
      if (i =? 2)%nat || (j =? 2)%nat then 0
      else canonicalEntry w1 (3 * E * I / L ^ 3) (3 * E * I / L ^ 2) (3 * E * I / L) 0 i j
  | rigid, pinned =>
      if (i =? 5)%nat || (j =? 5)%nat then 0
      else canonicalEntry w1 (3 * E * I / L ^ 3) (3 * E * I / L ^ 2) (3 * E * I / L) 0 i j
  | pinned, pinned => canonicalEntry w1 0 0 0 0 i j
  end.

(** Direction-cosine rotation: two diagonal copies of [[c s 0] [-s c 0] [0 0 1]]. *)
Definition rotationEntry (c s : R) (i j : nat) : R :=
  if Bool.eqb (atEnd i) (atEnd j) then
    match kindOf i, kindOf j with
    | Axial, Axial => c
    | Axial, Transverse => s
    | Transverse, Axial => - s
    | Transverse, Transverse => c
    | Rotational, Rotational => 1
    | _, _ => 0
    end
  else 0.

Definition sum6 (f : nat -> R) : R := Rsum (map f (seq 0 6)).

(** Entry (i, j) of T^t K T. *)
Definition referenceGlobalStiffness (E I A L : R) (startRel endRel : MemberRelease)
    (c s : R) (i j : nat) : R :=
  sum6 (fun a => sum6 (fun b =>
    rotationEntry c s a i * referenceStiffness E I A L startRel endRel a b
      * rotationEntry c s b j)).

Definition fixedFixedFEF (P a L : R) : vector :=
  let b := L - a in
  [ 0; - P * b ^ 2 * (3 * a + b) / L ^ 3; - P * a * b ^ 2 / L ^ 2;
    0; - P * a ^ 2 * (a + 3 * b) / L ^ 3; P * a ^ 2 * b / L ^ 2 ].

Definition referenceFEF (P a L : R) (startRel endRel : MemberRelease) : vector :=
  let b := L - a in
  let ff := fixedFixedFEF P a L in
  match startRel, endRel with
  | rigid, rigid => ff
  | pinned, pinned => [0; - P * b / L; 0; 0; - P * a / L; 0]
  | pinned, rigid =>
      let M_rel := - vget ff 2 in
      [ 0; vget ff 1 + 1.5 * M_rel / L; 0;
        0; vget ff 4 - 1.5 * M_rel / L; vget ff 5 + 0.5 * M_rel ]
  | rigid, pinned =>
      let M_rel := - vget ff 5 in
      [ 0; vget ff 1 + 1.5 * M_rel / L; vget ff 2 + 0.5 * M_rel;
        0; vget ff 4 - 1.5 * M_rel / L; 0 ]
  end.

(** Entry [i] of T^t f. *)
Definition referenceGlobalFEF (P a L : R) (startRel endRel : MemberRelease)
    (c s : R) (i : nat) : R :=
  sum6 (fun k => rotationEntry c s k i * vget (referenceFEF P a L startRel endRel) k).

(** ** Faults and accepted inputs *)

(** The exception an outcome carries, if any. *)
Definition fault {T} (o : outcome T) : option exn :=
  match o with Return _ => None | Throw e => Some e end.

(** The two errors thrown by [getMemberGlobalStiffnessMatrix]. *)
Definition isConfigurationFault (e : exn) : Prop :=
  exists m, e = Error (missing_nodes_message m) \/ e = Error (zero_length_message m).

Definition isSingularityFault (e : exn) : Prop := e = Error singular_message.

(** A member the formulator accepts: both end nodes resolve and it has
    non-zero length. *)
Definition memberOk (nodes : list Node) (m : Member) : Prop :=
  exists startNode endNode,
    findNode nodes (startNodeId m) = Some startNode /\
    findNode nodes (endNodeId m) = Some endNode /\
    memberLength startNode endNode <> 0.

Definition loadOk (members : list Member) (l : Load) : Prop :=
  findMember members (memberId l) <> None.

Definition supportResolved (nodes : list Node) (s : Support) : bool :=
  match findNode nodes (nodeId s) with Some _ => true | None => false end.

(** The same loads with their positions replaced. *)
Definition movedLoads (q : Load -> R) (loads : list Load) : list Load :=
  map (fun l => mkLoad (load_id l) (memberId l) (magnitude l) (q l)) loads.

(** ** Node indices *)

(** Index of the last node carrying [id], counted from [start]: the entry
    that survives the overwrites of [initializeDOF]. *)
Fixpoint lastIndexFrom (id : string) (nodes : list Node) (start : nat) : option nat :=
  match nodes with
  | [] => None
  | n :: ns =>
      match lastIndexFrom id ns (S start) with
      | Some k => Some k
      | None => if String.eqb (node_id n) id then Some start else None
      end
  end.

Definition nodeIndex (nodes : list Node) (id : string) : option nat :=
  lastIndexFrom id nodes 0.

Definition kindOffset (kind : string) : nat :=
  if String.eqb kind "x" then 0 else if String.eqb kind "y" then 1 else 2.

Definition isKind (kind : string) : Prop := kind = "x" \/ kind = "y" \/ kind = "r".

(** The six global indices of a member whose start node has index [i] and
    whose end node has index [j]. *)
Definition nodeDofs (i j : nat) : list nat :=
  [ (i * 3 + 0)%nat; (i * 3 + 1)%nat; (i * 3 + 2)%nat;
    (j * 3 + 0)%nat; (j * 3 + 1)%nat; (j * 3 + 2)%nat ].

Definition indexOr0 (nodes : list Node) (id : string) : nat :=
  match nodeIndex nodes id with Some k => k | None => 0%nat end.

(** Whether some support names the node of index [k]. *)
Definition supportedIndex (nodes : list Node) (supports : list Support) (k : nat) : bool :=
  existsb
    (fun s => match nodeIndex nodes (nodeId s) with
              | Some k' => (k' =? k)%nat
              | None => false
              end)
    supports.

(** ** The stages of [solve] on accepted inputs

    The same computations as above, outside the outcome type; the lemmas
    below show that the solver returns exactly these on accepted input. *)

Definition value {T} (d : T) (o : outcome T) : T :=
  match o with Return a => a | Throw _ => d end.

(** Per-member quantities of an accepted member, outside the outcome type. *)
Definition memberStiffness (nodes : list Node) (m : Member) : matrix :=
  value [] (getMemberGlobalStiffnessMatrix m
              (findNode nodes (startNodeId m)) (findNode nodes (endNodeId m))).

Definition memberDofs (nodes : list Node) (m : Member) : list nat :=
  match nodeIndex nodes (startNodeId m), nodeIndex nodes (endNodeId m) with
  | Some i, Some j => nodeDofs i j
  | _, _ => []
  end.

Definition loadForces (nodes : list Node) (m : Member) (l : Load) : vector :=
  value [] (getGlobalFixedEndForces m l
              (findNode nodes (startNodeId m)) (findNode nodes (endNodeId m))).

Definition memberOfLoad (members : list Member) (l : Load) : Member :=
  match findMember members (memberId l) with
  | Some m => m
  | None => mkMember "" "" "" rigid rigid (mkProperties 0 0 0)
  end.

Definition assembledK (nodes : list Node) (members : list Member) (K : Matrix) : Matrix :=
  fold_left (fun K m => addStiffness K (memberStiffness nodes m) (memberDofs nodes m))
    members K.

Definition assembledF (nodes : list Node) (members : list Member) (loads : list Load)
    (F : Column) : Column :=
  fold_left
    (fun F l =>
       let m := memberOfLoad members l in
       subtractForces F (loadForces nodes m l) (memberDofs nodes m))
    loads F.

Definition memberDisplacements (nodes : list Node) (d_global : Column) (m : Member)
    : vector :=
  map d_global (memberDofs nodes m).

Definition fixedForces (nodes : list Node) (loads : list Load) (m : Member) : vector :=
  fold_left (fun acc l => vadd acc (loadForces nodes m l)) (loadsOn loads m)
    [0; 0; 0; 0; 0; 0].

(** [f_global] of an accepted member. *)
Definition endForces (nodes : list Node) (loads : list Load) (d_global : Column)
    (m : Member) : vector :=
  vadd (mat_vec (memberStiffness nodes m) (memberDisplacements nodes d_global m))
    (fixedForces nodes loads m).

(** What the member loop of [calculateResults] stores for an accepted
    member. *)
Definition memberResultOf (nodes : list Node) (loads : list Load) (d_global : Column)
    (m : Member) : MemberForce * Diagram :=
  match findNode nodes (startNodeId m), findNode nodes (endNodeId m) with
  | Some startNode, Some endNode =>
      let dx := node_x endNode - node_x startNode in
      let dy := node_y endNode - node_y startNode in
      let L := sqrt (dx * dx + dy * dy) in
      let T := transformation (dx / L) (dy / L) in
      let d_member_local := mat_vec T (memberDisplacements nodes d_global m) in
      let f_local := mat_vec T (endForces nodes loads d_global m) in
      ({| axial := vget f_local 0;
          shearStart := vget f_local 1;
          momentStart := vget f_local 2;
          shearEnd := - vget f_local 4;
          momentEnd := - vget f_local 5 |},
       memberDiagram loads m dx dy L f_local d_member_local)
  | _, _ =>
      ({| axial := 0; shearStart := 0; momentStart := 0; shearEnd := 0; momentEnd := 0 |},
       {| diag_x := []; shear := []; moment := []; displacement := [] |})
  end.

Definition memberTables (nodes : list Node) (members : list Member) (loads : list Load)
    (d_global : Column) (acc : table MemberForce * table Diagram)
    : table MemberForce * table Diagram :=
  fold_left
    (fun acc m =>
       (table_set (member_id m) (fst (memberResultOf nodes loads d_global m)) (fst acc),
        table_set (member_id m) (snd (memberResultOf nodes loads d_global m)) (snd acc)))
    members acc.

Definition connectedMembers (members : list Member) (node : Node) : list Member :=
  filter
    (fun m => String.eqb (startNodeId m) (node_id node)
              || String.eqb (endNodeId m) (node_id node))
    members.

Definition reactionSum (nodes : list Node) (members : list Member) (loads : list Load)
    (d_global : Column) (node : Node) : R * R * R :=
  fold_left
    (fun (acc : R * R * R) m =>
       let '(Rx, Ry, Mz) := acc in
       let f_global := endForces nodes loads d_global m in
       if String.eqb (startNodeId m) (node_id node) then
         (Rx + vget f_global 0, Ry + vget f_global 1, Mz + vget f_global 2)
       else
         (Rx + vget f_global 3, Ry + vget f_global 4, Mz + vget f_global 5))
    (connectedMembers members node) (0, 0, 0).

Definition reactionOf (nodes : list Node) (members : list Member) (loads : list Load)
    (d_global : Column) (node : Node) : Reaction :=
  let '(Rx, Ry, Mz) := reactionSum nodes members loads d_global node in
  {| Fx := Rx; Fy := Ry; Mz := Mz |}.

Definition reactionTable (nodes : list Node) (members : list Member)
    (supports : list Support) (loads : list Load) (d_global : Column)
    (t : table Reaction) : table Reaction :=
  fold_left
    (fun t s =>
       match findNode nodes (nodeId s) with
       | None => t
       | Some node => table_set (node_id node) (reactionOf nodes members loads d_global node) t
       end)
    supports t.

Definition displacementTable (nodes : list Node) (d_global : Column)
    : table Displacement :=
  fold_left
    (fun t (entry : nat * Node) =>
       let (i, node) := entry in
       table_set (node_id node)
         {| disp_dx := d_global (i * 3)%nat;
            disp_dy := d_global (i * 3 + 1)%nat;
            rotation := d_global (i * 3 + 2)%nat |} t)
    (combine (seq 0 (List.length nodes)) nodes) [].

(** ** Vertical forces *)

(** The part of a member's 6-vector [f] that lands on global row [r]. *)
Definition rowPick (idx : list nat) (r : nat) (f : nat -> R) : R :=
  sum6 (fun i => if (r =? nth i idx 0)%nat then f i else 0).

(** What the members' end forces put on the vertical row of node [k]. *)
Definition nodeVertical (nodes : list Node) (members : list Member) (loads : list Load)
    (d_global : Column) (k : nat) : R :=
  Rsum (map (fun m => rowPick (memberDofs nodes m) (k * 3 + 1)
                        (vget (endForces nodes loads d_global m))) members).

(** Cosine of a member's inclination and the global vertical component of a
    load that acts along the member's local transverse axis. *)
Definition memberCosine (nodes : list Node) (m : Member) : R :=
  match findNode nodes (startNodeId m), findNode nodes (endNodeId m) with
  | Some startNode, Some endNode =>
      (node_x endNode - node_x startNode) / memberLength startNode endNode
  | _, _ => 0
  end.

Definition loadVertical (nodes : list Node) (members : list Member) (l : Load) : R :=
  magnitude l * memberCosine nodes (memberOfLoad members l).

Definition sumFy (t : table Reaction) : R := Rsum (map (fun kv => Fy (snd kv)) t).

(** ** The contract of the external matrix inverse *)

(** [N] is an n x n right inverse of the n-row matrix [M]: M N = I. *)
Definition isInverseOf (M N : matrix) : Prop :=
  let n := List.length M in
  List.length N = n /\
  Forall (fun row => List.length row = n) N /\
  forall i k, (i < n)%nat -> (k < n)%nat ->
    Rsum (map (fun j => mget M i j * mget N j k) (seq 0 n)) =
    if (i =? k)%nat then 1 else 0.

(** What the solver relies on: when [math.inv] returns, it returns an
    inverse.  This is exact arithmetic; it is a hypothesis of every statement
    that uses it, and [solve] itself never checks it. *)
Definition invContract (inv : matrix -> option matrix) : Prop :=
  forall M N, inv M = Some N -> isInverseOf M N.


(** An inverse meeting the contract for systems of at most three unknowns
    (closed forms by cofactors), used in the worked examples. *)
Definition inv_small (M : matrix) : option matrix :=
  match M with
  | [r1] =>
      match r1 with
      | [a] => if Req_dec_T a 0 then None else Some [[1 / a]]
      | _ => None
      end
  | [r1; r2] =>
      match r1, r2 with
      | [a; b], [c; d] =>
          let det := a * d - b * c in
          if Req_dec_T det 0 then None
          else Some [ [d / det; - b / det]; [- c / det; a / det] ]
      | _, _ => None
      end
  | [r1; r2; r3] =>
      match r1, r2, r3 with
      | [a; b; c], [d; e; f], [g; h; i] =>
          let det := a * (e * i - f * h) - b * (d * i - f * g) + c * (d * h - e * g) in
          if Req_dec_T det 0 then None
          else Some
            [ [(e * i - f * h) / det; (c * h - b * i) / det; (b * f - c * e) / det];
              [(f * g - d * i) / det; (a * i - c * g) / det; (c * d - a * f) / det];
              [(d * h - e * g) / det; (b * g - a * h) / det; (a * e - b * d) / det] ]
      | _, _, _ => None
      end
  | _ => None
  end.

(** ** Worked examples *)

(** An inclined member of length 5. *)
Definition ex_a : Node := mkNode "a" 0 0.

Definition ex_b : Node := mkNode "b" 3 4.

Definition ex_beam (startRel endRel : MemberRelease) : Member :=
  mkMember "m1" "a" "b" startRel endRel (mkProperties 1 1 1).

Definition ex_load (a : R) : Load := mkLoad "l1" "m1" (-10) a.

(** A member drawn from right to left: its start node is to the right of
    its end node. *)
Definition ex_right : Node := mkNode "n1" 1 0.

Definition ex_left : Node := mkNode "n2" 0 0.

Definition ex_reversed : Member :=
  mkMember "m1" "n1" "n2" rigid rigid (mkProperties 1 1 1).

Definition ex_mid_load : Load := mkLoad "l1" "m1" (-10) 0.5.

(** A beam drawn from right to left, clamped at both ends. *)
Definition ex_reversed_nodes : list Node := [ex_right; ex_left].

Definition ex_clamped : list Support :=
  [mkSupport "s1" "n1" fixed 0; mkSupport "s2" "n2" fixed 0].

(** A cantilever of unit length and unit section properties, clamped at its
    left node and loaded at midspan; the three unknowns of the right node
    are free. *)
Definition ex_nodes : list Node := [ex_left; ex_right].

Definition ex_cantilever : Member :=
  mkMember "m1" "n2" "n1" rigid rigid (mkProperties 1 1 1).

Definition ex_members : list Member := [ex_cantilever].

Definition ex_supports : list Support := [mkSupport "s1" "n2" fixed 30].

Definition ex_loads : list Load := [ex_mid_load].

(** Its global stiffness matrix. *)
Definition beamMatrix : matrix :=
  [ [1; 0; 0; -1; 0; 0];
    [0; 12; 6; 0; -12; 6];
    [0; 6; 4; 0; -6; 2];
    [-1; 0; 0; 1; 0; 0];
    [0; -12; -6; 0; 12; -6];
    [0; 6; 2; 0; -6; 4] ].

Definition ex_far_load : Load := mkLoad "l1" "m1" (-10) 2.

(** A single clamped node and a second support that names no node. *)
Definition ex_ghost_nodes : list Node := [ex_left].

Definition ex_ghost_supports : list Support :=
  [mkSupport "s1" "n2" fixed 0; mkSupport "s2" "ghost" pin 0].

(** The same beam as a truss bar (both ends pinned), clamped at its left
    node only: the right node is held vertically by nothing but the
    regularisation. *)
Definition ex_bar : Member := mkMember "m1" "n2" "n1" pinned pinned (mkProperties 1 1 1).

Definition ex_bar_members : list Member := [ex_bar].

Definition axialMatrix : matrix :=
  [ [1; 0; 0; -1; 0; 0];
    [0; 0; 0; 0; 0; 0];
    [0; 0; 0; 0; 0; 0];
    [-1; 0; 0; 1; 0; 0];
    [0; 0; 0; 0; 0; 0];
    [0; 0; 0; 0; 0; 0] ].








(** ** Vectors of zeros *)

Definition allZero (v : list R) : Prop := Forall (fun x => x = 0) v.

(** ** Horizontal forces *)

(** What the members' end forces put on the horizontal row of node [k]. *)
Definition nodeHorizontal (nodes : list Node) (members : list Member) (loads : list Load)
    (d_global : Column) (k : nat) : R :=
  Rsum (map (fun m => rowPick (memberDofs nodes m) (k * 3)
                        (vget (endForces nodes loads d_global m))) members).

(** Sine of a member's inclination; a load along the member's local
    transverse axis (-sin, cos) has the global horizontal component
    [- P sin]. *)
Definition memberSine (nodes : list Node) (m : Member) : R :=
  match findNode nodes (startNodeId m), findNode nodes (endNodeId m) with
  | Some startNode, Some endNode =>
      (node_y endNode - node_y startNode) / memberLength startNode endNode
  | _, _ => 0
  end.

Definition loadHorizontal (nodes : list Node) (members : list Member) (l : Load) : R :=
  - (magnitude l * memberSine nodes (memberOfLoad members l)).

Definition sumFx (t : table Reaction) : R := Rsum (map (fun kv => Fx (snd kv)) t).

(** ** The editor (components/Editor/Editor.tsx)

    The part of the component state that [handleRunAnalysis] reads and
    writes, and the handler as a function from a state to the next state
    together with the error it alerts, if any. *)

Inductive ViewMode := view_none | view_deflected | view_sfd | view_bmd | view_reactions.

Record EditorState := mkEditorState {
  ed_nodes : list Node;
  ed_members : list Member;
  ed_supports : list Support;
  ed_loads : list Load;
  analysisResults : option AnalysisResult;
  viewMode : ViewMode }.

(** [members.filter(m => nodes.find(..startNodeId) && nodes.find(..endNodeId))]. *)
Definition validMembers (nodes : list Node) (members : list Member) : list Member :=
  filter
    (fun m =>
       match findNode nodes (startNodeId m), findNode nodes (endNodeId m) with
       | Some _, Some _ => true
       | _, _ => false
       end)
    members.

Definition handleRunAnalysis (inv : matrix -> option matrix) (st : EditorState)
    : EditorState * option exn :=
  let validMembers := validMembers (ed_nodes st) (ed_members st) in
  let members' :=
    if (List.length validMembers =? List.length (ed_members st))%nat
    then ed_members st else validMembers in
  match solve inv (ed_nodes st) validMembers (ed_supports st) (ed_loads st) with
  | Return results =>
      ({| ed_nodes := ed_nodes st; ed_members := members';
          ed_supports := ed_supports st; ed_loads := ed_loads st;
          analysisResults := Some results; viewMode := view_deflected |}, None)
  | Throw error =>
      ({| ed_nodes := ed_nodes st; ed_members := members';
          ed_supports := ed_supports st; ed_loads := ed_loads st;
          analysisResults := analysisResults st; viewMode := viewMode st |}, Some error)
  end.

(** ** The canvas (components/Editor/CanvasP5.tsx) *)

Record Point := mkPoint { pt_x : R; pt_y : R }.

Definition screenToWorld (s : R) (o : Point) (x y : R) : Point :=
  {| pt_x := (x - pt_x o) / s; pt_y := (y - pt_y o) / s |}.

Definition worldToScreen (s : R) (o : Point) (x y : R) : Point :=
  {| pt_x := x * s + pt_x o; pt_y := y * s + pt_y o |}.

(** [p.dist] of p5. *)
Definition dist (x1 y1 x2 y2 : R) : R :=
  sqrt ((x2 - x1) * (x2 - x1) + (y2 - y1) * (y2 - y1)).

(** [Math.round]: the nearest integer, halves upwards. *)
Definition Math_round (x : R) : R := IZR (Int_part (x + 1 / 2)).

Definition gridSize : R := 1.

(** [getSnappedPoint]: the first node within 15 pixels, else the nearest
    grid point. *)
Definition getSnappedPoint (s : R) (nodes : list Node) (worldX worldY : R)
    : R * R * option Node :=
  let snapDist := 15 / s in
  match find (fun node =>
                if Rlt_dec (dist worldX worldY (node_x node) (node_y node)) snapDist
                then true else false) nodes with
  | Some node => (node_x node, node_y node, Some node)
  | None =>
      let gx := Math_round (worldX / gridSize) * gridSize in
      let gy := Math_round (worldY / gridSize) * gridSize in
      (gx, gy, None)
  end.

Inductive DiagramKind := kind_deflection | kind_shear | kind_moment.

Definition diagramValues (type : DiagramKind) (diag : Diagram) : list R :=
  match type with
  | kind_deflection => displacement diag
  | kind_shear => shear diag
  | kind_moment => moment diag
  end.

(** [getDiagramScale]; [results] is [None] before the first analysis.  A
    result of the solver always has a [diagrams] table. *)
Definition getDiagramScale (results : option AnalysisResult) (type : DiagramKind) : R :=
  match results with
  | None => 1
  | Some results =>
      let maxVal :=
        fold_left
          (fun maxVal (entry : string * Diagram) =>
             fold_left (fun maxVal v => Rmax maxVal (Rabs v))
               (diagramValues type (snd entry)) maxVal)
          (diagrams results) 0 in
      if Req_dec_T maxVal 0 then 1
      else
        let targetHeight := 5 / 3 in
        targetHeight / maxVal
  end.

(** The "supports" branch of [mousePressed]: the members and supports after
    a click at [world], [uuid] being the identity drawn for a new support. *)
Definition pressSupports (s : R) (nodes : list Node) (supportType : SupportType)
    (world : Point) (uuid : string) (members : list Member) (supports : list Support)
    : list Member * list Support :=
  match snd (getSnappedPoint s nodes (pt_x world) (pt_y world)) with
  | Some node =>
      let nodeId' := node_id node in
      let members' :=
        match supportType with
        | fixed =>
            map (fun m =>
                   if String.eqb (startNodeId m) nodeId' then
                     mkMember (member_id m) (startNodeId m) (endNodeId m)
                       rigid (endRelease m) (properties m)
                   else if String.eqb (endNodeId m) nodeId' then
                     mkMember (member_id m) (startNodeId m) (endNodeId m)
                       (startRelease m) rigid (properties m)
                   else m)
              members
        | _ => members
        end in
      let supports' :=
        match find (fun s => String.eqb (nodeId s) nodeId') supports with
        | Some existing =>
            map (fun s =>
                   if String.eqb (support_id s) (support_id existing)
                   then mkSupport (support_id s) (nodeId s) supportType (angle s)
                   else s)
              supports
        | None => (supports ++ [mkSupport uuid nodeId' supportType 0])%list
        end in
      (members', supports')
  | None => (members, supports)
  end.

(** One pass of the member loop of the "loads" branch of [mousePressed]:
    (closestMember, minDist, pos). *)
Definition closestMemberStep (nodes : list Node) (world : Point)
    (acc : option Member * R * R) (member : Member) : option Member * R * R :=
  let '(closestMember, minDist, pos) := acc in
  match findNode nodes (startNodeId member), findNode nodes (endNodeId member) with
  | Some start, Some end_ =>
      let l2 := dist (node_x start) (node_y start) (node_x end_) (node_y end_) ^ 2 in
      if Req_dec_T l2 0 then acc
      else
        let t :=
          ((pt_x world - node_x start) * (node_x end_ - node_x start)
           + (pt_y world - node_y start) * (node_y end_ - node_y start)) / l2 in
        let t := Rmax 0 (Rmin 1 t) in
        let px := node_x start + t * (node_x end_ - node_x start) in
        let py := node_y start + t * (node_y end_ - node_y start) in
        let d := dist (pt_x world) (pt_y world) px py in
        if Rlt_dec d minDist then (Some member, d, t * sqrt l2) else acc
  | _, _ => acc
  end.

(** The "loads" branch of [mousePressed]: the loads after a click at
    [world], [uuid] being the identity drawn for the new load. *)
Definition pressLoads (s : R) (nodes : list Node) (members : list Member)
    (loadMagnitude : R) (world : Point) (uuid : string) (loads : list Load) : list Load :=
  let '(closestMember, _, pos) :=
    fold_left (closestMemberStep nodes world) members (None, 20 / s, 0) in
  match closestMember with
  | Some closestMember =>
      (loads ++ [mkLoad uuid (member_id closestMember) loadMagnitude pos])%list
  | None => loads
  end.

(** ** The cantilever of debug-cantilever.ts and of the test page

    A horizontal member of length [L] clamped at its start node, with a
    point load [P] at its free end; the script fixes L = 10, P = -10,
    E = 200e9, I = 1e-4 and A = 0.01. *)

Definition cant_nodes (L : R) : list Node := [mkNode "n1" 0 0; mkNode "n2" L 0].

Definition cant_member (E I A : R) : Member :=
  mkMember "m1" "n1" "n2" rigid rigid (mkProperties E I A).

Definition cant_supports : list Support := [mkSupport "s1" "n1" fixed 0].

Definition cant_load (P L : R) : Load := mkLoad "l1" "m1" P L.

(** Its global stiffness matrix. *)
Definition cantMatrix (E I A L : R) : matrix :=
  let w1 := E * A / L in
  let w2 := 12 * E * I / L ^ 3 in
  let w3 := 6 * E * I / L ^ 2 in
  let w4 := 4 * E * I / L in
  let w5 := 2 * E * I / L in
  [ [w1; 0; 0; - w1; 0; 0];
    [0; w2; w3; 0; - w2; w3];
    [0; w3; w4; 0; - w3; w5];
    [- w1; 0; 0; w1; 0; 0];
    [0; - w2; - w3; 0; w2; - w3];
    [0; w3; w5; 0; - w3; w4] ].

(** * Properties *)

(** ** Stiffness matrices *)

Lemma k_local_vals_reference (member : Member) (L : R) (i j : nat) :
  (i < 6)%nat -> (j < 6)%nat ->
  mget (k_local_vals member L) i j =
  referenceStiffness (prop_E (properties member)) (prop_I (properties member))
    (prop_A (properties member)) L (startRelease member) (endRelease member) i j.
Proof.
  intros Hi Hj. unfold k_local_vals, referenceStiffness.
  destruct (startRelease member), (endRelease member);
    do 6 (destruct i as [|i]; [ do 6 (destruct j as [|j]; [ cbn; try lra | ]); lia | ]); lia.
Qed.

Lemma sqrt_sum_squares_zero (dx dy : R) :
  sqrt (dx * dx + dy * dy) = 0 <-> dx = 0 /\ dy = 0.
Proof.
  split.
  - intros H. apply sqrt_eq_0 in H; [ | nra ]. split; nra.
  - intros [-> ->]. replace (0 * 0 + 0 * 0) with 0 by ring. apply sqrt_0.
Qed.

Lemma global_stiffness_entries (member : Member) (L c s : R) (i j : nat) :
  (i < 6)%nat -> (j < 6)%nat ->
  mget (multiply (multiply (transpose (transformation c s)) (k_local_vals member L))
          (transformation c s)) i j =
  referenceGlobalStiffness (prop_E (properties member)) (prop_I (properties member))
    (prop_A (properties member)) L (startRelease member) (endRelease member) c s i j.
Proof.
  intros Hi Hj. unfold k_local_vals, referenceGlobalStiffness, referenceStiffness.
  destruct (startRelease member), (endRelease member);
    do 6 (destruct i as [|i]; [ do 6 (destruct j as [|j]; [ cbn; ring | ]); lia | ]); lia.
Qed.

(** C2.  For a member of non-zero length L the local stiffness array equals
    the reference matrix of its release state (fixed-fixed: w1..w5 in the
    canonical pattern; one pinned end: 3EI/L^3, 3EI/L^2, 3EI/L with the
    pinned rotation's row and column zero; both pinned: axial block only),
    and the formulator returns T^t K_local T with c = dx/L, s = dy/L. *)
Theorem C2_stiffness_matches_reference (member : Member) (startNode endNode : Node) :
  let E := prop_E (properties member) in
  let I := prop_I (properties member) in
  let A := prop_A (properties member) in
  let dx := node_x endNode - node_x startNode in
  let dy := node_y endNode - node_y startNode in
  let L := memberLength startNode endNode in
  L <> 0 ->
  (forall i j, (i < 6)%nat -> (j < 6)%nat ->
     mget (k_local_vals member L) i j =
     referenceStiffness E I A L (startRelease member) (endRelease member) i j) /\
  exists G,
    getMemberGlobalStiffnessMatrix member (Some startNode) (Some endNode) = Return G /\
    List.length G = 6%nat /\ Forall (fun row => List.length row = 6%nat) G /\
    forall i j, (i < 6)%nat -> (j < 6)%nat ->
      mget G i j =
      referenceGlobalStiffness E I A L (startRelease member) (endRelease member)
        (dx / L) (dy / L) i j.
Proof.
  intros E I A dx dy L HL. split.
  - intros i j Hi Hj. now apply k_local_vals_reference.
  - unfold getMemberGlobalStiffnessMatrix.
    fold dx dy. change (sqrt (dx * dx + dy * dy)) with L.
    destruct (Req_dec_T L 0) as [H0 | _]; [ contradiction | ].
    eexists. split; [ reflexivity | ]. split; [ reflexivity | ]. split.
    + repeat constructor.
    + intros i j Hi Hj. now apply global_stiffness_entries.
Qed.

(** ** Fixed-end forces *)

Lemma sqrt_one_plus_ratio (x y : R) :
  0 < x -> sqrt (1 + (y / x)²) = sqrt (x * x + y * y) / x.
Proof.
  intros Hx.
  replace (1 + (y / x)²) with ((x * x + y * y) / (x * x)).
  2:{ unfold Rsqr. field. lra. }
  rewrite sqrt_div_alt by nra.
  rewrite sqrt_square by lra. reflexivity.
Qed.

Lemma cos_sin_atan2 (dy dx : R) :
  sqrt (dx * dx + dy * dy) <> 0 ->
  cos (atan2 dy dx) = dx / sqrt (dx * dx + dy * dy) /\
  sin (atan2 dy dx) = dy / sqrt (dx * dx + dy * dy).
Proof.
  intros HL. set (L := sqrt (dx * dx + dy * dy)) in *.
  assert (HLpos : 0 < L).
  { pose proof (sqrt_pos (dx * dx + dy * dy)). fold L in H. lra. }
  unfold atan2.
  destruct (Rlt_dec 0 dx) as [Hpos | Hnpos].
  - rewrite cos_atan, sin_atan, sqrt_one_plus_ratio by assumption. fold L.
    split; field; lra.
  - destruct (Rlt_dec dx 0) as [Hneg | Hnneg].
    + assert (Hr : sqrt (1 + (dy / dx)²) = L / - dx).
      { replace (dy / dx) with (- dy / - dx) by (field; lra).
        rewrite sqrt_one_plus_ratio by lra.
        replace (- dx * - dx + - dy * - dy) with (dx * dx + dy * dy) by ring.
        reflexivity. }
      destruct (Rle_dec 0 dy).
      * rewrite neg_cos, neg_sin, cos_atan, sin_atan, Hr.
        split; field; lra.
      * unfold Rminus. rewrite cos_plus, sin_plus, cos_neg, sin_neg, cos_PI, sin_PI.
        rewrite cos_atan, sin_atan, Hr. split; field; lra.
    + assert (dx = 0) by lra. subst dx.
      assert (HL2 : L = Rabs dy).
      { unfold L. replace (0 * 0 + dy * dy) with (dy²) by (unfold Rsqr; ring).
        apply sqrt_Rsqr_abs. }
      destruct (Rlt_dec 0 dy).
      * rewrite cos_PI2, sin_PI2, HL2, Rabs_pos_eq by lra. split; field; lra.
      * destruct (Rlt_dec dy 0).
        -- rewrite cos_neg, sin_neg, cos_PI2, sin_PI2, HL2, Rabs_left by lra.
           split; field; lra.
        -- assert (dy = 0) by lra. subst dy. rewrite Rabs_R0 in HL2. lra.
Qed.

Lemma local_FEF_reference (member : Member) (load : Load) (startNode endNode : Node) :
  calculateLocalFixedEndForces member load (Some startNode) (Some endNode) =
  Return (referenceFEF (magnitude load) (position load)
            (memberLength startNode endNode) (startRelease member) (endRelease member)).
Proof.
  unfold calculateLocalFixedEndForces, referenceFEF, fixedFixedFEF, memberLength.
  set (L := sqrt _). set (P := magnitude load). set (a := position load).
  replace (L * L * L) with (L ^ 3) by ring.
  replace (L * L) with (L ^ 2) by ring.
  destruct (startRelease member), (endRelease member); cbn [vget nth];
    f_equal; repeat (apply (f_equal2 (@cons R)); [ unfold Rdiv; ring | ]); reflexivity.
Qed.

Lemma FEF_length (P a L : R) (sr er : MemberRelease) :
  List.length (referenceFEF P a L sr er) = 6%nat.
Proof. destruct sr, er; reflexivity. Qed.

Lemma rotate_to_global_entries (c s : R) (f : vector) (i : nat) :
  (i < 6)%nat ->
  vget (mat_vec (transpose (transformation c s))
          [vget f 0; vget f 1; vget f 2; vget f 3; vget f 4; vget f 5]) i =
  sum6 (fun k => rotationEntry c s k i * vget f k).
Proof.
  intros Hi. do 6 (destruct i as [|i]; [ cbn; ring | ]). lia.
Qed.

Lemma global_FEF_reference (member : Member) (load : Load) (startNode endNode : Node) :
  let dx := node_x endNode - node_x startNode in
  let dy := node_y endNode - node_y startNode in
  let L := memberLength startNode endNode in
  exists g,
    getGlobalFixedEndForces member load (Some startNode) (Some endNode) = Return g /\
    List.length g = 6%nat /\
    forall i, (i < 6)%nat ->
      vget g i =
      referenceGlobalFEF (magnitude load) (position load) L
        (startRelease member) (endRelease member)
        (cos (atan2 dy dx)) (sin (atan2 dy dx)) i.
Proof.
  intros dx dy L. unfold getGlobalFixedEndForces.
  rewrite local_FEF_reference. cbn [bind].
  eexists. split; [ reflexivity | ]. split; [ reflexivity | ].
  intros i Hi. rewrite rotate_to_global_entries by assumption. reflexivity.
Qed.

Lemma Rsum_cons (x : R) (l : list R) : Rsum (x :: l) = x + Rsum l.
Proof. reflexivity. Qed.

Lemma Rsum_nil : Rsum [] = 0.
Proof. reflexivity. Qed.

Lemma subtract_fold_spec (g : vector) (idx l : list nat) (F : Column) (r : nat) :
  fold_left
    (fun F i => cset F (nth i idx 0%nat) (F (nth i idx 0%nat) - vget g i)) l F r =
  F r - Rsum (map (fun i => if (r =? nth i idx 0)%nat then vget g i else 0) l).
Proof.
  revert F. induction l as [|i l IH]; intros F; cbn [fold_left map].
  - rewrite Rsum_nil. lra.
  - rewrite IH, Rsum_cons. unfold cset at 1.
    destruct (Nat.eqb_spec r (nth i idx 0%nat)) as [-> | _]; lra.
Qed.

Lemma subtractForces_spec (F : Column) (g : vector) (idx : list nat) (r : nat) :
  subtractForces F g idx r =
  F r - sum6 (fun i => if (r =? nth i idx 0)%nat then vget g i else 0).
Proof. apply subtract_fold_spec. Qed.

(** ** Tables and the degree-of-freedom map *)

Lemma table_get_set_same {V} (k : string) (v : V) (t : table V) :
  table_get k (table_set k v t) = Some v.
Proof.
  induction t as [|[k' v'] t IH]; cbn.
  - now rewrite String.eqb_refl.
  - destruct (String.eqb_spec k' k) as [-> | Hne]; cbn.
    + now rewrite String.eqb_refl.
    + destruct (String.eqb_spec k' k); [ contradiction | exact IH ].
Qed.

Lemma table_get_set_other {V} (k k' : string) (v : V) (t : table V) :
  k <> k' -> table_get k (table_set k' v t) = table_get k t.
Proof.
  intros Hne. induction t as [|[k0 v0] t IH]; cbn.
  - destruct (String.eqb_spec k' k); [ congruence | reflexivity ].
  - destruct (String.eqb_spec k0 k') as [-> | Hne0]; cbn.
    + destruct (String.eqb_spec k' k); [ congruence | reflexivity ].
    + destruct (String.eqb_spec k0 k); [ reflexivity | exact IH ].
Qed.

Lemma append_length (a b : string) :
  String.length (a ++ b) = (String.length a + String.length b)%nat.
Proof. induction a as [|c a IH]; cbn; [ reflexivity | now rewrite IH ]. Qed.

Lemma append_inj_suffix (a b s t : string) :
  String.length s = String.length t -> (a ++ s = b ++ t)%string -> a = b /\ s = t.
Proof.
  intros Hlen. revert b. induction a as [|c a IH]; intros [|d b] H; cbn in H.
  - now split.
  - apply (f_equal String.length) in H. cbn in H. rewrite append_length in H. lia.
  - apply (f_equal String.length) in H. cbn in H. rewrite append_length in H. lia.
  - injection H as -> H. destruct (IH b H) as [-> ->]. now split.
Qed.

Lemma dofKey_inj (id id' kind kind' : string) :
  isKind kind -> isKind kind' ->
  dofKey id kind = dofKey id' kind' -> id = id' /\ kind = kind'.
Proof.
  intros Hk Hk' H. unfold dofKey in H.
  apply append_inj_suffix in H.
  - destruct H as [-> H]. split; [ reflexivity | ]. now injection H.
  - destruct Hk as [-> | [-> | ->]], Hk' as [-> | [-> | ->]]; reflexivity.
Qed.

Lemma kind_cases (kind : string) :
  isKind kind ->
  (kind = "x" /\ kindOffset kind = 0%nat) \/
  (kind = "y" /\ kindOffset kind = 1%nat) \/
  (kind = "r" /\ kindOffset kind = 2%nat).
Proof. intros [-> | [-> | ->]]; auto. Qed.

Lemma dofMap_step_get (id kind : string) (index : nat) (node : Node) (t : table nat) :
  isKind kind ->
  table_get (dofKey id kind)
    (table_set (dofKey (node_id node) "r") (index * 3 + 2)%nat
       (table_set (dofKey (node_id node) "y") (index * 3 + 1)%nat
          (table_set (dofKey (node_id node) "x") (index * 3)%nat t))) =
  if String.eqb (node_id node) id then Some (index * 3 + kindOffset kind)%nat
  else table_get (dofKey id kind) t.
Proof.
  intros Hk.
  assert (Hx : isKind "x") by (left; reflexivity).
  assert (Hy : isKind "y") by (right; left; reflexivity).
  assert (Hr : isKind "r") by (right; right; reflexivity).
  destruct (String.eqb_spec (node_id node) id) as [<- | Hne].
  - destruct (kind_cases kind Hk) as [[-> ->] | [[-> ->] | [-> ->]]].
    + rewrite (table_get_set_other _ (dofKey _ "r")), (table_get_set_other _ (dofKey _ "y")),
        table_get_set_same; [ f_equal; lia | | ];
        intros H; apply dofKey_inj in H; auto; destruct H; discriminate.
    + rewrite table_get_set_other, table_get_set_same; [ reflexivity | ];
        intros H; apply dofKey_inj in H; auto; destruct H; discriminate.
    + now rewrite table_get_set_same.
  - rewrite !table_get_set_other; [ reflexivity | | | ];
      intros H; apply dofKey_inj in H; auto; destruct H; congruence.
Qed.

Lemma dofMap_fold_get (id kind : string) (nodes : list Node) (start : nat) (t : table nat) :
  isKind kind ->
  table_get (dofKey id kind)
    (fold_left
       (fun dofMap (entry : nat * Node) =>
          let (index, node) := entry in
          table_set (dofKey (node_id node) "r") (index * 3 + 2)%nat
            (table_set (dofKey (node_id node) "y") (index * 3 + 1)%nat
               (table_set (dofKey (node_id node) "x") (index * 3)%nat dofMap)))
       (combine (seq start (List.length nodes)) nodes) t) =
  match lastIndexFrom id nodes start with
  | Some k => Some (k * 3 + kindOffset kind)%nat
  | None => table_get (dofKey id kind) t
  end.
Proof.
  intros Hk. revert start t. induction nodes as [|n ns IH]; intros start t; cbn.
  - reflexivity.
  - rewrite IH. destruct (lastIndexFrom id ns (S start)); [ reflexivity | ].
    rewrite dofMap_step_get by assumption.
    destruct (String.eqb (node_id n) id); reflexivity.
Qed.

Lemma dofMap_get (nodes : list Node) (id kind : string) :
  isKind kind ->
  table_get (dofKey id kind) (initializeDOF nodes) =
  option_map (fun k => (k * 3 + kindOffset kind)%nat) (nodeIndex nodes id).
Proof.
  intros Hk. unfold initializeDOF, nodeIndex. rewrite dofMap_fold_get by assumption.
  destruct (lastIndexFrom id nodes 0); reflexivity.
Qed.

Lemma lastIndexFrom_range (id : string) (nodes : list Node) (start k : nat) :
  lastIndexFrom id nodes start = Some k ->
  (start <= k < start + List.length nodes)%nat.
Proof.
  revert start. induction nodes as [|n ns IH]; intros start; cbn; [ discriminate | ].
  destruct (lastIndexFrom id ns (S start)) eqn:E.
  - intros [= <-]. apply IH in E. lia.
  - destruct (String.eqb (node_id n) id); [ intros [= <-]; lia | discriminate ].
Qed.

Lemma lastIndexFrom_nth (id : string) (nodes : list Node) (start k : nat) :
  lastIndexFrom id nodes start = Some k ->
  exists n, nth_error nodes (k - start) = Some n /\ node_id n = id.
Proof.
  revert start. induction nodes as [|n ns IH]; intros start; cbn; [ discriminate | ].
  destruct (lastIndexFrom id ns (S start)) eqn:E.
  - intros [= <-]. pose proof (lastIndexFrom_range _ _ _ _ E) as Hr.
    destruct (IH _ E) as [n' [Hn' Hid]]. exists n'. split; [ | exact Hid ].
    replace (n0 - start)%nat with (S (n0 - S start)) by lia. exact Hn'.
  - destruct (String.eqb_spec (node_id n) id); [ | discriminate ].
    intros [= <-]. exists n. rewrite Nat.sub_diag. now split.
Qed.

Lemma lastIndexFrom_none (id : string) (nodes : list Node) (start : nat) :
  lastIndexFrom id nodes start = None <-> findNode nodes id = None.
Proof.
  revert start. unfold findNode. induction nodes as [|n ns IH]; intros start; cbn.
  - tauto.
  - destruct (String.eqb (node_id n) id).
    + split; [ | discriminate ]. destruct (lastIndexFrom id ns (S start)); discriminate.
    + rewrite <- (IH (S start)). destruct (lastIndexFrom id ns (S start)); split; congruence.
Qed.

Lemma findNode_some (nodes : list Node) (id : string) (n : Node) :
  findNode nodes id = Some n -> In n nodes /\ node_id n = id.
Proof.
  unfold findNode. intros H. apply find_some in H. destruct H as [Hin H].
  split; [ exact Hin | now apply String.eqb_eq ].
Qed.

Lemma findNode_nodeIndex (nodes : list Node) (id : string) (n : Node) :
  findNode nodes id = Some n ->
  exists k, nodeIndex nodes id = Some k /\ (k < List.length nodes)%nat.
Proof.
  intros H. unfold nodeIndex. destruct (lastIndexFrom id nodes 0) eqn:E.
  - exists n0. split; [ reflexivity | ]. apply lastIndexFrom_range in E. lia.
  - apply lastIndexFrom_none in E. congruence.
Qed.

Lemma findMember_some (members : list Member) (id : string) (m : Member) :
  findMember members id = Some m -> In m members /\ member_id m = id.
Proof.
  unfold findMember. intros H. apply find_some in H. destruct H as [Hin H].
  split; [ exact Hin | now apply String.eqb_eq ].
Qed.

Lemma isKind_x : isKind "x". Proof. left; reflexivity. Qed.
Lemma isKind_y : isKind "y". Proof. right; left; reflexivity. Qed.
Lemma isKind_r : isKind "r". Proof. right; right; reflexivity. Qed.

Lemma dofIndices_resolved (nodes : list Node) (startNode endNode : Node) (i j : nat) :
  nodeIndex nodes (node_id startNode) = Some i ->
  nodeIndex nodes (node_id endNode) = Some j ->
  dofIndices (initializeDOF nodes) startNode endNode = Return (nodeDofs i j).
Proof.
  intros Hi Hj. unfold dofIndices.
  rewrite !dofMap_get, Hi, Hj by (apply isKind_x || apply isKind_y || apply isKind_r).
  reflexivity.
Qed.

Lemma ex_length : memberLength ex_a ex_b = 5.
Proof.
  unfold memberLength, ex_a, ex_b. cbn [node_x node_y].
  replace ((3 - 0) * (3 - 0) + (4 - 0) * (4 - 0)) with (5 * 5) by lra.
  apply sqrt_square. lra.
Qed.

Lemma C2_stiffness_matches_reference_witness :
  memberLength ex_a ex_b <> 0 /\
  (forall i j, (i < 6)%nat -> (j < 6)%nat ->
     mget (k_local_vals (ex_beam rigid pinned) 5) i j =
     referenceStiffness 1 1 1 5 rigid pinned i j) /\
  exists G,
    getMemberGlobalStiffnessMatrix (ex_beam rigid pinned) (Some ex_a) (Some ex_b) = Return G /\
    forall i j, (i < 6)%nat -> (j < 6)%nat ->
      mget G i j = referenceGlobalStiffness 1 1 1 5 rigid pinned (3 / 5) (4 / 5) i j.
Proof.
  assert (HL : memberLength ex_a ex_b <> 0) by (rewrite ex_length; lra).
  split; [ exact HL | ].
  destruct (C2_stiffness_matches_reference (ex_beam rigid pinned) ex_a ex_b HL)
    as [Hloc [G [HG [_ [_ Hglob]]]]].
  rewrite ex_length in Hloc, Hglob.
  split; [ exact Hloc | ].
  exists G. split; [ exact HG | ].
  intros i j Hi Hj. rewrite (Hglob i j Hi Hj).
  cbn [ex_a ex_b node_x node_y ex_beam startRelease endRelease properties
       prop_E prop_I prop_A].
  replace (3 - 0) with 3 by lra. replace (4 - 0) with 4 by lra. reflexivity.
Defined.

(** ** Degenerate input *)

Section EmptyInput.

Variable inv : matrix -> option matrix.

(** C5.  With no nodes [solve] returns at once; the object it returns has
    empty displacement, member-force and diagram tables and no [reactions]
    key at all. *)
Theorem C5_empty_nodes_result_lacks_reactions
    (members : list Member) (supports : list Support) (loads : list Load) :
  exists r,
    solve inv [] members supports loads = Return r /\
    nodeDisplacements r = [] /\ memberForces r = [] /\ diagrams r = [] /\
    reactions r = None.
Proof. eexists. split; [ reflexivity | ]. cbn. auto. Qed.

End EmptyInput.

(** ** Diagrams *)

Lemma diagram_fold_components (loads : list Load) (dy dx x V M T : R) :
  fold_left
    (fun (acc : R * R * R) load =>
       let '(V, M, loadTerms) := acc in
       let a := position load in
       let P := magnitude load in
       let theta := atan2 dy dx in
       let Py_local := P * cos theta in
       if Rlt_dec a x then
         (V + Py_local, M + Py_local * (x - a), loadTerms + (Py_local / 6) * (x - a) ^ 3)
       else acc)
    loads (V, M, T) =
  ( V + Rsum (map (fun l => magnitude l * cos (atan2 dy dx))
                (filter (fun l => if Rlt_dec (position l) x then true else false) loads)),
    M + Rsum (map (fun l => magnitude l * cos (atan2 dy dx) * (x - position l))
                (filter (fun l => if Rlt_dec (position l) x then true else false) loads)),
    fold_left
      (fun loadTerms load =>
         let a := position load in
         let P := magnitude load in
         let theta := atan2 dy dx in
         let Py_local := P * cos theta in
         if Rlt_dec a x then loadTerms + (Py_local / 6) * (x - a) ^ 3 else loadTerms)
      loads T ).
Proof.
  revert V M T. induction loads as [|l loads IH]; intros V M T; cbn [fold_left filter map].
  - rewrite Rsum_nil, !Rplus_0_r. reflexivity.
  - destruct (Rlt_dec (position l) x); rewrite IH; cbn [map]; [ | reflexivity ].
    rewrite !Rsum_cons, <- !Rplus_assoc. reflexivity.
Qed.

(** What the sampling loop reports as shear and moment at [x]. *)
Lemma diagramPoint_shear_moment (loads : list Load) (member : Member)
    (dx dy : R) (f_local : vector) (v1 th x : R) :
  let crossed :=
    filter (fun l => if Rlt_dec (position l) x then true else false)
      (loadsOn loads member) in
  fst (fst (diagramPoint loads member dx dy f_local v1 th x)) =
    vget f_local 1 + Rsum (map (fun l => magnitude l * cos (atan2 dy dx)) crossed) /\
  snd (fst (diagramPoint loads member dx dy f_local v1 th x)) =
    - vget f_local 2 + vget f_local 1 * x
    + Rsum (map (fun l => magnitude l * cos (atan2 dy dx) * (x - position l)) crossed).
Proof.
  intros crossed. unfold diagramPoint. rewrite diagram_fold_components.
  cbn [fst snd]. fold crossed. split; reflexivity.
Qed.

Lemma atan2_reversed : atan2 (0 - 0) (0 - 1) = PI.
Proof.
  unfold atan2.
  destruct (Rlt_dec 0 (0 - 1)); [ lra | ].
  destruct (Rlt_dec (0 - 1) 0); [ | lra ].
  destruct (Rle_dec 0 (0 - 0)); [ | lra ].
  replace ((0 - 0) / (0 - 1)) with 0 by (field; lra).
  rewrite atan_0. lra.
Qed.

(** On a member whose start node lies to the right of its end node the
    sampling loop adds [P * cos(theta) = -P] for a load it has passed. *)
Lemma reversed_member_point (f_local : vector) (v1 th : R) :
  let dx := node_x ex_left - node_x ex_right in
  let dy := node_y ex_left - node_y ex_right in
  let point := diagramPoint [ex_mid_load] ex_reversed dx dy f_local v1 th 1 in
  fst (fst point) = vget f_local 1 + 10 /\
  snd (fst point) = - vget f_local 2 + vget f_local 1 * 1 + 10 * (1 - 0.5) /\
  fst (fst point) <> vget f_local 1 + magnitude ex_mid_load.
Proof.
  intros dx dy point.
  destruct (diagramPoint_shear_moment [ex_mid_load] ex_reversed dx dy f_local v1 th 1)
    as [HV HM].
  fold point in HV, HM.
  assert (Hc : cos (atan2 dy dx) = -1).
  { unfold dx, dy. cbn [ex_left ex_right node_x node_y].
    rewrite atan2_reversed. apply cos_PI. }
  cbn [loadsOn filter ex_mid_load ex_reversed memberId member_id String.eqb Ascii.eqb
       Bool.eqb position magnitude] in HV, HM.
  destruct (Rlt_dec 0.5 1) as [_ | Hn]; [ | lra ].
  cbn [map] in HV, HM. rewrite !Rsum_cons, Rsum_nil, Hc in HV, HM.
  rewrite HV, HM.
  change (magnitude ex_mid_load) with (-10). change (position ex_mid_load) with 0.5.
  repeat split; lra.
Qed.

Lemma Set_add_in (x y : R) (s : list R) :
  In y (Set_add x s) <-> y = x \/ In y s.
Proof.
  induction s as [|z s IH]; cbn.
  - intuition.
  - destruct (Req_dec_T z x) as [-> | Hne]; cbn.
    + intuition.
    + rewrite IH. intuition.
Qed.

Lemma insert_sorted_in (x y : R) (l : list R) :
  In y (insert_sorted x l) <-> y = x \/ In y l.
Proof.
  induction l as [|z l IH]; cbn.
  - intuition.
  - destruct (Rle_dec x z); cbn; [ intuition | ]. rewrite IH. intuition.
Qed.

Lemma sort_numeric_in (y : R) (l : list R) : In y (sort_numeric l) <-> In y l.
Proof.
  induction l as [|z l IH]; cbn; [ tauto | ].
  rewrite insert_sorted_in, IH. intuition.
Qed.

Lemma grid_fold_in (L y : R) (l : list nat) (s : list R) :
  In y (fold_left (fun s i => Set_add ((INR i / INR numPoints) * L) s) l s) <->
  In y s \/ exists i, In i l /\ y = (INR i / INR numPoints) * L.
Proof.
  revert s. induction l as [|i l IH]; intros s; cbn [fold_left].
  - split; [ auto | ]. intros [H | [i [[] _]]]. exact H.
  - rewrite IH, Set_add_in. split.
    + intros [[-> | H] | [k [Hk ->]]]; [ right; exists i | left | right; exists k ]; cbn; auto.
    + intros [H | [k [[<- | Hk] ->]]]; [ left; right | left; left | right; exists k ]; auto.
Qed.

Lemma loads_fold_in (L y : R) (l : list Load) (s : list R) :
  In y (fold_left
          (fun s l =>
             if Rle_dec 0 (position l) then
               if Rle_dec (position l) L then Set_add (position l) s else s
             else s) l s) <->
  In y s \/ exists ld, In ld l /\ y = position ld /\ 0 <= position ld <= L.
Proof.
  revert s. induction l as [|ld l IH]; intros s; cbn [fold_left].
  - split; [ auto | ]. intros [H | [k [[] _]]]. exact H.
  - rewrite IH. split.
    + intros [H | [k [Hk Hy]]]; [ | right; exists k; cbn; auto ].
      destruct (Rle_dec 0 (position ld)); [ | auto ].
      destruct (Rle_dec (position ld) L); [ | auto ].
      apply Set_add_in in H. destruct H as [-> | H]; [ | auto ].
      right. exists ld. cbn. auto.
    + intros [H | [k [[<- | Hk] [-> Hr]]]].
      * left. destruct (Rle_dec 0 (position ld)); [ | exact H ].
        destruct (Rle_dec (position ld) L); [ | exact H ].
        apply Set_add_in. auto.
      * left. destruct (Rle_dec 0 (position ld)); [ | lra ].
        destruct (Rle_dec (position ld) L); [ | lra ].
        apply Set_add_in. auto.
      * right. exists k. auto.
Qed.

(** The evaluation points of a member: the uniform grid and the positions
    of its loads that lie within the member. *)
Lemma sortedPoints_in (loads : list Load) (member : Member) (L y : R) :
  In y (sortedPoints loads member L) <->
  (exists i, (i <= numPoints)%nat /\ y = (INR i / INR numPoints) * L) \/
  (exists ld, In ld (loadsOn loads member) /\ y = position ld /\ 0 <= position ld <= L).
Proof.
  unfold sortedPoints. rewrite sort_numeric_in, loads_fold_in, grid_fold_in.
  split.
  - intros [[[] | [i [Hi Hy]]] | H]; [ left | right; exact H ].
    exists i. apply in_seq in Hi. split; [ lia | exact Hy ].
  - intros [[i [Hi Hy]] | H]; [ left; right | right; exact H ].
    exists i. split; [ apply in_seq; lia | exact Hy ].
Qed.

Lemma sortedPoints_end (loads : list Load) (member : Member) (L : R) :
  In L (sortedPoints loads member L).
Proof.
  apply sortedPoints_in. left. exists numPoints. split; [ lia | ].
  unfold numPoints. field. apply not_0_INR. discriminate.
Qed.

Lemma deflection_at_end (loads : list Load) (member : Member)
    (dx dy L : R) (f_local : vector) (v1 th1 v2 th : R) :
  L <> 0 -> startRelease member = pinned ->
  snd (diagramPoint loads member dx dy f_local v1 th L) =
  v2 + (th - theta_start loads member dx dy L f_local v1 th1 v2) * L.
Proof.
  intros HL Hrel. unfold diagramPoint, theta_start.
  rewrite diagram_fold_components, Hrel. cbn [snd].
  generalize (1 / (prop_E (properties member) * prop_I (properties member))).
  intros k. field. exact HL.
Qed.

(** With a pinned start the initial slope of the deflection diagram is the
    unique solution of "deflection formula at x = L gives v2", so the
    diagram's value at x = L is v2; with a rigid start it is [th1]. *)
Lemma initial_slope_compatibility (loads : list Load) (member : Member)
    (dx dy L : R) (f_local d_member_local : vector) :
  let v1 := vget d_member_local 1 in
  let th1 := vget d_member_local 2 in
  let v2 := vget d_member_local 4 in
  let th := theta_start loads member dx dy L f_local v1 th1 v2 in
  let D := memberDiagram loads member dx dy L f_local d_member_local in
  L <> 0 ->
  displacement D = map (fun x => snd (diagramPoint loads member dx dy f_local v1 th x)) (diag_x D) /\
  (startRelease member = rigid -> th = th1) /\
  (startRelease member = pinned ->
     (forall slope,
        snd (diagramPoint loads member dx dy f_local v1 slope L) = v2 <-> slope = th) /\
     In L (diag_x D) /\
     forall k, (k < List.length (diag_x D))%nat ->
       nth k (diag_x D) 0 = L -> nth k (displacement D) 0 = v2).
Proof.
  intros v1 th1 v2 th D HL.
  assert (Hdisp : displacement D =
    map (fun x => snd (diagramPoint loads member dx dy f_local v1 th x)) (diag_x D)).
  { unfold D, memberDiagram. cbn [displacement diag_x]. now rewrite map_map. }
  split; [ exact Hdisp | ]. split.
  - intros Hrel. unfold th, theta_start. now rewrite Hrel.
  - intros Hrel.
    assert (Hend : forall slope,
      snd (diagramPoint loads member dx dy f_local v1 slope L) = v2 + (slope - th) * L).
    { intros slope. now apply deflection_at_end. }
    split; [ | split ].
    + intros slope. rewrite Hend. split.
      * intros H. assert (H0 : (slope - th) * L = 0) by lra.
        apply Rmult_integral in H0. destruct H0; [ lra | contradiction ].
      * intros ->. lra.
    + unfold D, memberDiagram. cbn [diag_x]. apply sortedPoints_end.
    + intros k Hk Hx. rewrite Hdisp.
      rewrite (nth_indep _ 0 (snd (diagramPoint loads member dx dy f_local v1 th 0)))
        by (now rewrite length_map).
      rewrite (map_nth (fun x => snd (diagramPoint loads member dx dy f_local v1 th x))).
      rewrite Hx, Hend. lra.
Qed.


(** ** Finite sums *)

Lemma Rsum_app (l1 l2 : list R) : Rsum (l1 ++ l2) = Rsum l1 + Rsum l2.
Proof.
  induction l1 as [|x l1 IH]; cbn [app].
  - rewrite Rsum_nil. lra.
  - rewrite !Rsum_cons, IH. lra.
Qed.

Lemma Rsum_map_ext {X} (f g : X -> R) (l : list X) :
  (forall x, In x l -> f x = g x) -> Rsum (map f l) = Rsum (map g l).
Proof. intros H. f_equal. now apply map_ext_in. Qed.

Lemma Rsum_map_zero {X} (l : list X) : Rsum (map (fun _ => 0) l) = 0.
Proof.
  induction l as [|x l IH]; cbn [map]; [ apply Rsum_nil | ].
  rewrite Rsum_cons, IH. lra.
Qed.

Lemma Rsum_map_plus {X} (f g : X -> R) (l : list X) :
  Rsum (map (fun x => f x + g x) l) = Rsum (map f l) + Rsum (map g l).
Proof.
  induction l as [|x l IH]; cbn [map]; [ rewrite !Rsum_nil; lra | ].
  rewrite !Rsum_cons, IH. lra.
Qed.

Lemma Rsum_map_scal_l {X} (c : R) (f : X -> R) (l : list X) :
  Rsum (map (fun x => c * f x) l) = c * Rsum (map f l).
Proof.
  induction l as [|x l IH]; cbn [map]; [ rewrite !Rsum_nil; lra | ].
  rewrite !Rsum_cons, IH. lra.
Qed.

Lemma Rsum_map_scal_r {X} (c : R) (f : X -> R) (l : list X) :
  Rsum (map (fun x => f x * c) l) = Rsum (map f l) * c.
Proof.
  induction l as [|x l IH]; cbn [map]; [ rewrite !Rsum_nil; lra | ].
  rewrite !Rsum_cons, IH. lra.
Qed.

Lemma Rsum_map_opp {X} (f : X -> R) (l : list X) :
  Rsum (map (fun x => - f x) l) = - Rsum (map f l).
Proof.
  induction l as [|x l IH]; cbn [map]; [ rewrite !Rsum_nil; lra | ].
  rewrite !Rsum_cons, IH. lra.
Qed.

Lemma Rsum_swap {X Y} (f : X -> Y -> R) (lx : list X) (ly : list Y) :
  Rsum (map (fun x => Rsum (map (fun y => f x y) ly)) lx) =
  Rsum (map (fun y => Rsum (map (fun x => f x y) lx)) ly).
Proof.
  induction lx as [|x lx IH]; cbn [map].
  - rewrite Rsum_nil. now rewrite Rsum_map_zero.
  - rewrite Rsum_cons, IH, <- Rsum_map_plus. apply Rsum_map_ext.
    intros y _. now rewrite Rsum_cons.
Qed.

Lemma Rsum_filter {X} (p : X -> bool) (f : X -> R) (l : list X) :
  Rsum (map f (filter p l)) = Rsum (map (fun x => if p x then f x else 0) l).
Proof.
  induction l as [|x l IH]; cbn [filter map]; [ reflexivity | ].
  rewrite Rsum_cons, <- IH. destruct (p x); cbn [map]; [ now rewrite Rsum_cons | lra ].
Qed.

Lemma Rsum_permutation (l1 l2 : list R) : Permutation l1 l2 -> Rsum l1 = Rsum l2.
Proof.
  induction 1; rewrite ?Rsum_cons; try lra.
Qed.

(** A sum over an index range that picks the single index [k]. *)
Lemma Rsum_pick (f : nat -> R) (k start len : nat) :
  Rsum (map (fun c => if (c =? k)%nat then f c else 0) (seq start len)) =
  if (start <=? k)%nat && (k <? start + len)%nat then f k else 0.
Proof.
  revert start. induction len as [|len IH]; intros start; cbn [seq map].
  - rewrite Rsum_nil.
    destruct (Nat.leb_spec start k), (Nat.ltb_spec k (start + 0)); cbn; try reflexivity; lia.
  - rewrite Rsum_cons, IH.
    destruct (Nat.eqb_spec start k) as [-> | Hne].
    + destruct (Nat.leb_spec (S k) k); [ lia | ].
      destruct (Nat.leb_spec k k); [ | lia ].
      destruct (Nat.ltb_spec k (k + S len)); [ | lia ]. cbn. lra.
    + destruct (Nat.leb_spec (S start) k), (Nat.leb_spec start k),
        (Nat.ltb_spec k (S start + len)), (Nat.ltb_spec k (start + S len));
        cbn; try lra; lia.
Qed.

Lemma Rsum_map_nth {X} (d : X) (f : X -> R) (l : list X) :
  Rsum (map f l) = Rsum (map (fun b => f (nth b l d)) (seq 0 (List.length l))).
Proof.
  induction l as [|x l IH]; cbn [List.length seq map]; [ reflexivity | ].
  rewrite !Rsum_cons, IH. cbn [nth]. f_equal.
  rewrite <- seq_shift, map_map. reflexivity.
Qed.

(** ** Entry-wise description of the assembly loops *)

Lemma add_inner_spec (kg : matrix) (idx : list nat) (i : nat) (l : list nat)
    (K : Matrix) (r c : nat) :
  fold_left
    (fun K j =>
       let val := mget kg i j in
       let row := nth i idx 0%nat in
       let col := nth j idx 0%nat in
       let current := K row col in
       mset K row col (current + val)) l K r c =
  K r c + Rsum (map (fun j => if (r =? nth i idx 0)%nat && (c =? nth j idx 0)%nat
                              then mget kg i j else 0) l).
Proof.
  revert K. induction l as [|j l IH]; intros K; cbn [fold_left map].
  - rewrite Rsum_nil. lra.
  - rewrite IH, Rsum_cons. unfold mset at 1.
    destruct (Nat.eqb_spec r (nth i idx 0%nat)) as [-> | _]; cbn [andb]; [ | lra ].
    destruct (Nat.eqb_spec c (nth j idx 0%nat)) as [-> | _]; lra.
Qed.

Lemma add_outer_spec (kg : matrix) (idx : list nat) (l : list nat)
    (K : Matrix) (r c : nat) :
  fold_left
    (fun K i =>
       fold_left
         (fun K j =>
            let val := mget kg i j in
            let row := nth i idx 0%nat in
            let col := nth j idx 0%nat in
            let current := K row col in
            mset K row col (current + val))
         (seq 0 6) K) l K r c =
  K r c + Rsum (map (fun i => sum6 (fun j =>
                  if (r =? nth i idx 0)%nat && (c =? nth j idx 0)%nat
                  then mget kg i j else 0)) l).
Proof.
  revert K. induction l as [|i l IH]; intros K; cbn [fold_left map].
  - rewrite Rsum_nil. lra.
  - rewrite IH, Rsum_cons, add_inner_spec. unfold sum6. lra.
Qed.

Lemma addStiffness_spec (K : Matrix) (kg : matrix) (idx : list nat) (r c : nat) :
  addStiffness K kg idx r c =
  K r c + sum6 (fun i => sum6 (fun j =>
            if (r =? nth i idx 0)%nat && (c =? nth j idx 0)%nat
            then mget kg i j else 0)).
Proof. apply add_outer_spec. Qed.

Lemma stabilize_fold_spec (l : list nat) (K : Matrix) (r c : nat) :
  NoDup l ->
  fold_left
    (fun K i => if Rlt_dec (Rabs (K i i)) 1e-9 then mset K i i 1.0 else K) l K r c =
  if (r =? c)%nat && existsb (Nat.eqb r) l && (if Rlt_dec (Rabs (K r r)) 1e-9 then true else false)
  then 1.0 else K r c.
Proof.
  intros Hnd. revert K. induction Hnd as [|i l Hni Hnd IH]; intros K; cbn [fold_left existsb].
  - now rewrite andb_false_r.
  - rewrite IH. clear IH.
    assert (Hex : forall b, In b l -> (b =? i)%nat = false).
    { intros b Hb. apply Nat.eqb_neq. intros ->. contradiction. }
    destruct (Nat.eqb_spec r c) as [<- | Hrc]; cbn [andb].
    + destruct (Nat.eqb_spec r i) as [-> | Hri]; cbn [orb].
      * assert (He : existsb (Nat.eqb i) l = false).
        { apply not_true_is_false. intros H. apply existsb_exists in H.
          destruct H as [b [Hb Hbi]]. apply Nat.eqb_eq in Hbi. subst b. contradiction. }
        rewrite He. cbn [andb].
        destruct (Rlt_dec (Rabs (K i i)) 1e-9); [ | reflexivity ].
        unfold mset. now rewrite Nat.eqb_refl.
      * destruct (existsb (Nat.eqb r) l); cbn [andb].
        -- destruct (Rlt_dec (Rabs (K i i)) 1e-9); [ | reflexivity ].
           unfold mset. destruct (Nat.eqb_spec r i); [ contradiction | ]. reflexivity.
        -- destruct (Rlt_dec (Rabs (K i i)) 1e-9); [ | reflexivity ].
           unfold mset. destruct (Nat.eqb_spec r i); [ contradiction | ]. reflexivity.
    + destruct (Rlt_dec (Rabs (K i i)) 1e-9); [ | reflexivity ].
      unfold mset. destruct (Nat.eqb_spec r i) as [-> | _]; cbn [andb]; [ | reflexivity ].
      destruct (Nat.eqb_spec c i); [ congruence | reflexivity ].
Qed.

Lemma stabilize_spec (n : nat) (K : Matrix) (r c : nat) :
  stabilize n K r c =
  if (r =? c)%nat && (r <? n)%nat && (if Rlt_dec (Rabs (K r r)) 1e-9 then true else false)
  then 1 else K r c.
Proof.
  unfold stabilize. rewrite stabilize_fold_spec by apply seq_NoDup.
  replace (existsb (Nat.eqb r) (seq 0 n)) with (r <? n)%nat.
  - destruct ((r =? c)%nat && (r <? n)%nat && _); [ lra | reflexivity ].
  - destruct (Nat.ltb_spec r n) as [Hlt | Hge]; symmetry.
    + apply existsb_exists. exists r. split; [ apply in_seq; lia | apply Nat.eqb_refl ].
    + apply not_true_is_false. intros H. apply existsb_exists in H.
      destruct H as [b [Hb Hbi]]. apply Nat.eqb_eq in Hbi. subst b.
      apply in_seq in Hb. lia.
Qed.

Lemma stabilize_diag_nonzero (n : nat) (K : Matrix) (i : nat) :
  (i < n)%nat -> stabilize n K i i <> 0.
Proof.
  intros Hi. rewrite stabilize_spec, Nat.eqb_refl.
  destruct (Nat.ltb_spec i n); [ | lia ]. cbn [andb].
  destruct (Rlt_dec (Rabs (K i i)) 1e-9) as [Hlt | Hge]; [ lra | ].
  intros H0. apply Hge. rewrite H0, Rabs_R0. lra.
Qed.

Lemma scatter_fold_outside (d_f : vector) (l : list (nat * nat)) (d : Column) (c : nat) :
  ~ In c (map snd l) ->
  fold_left
    (fun d (entry : nat * nat) => let (i, dof) := entry in cset d dof (vget d_f i)) l d c
  = d c.
Proof.
  revert d. induction l as [|[i dof] l IH]; intros d Hc; cbn [fold_left]; [ reflexivity | ].
  cbn [map snd In] in Hc. rewrite IH by tauto. unfold cset.
  destruct (Nat.eqb_spec c dof); [ subst; tauto | reflexivity ].
Qed.

Lemma combine_seq_snd {X} (l : list X) (start : nat) :
  map snd (combine (seq start (List.length l)) l) = l.
Proof.
  revert start. induction l as [|x l IH]; intros start; cbn; [ reflexivity | ].
  now rewrite IH.
Qed.

Lemma scatter_outside (d : Column) (dofs : list nat) (d_f : vector) (c : nat) :
  ~ In c dofs -> scatter d dofs d_f c = d c.
Proof.
  intros Hc. unfold scatter. apply scatter_fold_outside. now rewrite combine_seq_snd.
Qed.

Lemma scatter_fold_inside (d_f : vector) (dofs : list nat) (start : nat) (d : Column) (b : nat) :
  NoDup dofs -> (b < List.length dofs)%nat ->
  fold_left
    (fun d (entry : nat * nat) => let (i, dof) := entry in cset d dof (vget d_f i))
    (combine (seq start (List.length dofs)) dofs) d (nth b dofs 0%nat)
  = vget d_f (start + b).
Proof.
  intros Hnd. revert start d b.
  induction Hnd as [|dof dofs Hni Hnd IH]; intros start d b Hb; cbn [List.length] in Hb; [ lia | ].
  cbn [List.length seq combine fold_left].
  destruct b as [|b]; cbn [nth].
  - rewrite scatter_fold_outside by (now rewrite combine_seq_snd).
    unfold cset. rewrite Nat.eqb_refl. f_equal. lia.
  - rewrite IH by lia. f_equal. lia.
Qed.

Lemma scatter_inside (d : Column) (dofs : list nat) (d_f : vector) (b : nat) :
  NoDup dofs -> (b < List.length dofs)%nat ->
  scatter d dofs d_f (nth b dofs 0%nat) = vget d_f b.
Proof. intros Hnd Hb. unfold scatter. now rewrite scatter_fold_inside. Qed.

(** ** Which inputs the assembly accepts *)

Lemma memberOk_cases (nodes : list Node) (m : Member) :
  memberOk nodes m \/
  (~ memberOk nodes m /\
   exists e,
     getMemberGlobalStiffnessMatrix m
       (findNode nodes (startNodeId m)) (findNode nodes (endNodeId m)) = Throw e /\
     isConfigurationFault e).
Proof.
  unfold memberOk, getMemberGlobalStiffnessMatrix.
  destruct (findNode nodes (startNodeId m)) as [sN|] eqn:Hs.
  2:{ right. split.
      - intros [s [e [H _]]]. discriminate.
      - eexists. split; [ reflexivity | ]. exists m. now left. }
  destruct (findNode nodes (endNodeId m)) as [eN|] eqn:He.
  2:{ right. split.
      - intros [s [e [_ [H _]]]]. discriminate.
      - eexists. split; [ reflexivity | ]. exists m. now left. }
  change (sqrt _) with (memberLength sN eN).
  destruct (Req_dec_T (memberLength sN eN) 0) as [H0 | Hn0].
  - right. split.
    + intros [s [e [H1 [H2 H3]]]]. injection H1 as <-. injection H2 as <-. contradiction.
    + eexists. split; [ reflexivity | ]. exists m. now right.
  - left. exists sN, eN. auto.
Qed.

Lemma memberOk_stiffness (nodes : list Node) (m : Member) :
  memberOk nodes m ->
  getMemberGlobalStiffnessMatrix m
    (findNode nodes (startNodeId m)) (findNode nodes (endNodeId m)) =
  Return (memberStiffness nodes m).
Proof.
  intros [sN [eN [Hs [He HL]]]]. unfold memberStiffness. rewrite Hs, He.
  unfold getMemberGlobalStiffnessMatrix. change (sqrt _) with (memberLength sN eN).
  destruct (Req_dec_T (memberLength sN eN) 0); [ contradiction | reflexivity ].
Qed.

Lemma memberOk_dofs (nodes : list Node) (m : Member) :
  memberOk nodes m ->
  exists sN eN i j,
    findNode nodes (startNodeId m) = Some sN /\
    findNode nodes (endNodeId m) = Some eN /\
    memberLength sN eN <> 0 /\
    nodeIndex nodes (startNodeId m) = Some i /\
    nodeIndex nodes (endNodeId m) = Some j /\
    (i < List.length nodes)%nat /\ (j < List.length nodes)%nat /\
    memberDofs nodes m = nodeDofs i j /\
    dofIndices (initializeDOF nodes) sN eN = Return (nodeDofs i j).
Proof.
  intros [sN [eN [Hs [He HL]]]].
  destruct (findNode_nodeIndex _ _ _ Hs) as [i [Hi Hilt]].
  destruct (findNode_nodeIndex _ _ _ He) as [j [Hj Hjlt]].
  exists sN, eN, i, j. repeat split; try assumption.
  - unfold memberDofs. now rewrite Hi, Hj.
  - apply dofIndices_resolved.
    + apply findNode_some in Hs. destruct Hs as [_ ->]. exact Hi.
    + apply findNode_some in He. destruct He as [_ ->]. exact Hj.
Qed.

Lemma assembleMember_ok (nodes : list Node) (K : Matrix) (m : Member) :
  memberOk nodes m ->
  assembleMember nodes (initializeDOF nodes) K m =
  Return (addStiffness K (memberStiffness nodes m) (memberDofs nodes m)).
Proof.
  intros Hok. unfold assembleMember. rewrite memberOk_stiffness by assumption.
  destruct (memberOk_dofs nodes m Hok)
    as [sN [eN [i [j [Hs [He [_ [_ [_ [_ [_ [Hd Hidx]]]]]]]]]]]].
  rewrite Hs, He. cbn [bind defined]. rewrite Hidx, Hd. reflexivity.
Qed.

Lemma assembleMember_bad (nodes : list Node) (K : Matrix) (m : Member) :
  ~ memberOk nodes m ->
  exists e, assembleMember nodes (initializeDOF nodes) K m = Throw e /\
            isConfigurationFault e.
Proof.
  intros Hbad. destruct (memberOk_cases nodes m) as [Hok | [_ [e [He Hc]]]];
    [ contradiction | ].
  exists e. split; [ | exact Hc ]. unfold assembleMember. now rewrite He.
Qed.

Lemma assembleK_ok (nodes : list Node) (members : list Member) (K : Matrix) :
  Forall (memberOk nodes) members ->
  forEachM (assembleMember nodes (initializeDOF nodes)) members K =
  Return (assembledK nodes members K).
Proof.
  intros H. revert K. induction H as [|m members Hm _ IH]; intros K; cbn [forEachM].
  - reflexivity.
  - rewrite assembleMember_ok by assumption. cbn [bind]. apply IH.
Qed.

Lemma assembleK_bad (nodes : list Node) (members : list Member) (K : Matrix) :
  ~ Forall (memberOk nodes) members ->
  exists e, forEachM (assembleMember nodes (initializeDOF nodes)) members K = Throw e /\
            isConfigurationFault e.
Proof.
  revert K. induction members as [|m members IH]; intros K Hbad.
  - exfalso. apply Hbad. constructor.
  - cbn [forEachM]. destruct (memberOk_cases nodes m) as [Hok | [Hnok _]].
    + rewrite assembleMember_ok by assumption. cbn [bind]. apply IH.
      intros HF. apply Hbad. now constructor.
    + destruct (assembleMember_bad nodes K m Hnok) as [e [He Hc]].
      exists e. rewrite He. split; [ reflexivity | exact Hc ].
Qed.

Lemma members_cases (nodes : list Node) (members : list Member) :
  Forall (memberOk nodes) members \/ ~ Forall (memberOk nodes) members.
Proof.
  induction members as [|m members [IH | IH]].
  - left. constructor.
  - destruct (memberOk_cases nodes m) as [Hok | [Hnok _]].
    + left. now constructor.
    + right. intros H. inversion H. contradiction.
  - right. intros H. inversion H. contradiction.
Qed.

Lemma assembleK_return (nodes : list Node) (members : list Member) (K : Matrix) :
  assembleK nodes members (initializeDOF nodes) = Return K ->
  Forall (memberOk nodes) members /\ K = assembledK nodes members zeros2.
Proof.
  unfold assembleK. intros H.
  destruct (members_cases nodes members) as [Hok | Hbad].
  - split; [ exact Hok | ]. rewrite assembleK_ok in H by assumption. now injection H.
  - destruct (assembleK_bad nodes members zeros2 Hbad) as [e [He _]]. congruence.
Qed.

Lemma memberOk_forces (nodes : list Node) (m : Member) (l : Load) :
  memberOk nodes m ->
  getGlobalFixedEndForces m l
    (findNode nodes (startNodeId m)) (findNode nodes (endNodeId m)) =
  Return (loadForces nodes m l).
Proof.
  intros [sN [eN [Hs [He HL]]]]. unfold loadForces. rewrite Hs, He.
  destruct (global_FEF_reference m l sN eN) as [g [Hg _]]. now rewrite Hg.
Qed.

Lemma assembleLoad_ok (nodes : list Node) (members : list Member) (F : Column) (l : Load) :
  Forall (memberOk nodes) members -> loadOk members l ->
  assembleLoad nodes members (initializeDOF nodes) F l =
  Return (subtractForces F (loadForces nodes (memberOfLoad members l) l)
            (memberDofs nodes (memberOfLoad members l))).
Proof.
  intros Hms Hl. unfold assembleLoad, memberOfLoad, loadOk in *.
  destruct (findMember members (memberId l)) as [m|] eqn:Hm; [ | contradiction ].
  cbn [defined bind].
  assert (Hok : memberOk nodes m).
  { apply findMember_some in Hm. destruct Hm as [Hin _].
    rewrite Forall_forall in Hms. now apply Hms. }
  rewrite memberOk_forces by assumption. cbn [bind].
  destruct (memberOk_dofs nodes m Hok)
    as [sN [eN [i [j [Hs [He [_ [_ [_ [_ [_ [Hd Hidx]]]]]]]]]]]].
  rewrite Hs, He. cbn [bind defined]. rewrite Hidx, Hd. reflexivity.
Qed.

Lemma assembleLoad_bad (nodes : list Node) (members : list Member)
    (dofMap : table nat) (F : Column) (l : Load) :
  ~ loadOk members l ->
  assembleLoad nodes members dofMap F l = Throw TypeError.
Proof.
  intros Hl. unfold assembleLoad, loadOk in *.
  destruct (findMember members (memberId l)); [ exfalso; apply Hl; discriminate | reflexivity ].
Qed.

Lemma loadOk_cases (members : list Member) (l : Load) :
  loadOk members l \/ ~ loadOk members l.
Proof.
  unfold loadOk. destruct (findMember members (memberId l)).
  - left. discriminate.
  - right. intros H. now apply H.
Qed.

Lemma loads_cases (members : list Member) (loads : list Load) :
  Forall (loadOk members) loads \/ ~ Forall (loadOk members) loads.
Proof.
  induction loads as [|l loads [IH | IH]].
  - left. constructor.
  - destruct (loadOk_cases members l) as [Hok | Hnok].
    + left. now constructor.
    + right. intros H. inversion H. contradiction.
  - right. intros H. inversion H. contradiction.
Qed.

Lemma assembleF_ok (nodes : list Node) (members : list Member) (loads : list Load)
    (F : Column) :
  Forall (memberOk nodes) members -> Forall (loadOk members) loads ->
  forEachM (assembleLoad nodes members (initializeDOF nodes)) loads F =
  Return (assembledF nodes members loads F).
Proof.
  intros Hms H. revert F. induction H as [|l loads Hl _ IH]; intros F; cbn [forEachM].
  - reflexivity.
  - rewrite assembleLoad_ok by assumption. cbn [bind]. apply IH.
Qed.

Lemma assembleF_bad (nodes : list Node) (members : list Member) (loads : list Load)
    (F : Column) :
  Forall (memberOk nodes) members -> ~ Forall (loadOk members) loads ->
  forEachM (assembleLoad nodes members (initializeDOF nodes)) loads F = Throw TypeError.
Proof.
  intros Hms. revert F. induction loads as [|l loads IH]; intros F Hbad.
  - exfalso. apply Hbad. constructor.
  - cbn [forEachM]. destruct (loadOk_cases members l) as [Hok | Hnok].
    + rewrite assembleLoad_ok by assumption. cbn [bind]. apply IH.
      intros HF. apply Hbad. now constructor.
    + now rewrite assembleLoad_bad.
Qed.

Lemma assembleF_return (nodes : list Node) (members : list Member) (loads : list Load)
    (F : Column) :
  Forall (memberOk nodes) members ->
  assembleF nodes members loads (initializeDOF nodes) = Return F ->
  Forall (loadOk members) loads /\ F = assembledF nodes members loads zeros1.
Proof.
  unfold assembleF. intros Hms H.
  destruct (loads_cases members loads) as [Hok | Hbad].
  - split; [ exact Hok | ]. rewrite assembleF_ok in H by assumption. now injection H.
  - rewrite assembleF_bad in H by assumption. discriminate.
Qed.

(** ** The results extractor returns on accepted members *)

Lemma fixedForces_fold (nodes : list Node) (m : Member) (ls : list Load) (acc : vector) :
  memberOk nodes m ->
  forEachM
    (fun f_fixed_global l =>
       fef <- getGlobalFixedEndForces m l
                (findNode nodes (startNodeId m)) (findNode nodes (endNodeId m)) ;;
       Return (vadd f_fixed_global fef)) ls acc =
  Return (fold_left (fun acc l => vadd acc (loadForces nodes m l)) ls acc).
Proof.
  intros Hok. revert acc. induction ls as [|l ls IH]; intros acc; cbn [forEachM fold_left].
  - reflexivity.
  - rewrite memberOk_forces by assumption. cbn [bind]. apply IH.
Qed.

Lemma memberEndForces_ok (nodes : list Node) (loads : list Load) (d : Column) (m : Member) :
  memberOk nodes m ->
  memberEndForces nodes loads (initializeDOF nodes) d m =
  Return (memberDisplacements nodes d m, endForces nodes loads d m).
Proof.
  intros Hok.
  destruct (memberOk_dofs nodes m Hok)
    as [sN [eN [i [j [Hs [He [_ [Hi [Hj [_ [_ [Hd _]]]]]]]]]]]].
  unfold memberEndForces. rewrite Hs, He. cbn [defined bind].
  pose proof (findNode_some _ _ _ Hs) as [_ Hids].
  pose proof (findNode_some _ _ _ He) as [_ Hide].
  rewrite Hids, Hide, !dofMap_get, Hi, Hj by apply isKind_x.
  cbn [option_map defined bind].
  rewrite <- Hs, <- He.
  rewrite (fixedForces_fold nodes m) by assumption. cbn [bind].
  rewrite memberOk_stiffness by assumption. cbn [bind].
  unfold endForces, memberDisplacements, fixedForces, loadsOn. rewrite Hd.
  unfold nodeDofs. cbn [map kindOffset String.eqb Ascii.eqb Bool.eqb].
  replace (i * 3 + 0 + 1)%nat with (i * 3 + 1)%nat by lia.
  replace (i * 3 + 0 + 2)%nat with (i * 3 + 2)%nat by lia.
  replace (j * 3 + 0 + 1)%nat with (j * 3 + 1)%nat by lia.
  replace (j * 3 + 0 + 2)%nat with (j * 3 + 2)%nat by lia.
  reflexivity.
Qed.

Lemma reactionSum_fold (nodes : list Node) (loads : list Load) (d : Column)
    (node : Node) (ms : list Member) (acc : R * R * R) :
  Forall (memberOk nodes) ms ->
  forEachM
    (fun (acc : R * R * R) member =>
       let '(Rx, Ry, Mz) := acc in
       fg <- memberEndForces nodes loads (initializeDOF nodes) d member ;;
       let f_global := snd fg in
       if String.eqb (startNodeId member) (node_id node) then
         Return (Rx + vget f_global 0, Ry + vget f_global 1, Mz + vget f_global 2)
       else
         Return (Rx + vget f_global 3, Ry + vget f_global 4, Mz + vget f_global 5))
    ms acc =
  Return
    (fold_left
       (fun (acc : R * R * R) m =>
          let '(Rx, Ry, Mz) := acc in
          let f_global := endForces nodes loads d m in
          if String.eqb (startNodeId m) (node_id node) then
            (Rx + vget f_global 0, Ry + vget f_global 1, Mz + vget f_global 2)
          else
            (Rx + vget f_global 3, Ry + vget f_global 4, Mz + vget f_global 5))
       ms acc).
Proof.
  intros H. revert acc. induction H as [|m ms Hm _ IH]; intros acc; cbn [forEachM fold_left].
  - reflexivity.
  - destruct acc as [[Rx Ry] Mz]. rewrite memberEndForces_ok by assumption.
    cbn [bind snd].
    destruct (String.eqb (startNodeId m) (node_id node)); cbn [bind]; apply IH.
Qed.

Lemma supportReaction_ok (nodes : list Node) (members : list Member) (loads : list Load)
    (d : Column) (t : table Reaction) (s : Support) :
  Forall (memberOk nodes) members ->
  supportReaction nodes members loads (initializeDOF nodes) d t s =
  Return
    match findNode nodes (nodeId s) with
    | None => t
    | Some node => table_set (node_id node) (reactionOf nodes members loads d node) t
    end.
Proof.
  intros Hms. unfold supportReaction.
  destruct (findNode nodes (nodeId s)) as [node|]; [ | reflexivity ].
  rewrite reactionSum_fold.
  - cbn [bind]. unfold reactionOf, reactionSum, connectedMembers.
    destruct (fold_left _ _ _) as [[Rx Ry] Mz]. reflexivity.
  - apply Forall_forall. intros m Hm. apply filter_In in Hm.
    rewrite Forall_forall in Hms. now apply Hms.
Qed.

Lemma reactions_fold (nodes : list Node) (members : list Member) (loads : list Load)
    (d : Column) (supports : list Support) (t : table Reaction) :
  Forall (memberOk nodes) members ->
  forEachM (supportReaction nodes members loads (initializeDOF nodes) d) supports t =
  Return (reactionTable nodes members supports loads d t).
Proof.
  intros Hms. revert t. induction supports as [|s supports IH]; intros t;
    cbn [forEachM]; [ reflexivity | ].
  rewrite supportReaction_ok by assumption. cbn [bind]. rewrite IH. reflexivity.
Qed.

(** ** Member forces and diagrams of a returned result *)

Lemma memberResults_value (nodes : list Node) (loads : list Load) (d : Column)
    (acc : table MemberForce * table Diagram) (m : Member) :
  memberOk nodes m ->
  memberResults nodes loads (initializeDOF nodes) d acc m =
  Return (table_set (member_id m) (fst (memberResultOf nodes loads d m)) (fst acc),
          table_set (member_id m) (snd (memberResultOf nodes loads d m)) (snd acc)).
Proof.
  intros Hok. unfold memberResults, memberResultOf. destruct acc as [mf dg].
  rewrite memberEndForces_ok by assumption. cbn [bind].
  destruct Hok as [sN [eN [Hs [He _]]]]. rewrite Hs, He. cbn [defined bind fst snd].
  reflexivity.
Qed.

Lemma memberTables_fold (nodes : list Node) (members : list Member) (loads : list Load)
    (d : Column) (acc : table MemberForce * table Diagram) :
  Forall (memberOk nodes) members ->
  forEachM (memberResults nodes loads (initializeDOF nodes) d) members acc =
  Return (memberTables nodes members loads d acc).
Proof.
  intros H. revert acc. unfold memberTables.
  induction H as [|m members Hm _ IH]; intros acc; cbn [forEachM fold_left].
  - reflexivity.
  - rewrite memberResults_value by assumption. cbn [bind]. apply IH.
Qed.

Lemma calculateResults_value (nodes : list Node) (members : list Member)
    (supports : list Support) (loads : list Load) (d : Column) :
  Forall (memberOk nodes) members ->
  calculateResults nodes members supports loads (initializeDOF nodes) d =
  Return {| nodeDisplacements := displacementTable nodes d;
            memberForces := fst (memberTables nodes members loads d ([], []));
            diagrams := snd (memberTables nodes members loads d ([], []));
            reactions := Some (reactionTable nodes members supports loads d []) |}.
Proof.
  intros Hms. unfold calculateResults.
  rewrite memberTables_fold by assumption. cbn [bind].
  destruct (memberTables nodes members loads d ([], [])) as [mf dg].
  rewrite reactions_fold by assumption. reflexivity.
Qed.

Lemma calculateResults_ok (nodes : list Node) (members : list Member)
    (supports : list Support) (loads : list Load) (d : Column) :
  Forall (memberOk nodes) members ->
  exists mf dg,
    calculateResults nodes members supports loads (initializeDOF nodes) d =
    Return {| nodeDisplacements := displacementTable nodes d;
              memberForces := mf;
              diagrams := dg;
              reactions := Some (reactionTable nodes members supports loads d []) |}.
Proof.
  intros Hms. rewrite calculateResults_value by assumption.
  eexists. eexists. reflexivity.
Qed.

(** ** Case analysis of [solve] *)

Section SolveCases.

Variable inv : matrix -> option matrix.

Lemma solve_members_bad (nodes : list Node) (members : list Member)
    (supports : list Support) (loads : list Load) :
  nodes <> [] -> ~ Forall (memberOk nodes) members ->
  exists e, solve inv nodes members supports loads = Throw e /\ isConfigurationFault e.
Proof.
  intros Hn Hbad. destruct nodes as [|n ns]; [ contradiction | ].
  destruct (assembleK_bad (n :: ns) members zeros2 Hbad) as [e [He Hc]].
  exists e. split; [ | exact Hc ]. unfold solve, assembleK. now rewrite He.
Qed.

Lemma solve_loads_bad (nodes : list Node) (members : list Member)
    (supports : list Support) (loads : list Load) :
  nodes <> [] -> Forall (memberOk nodes) members -> ~ Forall (loadOk members) loads ->
  solve inv nodes members supports loads = Throw TypeError.
Proof.
  intros Hn Hms Hbad. destruct nodes as [|n ns]; [ contradiction | ].
  unfold solve, assembleK, assembleF.
  rewrite assembleK_ok by assumption. cbn [bind].
  now rewrite assembleF_bad.
Qed.

Lemma solve_accepted (nodes : list Node) (members : list Member)
    (supports : list Support) (loads : list Load) :
  nodes <> [] -> Forall (memberOk nodes) members -> Forall (loadOk members) loads ->
  solve inv nodes members supports loads =
  (d_global <-
     solveDisplacements inv
       (stabilize (totalDOF nodes) (assembledK nodes members zeros2))
       (assembledF nodes members loads zeros1)
       (finalFreeDOFs nodes (initializeDOF nodes) supports) ;;
   calculateResults nodes members supports loads (initializeDOF nodes) d_global).
Proof.
  intros Hn Hms Hls. destruct nodes as [|n ns]; [ contradiction | ].
  unfold solve, assembleK, assembleF.
  rewrite assembleK_ok by assumption. cbn [bind].
  rewrite assembleF_ok by assumption. cbn [bind]. reflexivity.
Qed.

Lemma solve_return (nodes : list Node) (members : list Member)
    (supports : list Support) (loads : list Load) (r : AnalysisResult) :
  nodes <> [] ->
  solve inv nodes members supports loads = Return r ->
  Forall (memberOk nodes) members /\ Forall (loadOk members) loads /\
  exists d,
    solveDisplacements inv
      (stabilize (totalDOF nodes) (assembledK nodes members zeros2))
      (assembledF nodes members loads zeros1)
      (finalFreeDOFs nodes (initializeDOF nodes) supports) = Return d /\
    nodeDisplacements r = displacementTable nodes d /\
    reactions r = Some (reactionTable nodes members supports loads d []).
Proof.
  intros Hn H.
  destruct (members_cases nodes members) as [Hms | Hbad].
  2:{ destruct (solve_members_bad nodes members supports loads Hn Hbad) as [e [He _]].
      congruence. }
  destruct (loads_cases members loads) as [Hls | Hbad].
  2:{ rewrite solve_loads_bad in H by assumption. discriminate. }
  split; [ exact Hms | ]. split; [ exact Hls | ].
  rewrite solve_accepted in H by assumption.
  destruct (solveDisplacements _ _ _ _) as [d|e]; [ | discriminate ].
  cbn [bind] in H. exists d. split; [ reflexivity | ].
  destruct (calculateResults_ok nodes members supports loads d Hms) as [mf [dg Hc]].
  rewrite Hc in H. injection H as <-. split; reflexivity.
Qed.

End SolveCases.

(** ** The small inverse meets the contract *)

Lemma inv_small_contract : invContract inv_small.
Proof.
  intros M N H. unfold inv_small in H.
  repeat match type of H with
         | match ?x with _ => _ end = Some _ => destruct x; try discriminate
         end;
    injection H as <-; unfold isInverseOf; cbn [List.length];
    (split; [ reflexivity | ]); (split; [ repeat constructor | ]);
    intros i k Hi Hk.
  - destruct i as [|i]; [ | lia ]. destruct k as [|k]; [ | lia ].
    cbn. field. assumption.
  - do 2 (destruct i as [|i]; [ do 2 (destruct k as [|k]; [ cbn; field; assumption | ]); lia | ]).
    lia.
  - do 3 (destruct i as [|i]; [ do 3 (destruct k as [|k]; [ cbn; field; assumption | ]); lia | ]).
    lia.
Qed.

(** ** The singularity error is not a configuration error *)


(** ** The worked cantilever *)

Lemma ex_unit_length : memberLength ex_left ex_right = 1.
Proof.
  unfold memberLength, ex_left, ex_right. cbn [node_x node_y].
  replace ((1 - 0) * (1 - 0) + (0 - 0) * (0 - 0)) with 1 by lra.
  apply sqrt_1.
Qed.

Lemma ex_nodes_nonempty : ex_nodes <> [].
Proof. discriminate. Qed.

Lemma ex_members_ok : Forall (memberOk ex_nodes) ex_members.
Proof.
  constructor; [ | constructor ].
  exists ex_left, ex_right. split; [ reflexivity | ]. split; [ reflexivity | ].
  rewrite ex_unit_length. lra.
Qed.

Lemma ex_loads_ok : Forall (loadOk ex_members) ex_loads.
Proof. constructor; [ discriminate | constructor ]. Qed.

Lemma ex_members_unique : NoDup (map member_id ex_members).
Proof. constructor; [ intros [] | constructor ]. Qed.

Lemma ex_stiffness (i j : nat) :
  (i < 6)%nat -> (j < 6)%nat ->
  mget (memberStiffness ex_nodes ex_cantilever) i j = mget beamMatrix i j.
Proof.
  intros Hi Hj. unfold memberStiffness.
  change (findNode ex_nodes (startNodeId ex_cantilever)) with (Some ex_left).
  change (findNode ex_nodes (endNodeId ex_cantilever)) with (Some ex_right).
  unfold getMemberGlobalStiffnessMatrix.
  change (sqrt _) with (memberLength ex_left ex_right). rewrite ex_unit_length.
  destruct (Req_dec_T 1 0) as [H | _]; [ lra | ]. cbn [value].
  rewrite global_stiffness_entries by assumption.
  unfold referenceGlobalStiffness, sum6.
  do 6 (destruct i as [|i]; [ do 6 (destruct j as [|j]; [ cbn; field | ]); lia | ]). lia.
Qed.

Lemma ex_K (r c : nat) :
  (r < 6)%nat -> (c < 6)%nat ->
  assembledK ex_nodes ex_members zeros2 r c = mget beamMatrix r c.
Proof.
  intros Hr Hc. unfold assembledK, ex_members. cbn [fold_left].
  rewrite addStiffness_spec.
  change (memberDofs ex_nodes ex_cantilever) with (nodeDofs 0 1).
  unfold zeros2, sum6. cbn [seq map]. rewrite !Rsum_cons, !Rsum_nil.
  do 6 (destruct r as [|r];
        [ do 6 (destruct c as [|c];
                [ cbn [nodeDofs nth Nat.eqb Nat.mul Nat.add andb];
                  rewrite ?ex_stiffness by lia; cbn [beamMatrix mget nth]; lra | ]);
          lia | ]).
  lia.
Qed.

(** No diagonal entry of the cantilever is small: the regularisation leaves
    its stiffness matrix as assembled. *)
Lemma ex_stabilized (r c : nat) :
  (r < 6)%nat -> (c < 6)%nat ->
  stabilize (totalDOF ex_nodes) (assembledK ex_nodes ex_members zeros2) r c =
  mget beamMatrix r c.
Proof.
  intros Hr Hc. rewrite stabilize_spec, !ex_K by assumption.
  assert (Hbig : forall x, 1 <= x -> (if Rlt_dec (Rabs x) 1e-9 then true else false) = false).
  { intros x Hx. rewrite Rabs_pos_eq by lra. destruct (Rlt_dec x 1e-9); [ lra | reflexivity ]. }
  destruct (Nat.eqb_spec r c) as [<- | _]; cbn [andb]; [ | reflexivity ].
  do 6 (destruct r as [|r];
        [ cbn [beamMatrix mget nth]; rewrite Hbig by lra; now rewrite andb_false_r | ]).
  lia.
Qed.

Lemma ex_free : finalFreeDOFs ex_nodes (initializeDOF ex_nodes) ex_supports = [3; 4; 5]%nat.
Proof. reflexivity. Qed.

Lemma ex_Kff :
  subset2 (stabilize (totalDOF ex_nodes) (assembledK ex_nodes ex_members zeros2))
    [3; 4; 5]%nat [3; 4; 5]%nat =
  [ [1; 0; 0]; [0; 12; -6]; [0; -6; 4] ].
Proof. unfold subset2. cbn [map]. rewrite !ex_stabilized by lia. reflexivity. Qed.

(** The cantilever is solvable: its free-free matrix has determinant 12. *)
Lemma ex_solve_returns :
  exists r, solve inv_small ex_nodes ex_members ex_supports ex_loads = Return r.
Proof.
  rewrite solve_accepted by (discriminate || apply ex_members_ok || apply ex_loads_ok).
  rewrite ex_free. unfold solveDisplacements. rewrite ex_Kff. unfold inv_small.
  destruct (Req_dec_T _ 0) as [H0 | _]; [ lra | ].
  cbn [bind].
  edestruct (calculateResults_ok ex_nodes ex_members ex_supports ex_loads)
    as [mf [dg Hc]]; [ apply ex_members_ok | ].
  eexists. exact Hc.
Qed.

(** ** Boundary conditions *)

Lemma includes_spec (l : list (option nat)) (dof : nat) :
  includes l dof = true <-> In (Some dof) l.
Proof.
  unfold includes. rewrite existsb_exists. split.
  - intros [[k|] [Hin Hk]]; [ | discriminate ]. apply Nat.eqb_eq in Hk. now subst.
  - intros Hin. exists (Some dof). split; [ exact Hin | apply Nat.eqb_refl ].
Qed.

Lemma constrainedDOFs_in (dofMap : table nat) (supports : list Support) (o : option nat) :
  In o (constrainedDOFs dofMap supports) <->
  exists s, In s supports /\ In o (supportConstraints dofMap s).
Proof. unfold constrainedDOFs. apply in_flat_map. Qed.

Lemma finalFreeDOFs_in (nodes : list Node) (dofMap : table nat)
    (supports : list Support) (dof : nat) :
  In dof (finalFreeDOFs nodes dofMap supports) <->
  (dof < totalDOF nodes)%nat /\
  ~ exists s, In s supports /\ In (Some dof) (supportConstraints dofMap s).
Proof.
  unfold finalFreeDOFs. rewrite filter_In, in_seq, negb_true_iff.
  rewrite <- constrainedDOFs_in, <- includes_spec.
  split; intros [H1 H2]; (split; [ lia | ]).
  - now rewrite H2.
  - now apply not_true_is_false.
Qed.

Lemma finalFreeDOFs_NoDup (nodes : list Node) (dofMap : table nat)
    (supports : list Support) :
  NoDup (finalFreeDOFs nodes dofMap supports).
Proof. apply NoDup_filter, seq_NoDup. Qed.

Lemma supportConstraints_indexed (nodes : list Node) (s : Support) (k : nat) :
  nodeIndex nodes (nodeId s) = Some k ->
  supportConstraints (initializeDOF nodes) s =
  match type s with
  | pin => [Some (k * 3 + 0)%nat; Some (k * 3 + 1)%nat]
  | fixed => [Some (k * 3 + 0)%nat; Some (k * 3 + 1)%nat; Some (k * 3 + 2)%nat]
  | roller => [Some (k * 3 + 1)%nat]
  end.
Proof.
  intros Hk. unfold supportConstraints.
  rewrite !dofMap_get, Hk by (apply isKind_x || apply isKind_y || apply isKind_r).
  destruct (type s); reflexivity.
Qed.

Lemma supportConstraints_unresolved (nodes : list Node) (s : Support) (o : option nat) :
  findNode nodes (nodeId s) = None ->
  In o (supportConstraints (initializeDOF nodes) s) -> o = None.
Proof.
  intros Hn. apply (lastIndexFrom_none _ _ 0%nat) in Hn. fold (nodeIndex nodes (nodeId s)) in Hn.
  unfold supportConstraints.
  rewrite !dofMap_get, Hn by (apply isKind_x || apply isKind_y || apply isKind_r).
  destruct (type s); cbn; intuition.
Qed.

Lemma displacement_fold_get (d : Column) (id : string) (nodes : list Node) (start : nat)
    (t : table Displacement) :
  table_get id
    (fold_left
       (fun t (entry : nat * Node) =>
          let (i, node) := entry in
          table_set (node_id node)
            {| disp_dx := d (i * 3)%nat;
               disp_dy := d (i * 3 + 1)%nat;
               rotation := d (i * 3 + 2)%nat |} t)
       (combine (seq start (List.length nodes)) nodes) t) =
  match lastIndexFrom id nodes start with
  | Some k => Some {| disp_dx := d (k * 3)%nat;
                      disp_dy := d (k * 3 + 1)%nat;
                      rotation := d (k * 3 + 2)%nat |}
  | None => table_get id t
  end.
Proof.
  revert start t. induction nodes as [|n ns IH]; intros start t; cbn; [ reflexivity | ].
  rewrite IH. destruct (lastIndexFrom id ns (S start)); [ reflexivity | ].
  destruct (String.eqb_spec (node_id n) id) as [<- | Hne].
  - apply table_get_set_same.
  - apply table_get_set_other. congruence.
Qed.

Lemma displacementTable_get (nodes : list Node) (d : Column) (id : string) :
  table_get id (displacementTable nodes d) =
  option_map
    (fun k => {| disp_dx := d (k * 3)%nat;
                 disp_dy := d (k * 3 + 1)%nat;
                 rotation := d (k * 3 + 2)%nat |})
    (nodeIndex nodes id).
Proof.
  unfold displacementTable, nodeIndex. rewrite displacement_fold_get.
  destruct (lastIndexFrom id nodes 0); reflexivity.
Qed.

Section Boundary.

Variable inv : matrix -> option matrix.

Lemma solveDisplacements_outside (K : Matrix) (F : Column) (free : list nat)
    (d : Column) (c : nat) :
  solveDisplacements inv K F free = Return d -> ~ In c free -> d c = 0.
Proof.
  unfold solveDisplacements. intros H Hc. destruct free as [|f0 free'].
  - injection H as <-. reflexivity.
  - destruct (inv _); [ | discriminate ]. injection H as <-.
    now rewrite scatter_outside.
Qed.

(** C8.  The constrained unknowns of a support depend on its type and node
    only: pin gives the two translations, fixed all three unknowns, roller
    the vertical translation, whatever the angle; the free set is every
    other index below 3N; and a returned result has zero displacement at
    every constrained unknown. *)
Theorem C8_boundary_conditions (nodes : list Node) (members : list Member)
    (supports : list Support) (loads : list Load) :
  let dofMap := initializeDOF nodes in
  (forall s k, nodeIndex nodes (nodeId s) = Some k ->
     supportConstraints dofMap s =
     match type s with
     | pin => [Some (k * 3 + 0)%nat; Some (k * 3 + 1)%nat]
     | fixed => [Some (k * 3 + 0)%nat; Some (k * 3 + 1)%nat; Some (k * 3 + 2)%nat]
     | roller => [Some (k * 3 + 1)%nat]
     end) /\
  (forall s a, supportConstraints dofMap (mkSupport (support_id s) (nodeId s) (type s) a) =
               supportConstraints dofMap s) /\
  (forall dof, In dof (finalFreeDOFs nodes dofMap supports) <->
     (dof < totalDOF nodes)%nat /\
     ~ exists s, In s supports /\ In (Some dof) (supportConstraints dofMap s)) /\
  (forall r, solve inv nodes members supports loads = Return r ->
     forall s disp, In s supports ->
       table_get (nodeId s) (nodeDisplacements r) = Some disp ->
       match type s with
       | pin => disp_dx disp = 0 /\ disp_dy disp = 0
       | fixed => disp_dx disp = 0 /\ disp_dy disp = 0 /\ rotation disp = 0
       | roller => disp_dy disp = 0
       end).
Proof.
  intros dofMap. split; [ | split; [ | split ] ].
  - intros s k. apply supportConstraints_indexed.
  - intros s a. reflexivity.
  - intros dof. apply finalFreeDOFs_in.
  - intros r Hr s disp Hs Hget.
    destruct nodes as [|n ns].
    { cbn in Hr. injection Hr as <-. discriminate Hget. }
    assert (Hn : n :: ns <> []) by discriminate.
    destruct (solve_return inv _ _ _ _ r Hn Hr) as [_ [_ [d [Hd [Hdisp _]]]]].
    rewrite Hdisp, displacementTable_get in Hget.
    destruct (nodeIndex (n :: ns) (nodeId s)) as [k|] eqn:Hk; [ | discriminate ].
    injection Hget as <-. cbn [disp_dx disp_dy rotation].
    pose proof (supportConstraints_indexed (n :: ns) s k Hk) as Hc.
    assert (Hzero : forall off,
      In (Some (k * 3 + off)%nat) (supportConstraints (initializeDOF (n :: ns)) s) ->
      d (k * 3 + off)%nat = 0).
    { intros off Hin. apply (solveDisplacements_outside _ _ _ _ _ Hd).
      intros Hfree. apply finalFreeDOFs_in in Hfree. destruct Hfree as [_ Hfree].
      apply Hfree. exists s. split; assumption. }
    rewrite Hc in Hzero.
    pose proof (Hzero 0%nat) as H0. pose proof (Hzero 1%nat) as H1.
    pose proof (Hzero 2%nat) as H2. rewrite Nat.add_0_r in H0.
    destruct (type s); repeat split; (apply H0 || apply H1 || apply H2); cbn; auto.
Qed.

End Boundary.

Lemma C8_boundary_conditions_witness :
  exists r disp,
    solve inv_small ex_nodes ex_members ex_supports ex_loads = Return r /\
    table_get "n2" (nodeDisplacements r) = Some disp /\
    disp_dx disp = 0 /\ disp_dy disp = 0 /\ rotation disp = 0.
Proof.
  destruct ex_solve_returns as [r Hr].
  destruct (C8_boundary_conditions inv_small ex_nodes ex_members ex_supports ex_loads)
    as [_ [_ [_ H]]].
  destruct (solve_return inv_small ex_nodes ex_members ex_supports ex_loads r
              ex_nodes_nonempty Hr) as [_ [_ [d [_ [Hdisp _]]]]].
  exists r. eexists. split; [ exact Hr | ]. split.
  - rewrite Hdisp, displacementTable_get. reflexivity.
  - apply (H r Hr (mkSupport "s1" "n2" fixed 30)).
    + left. reflexivity.
    + rewrite Hdisp, displacementTable_get. reflexivity.
Defined.

(** ** Unresolved references *)

Lemma includes_app (l1 l2 : list (option nat)) (dof : nat) :
  includes (l1 ++ l2) dof = includes l1 dof || includes l2 dof.
Proof. apply existsb_app. Qed.

Lemma includes_unresolved (nodes : list Node) (s : Support) (dof : nat) :
  findNode nodes (nodeId s) = None ->
  includes (supportConstraints (initializeDOF nodes) s) dof = false.
Proof.
  intros Hn. apply not_true_is_false. intros H. apply includes_spec in H.
  apply (supportConstraints_unresolved nodes s _ Hn) in H. discriminate.
Qed.

Lemma includes_resolved_supports (nodes : list Node) (supports : list Support) (dof : nat) :
  includes (constrainedDOFs (initializeDOF nodes) (filter (supportResolved nodes) supports)) dof =
  includes (constrainedDOFs (initializeDOF nodes) supports) dof.
Proof.
  unfold constrainedDOFs.
  induction supports as [|s supports IH]; cbn [filter flat_map]; [ reflexivity | ].
  rewrite includes_app, <- IH. unfold supportResolved at 1.
  destruct (findNode nodes (nodeId s)) eqn:Hs; cbn [flat_map].
  - now rewrite includes_app.
  - now rewrite includes_unresolved.
Qed.

Lemma finalFreeDOFs_resolved_supports (nodes : list Node) (supports : list Support) :
  finalFreeDOFs nodes (initializeDOF nodes) (filter (supportResolved nodes) supports) =
  finalFreeDOFs nodes (initializeDOF nodes) supports.
Proof.
  unfold finalFreeDOFs. apply filter_ext. intros dof.
  now rewrite includes_resolved_supports.
Qed.

Lemma supportReaction_unresolved (nodes : list Node) (members : list Member)
    (loads : list Load) (dofMap : table nat) (d : Column) (t : table Reaction) (s : Support) :
  findNode nodes (nodeId s) = None ->
  supportReaction nodes members loads dofMap d t s = Return t.
Proof. intros Hs. unfold supportReaction. now rewrite Hs. Qed.

Lemma reactions_resolved_supports (nodes : list Node) (members : list Member)
    (loads : list Load) (dofMap : table nat) (d : Column) (supports : list Support)
    (t : table Reaction) :
  forEachM (supportReaction nodes members loads dofMap d)
    (filter (supportResolved nodes) supports) t =
  forEachM (supportReaction nodes members loads dofMap d) supports t.
Proof.
  revert t. induction supports as [|s supports IH]; intros t; cbn [filter forEachM];
    [ reflexivity | ].
  unfold supportResolved at 1.
  destruct (findNode nodes (nodeId s)) as [node|] eqn:Hs.
  - cbn [forEachM].
    destruct (supportReaction nodes members loads dofMap d t s) as [t'|e];
      cbn [bind]; [ apply IH | reflexivity ].
  - rewrite (supportReaction_unresolved _ _ _ _ _ _ _ Hs). cbn [bind]. apply IH.
Qed.

Section Unresolved.

Variable inv : matrix -> option matrix.

Lemma solve_resolved_supports (nodes : list Node) (members : list Member)
    (supports : list Support) (loads : list Load) :
  solve inv nodes members (filter (supportResolved nodes) supports) loads =
  solve inv nodes members supports loads.
Proof.
  unfold solve. destruct nodes as [|n ns]; [ reflexivity | ].
  rewrite finalFreeDOFs_resolved_supports.
  destruct (assembleK _ _ _) as [K|e]; [ | reflexivity ]. cbn [bind].
  destruct (assembleF _ _ _ _) as [F|e]; [ | reflexivity ]. cbn [bind].
  destruct (solveDisplacements _ _ _ _) as [d|e]; [ | reflexivity ]. cbn [bind].
  unfold calculateResults.
  destruct (forEachM (memberResults _ _ _ _) _ _) as [[mf dg]|e]; [ | reflexivity ].
  cbn [bind]. now rewrite reactions_resolved_supports.
Qed.

(** C4, as the code has it.  With at least one node, a member whose node
    reference does not resolve, or whose two nodes coincide, makes [solve]
    throw a configuration error and return no result.  A support whose node
    does not resolve is skipped: the outcome is that of the input without
    it.  (Without nodes [solve] returns before it looks at any member.) *)
Theorem C4_unresolved_references (nodes : list Node) (members : list Member)
    (supports : list Support) (loads : list Load) :
  (nodes <> [] -> ~ Forall (memberOk nodes) members ->
     exists e, solve inv nodes members supports loads = Throw e /\
               isConfigurationFault e /\
               forall r, solve inv nodes members supports loads <> Return r) /\
  solve inv nodes members supports loads =
  solve inv nodes members (filter (supportResolved nodes) supports) loads.
Proof.
  split.
  - intros Hn Hbad.
    destruct (solve_members_bad inv nodes members supports loads Hn Hbad) as [e [He Hc]].
    exists e. split; [ exact He | ]. split; [ exact Hc | ].
    intros r. rewrite He. discriminate.
  - symmetry. apply solve_resolved_supports.
Qed.

End Unresolved.

(** C4 as stated fails twice.  The second support names a node that does
    not exist, and [solve] returns a result; and without nodes [solve]
    returns the empty result although the member's nodes do not resolve. *)
Lemma C4_unresolved_reference_not_reported :
  ((exists s, In s ex_ghost_supports /\ findNode ex_ghost_nodes (nodeId s) = None) /\
   exists r, solve inv_small ex_ghost_nodes [] ex_ghost_supports [] = Return r) /\
  (findNode [] (startNodeId ex_cantilever) = None /\
   exists r, solve inv_small [] [ex_cantilever] [] [] = Return r).
Proof.
  split; split.
  - exists (mkSupport "s2" "ghost" pin 0). split; [ right; left; reflexivity | reflexivity ].
  - rewrite solve_accepted by (discriminate || constructor).
    change (finalFreeDOFs ex_ghost_nodes (initializeDOF ex_ghost_nodes) ex_ghost_supports)
      with (@nil nat).
    cbn [solveDisplacements bind].
    edestruct (calculateResults_ok ex_ghost_nodes [] ex_ghost_supports [])
      as [mf [dg Hc]]; [ constructor | ].
    eexists. exact Hc.
  - reflexivity.
  - eexists. reflexivity.
Qed.

Lemma C4_unresolved_references_witness :
  (exists e, solve inv_small ex_ghost_nodes [ex_cantilever] [] [] = Throw e /\
             isConfigurationFault e) /\
  solve inv_small ex_ghost_nodes [] ex_ghost_supports [] =
  solve inv_small ex_ghost_nodes [] [mkSupport "s1" "n2" fixed 0] [].
Proof.
  split.
  - destruct (proj1 (C4_unresolved_references inv_small ex_ghost_nodes [ex_cantilever] [] []))
      as [e [He [Hc _]]].
    + discriminate.
    + intros H. inversion H as [|m ms [sN [eN [_ [He _]]]] _]. discriminate He.
    + exists e. split; [ exact He | exact Hc ].
  - exact (proj2 (C4_unresolved_references inv_small ex_ghost_nodes [] ex_ghost_supports [])).
Defined.

(** ** Load positions outside the member *)

Lemma movedLoads_loadOk (q : Load -> R) (members : list Member) (loads : list Load) :
  Forall (loadOk members) (movedLoads q loads) <-> Forall (loadOk members) loads.
Proof.
  unfold movedLoads. rewrite Forall_map. unfold loadOk. cbn [memberId]. tauto.
Qed.

Lemma memberLength_nonneg (startNode endNode : Node) : 0 <= memberLength startNode endNode.
Proof. apply sqrt_pos. Qed.

Lemma grid_point_range (L : R) (i : nat) :
  0 <= L -> (i <= numPoints)%nat ->
  0 <= (INR i / INR numPoints) * L <= L.
Proof.
  intros HL Hi.
  assert (H0 : 0 <= INR i) by apply pos_INR.
  assert (H1 : INR i <= INR numPoints) by now apply le_INR.
  assert (H50 : 0 < INR numPoints) by (apply lt_0_INR; unfold numPoints; lia).
  assert (Hr : 0 <= INR i / INR numPoints <= 1).
  { split.
    - apply Rmult_le_pos; [ exact H0 | ]. left. now apply Rinv_0_lt_compat.
    - apply (Rmult_le_reg_r (INR numPoints)); [ exact H50 | ].
      unfold Rdiv. rewrite Rmult_assoc, Rinv_l by lra. lra. }
  nra.
Qed.

Lemma sortedPoints_range (loads : list Load) (member : Member) (L x : R) :
  0 <= L -> In x (sortedPoints loads member L) -> 0 <= x <= L.
Proof.
  intros HL Hx. apply sortedPoints_in in Hx.
  destruct Hx as [[i [Hi ->]] | [ld [_ [-> Hr]]]].
  - now apply grid_point_range.
  - exact Hr.
Qed.

Section OutOfRange.

Variable inv : matrix -> option matrix.

Lemma solveDisplacements_fault (K : Matrix) (F F' : Column) (free : list nat) :
  fault (solveDisplacements inv K F free) = fault (solveDisplacements inv K F' free).
Proof.
  unfold solveDisplacements. destruct free; [ reflexivity | ].
  destruct (inv _); reflexivity.
Qed.

Lemma solve_fault_moved (q : Load -> R) (nodes : list Node) (members : list Member)
    (supports : list Support) (loads : list Load) :
  fault (solve inv nodes members supports (movedLoads q loads)) =
  fault (solve inv nodes members supports loads).
Proof.
  destruct nodes as [|n ns]; [ reflexivity | ].
  assert (Hn : n :: ns <> []) by discriminate.
  destruct (members_cases (n :: ns) members) as [Hms | Hbad].
  2:{ unfold solve. destruct (assembleK_bad (n :: ns) members zeros2 Hbad) as [e [He _]].
      unfold assembleK. now rewrite He. }
  destruct (loads_cases members loads) as [Hls | Hbad].
  2:{ rewrite !solve_loads_bad; try assumption; [ reflexivity | ].
      now rewrite movedLoads_loadOk. }
  rewrite !solve_accepted; try assumption; [ | now apply movedLoads_loadOk ].
  set (K := stabilize _ _). set (free := finalFreeDOFs _ _ _).
  pose proof (solveDisplacements_fault K
                (assembledF (n :: ns) members (movedLoads q loads) zeros1)
                (assembledF (n :: ns) members loads zeros1) free) as Hf.
  destruct (solveDisplacements inv K (assembledF (n :: ns) members (movedLoads q loads) zeros1) free)
    as [d|e];
    destruct (solveDisplacements inv K (assembledF (n :: ns) members loads zeros1) free)
    as [d'|e']; cbn [fault] in Hf; try discriminate; cbn [bind].
  - destruct (calculateResults_ok (n :: ns) members supports (movedLoads q loads) d Hms)
      as [mf [dg ->]].
    destruct (calculateResults_ok (n :: ns) members supports loads d' Hms)
      as [mf' [dg' ->]].
    reflexivity.
  - exact Hf.
Qed.

End OutOfRange.

(** ** The solved displacements satisfy the free rows of the system *)

Lemma dot_nth (u v : vector) :
  List.length u = List.length v ->
  dot u v = Rsum (map (fun k => vget u k * vget v k) (seq 0 (List.length u))).
Proof.
  unfold dot, vget. revert v. induction u as [|x u IH]; intros [|y v] Hlen;
    cbn [List.length] in Hlen; try discriminate; cbn [combine map List.length seq].
  - reflexivity.
  - rewrite !Rsum_cons. cbn [fst snd nth]. f_equal.
    rewrite IH by lia. rewrite <- seq_shift, map_map. reflexivity.
Qed.

Lemma vget_map {X} (f : X -> R) (l : list X) (d : X) (i : nat) :
  (i < List.length l)%nat -> vget (map f l) i = f (nth i l d).
Proof.
  intros Hi. unfold vget. rewrite (nth_indep _ 0 (f d)) by (now rewrite length_map).
  apply map_nth.
Qed.

Lemma mat_vec_entry (N : matrix) (v : vector) (i : nat) :
  (i < List.length N)%nat ->
  Forall (fun row => List.length row = List.length v) N ->
  vget (mat_vec N v) i =
  Rsum (map (fun k => mget N i k * vget v k) (seq 0 (List.length v))).
Proof.
  intros Hi Hrows. unfold mat_vec.
  rewrite (vget_map (fun row => dot row v) N [] i) by assumption.
  assert (Hlen : List.length (nth i N []) = List.length v).
  { rewrite Forall_forall in Hrows. apply Hrows. now apply nth_In. }
  cbv beta. rewrite dot_nth by assumption.
  match goal with |- context [seq 0 ?n] => replace n with (List.length v) by (symmetry; exact Hlen) end.
  reflexivity.
Qed.

Lemma subset2_entry (K : Matrix) (rows cols : list nat) (i j : nat) :
  (i < List.length rows)%nat -> (j < List.length cols)%nat ->
  mget (subset2 K rows cols) i j = K (nth i rows 0%nat) (nth j cols 0%nat).
Proof.
  intros Hi Hj. unfold mget, subset2.
  rewrite (nth_indep _ [] (map (fun j => K 0%nat j) cols)) by (now rewrite length_map).
  rewrite (map_nth (fun i => map (fun j => K i j) cols) rows 0%nat).
  rewrite (nth_indep _ 0 (K (nth i rows 0%nat) 0%nat)) by (now rewrite length_map).
  apply (map_nth (fun j => K (nth i rows 0%nat) j)).
Qed.

Lemma Rsum_restrict (p : nat -> bool) (h : nat -> R) (l : list nat) :
  (forall c, In c l -> p c = false -> h c = 0) ->
  Rsum (map h l) = Rsum (map h (filter p l)).
Proof.
  intros H. rewrite Rsum_filter. apply Rsum_map_ext.
  intros c Hc. destruct (p c) eqn:Hp; [ reflexivity | now apply H ].
Qed.

Lemma Rsum_delta (f : nat -> R) (a n : nat) :
  (a < n)%nat ->
  Rsum (map (fun k => (if (a =? k)%nat then 1 else 0) * f k) (seq 0 n)) = f a.
Proof.
  intros Ha.
  rewrite (Rsum_map_ext _ (fun k => if (k =? a)%nat then f k else 0)).
  - rewrite Rsum_pick. cbn [Nat.leb andb].
    destruct (Nat.ltb_spec a (0 + n)); [ reflexivity | lia ].
  - intros k _. rewrite (Nat.eqb_sym a k). destruct (k =? a)%nat eqn:E; [ | lra ].
    apply Nat.eqb_eq in E. subst. lra.
Qed.

Section FreeRows.

Variable inv : matrix -> option matrix.
Hypothesis inv_sound : invContract inv.

Lemma free_rows_solved (K : Matrix) (F : Column) (p : nat -> bool) (n : nat) (d : Column) :
  let free := filter p (seq 0 n) in
  solveDisplacements inv K F free = Return d ->
  forall r, In r free ->
    Rsum (map (fun c => K r c * d c) (seq 0 n)) = F r.
Proof.
  intros free Hd r Hr.
  assert (Hnd : NoDup free) by apply NoDup_filter, seq_NoDup.
  unfold solveDisplacements in Hd.
  destruct free as [|f0 free'] eqn:Hfree; [ contradiction | ]. rewrite <- Hfree in *.
  destruct (inv (subset2 K free free)) as [N|] eqn:HN; [ | discriminate ].
  injection Hd as <-.
  apply inv_sound in HN. destruct HN as [HlenN [Hrows Hinv]].
  unfold subset2 in HlenN, Hrows, Hinv. rewrite length_map in HlenN, Hrows, Hinv.
  fold (subset2 K free free) in Hinv.
  set (nf := List.length free) in *.
  set (d_f := mat_vec N (subset1 F free)).
  assert (Hdf : forall b, (b < nf)%nat ->
            vget d_f b = Rsum (map (fun k => mget N b k * F (nth k free 0%nat)) (seq 0 nf))).
  { intros b Hb. unfold d_f. rewrite mat_vec_entry.
    - unfold subset1. rewrite length_map. fold nf. apply Rsum_map_ext.
      intros k Hk. apply in_seq in Hk. f_equal. apply (vget_map F free 0%nat). lia.
    - lia.
    - unfold subset1. now rewrite length_map. }
  destruct (In_nth free r 0%nat Hr) as [a [Ha Hra]]. fold nf in Ha. subst r.
  rewrite (Rsum_restrict p).
  2:{ intros c Hc Hp. rewrite scatter_outside; [ unfold zeros1; lra | ].
      unfold free. rewrite filter_In. intros [_ H]. congruence. }
  fold free. rewrite (Rsum_map_nth 0%nat). fold nf.
  rewrite (Rsum_map_ext _
    (fun b => Rsum (map (fun k => mget (subset2 K free free) a b
                                   * (mget N b k * F (nth k free 0%nat))) (seq 0 nf)))).
  2:{ intros b Hb. apply in_seq in Hb.
      rewrite scatter_inside by (assumption || lia). rewrite Hdf by lia.
      rewrite subset2_entry by (fold nf; lia).
      symmetry. apply Rsum_map_scal_l. }
  rewrite Rsum_swap.
  rewrite (Rsum_map_ext _
    (fun k => (if (a =? k)%nat then 1 else 0) * F (nth k free 0%nat))).
  2:{ intros k Hk. apply in_seq in Hk. rewrite <- (Hinv a k) by lia.
      rewrite <- Rsum_map_scal_r. apply Rsum_map_ext. intros b _. ring. }
  now apply (Rsum_delta (fun k => F (nth k free 0%nat))).
Qed.

End FreeRows.

(** ** The assembled system, entry by entry *)

Lemma sum6_ext (f g : nat -> R) :
  (forall i, (i < 6)%nat -> f i = g i) -> sum6 f = sum6 g.
Proof.
  intros H. unfold sum6. apply Rsum_map_ext. intros i Hi. apply in_seq in Hi.
  apply H. lia.
Qed.

Lemma sum6_if (b : bool) (f : nat -> R) :
  sum6 (fun j => if b then f j else 0) = if b then sum6 f else 0.
Proof. destruct b; [ reflexivity | apply Rsum_map_zero ]. Qed.

Lemma assembledK_entry (nodes : list Node) (members : list Member) (K0 : Matrix) (r c : nat) :
  assembledK nodes members K0 r c =
  K0 r c +
  Rsum (map (fun m => sum6 (fun i => sum6 (fun j =>
          if (r =? nth i (memberDofs nodes m) 0)%nat && (c =? nth j (memberDofs nodes m) 0)%nat
          then mget (memberStiffness nodes m) i j else 0))) members).
Proof.
  unfold assembledK. revert K0.
  induction members as [|m members IH]; intros K0; cbn [fold_left map].
  - rewrite Rsum_nil. lra.
  - rewrite IH, addStiffness_spec, Rsum_cons. lra.
Qed.

Lemma assembledF_entry (nodes : list Node) (members : list Member) (loads : list Load)
    (F0 : Column) (r : nat) :
  assembledF nodes members loads F0 r =
  F0 r -
  Rsum (map (fun l =>
          rowPick (memberDofs nodes (memberOfLoad members l)) r
            (vget (loadForces nodes (memberOfLoad members l) l))) loads).
Proof.
  unfold assembledF. revert F0.
  induction loads as [|l loads IH]; intros F0; cbn [fold_left map].
  - rewrite Rsum_nil. lra.
  - rewrite IH, subtractForces_spec, Rsum_cons. unfold rowPick. lra.
Qed.

(** ** Loads in the global load vector *)

Section LoadVector.

Variable inv : matrix -> option matrix.

(** What [solve] does with one more load: with the members accepted and the
    other loads resolved, the load vector assembled for [pre ++ load :: post]
    is the one for [pre ++ post] minus the load's global fixed-end forces at
    the six indices of its member, and it is this vector that [solve] hands
    to the reduced system. *)
Lemma load_enters_global_vector (nodes : list Node) (members : list Member)
    (supports : list Support) (pre post : list Load)
    (load : Load) (member : Member) (startNode endNode : Node) :
  findMember members (memberId load) = Some member ->
  findNode nodes (startNodeId member) = Some startNode ->
  findNode nodes (endNodeId member) = Some endNode ->
  nodes <> [] ->
  Forall (memberOk nodes) members ->
  Forall (loadOk members) (pre ++ post) ->
  exists i j g F0 F,
    nodeIndex nodes (startNodeId member) = Some i /\
    nodeIndex nodes (endNodeId member) = Some j /\
    getGlobalFixedEndForces member load (Some startNode) (Some endNode) = Return g /\
    assembleF nodes members (pre ++ post) (initializeDOF nodes) = Return F0 /\
    assembleF nodes members (pre ++ load :: post) (initializeDOF nodes) = Return F /\
    (forall r,
       F r = F0 r - sum6 (fun k => if (r =? nth k (nodeDofs i j) 0)%nat
                                   then vget g k else 0)) /\
    solve inv nodes members supports (pre ++ load :: post) =
    (d_global <-
       solveDisplacements inv
         (stabilize (totalDOF nodes) (assembledK nodes members zeros2)) F
         (finalFreeDOFs nodes (initializeDOF nodes) supports) ;;
     calculateResults nodes members supports (pre ++ load :: post)
       (initializeDOF nodes) d_global).
Proof.
  intros Hm Hs He Hn Hms Hls.
  assert (Hl : loadOk members load) by (unfold loadOk; rewrite Hm; discriminate).
  assert (Hall : Forall (loadOk members) (pre ++ load :: post)).
  { apply Forall_app in Hls. destruct Hls as [Hpre Hpost].
    apply Forall_app. split; [ exact Hpre | now constructor ]. }
  destruct (findNode_nodeIndex _ _ _ Hs) as [i [Hi _]].
  destruct (findNode_nodeIndex _ _ _ He) as [j [Hj _]].
  destruct (global_FEF_reference member load startNode endNode) as [g [Hg _]].
  exists i, j, g, (assembledF nodes members (pre ++ post) zeros1),
    (assembledF nodes members (pre ++ load :: post) zeros1).
  split; [ exact Hi | ]. split; [ exact Hj | ]. split; [ exact Hg | ].
  split; [ unfold assembleF; now apply assembleF_ok | ].
  split; [ unfold assembleF; now apply assembleF_ok | ].
  split; [ | now apply solve_accepted ].
  intros r. rewrite !assembledF_entry, !map_app. cbn [map].
  rewrite !Rsum_app, Rsum_cons.
  assert (Hrow :
    rowPick (memberDofs nodes (memberOfLoad members load)) r
      (vget (loadForces nodes (memberOfLoad members load) load)) =
    sum6 (fun k => if (r =? nth k (nodeDofs i j) 0)%nat then vget g k else 0)).
  { unfold memberOfLoad. rewrite Hm. unfold memberDofs, loadForces, rowPick.
    rewrite Hi, Hj, Hs, He, Hg. reflexivity. }
  rewrite Hrow. lra.
Qed.

End LoadVector.

Lemma ex_inclined_ok (startRel endRel : MemberRelease) :
  Forall (memberOk [ex_a; ex_b]) [ex_beam startRel endRel].
Proof.
  constructor; [ | constructor ].
  exists ex_a, ex_b. split; [ reflexivity | ]. split; [ reflexivity | ].
  rewrite ex_length. lra.
Qed.

Section FixedEndForces.

Variable inv : matrix -> option matrix.

(** C3.  The local fixed-end force vector of a point load is the classical
    one for its release state (fixed-fixed formulas; simple-beam reactions
    when both ends are pinned; released moment zeroed, half of it carried
    over and a shear correction 1.5 M_rel / L of opposite signs when one end
    is pinned).  Its rotation to global coordinates is subtracted from the
    load vector at the member's six indices: by the loop body on any vector,
    and so in the global load vector that [solve] assembles and hands to the
    reduced system, which is the vector of the other loads minus this
    load's rotated fixed-end forces. *)
Theorem C3_fixed_end_forces (nodes : list Node) (members : list Member)
    (supports : list Support) (pre post : list Load)
    (load : Load) (member : Member) (startNode endNode : Node) (F : Column) :
  let P := magnitude load in
  let a := position load in
  let dx := node_x endNode - node_x startNode in
  let dy := node_y endNode - node_y startNode in
  let L := memberLength startNode endNode in
  let contribution (i j r : nat) :=
    sum6 (fun k =>
            if (r =? nth k (nodeDofs i j) 0)%nat
            then referenceGlobalFEF P a L (startRelease member) (endRelease member)
                   (dx / L) (dy / L) k
            else 0) in
  findMember members (memberId load) = Some member ->
  findNode nodes (startNodeId member) = Some startNode ->
  findNode nodes (endNodeId member) = Some endNode ->
  L <> 0 ->
  Forall (memberOk nodes) members ->
  Forall (loadOk members) (pre ++ post) ->
  calculateLocalFixedEndForces member load (Some startNode) (Some endNode) =
    Return (referenceFEF P a L (startRelease member) (endRelease member)) /\
  exists i j,
    nodeIndex nodes (startNodeId member) = Some i /\
    nodeIndex nodes (endNodeId member) = Some j /\
    (exists F',
       assembleLoad nodes members (initializeDOF nodes) F load = Return F' /\
       forall r, F' r = F r - contribution i j r) /\
    exists F0 Fg,
      assembleF nodes members (pre ++ post) (initializeDOF nodes) = Return F0 /\
      assembleF nodes members (pre ++ load :: post) (initializeDOF nodes) = Return Fg /\
      (forall r, Fg r = F0 r - contribution i j r) /\
      solve inv nodes members supports (pre ++ load :: post) =
      (d_global <-
         solveDisplacements inv
           (stabilize (totalDOF nodes) (assembledK nodes members zeros2)) Fg
           (finalFreeDOFs nodes (initializeDOF nodes) supports) ;;
       calculateResults nodes members supports (pre ++ load :: post)
         (initializeDOF nodes) d_global).
Proof.
  intros P a dx dy L contribution Hm Hs He HL Hms Hls.
  split; [ apply local_FEF_reference | ].
  assert (Hn : nodes <> []) by (intros ->; discriminate Hs).
  destruct (load_enters_global_vector inv nodes members supports pre post load member
              startNode endNode Hm Hs He Hn Hms Hls)
    as [i [j [g [F0 [Fg [Hi [Hj [Hg [HF0 [HFg [Hrow Hsolve]]]]]]]]]]].
  destruct (global_FEF_reference member load startNode endNode) as [g' [Hg' [_ Hgi]]].
  rewrite Hg in Hg'. injection Hg' as <-.
  destruct (cos_sin_atan2 dy dx HL) as [Hc Hsn].
  assert (Hcontr : forall r,
    sum6 (fun k => if (r =? nth k (nodeDofs i j) 0)%nat then vget g k else 0) =
    contribution i j r).
  { intros r. unfold contribution, sum6. f_equal.
    apply map_ext_in. intros k Hk. apply in_seq in Hk.
    destruct (r =? nth k (nodeDofs i j) 0)%nat; [ | reflexivity ].
    rewrite Hgi by lia. fold dx dy. rewrite Hc, Hsn. reflexivity. }
  exists i, j. split; [ exact Hi | ]. split; [ exact Hj | ]. split.
  - exists (subtractForces F g (nodeDofs i j)). split.
    + unfold assembleLoad. rewrite Hm. cbn [defined bind]. rewrite Hs, He, Hg.
      cbn [defined bind].
      rewrite (dofIndices_resolved nodes startNode endNode i j).
      * reflexivity.
      * apply findNode_some in Hs. destruct Hs as [_ ->]. exact Hi.
      * apply findNode_some in He. destruct He as [_ ->]. exact Hj.
    + intros r. rewrite subtractForces_spec, <- Hcontr. reflexivity.
  - exists F0, Fg. split; [ exact HF0 | ]. split; [ exact HFg | ].
    split; [ | exact Hsolve ].
    intros r. rewrite Hrow, Hcontr. reflexivity.
Qed.

End FixedEndForces.

Lemma C3_fixed_end_forces_witness :
  exists Fg,
    assembleF [ex_a; ex_b] [ex_beam pinned rigid] [ex_load 2]
      (initializeDOF [ex_a; ex_b]) = Return Fg /\
    forall r,
      Fg r =
      zeros1 r - sum6 (fun k =>
                    if (r =? nth k (nodeDofs 0 1) 0)%nat
                    then referenceGlobalFEF (-10) 2 5 pinned rigid (3 / 5) (4 / 5) k
                    else 0).
Proof.
  assert (HL : memberLength ex_a ex_b <> 0) by (rewrite ex_length; lra).
  destruct (C3_fixed_end_forces inv_small [ex_a; ex_b] [ex_beam pinned rigid] [] [] []
              (ex_load 2) (ex_beam pinned rigid) ex_a ex_b zeros1
              eq_refl eq_refl eq_refl HL (ex_inclined_ok pinned rigid) (Forall_nil _))
    as [_ [i [j [Hi [Hj [_ [F0 [Fg [HF0 [HFg [Hr _]]]]]]]]]]].
  injection Hi as <-. injection Hj as <-. injection HF0 as <-.
  exists Fg. split; [ exact HFg | ].
  intros r. rewrite Hr, ex_length. cbn [ex_a ex_b node_x node_y ex_load magnitude position
    ex_beam startRelease endRelease].
  replace (3 - 0) with 3 by lra. replace (4 - 0) with 4 by lra. reflexivity.
Defined.

Section OutOfRangeLoad.

Variable inv : matrix -> option matrix.

(** C10.  A load placed before the start or beyond the end of its member
    raises no fault of its own: whether [solve] throws, and what, does not
    depend on load positions; the load is assembled by the same closed-form
    fixed-end forces with b = L - a, by the loop body on any vector and so
    in the global load vector that [solve] assembles and hands to the
    reduced system; and its position is not one of the member's evaluation
    points. *)
Theorem C10_out_of_range_load (nodes : list Node) (members : list Member)
    (supports : list Support) (loads : list Load)
    (load : Load) (member : Member) (startNode endNode : Node) (F : Column) :
  let P := magnitude load in
  let a := position load in
  let dx := node_x endNode - node_x startNode in
  let dy := node_y endNode - node_y startNode in
  let L := memberLength startNode endNode in
  let contribution (i j r : nat) :=
    sum6 (fun k =>
            if (r =? nth k (nodeDofs i j) 0)%nat
            then referenceGlobalFEF P a L (startRelease member) (endRelease member)
                   (cos (atan2 dy dx)) (sin (atan2 dy dx)) k
            else 0) in
  In load loads ->
  findMember members (memberId load) = Some member ->
  findNode nodes (startNodeId member) = Some startNode ->
  findNode nodes (endNodeId member) = Some endNode ->
  a < 0 \/ L < a ->
  (forall q, fault (solve inv nodes members supports loads) =
             fault (solve inv nodes members supports (movedLoads q loads))) /\
  calculateLocalFixedEndForces member load (Some startNode) (Some endNode) =
    Return (referenceFEF P a L (startRelease member) (endRelease member)) /\
  (exists i j,
     nodeIndex nodes (startNodeId member) = Some i /\
     nodeIndex nodes (endNodeId member) = Some j /\
     (exists F',
        assembleLoad nodes members (initializeDOF nodes) F load = Return F' /\
        forall r, F' r = F r - contribution i j r) /\
     (Forall (memberOk nodes) members -> Forall (loadOk members) loads ->
      exists pre post F0 Fg,
        loads = (pre ++ load :: post)%list /\
        assembleF nodes members (pre ++ post) (initializeDOF nodes) = Return F0 /\
        assembleF nodes members loads (initializeDOF nodes) = Return Fg /\
        (forall r, Fg r = F0 r - contribution i j r) /\
        solve inv nodes members supports loads =
        (d_global <-
           solveDisplacements inv
             (stabilize (totalDOF nodes) (assembledK nodes members zeros2)) Fg
             (finalFreeDOFs nodes (initializeDOF nodes) supports) ;;
         calculateResults nodes members supports loads (initializeDOF nodes) d_global))) /\
  ~ In a (sortedPoints loads member L).
Proof.
  intros P a dx dy L contribution Hin Hm Hs He Hout.
  split; [ | split; [ | split ] ].
  - intros q. symmetry. apply solve_fault_moved.
  - apply local_FEF_reference.
  - destruct (findNode_nodeIndex _ _ _ Hs) as [i [Hi _]].
    destruct (findNode_nodeIndex _ _ _ He) as [j [Hj _]].
    destruct (global_FEF_reference member load startNode endNode) as [g [Hg [Hlen Hgi]]].
    assert (Hcontr : forall r,
      sum6 (fun k => if (r =? nth k (nodeDofs i j) 0)%nat then vget g k else 0) =
      contribution i j r).
    { intros r. unfold contribution, sum6. f_equal.
      apply map_ext_in. intros k Hk. apply in_seq in Hk.
      destruct (r =? nth k (nodeDofs i j) 0)%nat; [ | reflexivity ].
      now rewrite Hgi by lia. }
    exists i, j. split; [ exact Hi | ]. split; [ exact Hj | ]. split.
    + exists (subtractForces F g (nodeDofs i j)). split.
      * unfold assembleLoad. rewrite Hm. cbn [defined bind]. rewrite Hs, He, Hg.
        cbn [defined bind].
        rewrite (dofIndices_resolved nodes startNode endNode i j).
        -- reflexivity.
        -- apply findNode_some in Hs. destruct Hs as [_ ->]. exact Hi.
        -- apply findNode_some in He. destruct He as [_ ->]. exact Hj.
      * intros r. rewrite subtractForces_spec, <- Hcontr. reflexivity.
    + intros Hms Hls.
      destruct (in_split _ _ Hin) as [pre [post Hsplit]].
      assert (Hn : nodes <> []) by (intros ->; discriminate Hs).
      assert (Hrest : Forall (loadOk members) (pre ++ post)).
      { rewrite Hsplit in Hls. apply Forall_app in Hls. destruct Hls as [Hpre Hpost].
        apply Forall_app. split; [ exact Hpre | now inversion Hpost ]. }
      destruct (load_enters_global_vector inv nodes members supports pre post load member
                  startNode endNode Hm Hs He Hn Hms Hrest)
        as [i' [j' [g' [F0 [Fg [Hi' [Hj' [Hg' [HF0 [HFg [Hrow Hsolve]]]]]]]]]]].
      rewrite Hi in Hi'. injection Hi' as <-. rewrite Hj in Hj'. injection Hj' as <-.
      rewrite Hg in Hg'. injection Hg' as <-.
      exists pre, post, F0, Fg. rewrite Hsplit.
      split; [ reflexivity | ]. split; [ exact HF0 | ]. split; [ exact HFg | ].
      split; [ | exact Hsolve ].
      intros r. rewrite Hrow, Hcontr. reflexivity.
  - intros Hpt. apply sortedPoints_range in Hpt; [ | apply memberLength_nonneg ].
    fold L in Hpt. lra.
Qed.

End OutOfRangeLoad.

Lemma C10_out_of_range_load_witness :
  ~ In 2 (sortedPoints [ex_far_load] ex_cantilever 1) /\
  (forall q, fault (solve inv_small ex_nodes ex_members ex_supports [ex_far_load]) =
             fault (solve inv_small ex_nodes ex_members ex_supports (movedLoads q [ex_far_load]))) /\
  exists Fg,
    assembleF ex_nodes ex_members [ex_far_load] (initializeDOF ex_nodes) = Return Fg /\
    Fg 4%nat = 
    zeros1 4%nat - referenceGlobalFEF (-10) 2 1 rigid rigid
                     (cos (atan2 (0 - 0) (1 - 0))) (sin (atan2 (0 - 0) (1 - 0))) 4.
Proof.
  assert (Hout : position ex_far_load < 0 \/ memberLength ex_left ex_right < position ex_far_load).
  { right. rewrite ex_unit_length. cbn. lra. }
  destruct (C10_out_of_range_load inv_small ex_nodes ex_members ex_supports [ex_far_load]
              ex_far_load ex_cantilever
              ex_left ex_right zeros1 (or_introl eq_refl) eq_refl eq_refl eq_refl Hout)
    as [Hq [_ [[i [j [Hi [Hj [_ Hg]]]]] Hpt]]].
  rewrite ex_unit_length in Hpt. split; [ exact Hpt | ]. split; [ exact Hq | ].
  injection Hi as <-. injection Hj as <-.
  destruct (Hg ex_members_ok) as [pre [post [F0 [Fg [Hsplit [HF0 [HFg [Hr _]]]]]]]].
  { constructor; [ discriminate | constructor ]. }
  destruct pre as [|l0 pre].
  2:{ destruct pre; discriminate Hsplit. }
  cbn [app] in Hsplit. injection Hsplit as <-.
  cbn [app] in HF0. injection HF0 as <-.
  exists Fg. split; [ exact HFg | ].
  rewrite Hr, ex_unit_length. cbn [ex_far_load magnitude position ex_cantilever
    startRelease endRelease ex_left ex_right node_x node_y].
  unfold sum6. cbn [seq map nodeDofs nth Nat.eqb Nat.mul Nat.add].
  rewrite !Rsum_cons, Rsum_nil. lra.
Defined.

(** ** The swinging truss bar *)









(** ** Singular systems *)

Section SingularityFault.

Variable inv : matrix -> option matrix.


End SingularityFault.




Lemma pick_row_col (kg : matrix) (idx : list nat) (r : nat) (d : Column) (N : nat) :
  (forall j, (j < 6)%nat -> (nth j idx 0 < N)%nat) ->
  Rsum (map (fun c =>
          sum6 (fun i => sum6 (fun j =>
            if (r =? nth i idx 0)%nat && (c =? nth j idx 0)%nat then mget kg i j else 0))
          * d c) (seq 0 N)) =
  rowPick idx r (fun i => sum6 (fun j => mget kg i j * d (nth j idx 0%nat))).
Proof.
  intros Hidx. unfold rowPick.
  rewrite (Rsum_map_ext _
    (fun c => sum6 (fun i => sum6 (fun j =>
       (if (r =? nth i idx 0)%nat && (c =? nth j idx 0)%nat then mget kg i j else 0) * d c)))).
  2:{ intros c _. unfold sum6. rewrite <- Rsum_map_scal_r. apply Rsum_map_ext.
      intros i _. now rewrite <- Rsum_map_scal_r. }
  unfold sum6 at 1. rewrite Rsum_swap. fold (sum6 (fun i =>
    Rsum (map (fun c => sum6 (fun j =>
      (if (r =? nth i idx 0)%nat && (c =? nth j idx 0)%nat then mget kg i j else 0) * d c))
      (seq 0 N)))).
  apply sum6_ext. intros i Hi.
  unfold sum6 at 1. rewrite Rsum_swap.
  rewrite <- sum6_if. apply sum6_ext. intros j Hj.
  destruct (r =? nth i idx 0)%nat; cbn [andb].
  - rewrite (Rsum_map_ext _
      (fun c => if (c =? nth j idx 0)%nat then mget kg i j * d c else 0)).
    + rewrite Rsum_pick. cbn [Nat.leb andb].
      destruct (Nat.ltb_spec (nth j idx 0%nat) (0 + N)); [ reflexivity | ].
      specialize (Hidx j Hj). lia.
    + intros c _. destruct (c =? nth j idx 0)%nat; lra.
  - rewrite (Rsum_map_ext _ (fun _ => 0)); [ apply Rsum_map_zero | ]. intros c _. lra.
Qed.

Lemma memberDofs_bound (nodes : list Node) (m : Member) (j : nat) :
  memberOk nodes m -> (j < 6)%nat ->
  (nth j (memberDofs nodes m) 0 < totalDOF nodes)%nat.
Proof.
  intros Hok Hj.
  destruct (memberOk_dofs nodes m Hok)
    as [sN [eN [i [k [_ [_ [_ [_ [_ [Hi [Hk [Hd _]]]]]]]]]]]].
  rewrite Hd. unfold totalDOF, nodeDofs.
  do 6 (destruct j as [|j]; [ cbn [nth]; lia | ]). lia.
Qed.

(** Row [r] of K d, member by member. *)
Lemma stiffness_row (nodes : list Node) (members : list Member) (d : Column) (r : nat) :
  Forall (memberOk nodes) members ->
  Rsum (map (fun c => assembledK nodes members zeros2 r c * d c) (seq 0 (totalDOF nodes))) =
  Rsum (map (fun m =>
          rowPick (memberDofs nodes m) r
            (fun i => sum6 (fun j => mget (memberStiffness nodes m) i j
                                     * d (nth j (memberDofs nodes m) 0%nat)))) members).
Proof.
  intros Hms.
  rewrite (Rsum_map_ext _
    (fun c => Rsum (map (fun m =>
       sum6 (fun i => sum6 (fun j =>
          if (r =? nth i (memberDofs nodes m) 0)%nat && (c =? nth j (memberDofs nodes m) 0)%nat
          then mget (memberStiffness nodes m) i j else 0)) * d c) members))).
  2:{ intros c _. rewrite assembledK_entry. unfold zeros2.
      rewrite Rplus_0_l. now rewrite Rsum_map_scal_r. }
  rewrite Rsum_swap. apply Rsum_map_ext. intros m Hm.
  apply pick_row_col. intros j Hj. apply memberDofs_bound; [ | exact Hj ].
  rewrite Forall_forall in Hms. now apply Hms.
Qed.

(** ** End forces of a member *)

Lemma vadd_length (u v : vector) :
  List.length u = 6%nat -> List.length v = 6%nat -> List.length (vadd u v) = 6%nat.
Proof.
  intros Hu Hv. unfold vadd. rewrite length_map, length_combine. lia.
Qed.

Lemma vadd_entry (u v : vector) (i : nat) :
  List.length u = 6%nat -> List.length v = 6%nat -> (i < 6)%nat ->
  vget (vadd u v) i = vget u i + vget v i.
Proof.
  intros Hu Hv Hi.
  do 7 (destruct u as [|? u]; try discriminate).
  do 7 (destruct v as [|? v]; try discriminate).
  do 6 (destruct i as [|i]; [ reflexivity | ]). lia.
Qed.

Lemma loadForces_length (nodes : list Node) (m : Member) (l : Load) :
  memberOk nodes m -> List.length (loadForces nodes m l) = 6%nat.
Proof.
  intros [sN [eN [Hs [He _]]]]. unfold loadForces. rewrite Hs, He.
  destruct (global_FEF_reference m l sN eN) as [g [Hg [Hlen _]]]. now rewrite Hg.
Qed.

Lemma memberStiffness_shape (nodes : list Node) (m : Member) :
  memberOk nodes m ->
  List.length (memberStiffness nodes m) = 6%nat /\
  Forall (fun row => List.length row = 6%nat) (memberStiffness nodes m).
Proof.
  intros [sN [eN [Hs [He HL]]]]. unfold memberStiffness. rewrite Hs, He.
  unfold getMemberGlobalStiffnessMatrix. change (sqrt _) with (memberLength sN eN).
  destruct (Req_dec_T (memberLength sN eN) 0); [ contradiction | ].
  cbn [value]. split; [ reflexivity | repeat constructor ].
Qed.

Lemma fixed_fold_entry (nodes : list Node) (m : Member) (ls : list Load)
    (acc : vector) (i : nat) :
  memberOk nodes m -> List.length acc = 6%nat -> (i < 6)%nat ->
  List.length (fold_left (fun acc l => vadd acc (loadForces nodes m l)) ls acc) = 6%nat /\
  vget (fold_left (fun acc l => vadd acc (loadForces nodes m l)) ls acc) i =
  vget acc i + Rsum (map (fun l => vget (loadForces nodes m l) i) ls).
Proof.
  intros Hok Hacc Hi. revert acc Hacc.
  induction ls as [|l ls IH]; intros acc Hacc; cbn [fold_left map].
  - rewrite Rsum_nil. split; [ exact Hacc | lra ].
  - pose proof (loadForces_length nodes m l Hok) as Hl.
    destruct (IH (vadd acc (loadForces nodes m l)) (vadd_length _ _ Hacc Hl)) as [H1 H2].
    split; [ exact H1 | ]. rewrite H2, vadd_entry, Rsum_cons by assumption. lra.
Qed.

Lemma endForces_entry (nodes : list Node) (loads : list Load) (d : Column)
    (m : Member) (i : nat) :
  memberOk nodes m -> (i < 6)%nat ->
  vget (endForces nodes loads d m) i =
  sum6 (fun j => mget (memberStiffness nodes m) i j * d (nth j (memberDofs nodes m) 0%nat))
  + Rsum (map (fun l => vget (loadForces nodes m l) i) (loadsOn loads m)).
Proof.
  intros Hok Hi. unfold endForces.
  destruct (memberStiffness_shape nodes m Hok) as [Hlen Hrows].
  assert (Hidx : List.length (memberDofs nodes m) = 6%nat).
  { destruct (memberOk_dofs nodes m Hok)
      as [sN [eN [a [b [_ [_ [_ [_ [_ [_ [_ [Hd _]]]]]]]]]]]].
    now rewrite Hd. }
  assert (Hdm : List.length (memberDisplacements nodes d m) = 6%nat).
  { unfold memberDisplacements. now rewrite length_map. }
  destruct (fixed_fold_entry nodes m (loadsOn loads m) [0; 0; 0; 0; 0; 0] i Hok eq_refl Hi)
    as [Hfl Hfe].
  rewrite vadd_entry; try assumption.
  2:{ unfold mat_vec. now rewrite length_map. }
  f_equal.
  - rewrite mat_vec_entry.
    + rewrite Hdm. apply sum6_ext. intros j Hj. f_equal.
      unfold memberDisplacements. apply (vget_map d _ 0%nat). lia.
    + lia.
    + now rewrite Hdm.
  - unfold fixedForces. rewrite Hfe. do 6 (destruct i as [|i]; [ cbn [vget nth]; lra | ]). lia.
Qed.

(** ** Loads grouped by member *)

Lemma Rsum_find_unique (members : list Member) (id : string) (m0 : Member) (f : Member -> R) :
  NoDup (map member_id members) ->
  findMember members id = Some m0 ->
  Rsum (map (fun m => if String.eqb id (member_id m) then f m else 0) members) = f m0.
Proof.
  unfold findMember. intros Hnd. induction members as [|m members IH]; cbn [find map];
    [ discriminate | ].
  cbn [map] in Hnd. inversion Hnd as [|x xs Hni Hnd']. subst.
  rewrite Rsum_cons, (String.eqb_sym id (member_id m)).
  destruct (String.eqb_spec (member_id m) id) as [Heq | Hne].
  - intros [= <-].
    rewrite (Rsum_map_ext _ (fun _ => 0)); [ rewrite Rsum_map_zero; lra | ].
    intros m' Hm'. destruct (String.eqb_spec id (member_id m')) as [Heq' | ]; [ | reflexivity ].
    exfalso. apply Hni. rewrite Heq, Heq'. now apply in_map.
  - intros H. rewrite (IH Hnd' H). lra.
Qed.

Lemma loads_by_member (members : list Member) (loads : list Load) (h : Member -> Load -> R) :
  NoDup (map member_id members) -> Forall (loadOk members) loads ->
  Rsum (map (fun m => Rsum (map (h m) (loadsOn loads m))) members) =
  Rsum (map (fun l => h (memberOfLoad members l) l) loads).
Proof.
  intros Hnd Hls. unfold loadsOn.
  rewrite (Rsum_map_ext _
    (fun m => Rsum (map (fun l => if String.eqb (memberId l) (member_id m) then h m l else 0)
                      loads))).
  2:{ intros m _. apply Rsum_filter. }
  rewrite Rsum_swap. apply Rsum_map_ext. intros l Hl.
  rewrite Forall_forall in Hls. specialize (Hls l Hl). unfold loadOk in Hls.
  unfold memberOfLoad. destruct (findMember members (memberId l)) as [m0|] eqn:Hm0;
    [ | contradiction ].
  now apply (Rsum_find_unique members (memberId l) m0 (fun m => h m l)).
Qed.

(** ** Nodal equilibrium residual *)

Lemma rowPick_plus (idx : list nat) (r : nat) (f g : nat -> R) :
  rowPick idx r (fun i => f i + g i) = rowPick idx r f + rowPick idx r g.
Proof.
  unfold rowPick, sum6. rewrite <- Rsum_map_plus. apply Rsum_map_ext.
  intros i _. destruct (r =? nth i idx 0)%nat; lra.
Qed.

Lemma rowPick_ext (idx : list nat) (r : nat) (f g : nat -> R) :
  (forall i, (i < 6)%nat -> f i = g i) -> rowPick idx r f = rowPick idx r g.
Proof.
  intros H. unfold rowPick. apply sum6_ext. intros i Hi. now rewrite H.
Qed.

Lemma rowPick_Rsum {X} (idx : list nat) (r : nat) (g : X -> nat -> R) (l : list X) :
  rowPick idx r (fun i => Rsum (map (fun x => g x i) l)) =
  Rsum (map (fun x => rowPick idx r (g x)) l).
Proof.
  unfold rowPick, sum6. rewrite Rsum_swap. apply Rsum_map_ext. intros i _.
  destruct (r =? nth i idx 0)%nat; [ reflexivity | now rewrite Rsum_map_zero ].
Qed.

Lemma residual (nodes : list Node) (members : list Member) (loads : list Load)
    (d : Column) (r : nat) :
  Forall (memberOk nodes) members -> Forall (loadOk members) loads ->
  NoDup (map member_id members) ->
  Rsum (map (fun m => rowPick (memberDofs nodes m) r (vget (endForces nodes loads d m)))
          members) =
  Rsum (map (fun c => assembledK nodes members zeros2 r c * d c) (seq 0 (totalDOF nodes)))
  - assembledF nodes members loads zeros1 r.
Proof.
  intros Hms Hls Hnd.
  rewrite stiffness_row by assumption. rewrite assembledF_entry. unfold zeros1.
  rewrite <- (loads_by_member members loads
    (fun m l => rowPick (memberDofs nodes m) r (vget (loadForces nodes m l)))) by assumption.
  match goal with |- _ = ?a - (0 - ?b) => replace (a - (0 - b)) with (a + b) by lra end.
  rewrite <- Rsum_map_plus. apply Rsum_map_ext. intros m Hm.
  rewrite Forall_forall in Hms. specialize (Hms m Hm).
  rewrite <- rowPick_Rsum, <- rowPick_plus. apply rowPick_ext.
  intros i Hi. now apply endForces_entry.
Qed.

(** ** Vertical forces at a node *)

Lemma nodeIndex_inj (nodes : list Node) (a b : string) (k : nat) :
  nodeIndex nodes a = Some k -> nodeIndex nodes b = Some k -> a = b.
Proof.
  unfold nodeIndex. intros Ha Hb.
  apply lastIndexFrom_nth in Ha. apply lastIndexFrom_nth in Hb.
  destruct Ha as [n [Hn <-]]. destruct Hb as [n' [Hn' <-]]. congruence.
Qed.

Lemma nodeIndex_bound (nodes : list Node) (a : string) (k : nat) :
  nodeIndex nodes a = Some k -> (k < List.length nodes)%nat.
Proof. unfold nodeIndex. intros H. apply lastIndexFrom_range in H. lia. Qed.

Lemma memberOk_distinct_ends (nodes : list Node) (m : Member) (i j : nat) :
  memberOk nodes m ->
  nodeIndex nodes (startNodeId m) = Some i ->
  nodeIndex nodes (endNodeId m) = Some j -> i <> j.
Proof.
  intros [sN [eN [Hs [He HL]]]] Hi Hj Heq. subst j.
  pose proof (nodeIndex_inj nodes _ _ _ Hi Hj) as Hid.
  rewrite Hid in Hs. rewrite Hs in He. injection He as <-.
  apply HL. unfold memberLength. apply sqrt_sum_squares_zero. split; lra.
Qed.

Lemma rowPick_vertical (i j k : nat) (f : nat -> R) :
  rowPick (nodeDofs i j) (k * 3 + 1) f =
  (if (k =? i)%nat then f 1%nat else 0) + (if (k =? j)%nat then f 4%nat else 0).
Proof.
  unfold rowPick, sum6, nodeDofs. cbn [seq map nth].
  rewrite !Rsum_cons, Rsum_nil.
  replace (k * 3 + 1 =? i * 3 + 0)%nat with false by (symmetry; apply Nat.eqb_neq; lia).
  replace (k * 3 + 1 =? i * 3 + 2)%nat with false by (symmetry; apply Nat.eqb_neq; lia).
  replace (k * 3 + 1 =? j * 3 + 0)%nat with false by (symmetry; apply Nat.eqb_neq; lia).
  replace (k * 3 + 1 =? j * 3 + 2)%nat with false by (symmetry; apply Nat.eqb_neq; lia).
  replace (k * 3 + 1 =? i * 3 + 1)%nat with (k =? i)%nat.
  2:{ destruct (Nat.eqb_spec k i); symmetry; [ apply Nat.eqb_eq | apply Nat.eqb_neq ]; lia. }
  replace (k * 3 + 1 =? j * 3 + 1)%nat with (k =? j)%nat.
  2:{ destruct (Nat.eqb_spec k j); symmetry; [ apply Nat.eqb_eq | apply Nat.eqb_neq ]; lia. }
  lra.
Qed.

Lemma reaction_fold_Fy (nodes : list Node) (loads : list Load) (d : Column)
    (id : string) (ms : list Member) (Rx Ry Mz : R) :
  snd (fst
    (fold_left
       (fun (acc : R * R * R) m =>
          let '(Rx, Ry, Mz) := acc in
          let f_global := endForces nodes loads d m in
          if String.eqb (startNodeId m) id then
            (Rx + vget f_global 0, Ry + vget f_global 1, Mz + vget f_global 2)
          else
            (Rx + vget f_global 3, Ry + vget f_global 4, Mz + vget f_global 5))
       ms (Rx, Ry, Mz))) =
  Ry + Rsum (map (fun m => if String.eqb (startNodeId m) id
                           then vget (endForces nodes loads d m) 1
                           else vget (endForces nodes loads d m) 4) ms).
Proof.
  revert Rx Ry Mz. induction ms as [|m ms IH]; intros Rx Ry Mz; cbn [fold_left map].
  - rewrite Rsum_nil. cbn. lra.
  - rewrite Rsum_cons. destruct (String.eqb (startNodeId m) id); rewrite IH; lra.
Qed.

(** The vertical reaction computed for a node is the sum, over all members,
    of what their end forces put on the node's vertical row. *)
Lemma reactionOf_Fy (nodes : list Node) (members : list Member) (loads : list Load)
    (d : Column) (node : Node) (k : nat) :
  Forall (memberOk nodes) members ->
  nodeIndex nodes (node_id node) = Some k ->
  Fy (reactionOf nodes members loads d node) =
  Rsum (map (fun m => rowPick (memberDofs nodes m) (k * 3 + 1)
                        (vget (endForces nodes loads d m))) members).
Proof.
  intros Hms Hk. unfold reactionOf.
  assert (Hf : snd (fst (reactionSum nodes members loads d node)) =
               0 + Rsum (map (fun m => if String.eqb (startNodeId m) (node_id node)
                                       then vget (endForces nodes loads d m) 1
                                       else vget (endForces nodes loads d m) 4)
                           (connectedMembers members node))).
  { apply reaction_fold_Fy. }
  destruct (reactionSum nodes members loads d node) as [[Rx Ry] Mz].
  cbn [fst snd Fy] in *. rewrite Hf, Rplus_0_l.
  unfold connectedMembers. rewrite Rsum_filter. apply Rsum_map_ext.
  intros m Hm. rewrite Forall_forall in Hms. specialize (Hms m Hm).
  destruct (memberOk_dofs nodes m Hms)
    as [sN [eN [i [j [_ [_ [_ [Hi [Hj [_ [_ [Hd _]]]]]]]]]]]].
  rewrite Hd, rowPick_vertical.
  pose proof (memberOk_distinct_ends nodes m i j Hms Hi Hj) as Hij.
  destruct (String.eqb_spec (startNodeId m) (node_id node)) as [Hs | Hs]; cbn [orb].
  - assert (k = i) by (rewrite Hs in Hi; congruence). subst k.
    rewrite Nat.eqb_refl. destruct (Nat.eqb_spec i j); [ contradiction | lra ].
  - assert (Hki : k <> i).
    { intros ->. apply Hs. apply (nodeIndex_inj nodes _ _ i Hi Hk). }
    destruct (Nat.eqb_spec k i); [ contradiction | ].
    destruct (String.eqb_spec (endNodeId m) (node_id node)) as [He | He].
    + assert (k = j) by (rewrite He in Hj; congruence). subst k.
      rewrite Nat.eqb_refl. lra.
    + destruct (Nat.eqb_spec k j) as [-> | _]; [ | lra ].
      exfalso. apply He. apply (nodeIndex_inj nodes _ _ j Hj Hk).
Qed.

(** ** Vertical resultant of one member *)

Lemma stiffness_vertical_rows (member : Member) (L c s : R) (j : nat) :
  (j < 6)%nat ->
  mget (multiply (multiply (transpose (transformation c s)) (k_local_vals member L))
          (transformation c s)) 1 j
  + mget (multiply (multiply (transpose (transformation c s)) (k_local_vals member L))
            (transformation c s)) 4 j = 0.
Proof.
  intros Hj. unfold k_local_vals.
  destruct (startRelease member), (endRelease member);
    do 6 (destruct j as [|j]; [ cbn; ring | ]); lia.
Qed.

Lemma memberStiffness_vertical_rows (nodes : list Node) (m : Member) (j : nat) :
  memberOk nodes m -> (j < 6)%nat ->
  mget (memberStiffness nodes m) 1 j + mget (memberStiffness nodes m) 4 j = 0.
Proof.
  intros [sN [eN [Hs [He HL]]]] Hj. unfold memberStiffness. rewrite Hs, He.
  unfold getMemberGlobalStiffnessMatrix. change (sqrt _) with (memberLength sN eN).
  destruct (Req_dec_T (memberLength sN eN) 0); [ contradiction | ].
  cbn [value]. now apply stiffness_vertical_rows.
Qed.

Lemma referenceFEF_shear_sum (P a L : R) (sr er : MemberRelease) :
  L <> 0 ->
  vget (referenceFEF P a L sr er) 0 = 0 /\
  vget (referenceFEF P a L sr er) 3 = 0 /\
  vget (referenceFEF P a L sr er) 1 + vget (referenceFEF P a L sr er) 4 = - P.
Proof.
  intros HL. destruct sr, er; cbn; repeat split; try reflexivity; field; exact HL.
Qed.

Lemma loadForces_vertical (nodes : list Node) (m : Member) (l : Load) :
  memberOk nodes m ->
  vget (loadForces nodes m l) 1 + vget (loadForces nodes m l) 4 =
  - (magnitude l * memberCosine nodes m).
Proof.
  intros [sN [eN [Hs [He HL]]]]. unfold loadForces, memberCosine. rewrite Hs, He.
  destruct (global_FEF_reference m l sN eN) as [g [Hg [_ Hgi]]]. rewrite Hg. cbn [value].
  rewrite (Hgi 1%nat), (Hgi 4%nat) by lia.
  destruct (cos_sin_atan2 _ _ HL) as [Hc _]. rewrite Hc.
  change (sqrt _) with (memberLength sN eN).
  destruct (referenceFEF_shear_sum (magnitude l) (position l) (memberLength sN eN)
              (startRelease m) (endRelease m) HL) as [H0 [H3 H14]].
  unfold referenceGlobalFEF, sum6. cbn [seq map]. rewrite !Rsum_cons, Rsum_nil.
  cbn [rotationEntry atEnd kindOf Nat.leb Nat.modulo Nat.divmod Bool.eqb fst snd Nat.sub].
  rewrite H0, H3.
  set (f1 := vget _ 1) in *. set (f4 := vget _ 4) in *.
  replace f4 with (- magnitude l - f1) by lra. ring.
Qed.

Lemma member_vertical_resultant (nodes : list Node) (loads : list Load) (d : Column)
    (m : Member) :
  memberOk nodes m ->
  vget (endForces nodes loads d m) 1 + vget (endForces nodes loads d m) 4 =
  Rsum (map (fun l => - (magnitude l * memberCosine nodes m)) (loadsOn loads m)).
Proof.
  intros Hok. rewrite !endForces_entry by (assumption || lia).
  match goal with
  | |- sum6 ?f + ?x + (sum6 ?g + ?y) = _ =>
      replace (sum6 f + x + (sum6 g + y)) with ((sum6 f + sum6 g) + (x + y)) by lra
  end.
  unfold sum6. rewrite <- !Rsum_map_plus.
  rewrite (Rsum_map_ext _ (fun _ => 0)).
  - rewrite Rsum_map_zero, Rplus_0_l. apply Rsum_map_ext.
    intros l _. now apply loadForces_vertical.
  - intros j Hj. apply in_seq in Hj.
    rewrite <- Rmult_plus_distr_r, memberStiffness_vertical_rows by (assumption || lia).
    lra.
Qed.

(** Summing the vertical rows of all nodes collects each member's two end
    shears exactly once. *)
Lemma vertical_rows_total (nodes : list Node) (members : list Member) (loads : list Load)
    (d : Column) :
  Forall (memberOk nodes) members -> Forall (loadOk members) loads ->
  NoDup (map member_id members) ->
  Rsum (map (fun k =>
          Rsum (map (fun m => rowPick (memberDofs nodes m) (k * 3 + 1)
                                (vget (endForces nodes loads d m))) members))
          (seq 0 (List.length nodes))) =
  - Rsum (map (loadVertical nodes members) loads).
Proof.
  intros Hms Hls Hnd. rewrite Rsum_swap.
  rewrite (Rsum_map_ext _
    (fun m => Rsum (map (fun l => - (magnitude l * memberCosine nodes m)) (loadsOn loads m)))).
  - rewrite (loads_by_member members loads
      (fun m l => - (magnitude l * memberCosine nodes m))) by assumption.
    unfold loadVertical. now rewrite Rsum_map_opp.
  - intros m Hm. rewrite Forall_forall in Hms. specialize (Hms m Hm).
    rewrite <- (member_vertical_resultant nodes loads d m Hms).
    destruct (memberOk_dofs nodes m Hms)
      as [sN [eN [i [j [_ [_ [_ [_ [_ [Hi [Hj [Hd _]]]]]]]]]]]].
    rewrite Hd.
    rewrite (Rsum_map_ext _
      (fun k => (if (k =? i)%nat then vget (endForces nodes loads d m) 1 else 0)
                + (if (k =? j)%nat then vget (endForces nodes loads d m) 4 else 0))).
    2:{ intros k _. apply rowPick_vertical. }
    rewrite Rsum_map_plus.
    rewrite (Rsum_pick (fun _ => vget (endForces nodes loads d m) 1)).
    rewrite (Rsum_pick (fun _ => vget (endForces nodes loads d m) 4)).
    cbn [Nat.leb andb].
    destruct (Nat.ltb_spec i (0 + List.length nodes)); [ | lia ].
    destruct (Nat.ltb_spec j (0 + List.length nodes)); [ | lia ].
    reflexivity.
Qed.

(** ** The reaction table *)

Lemma table_set_keys {V} (k : string) (v : V) (t : table V) (x : string) :
  In x (map fst (table_set k v t)) <-> x = k \/ In x (map fst t).
Proof.
  induction t as [|[k' v'] t IH]; cbn.
  - intuition.
  - destruct (String.eqb_spec k' k) as [-> | Hne]; cbn.
    + intuition.
    + rewrite IH. intuition.
Qed.

Lemma table_set_NoDup {V} (k : string) (v : V) (t : table V) :
  NoDup (map fst t) -> NoDup (map fst (table_set k v t)).
Proof.
  induction t as [|[k' v'] t IH]; cbn; intros Hnd.
  - constructor; [ intros [] | constructor ].
  - inversion Hnd as [|x xs Hni Hnd']. subst.
    destruct (String.eqb_spec k' k) as [-> | Hne]; cbn.
    + now constructor.
    + constructor; [ | now apply IH ].
      rewrite table_set_keys. intros [-> | H]; [ now apply Hne | contradiction ].
Qed.

Lemma table_set_entries {V} (k : string) (v : V) (t : table V) (x : string) (w : V) :
  In (x, w) (table_set k v t) -> (x = k /\ w = v) \/ In (x, w) t.
Proof.
  induction t as [|[k' v'] t IH]; cbn.
  - intros [[= <- <-] | []]. now left.
  - destruct (String.eqb_spec k' k) as [-> | Hne]; cbn.
    + intros [[= <- <-] | H]; [ now left | right; now right ].
    + intros [H | H]; [ right; now left | ].
      destruct (IH H) as [H' | H']; [ now left | right; now right ].
Qed.

Lemma reactionTable_invariant (nodes : list Node) (members : list Member)
    (loads : list Load) (d : Column) (supports : list Support) (t : table Reaction) :
  Forall (memberOk nodes) members ->
  NoDup (map fst t) ->
  (forall id v, In (id, v) t ->
     exists k, nodeIndex nodes id = Some k /\ Fy v = nodeVertical nodes members loads d k) ->
  let t' := reactionTable nodes members supports loads d t in
  NoDup (map fst t') /\
  (forall id v, In (id, v) t' ->
     exists k, nodeIndex nodes id = Some k /\ Fy v = nodeVertical nodes members loads d k) /\
  (forall id, In id (map fst t') <->
     In id (map fst t) \/
     exists s, In s supports /\ nodeId s = id /\ findNode nodes id <> None).
Proof.
  intros Hms. revert t. unfold reactionTable.
  induction supports as [|s supports IH]; intros t Hnd Hent; cbn [fold_left].
  - split; [ exact Hnd | ]. split; [ exact Hent | ].
    intros id. split; [ now left | ]. intros [H | [s [[] _]]]. exact H.
  - destruct (findNode nodes (nodeId s)) as [node|] eqn:Hs.
    + pose proof (findNode_some _ _ _ Hs) as [_ Hid].
      destruct (findNode_nodeIndex _ _ _ Hs) as [k [Hk _]].
      destruct (IH (table_set (node_id node) (reactionOf nodes members loads d node) t))
        as [H1 [H2 H3]].
      * now apply table_set_NoDup.
      * intros id v Hin. apply table_set_entries in Hin.
        destruct Hin as [[-> ->] | Hin]; [ | now apply Hent ].
        exists k. rewrite Hid. split; [ exact Hk | ].
        apply reactionOf_Fy; [ exact Hms | now rewrite Hid ].
      * split; [ exact H1 | ]. split; [ exact H2 | ].
        intros id. rewrite H3, table_set_keys. split.
        -- intros [[-> | H] | [s' [Hs' Hr]]].
           ++ right. exists s. rewrite Hid. split; [ now left | ]. split; [ reflexivity | ].
              congruence.
           ++ now left.
           ++ right. exists s'. split; [ now right | exact Hr ].
        -- intros [H | [s' [[<- | Hs'] [Hr1 Hr2]]]].
           ++ left. now right.
           ++ left. left. now rewrite <- Hr1, Hid.
           ++ right. exists s'. auto.
    + destruct (IH t Hnd Hent) as [H1 [H2 H3]].
      split; [ exact H1 | ]. split; [ exact H2 | ].
      intros id. rewrite H3. split.
      * intros [H | [s' [Hs' Hr]]]; [ now left | ]. right. exists s'. split; [ now right | exact Hr ].
      * intros [H | [s' [[<- | Hs'] [Hr1 Hr2]]]]; [ now left | | right; exists s'; auto ].
        subst id. contradiction.
Qed.

Lemma supportedIndex_spec (nodes : list Node) (supports : list Support) (k : nat) :
  supportedIndex nodes supports k = true <->
  exists s, In s supports /\ nodeIndex nodes (nodeId s) = Some k.
Proof.
  unfold supportedIndex. rewrite existsb_exists. split; intros [s [Hs H]]; exists s;
    (split; [ exact Hs | ]).
  - destruct (nodeIndex nodes (nodeId s)); [ | discriminate ].
    apply Nat.eqb_eq in H. now subst.
  - rewrite H. apply Nat.eqb_refl.
Qed.

Lemma findNode_resolved_index (nodes : list Node) (id : string) :
  findNode nodes id <> None <-> exists k, nodeIndex nodes id = Some k.
Proof.
  split.
  - intros H. destruct (findNode nodes id) as [n|] eqn:E; [ | contradiction ].
    destruct (findNode_nodeIndex _ _ _ E) as [k [Hk _]]. now exists k.
  - intros [k Hk] H. apply (lastIndexFrom_none id nodes 0%nat) in H.
    unfold nodeIndex in Hk. congruence.
Qed.

Lemma NoDup_map_injective {X Y} (f : X -> Y) (l : list X) :
  (forall a b, In a l -> In b l -> f a = f b -> a = b) ->
  NoDup l -> NoDup (map f l).
Proof.
  intros Hinj Hnd. induction Hnd as [|x l Hni Hnd IH]; cbn [map]; constructor.
  - rewrite in_map_iff. intros [y [Hy Hin]].
    assert (y = x) by (apply Hinj; [ now right | now left | exact Hy ]).
    subst y. contradiction.
  - apply IH. intros a b Ha Hb. apply Hinj; now right.
Qed.

(** The vertical reactions reported add up the vertical rows of the
    supported nodes. *)
Lemma reactionTable_sumFy (nodes : list Node) (members : list Member)
    (supports : list Support) (loads : list Load) (d : Column) :
  Forall (memberOk nodes) members ->
  sumFy (reactionTable nodes members supports loads d []) =
  Rsum (map (fun k => if supportedIndex nodes supports k
                      then nodeVertical nodes members loads d k else 0)
          (seq 0 (List.length nodes))).
Proof.
  intros Hms.
  destruct (reactionTable_invariant nodes members loads d supports [] Hms)
    as [Hnd [Hent Hkeys]].
  { constructor. }
  { intros id v []. }
  set (t := reactionTable nodes members supports loads d []) in *.
  rewrite <- Rsum_filter.
  assert (Hsum : sumFy t =
            Rsum (map (nodeVertical nodes members loads d)
                    (map (indexOr0 nodes) (map fst t)))).
  { unfold sumFy. rewrite !map_map. apply Rsum_map_ext. intros [id v] Hin. cbn [fst snd].
    destruct (Hent id v Hin) as [k [Hk ->]]. unfold indexOr0. now rewrite Hk. }
  rewrite Hsum. apply Rsum_permutation, Permutation_map. apply NoDup_Permutation.
  - apply NoDup_map_injective; [ | exact Hnd ].
    intros a b Ha Hb Hab.
    apply Hkeys in Ha, Hb.
    destruct Ha as [[] | [sa [_ [_ Ha]]]]. destruct Hb as [[] | [sb [_ [_ Hb]]]].
    apply findNode_resolved_index in Ha, Hb.
    destruct Ha as [ka Ha], Hb as [kb Hb]. unfold indexOr0 in Hab.
    rewrite Ha, Hb in Hab. subst kb. apply (nodeIndex_inj nodes a b ka Ha Hb).
  - apply NoDup_filter, seq_NoDup.
  - intros k. rewrite in_map_iff, filter_In, in_seq, supportedIndex_spec. split.
    + intros [id [Hk Hin]]. apply Hkeys in Hin.
      destruct Hin as [[] | [s [Hs [Hid Hr]]]].
      apply findNode_resolved_index in Hr. destruct Hr as [k' Hk'].
      unfold indexOr0 in Hk. rewrite Hk' in Hk. subst k'.
      split; [ apply nodeIndex_bound in Hk'; lia | ].
      exists s. split; [ exact Hs | now rewrite Hid ].
    + intros [_ [s [Hs Hk]]]. exists (nodeId s). split.
      * unfold indexOr0. now rewrite Hk.
      * apply Hkeys. right. exists s. split; [ exact Hs | ]. split; [ reflexivity | ].
        apply findNode_resolved_index. now exists k.
Qed.

(** ** Global vertical equilibrium *)

Lemma vertical_row_free (nodes : list Node) (supports : list Support) (k : nat) :
  (k < List.length nodes)%nat ->
  supportedIndex nodes supports k = false ->
  In (k * 3 + 1)%nat (finalFreeDOFs nodes (initializeDOF nodes) supports).
Proof.
  intros Hk Hun. apply finalFreeDOFs_in. split; [ unfold totalDOF; lia | ].
  intros [s [Hs Hin]].
  destruct (nodeIndex nodes (nodeId s)) as [k'|] eqn:Hk'.
  - rewrite (supportConstraints_indexed nodes s k' Hk') in Hin.
    assert (k' = k).
    { destruct (type s); cbn [In] in Hin;
        repeat match goal with
               | H : _ \/ _ |- _ => destruct H
               | H : Some _ = Some _ |- _ => injection H as H
               | H : False |- _ => contradiction
               end; lia. }
    subst k'.
    assert (Hsup : supportedIndex nodes supports k = true).
    { apply supportedIndex_spec. now exists s. }
    congruence.
  - apply (lastIndexFrom_none _ _ 0%nat) in Hk'.
    apply (supportConstraints_unresolved nodes s _ Hk') in Hin. discriminate.
Qed.

Section Equilibrium.

Variable inv : matrix -> option matrix.
Hypothesis inv_sound : invContract inv.

Lemma unsupported_node_balanced (nodes : list Node) (members : list Member)
    (supports : list Support) (loads : list Load) (d : Column) (k : nat) :
  Forall (memberOk nodes) members -> Forall (loadOk members) loads ->
  NoDup (map member_id members) ->
  solveDisplacements inv
    (stabilize (totalDOF nodes) (assembledK nodes members zeros2))
    (assembledF nodes members loads zeros1)
    (finalFreeDOFs nodes (initializeDOF nodes) supports) = Return d ->
  (forall id k, nodeIndex nodes id = Some k ->
     (forall s, In s supports -> nodeId s <> id) ->
     (exists m, In m members /\ (startNodeId m = id \/ endNodeId m = id)) ->
     1e-9 <= Rabs (assembledK nodes members zeros2 (k * 3 + 1)%nat (k * 3 + 1)%nat)) ->
  (k < List.length nodes)%nat ->
  supportedIndex nodes supports k = false ->
  nodeVertical nodes members loads d k = 0.
Proof.
  intros Hms Hls Hnd Hd Hreg Hk Hun.
  set (K := assembledK nodes members zeros2) in *.
  set (r := (k * 3 + 1)%nat).
  assert (Hunsup : forall id, nodeIndex nodes id = Some k ->
                     forall s, In s supports -> nodeId s <> id).
  { intros id Hid s Hs Heq.
    assert (supportedIndex nodes supports k = true).
    { apply supportedIndex_spec. exists s. split; [ exact Hs | now rewrite Heq ]. }
    congruence. }
  destruct (Rlt_dec (Rabs (K r r)) 1e-9) as [Hsmall | Hbig].
  - (* the row was regularised: no member is attached to the node *)
    unfold nodeVertical. rewrite (Rsum_map_ext _ (fun _ => 0)); [ apply Rsum_map_zero | ].
    intros m Hm. rewrite Forall_forall in Hms.
    destruct (memberOk_dofs nodes m (Hms m Hm))
      as [sN [eN [i [j [_ [_ [_ [Hi [Hj [_ [_ [Hdofs _]]]]]]]]]]]].
    rewrite Hdofs, rowPick_vertical.
    destruct (Nat.eqb_spec k i) as [-> | _].
    { exfalso. apply (Rlt_not_le _ _ Hsmall).
      apply (Hreg (startNodeId m) i Hi (Hunsup _ Hi)). exists m. auto. }
    destruct (Nat.eqb_spec k j) as [-> | _].
    { exfalso. apply (Rlt_not_le _ _ Hsmall).
      apply (Hreg (endNodeId m) j Hj (Hunsup _ Hj)). exists m. auto. }
    lra.
  - (* the row is the assembled one and the node is in equilibrium *)
    unfold nodeVertical. fold r. rewrite residual by assumption. fold K.
    pose proof (free_rows_solved inv inv_sound
                  (stabilize (totalDOF nodes) K) (assembledF nodes members loads zeros1)
                  (fun dof => negb (includes (constrainedDOFs (initializeDOF nodes) supports) dof))
                  (totalDOF nodes) d Hd r (vertical_row_free nodes supports k Hk Hun)) as Hrow.
    rewrite <- Hrow.
    match goal with |- ?a - ?b = 0 => cut (a = b); [ lra | ] end.
    apply Rsum_map_ext. intros c _. f_equal.
    rewrite stabilize_spec.
    destruct (Rlt_dec (Rabs (K r r)) 1e-9); [ contradiction | ].
    now rewrite andb_false_r.
Qed.

(** C1, as the code has it.  When member identities are unique, [solve]
    returns a result with a reaction table, and the regularisation did not
    replace the vertical stiffness of any unsupported node that carries a
    member, the vertical reactions add up to minus the vertical components
    of the applied loads. *)
Theorem C1_vertical_equilibrium (nodes : list Node) (members : list Member)
    (supports : list Support) (loads : list Load)
    (r : AnalysisResult) (t : table Reaction) (K : Matrix) :
  NoDup (map member_id members) ->
  solve inv nodes members supports loads = Return r ->
  reactions r = Some t ->
  assembleK nodes members (initializeDOF nodes) = Return K ->
  (forall id k, nodeIndex nodes id = Some k ->
     (forall s, In s supports -> nodeId s <> id) ->
     (exists m, In m members /\ (startNodeId m = id \/ endNodeId m = id)) ->
     1e-9 <= Rabs (K (k * 3 + 1)%nat (k * 3 + 1)%nat)) ->
  sumFy t = - Rsum (map (loadVertical nodes members) loads).
Proof.
  intros Hnd Hr Ht HK Hreg.
  destruct nodes as [|n ns].
  { cbn in Hr. injection Hr as <-. discriminate Ht. }
  assert (Hn : n :: ns <> []) by discriminate.
  destruct (solve_return inv _ _ _ _ r Hn Hr) as [Hms [Hls [d [Hd [_ Hreact]]]]].
  rewrite Hreact in Ht. injection Ht as <-.
  apply assembleK_return in HK. destruct HK as [_ ->].
  rewrite reactionTable_sumFy by assumption.
  rewrite <- (vertical_rows_total (n :: ns) members loads d) by assumption.
  apply Rsum_map_ext. intros k Hk. apply in_seq in Hk.
  fold (nodeVertical (n :: ns) members loads d k).
  destruct (supportedIndex (n :: ns) supports k) eqn:Hsup; [ reflexivity | ].
  symmetry. apply (unsupported_node_balanced (n :: ns) members supports loads d k);
    try assumption. lia.
Qed.

End Equilibrium.

Lemma ex_unsupported_not_regularised (id : string) (k : nat) :
  nodeIndex ex_nodes id = Some k ->
  (forall s, In s ex_supports -> nodeId s <> id) ->
  1e-9 <= Rabs (assembledK ex_nodes ex_members zeros2 (k * 3 + 1)%nat (k * 3 + 1)%nat).
Proof.
  intros Hk Hs. pose proof (nodeIndex_bound _ _ _ Hk) as Hlt. cbn in Hlt.
  destruct k as [|[|k]]; [ | | lia ].
  - exfalso. apply (Hs (mkSupport "s1" "n2" fixed 30)); [ now left | ].
    symmetry. apply (nodeIndex_inj ex_nodes id "n2" 0 Hk). reflexivity.
  - rewrite ex_K by (cbn; lia). cbn [beamMatrix mget nth Nat.mul Nat.add].
    rewrite Rabs_pos_eq; lra.
Qed.

Lemma C1_vertical_equilibrium_witness :
  exists r t,
    solve inv_small ex_nodes ex_members ex_supports ex_loads = Return r /\
    reactions r = Some t /\
    sumFy t = - Rsum (map (loadVertical ex_nodes ex_members) ex_loads).
Proof.
  destruct ex_solve_returns as [r Hr].
  destruct (solve_return inv_small ex_nodes ex_members ex_supports ex_loads r
              ex_nodes_nonempty Hr) as [_ [_ [d [_ [_ Ht]]]]].
  exists r. eexists. split; [ exact Hr | ]. split; [ exact Ht | ].
  refine (C1_vertical_equilibrium inv_small inv_small_contract ex_nodes ex_members
            ex_supports ex_loads r _ _ ex_members_unique Hr Ht
            (assembleK_ok ex_nodes ex_members zeros2 ex_members_ok) _).
  intros id k Hk Hs _. exact (ex_unsupported_not_regularised id k Hk Hs).
Defined.

Lemma ex_bar_ok : Forall (memberOk ex_nodes) ex_bar_members.
Proof.
  constructor; [ | constructor ].
  exists ex_left, ex_right. split; [ reflexivity | ]. split; [ reflexivity | ].
  rewrite ex_unit_length. lra.
Qed.

Lemma ex_bar_stiffness (i j : nat) :
  (i < 6)%nat -> (j < 6)%nat ->
  mget (memberStiffness ex_nodes ex_bar) i j = mget axialMatrix i j.
Proof.
  intros Hi Hj. unfold memberStiffness.
  change (findNode ex_nodes (startNodeId ex_bar)) with (Some ex_left).
  change (findNode ex_nodes (endNodeId ex_bar)) with (Some ex_right).
  unfold getMemberGlobalStiffnessMatrix.
  change (sqrt _) with (memberLength ex_left ex_right). rewrite ex_unit_length.
  destruct (Req_dec_T 1 0) as [H | _]; [ lra | ]. cbn [value].
  rewrite global_stiffness_entries by assumption.
  unfold referenceGlobalStiffness, sum6.
  do 6 (destruct i as [|i]; [ do 6 (destruct j as [|j]; [ cbn; field | ]); lia | ]). lia.
Qed.

Lemma ex_bar_K (r c : nat) :
  (r < 6)%nat -> (c < 6)%nat ->
  assembledK ex_nodes ex_bar_members zeros2 r c = mget axialMatrix r c.
Proof.
  intros Hr Hc. unfold assembledK, ex_bar_members. cbn [fold_left].
  rewrite addStiffness_spec.
  change (memberDofs ex_nodes ex_bar) with (nodeDofs 0 1).
  unfold zeros2, sum6. cbn [seq map]. rewrite !Rsum_cons, !Rsum_nil.
  do 6 (destruct r as [|r];
        [ do 6 (destruct c as [|c];
                [ cbn [nodeDofs nth Nat.eqb Nat.mul Nat.add andb];
                  rewrite ?ex_bar_stiffness by lia; cbn [axialMatrix mget nth]; lra | ]);
          lia | ]).
  lia.
Qed.

Lemma ex_bar_Kff :
  subset2 (stabilize (totalDOF ex_nodes) (assembledK ex_nodes ex_bar_members zeros2))
    [3; 4; 5]%nat [3; 4; 5]%nat =
  [ [1; 0; 0]; [0; 1; 0]; [0; 0; 1] ].
Proof.
  assert (H1 : ~ Rabs 1 < 1e-9) by (rewrite Rabs_R1; lra).
  assert (H0 : Rabs 0 < 1e-9) by (rewrite Rabs_R0; lra).
  unfold subset2. cbn [map]. rewrite !stabilize_spec, !ex_bar_K by lia.
  cbn [axialMatrix mget nth totalDOF ex_nodes List.length Nat.mul Nat.add Nat.eqb Nat.ltb
       Nat.leb andb].
  destruct (Rlt_dec (Rabs 1) 1e-9); [ contradiction | ].
  destruct (Rlt_dec (Rabs 0) 1e-9); [ | contradiction ].
  reflexivity.
Qed.

Lemma ex_bar_loadForces (i : nat) :
  (i < 6)%nat ->
  vget (loadForces ex_nodes ex_bar ex_mid_load) i = vget [0; 5; 0; 0; 5; 0] i.
Proof.
  intros Hi. unfold loadForces.
  change (findNode ex_nodes (startNodeId ex_bar)) with (Some ex_left).
  change (findNode ex_nodes (endNodeId ex_bar)) with (Some ex_right).
  destruct (global_FEF_reference ex_bar ex_mid_load ex_left ex_right) as [g [Hg [_ Hgi]]].
  rewrite Hg. cbn [value]. rewrite Hgi by assumption.
  assert (HL : sqrt ((node_x ex_right - node_x ex_left) * (node_x ex_right - node_x ex_left)
                     + (node_y ex_right - node_y ex_left) * (node_y ex_right - node_y ex_left))
               <> 0).
  { change (sqrt _) with (memberLength ex_left ex_right). rewrite ex_unit_length. lra. }
  destruct (cos_sin_atan2 _ _ HL) as [Hc Hs]. rewrite Hc, Hs.
  change (sqrt _) with (memberLength ex_left ex_right). rewrite ex_unit_length.
  unfold referenceGlobalFEF, sum6.
  do 6 (destruct i as [|i]; [ cbn; lra | ]). lia.
Qed.

Lemma ex_bar_solve_returns :
  exists d,
    solve inv_small ex_nodes ex_bar_members ex_supports ex_loads =
    calculateResults ex_nodes ex_bar_members ex_supports ex_loads
      (initializeDOF ex_nodes) d.
Proof.
  rewrite solve_accepted; [ | exact ex_nodes_nonempty | exact ex_bar_ok | ].
  2:{ constructor; [ discriminate | constructor ]. }
  change (finalFreeDOFs ex_nodes (initializeDOF ex_nodes) ex_supports)
    with [3; 4; 5]%nat.
  unfold solveDisplacements. rewrite ex_bar_Kff. unfold inv_small.
  destruct (Req_dec_T _ 0) as [H | _]; [ lra | ].
  cbn [bind]. eexists. reflexivity.
Qed.

(** C1 as stated fails: the bar is clamped at its left node only; [solve]
    returns, the one reported reaction has Fy = 5, and the load's vertical
    component is -10. *)
Lemma C1_regularised_node_unbalanced :
  exists r t,
    solve inv_small ex_nodes ex_bar_members ex_supports ex_loads = Return r /\
    reactions r = Some t /\
    sumFy t = 5 /\
    - Rsum (map (loadVertical ex_nodes ex_bar_members) ex_loads) = 10 /\
    sumFy t <> - Rsum (map (loadVertical ex_nodes ex_bar_members) ex_loads).
Proof.
  destruct ex_bar_solve_returns as [d Hsolve].
  destruct (calculateResults_ok ex_nodes ex_bar_members ex_supports ex_loads d ex_bar_ok)
    as [mf [dg Hc]].
  rewrite Hc in Hsolve.
  assert (HFy : sumFy (reactionTable ex_nodes ex_bar_members ex_supports ex_loads d []) = 5).
  { unfold reactionTable, ex_supports. cbn [fold_left].
    change (findNode ex_nodes (nodeId (mkSupport "s1" "n2" fixed 30))) with (Some ex_left).
    cbn [table_set]. unfold sumFy. cbn [map snd]. rewrite Rsum_cons, Rsum_nil.
    rewrite (reactionOf_Fy ex_nodes ex_bar_members ex_loads d ex_left 0 ex_bar_ok eq_refl).
    unfold ex_bar_members. cbn [map]. rewrite Rsum_cons, Rsum_nil.
    change (memberDofs ex_nodes ex_bar) with (nodeDofs 0 1).
    rewrite rowPick_vertical. cbn [Nat.eqb].
    rewrite endForces_entry by (lia || (apply Forall_inv with (l := []); exact ex_bar_ok)).
    change (loadsOn ex_loads ex_bar) with [ex_mid_load]. cbn [map].
    rewrite Rsum_cons, Rsum_nil, ex_bar_loadForces by lia.
    unfold sum6. cbn [seq map]. rewrite !Rsum_cons, Rsum_nil.
    rewrite !ex_bar_stiffness by lia. cbn [axialMatrix mget vget nth]. lra. }
  assert (HP : - Rsum (map (loadVertical ex_nodes ex_bar_members) ex_loads) = 10).
  { unfold ex_loads. cbn [map]. rewrite Rsum_cons, Rsum_nil.
    unfold loadVertical, memberCosine.
    change (memberOfLoad ex_bar_members ex_mid_load) with ex_bar.
    change (findNode ex_nodes (startNodeId ex_bar)) with (Some ex_left).
    change (findNode ex_nodes (endNodeId ex_bar)) with (Some ex_right).
    cbv beta iota. rewrite ex_unit_length.
    cbn [ex_mid_load magnitude ex_left ex_right node_x]. lra. }
  eexists. eexists. split; [ exact Hsolve | ]. cbn [reactions].
  split; [ reflexivity | ]. split; [ exact HFy | ]. split; [ exact HP | ].
  rewrite HFy, HP. lra.
Qed.

(** ** The shear diagram of a member drawn from right to left *)

Lemma ex_reversed_length : memberLength ex_right ex_left = 1.
Proof.
  unfold memberLength, ex_left, ex_right. cbn [node_x node_y].
  replace ((0 - 1) * (0 - 1) + (0 - 0) * (0 - 0)) with 1 by lra.
  apply sqrt_1.
Qed.

Lemma ex_reversed_ok : Forall (memberOk ex_reversed_nodes) [ex_reversed].
Proof.
  constructor; [ | constructor ].
  exists ex_right, ex_left. split; [ reflexivity | ]. split; [ reflexivity | ].
  rewrite ex_reversed_length. lra.
Qed.

Lemma ex_reversed_loadForces (i : nat) :
  (i < 6)%nat ->
  vget (loadForces ex_reversed_nodes ex_reversed ex_mid_load) i =
  vget [0; -5; 1.25; 0; -5; -1.25] i.
Proof.
  intros Hi. unfold loadForces.
  change (findNode ex_reversed_nodes (startNodeId ex_reversed)) with (Some ex_right).
  change (findNode ex_reversed_nodes (endNodeId ex_reversed)) with (Some ex_left).
  destruct (global_FEF_reference ex_reversed ex_mid_load ex_right ex_left) as [g [Hg [_ Hgi]]].
  rewrite Hg. cbn [value]. rewrite Hgi by assumption.
  assert (HL : sqrt ((node_x ex_left - node_x ex_right) * (node_x ex_left - node_x ex_right)
                     + (node_y ex_left - node_y ex_right) * (node_y ex_left - node_y ex_right))
               <> 0).
  { change (sqrt _) with (memberLength ex_right ex_left). rewrite ex_reversed_length. lra. }
  destruct (cos_sin_atan2 _ _ HL) as [Hc Hs]. rewrite Hc, Hs.
  change (sqrt _) with (memberLength ex_right ex_left). rewrite ex_reversed_length.
  unfold referenceGlobalFEF, sum6.
  do 6 (destruct i as [|i]; [ cbn; lra | ]). lia.
Qed.

Lemma endForces_length (nodes : list Node) (loads : list Load) (d : Column) (m : Member) :
  memberOk nodes m -> List.length (endForces nodes loads d m) = 6%nat.
Proof.
  intros Hok. unfold endForces. apply vadd_length.
  - unfold mat_vec. rewrite length_map. now apply memberStiffness_shape.
  - destruct (fixed_fold_entry nodes m (loadsOn loads m) [0; 0; 0; 0; 0; 0] 0 Hok eq_refl)
      as [H _]; [ lia | exact H ].
Qed.

Lemma ex_reversed_endForces (i : nat) :
  (i < 6)%nat ->
  vget (endForces ex_reversed_nodes ex_loads zeros1 ex_reversed) i =
  vget [0; -5; 1.25; 0; -5; -1.25] i.
Proof.
  intros Hi.
  rewrite endForces_entry by (assumption || (apply Forall_inv with (l := []); exact ex_reversed_ok)).
  change (loadsOn ex_loads ex_reversed) with [ex_mid_load]. cbn [map].
  rewrite Rsum_cons, Rsum_nil, ex_reversed_loadForces by assumption.
  unfold sum6, zeros1. rewrite (Rsum_map_ext _ (fun _ => 0)) by (intros; lra).
  rewrite Rsum_map_zero. lra.
Qed.

Lemma ex_reversed_local_forces (i : nat) :
  (i < 6)%nat ->
  vget (mat_vec (transformation ((0 - 1) / 1) ((0 - 0) / 1))
          (endForces ex_reversed_nodes ex_loads zeros1 ex_reversed)) i =
  vget [0; 5; 1.25; 0; 5; -1.25] i.
Proof.
  intros Hi.
  assert (Hlen : List.length (endForces ex_reversed_nodes ex_loads zeros1 ex_reversed) = 6%nat).
  { apply endForces_length. apply Forall_inv with (l := []). exact ex_reversed_ok. }
  rewrite mat_vec_entry.
  - rewrite Hlen. cbn [seq map]. rewrite !Rsum_cons, Rsum_nil, !ex_reversed_endForces by lia.
    do 6 (destruct i as [|i]; [ cbn; lra | ]). lia.
  - cbn. lia.
  - rewrite Hlen. repeat constructor.
Qed.

Lemma ex_reversed_result :
  memberResultOf ex_reversed_nodes ex_loads zeros1 ex_reversed =
  let T := transformation ((0 - 1) / 1) ((0 - 0) / 1) in
  let f_local := mat_vec T (endForces ex_reversed_nodes ex_loads zeros1 ex_reversed) in
  let d_member_local :=
    mat_vec T (memberDisplacements ex_reversed_nodes zeros1 ex_reversed) in
  ({| axial := vget f_local 0;
      shearStart := vget f_local 1;
      momentStart := vget f_local 2;
      shearEnd := - vget f_local 4;
      momentEnd := - vget f_local 5 |},
   memberDiagram ex_loads ex_reversed (0 - 1) (0 - 0) 1 f_local d_member_local).
Proof.
  unfold memberResultOf.
  change (findNode ex_reversed_nodes (startNodeId ex_reversed)) with (Some ex_right).
  change (findNode ex_reversed_nodes (endNodeId ex_reversed)) with (Some ex_left).
  cbv beta iota zeta.
  change (sqrt _) with (memberLength ex_right ex_left). rewrite ex_reversed_length.
  reflexivity.
Qed.

(** C6.  For a clamped beam drawn from right to left with P = -10 at
    midspan, [solve] reports start shear 5 and end shear -5, yet the shear
    diagram at the end point x = L = 1 holds 5 - P = 15: the sampling loop
    added P * cos(theta) = 10 for the load it had passed, where the load's
    own transverse value P = -10 would have given the reported end shear. *)
Theorem C6_diagram_shear_uses_cosine :
  exists r D F,
    solve inv_small ex_reversed_nodes [ex_reversed] ex_clamped ex_loads = Return r /\
    table_get "m1" (diagrams r) = Some D /\
    table_get "m1" (memberForces r) = Some F /\
    shearStart F = 5 /\ shearEnd F = -5 /\
    In 1 (diag_x D) /\
    (forall k, (k < List.length (diag_x D))%nat ->
       nth k (diag_x D) 0 = 1 ->
       nth k (shear D) 0 = 15 /\
       nth k (shear D) 0 <> shearStart F + magnitude ex_mid_load).
Proof.
  assert (Hsolve :
    solve inv_small ex_reversed_nodes [ex_reversed] ex_clamped ex_loads =
    calculateResults ex_reversed_nodes [ex_reversed] ex_clamped ex_loads
      (initializeDOF ex_reversed_nodes) zeros1).
  { rewrite solve_accepted.
    - change (finalFreeDOFs ex_reversed_nodes (initializeDOF ex_reversed_nodes) ex_clamped)
        with (@nil nat). reflexivity.
    - discriminate.
    - exact ex_reversed_ok.
    - constructor; [ discriminate | constructor ]. }
  rewrite calculateResults_value in Hsolve by exact ex_reversed_ok.
  eexists.
  exists (snd (memberResultOf ex_reversed_nodes ex_loads zeros1 ex_reversed)).
  exists (fst (memberResultOf ex_reversed_nodes ex_loads zeros1 ex_reversed)).
  split; [ exact Hsolve | ].
  split; [ reflexivity | ]. split; [ reflexivity | ].
  rewrite ex_reversed_result. cbv zeta. cbn [fst snd shearStart shearEnd].
  rewrite !ex_reversed_local_forces by lia. cbn [vget nth].
  split; [ reflexivity | ]. split; [ lra | ].
  split; [ unfold memberDiagram; cbn [diag_x]; apply sortedPoints_end | ].
  intros k Hk Hx. unfold memberDiagram in *. cbn [diag_x shear] in *.
  rewrite map_map.
  match goal with
  | |- context [map (fun x => fst (fst (?pt x))) _] =>
      rewrite (nth_indep _ 0 (fst (fst (pt 0)))) by (now rewrite length_map);
      rewrite (map_nth (fun x => fst (fst (pt x)))); rewrite Hx;
      match pt with
      | diagramPoint ?ls ?m ?dx ?dy ?f ?v1 ?th =>
          destruct (diagramPoint_shear_moment ls m dx dy f v1 th 1) as [HV _]
      end
  end.
  rewrite HV. rewrite ex_reversed_local_forces by lia.
  change (loadsOn ex_loads ex_reversed) with [ex_mid_load]. cbn [filter position ex_mid_load].
  destruct (Rlt_dec 0.5 1) as [_ | Hn]; [ | lra ].
  cbn [map magnitude]. rewrite Rsum_cons, Rsum_nil, atan2_reversed, cos_PI.
  cbn [vget nth]. change (magnitude ex_mid_load) with (-10). split; lra.
Qed.

(** ** Diagrams of a returned result *)

Lemma table_get_in {V} (k : string) (v : V) (t : table V) :
  table_get k t = Some v -> In (k, v) t.
Proof.
  induction t as [|[k' v'] t IH]; cbn; [ discriminate | ].
  destruct (String.eqb_spec k' k) as [-> | _].
  - intros [= ->]. now left.
  - intros H. right. now apply IH.
Qed.

Lemma memberTables_entries (nodes : list Node) (members : list Member) (loads : list Load)
    (d : Column) (acc : table MemberForce * table Diagram) (id : string) (D : Diagram) :
  In (id, D) (snd (memberTables nodes members loads d acc)) ->
  In (id, D) (snd acc) \/
  exists m, In m members /\ member_id m = id /\ D = snd (memberResultOf nodes loads d m).
Proof.
  unfold memberTables. revert acc.
  induction members as [|m members IH]; intros acc; cbn [fold_left]; [ now left | ].
  intros H. apply IH in H. cbn [snd] in H. destruct H as [H | [m' [Hm' H]]].
  - apply table_set_entries in H. destruct H as [[-> ->] | H]; [ | now left ].
    right. exists m. split; [ now left | now split ].
  - right. exists m'. split; [ now right | exact H ].
Qed.

Section ReturnedDiagrams.

Variable inv : matrix -> option matrix.

(** C7.  In a returned result, the deflection diagram of a member with a
    pinned start does not use the solved start rotation: its initial slope
    is the unique solution of "deflection formula at x = L gives v2", v2
    being the solved local transverse translation of the end node, so the
    diagram's value at x = L is v2; with a rigid start the initial slope is
    the solved local start rotation.  The statements about deflections are
    for a member with E I <> 0, where the factor 1 / (E I) of the deflection
    formula is a number. *)
Theorem C7_initial_slope (nodes : list Node) (members : list Member)
    (supports : list Support) (loads : list Load)
    (r : AnalysisResult) (id : string) (D : Diagram) :
  solve inv nodes members supports loads = Return r ->
  table_get id (diagrams r) = Some D ->
  exists m startNode endNode d_global,
    In m members /\ member_id m = id /\
    findNode nodes (startNodeId m) = Some startNode /\
    findNode nodes (endNodeId m) = Some endNode /\
    nodeDisplacements r = displacementTable nodes d_global /\
    let dx := node_x endNode - node_x startNode in
    let dy := node_y endNode - node_y startNode in
    let L := memberLength startNode endNode in
    let T := transformation (dx / L) (dy / L) in
    let d_member_local := mat_vec T (memberDisplacements nodes d_global m) in
    let f_local := mat_vec T (endForces nodes loads d_global m) in
    let v1 := vget d_member_local 1 in
    let th1 := vget d_member_local 2 in
    let v2 := vget d_member_local 4 in
    let th := theta_start loads m dx dy L f_local v1 th1 v2 in
    L <> 0 /\
    diag_x D = sortedPoints loads m L /\
    In L (diag_x D) /\
    (startRelease m = rigid -> th = th1) /\
    (prop_E (properties m) * prop_I (properties m) <> 0 ->
     displacement D =
       map (fun x => snd (diagramPoint loads m dx dy f_local v1 th x)) (diag_x D) /\
     (startRelease m = pinned ->
        (forall slope,
           snd (diagramPoint loads m dx dy f_local v1 slope L) = v2 <-> slope = th) /\
        forall k, (k < List.length (diag_x D))%nat ->
          nth k (diag_x D) 0 = L -> nth k (displacement D) 0 = v2)).
Proof.
  intros Hr HD.
  destruct nodes as [|n ns].
  { cbn in Hr. injection Hr as <-. discriminate HD. }
  assert (Hn : n :: ns <> []) by discriminate.
  destruct (solve_return inv _ _ _ _ r Hn Hr) as [Hms [Hls [d [Hd [Hdisp _]]]]].
  rewrite solve_accepted, Hd in Hr by assumption. cbn [bind] in Hr.
  rewrite calculateResults_value in Hr by assumption. injection Hr as <-.
  cbn [diagrams] in HD. apply table_get_in, memberTables_entries in HD.
  destruct HD as [[] | [m [Hm [Hid HD]]]].
  rewrite Forall_forall in Hms. destruct (Hms m Hm) as [sN [eN [Hs [He HL]]]].
  exists m, sN, eN, d.
  split; [ exact Hm | ]. split; [ exact Hid | ]. split; [ exact Hs | ].
  split; [ exact He | ]. split; [ reflexivity | ].
  unfold memberResultOf in HD. rewrite Hs, He in HD. cbn [snd] in HD.
  change (sqrt _) with (memberLength sN eN) in HD.
  cbv zeta. subst D.
  pose proof (initial_slope_compatibility loads m
              (node_x eN - node_x sN) (node_y eN - node_y sN) (memberLength sN eN)
              (mat_vec (transformation ((node_x eN - node_x sN) / memberLength sN eN)
                          ((node_y eN - node_y sN) / memberLength sN eN))
                 (endForces (n :: ns) loads d m))
              (mat_vec (transformation ((node_x eN - node_x sN) / memberLength sN eN)
                          ((node_y eN - node_y sN) / memberLength sN eN))
                 (memberDisplacements (n :: ns) d m))) as H.
  cbv zeta in H. destruct (H HL) as [H1 [H2 H3]].
  split; [ exact HL | ]. split; [ reflexivity | ].
  split; [ unfold memberDiagram; cbn [diag_x]; apply sortedPoints_end | ].
  split; [ exact H2 | ].
  intros _. split; [ exact H1 | ].
  intros Hrel. destruct (H3 Hrel) as [Hu [_ Hk]]. split; [ exact Hu | exact Hk ].
Qed.

End ReturnedDiagrams.

Lemma C7_initial_slope_witness :
  exists r D,
    solve inv_small ex_nodes ex_bar_members ex_supports ex_loads = Return r /\
    table_get "m1" (diagrams r) = Some D /\
    exists L v2,
      L <> 0 /\ In L (diag_x D) /\
      forall k, (k < List.length (diag_x D))%nat ->
        nth k (diag_x D) 0 = L -> nth k (displacement D) 0 = v2.
Proof.
  destruct ex_bar_solve_returns as [d Hd].
  rewrite (calculateResults_value _ _ _ _ d ex_bar_ok) in Hd.
  exists {| nodeDisplacements := displacementTable ex_nodes d;
            memberForces := fst (memberTables ex_nodes ex_bar_members ex_loads d ([], []));
            diagrams := snd (memberTables ex_nodes ex_bar_members ex_loads d ([], []));
            reactions := Some (reactionTable ex_nodes ex_bar_members ex_supports ex_loads d []) |}.
  exists (snd (memberResultOf ex_nodes ex_loads d ex_bar)).
  split; [ exact Hd | ].
  assert (HD : table_get "m1"
                 (snd (memberTables ex_nodes ex_bar_members ex_loads d ([], []))) =
               Some (snd (memberResultOf ex_nodes ex_loads d ex_bar))) by reflexivity.
  split; [ exact HD | ].
  destruct (C7_initial_slope inv_small _ _ _ _ _ "m1" _ Hd HD)
    as [m [sN [eN [d' [Hm [_ [_ [_ [_ H]]]]]]]]].
  cbv zeta in H. destruct H as [HL [_ [Hin [_ Hdefl]]]].
  destruct Hm as [<- | []].
  assert (HEI : prop_E (properties ex_bar) * prop_I (properties ex_bar) <> 0).
  { cbn. lra. }
  destruct (Hdefl HEI) as [_ Hpin].
  destruct (Hpin eq_refl) as [_ Hk].
  eexists. eexists. split; [ exact HL | ]. split; [ exact Hin | exact Hk ].
Defined.

(** * Further properties of the solver and its callers *)

(** ** The degree-of-freedom numbering *)

Lemma lastIndexFrom_last (nodes : list Node) (i start : nat) (n : Node) :
  nth_error nodes i = Some n ->
  (forall j n', (i < j)%nat -> nth_error nodes j = Some n' -> node_id n' <> node_id n) ->
  lastIndexFrom (node_id n) nodes start = Some (start + i)%nat.
Proof.
  revert i start. induction nodes as [|a ns IH]; intros i start Hn Hlater.
  - destruct i; discriminate Hn.
  - destruct i as [|i]; cbn [nth_error lastIndexFrom] in *.
    + injection Hn as ->.
      destruct (lastIndexFrom (node_id n) ns (S start)) as [k|] eqn:Hk.
      * exfalso. apply lastIndexFrom_nth in Hk. destruct Hk as [n' [Hn' Hid]].
        apply (Hlater (S (k - S start)) n'); [ lia | exact Hn' | exact Hid ].
      * rewrite String.eqb_refl. f_equal. lia.
    + rewrite (IH i (S start) Hn).
      * f_equal. lia.
      * intros j n' Hj Hn'. apply (Hlater (S j) n'); [ lia | exact Hn' ].
Qed.

(** X1.  [initializeDOF] gives the node at position [i] the three unknowns
    3i ("x"), 3i+1 ("y") and 3i+2 ("r"); when several nodes share an identity
    the last one owns the entries (each [Map.set] overwrites). *)
Theorem dof_lookup_by_position (nodes : list Node) (i : nat) (n : Node) :
  nth_error nodes i = Some n ->
  (forall j n', (i < j)%nat -> nth_error nodes j = Some n' -> node_id n' <> node_id n) ->
  table_get (dofKey (node_id n) "x") (initializeDOF nodes) = Some (i * 3)%nat /\
  table_get (dofKey (node_id n) "y") (initializeDOF nodes) = Some (i * 3 + 1)%nat /\
  table_get (dofKey (node_id n) "r") (initializeDOF nodes) = Some (i * 3 + 2)%nat.
Proof.
  intros Hn Hlater.
  pose proof (lastIndexFrom_last nodes i 0 n Hn Hlater) as Hk.
  rewrite !dofMap_get by (apply isKind_x || apply isKind_y || apply isKind_r).
  unfold nodeIndex. rewrite Hk. cbn [option_map Nat.add].
  repeat split; f_equal; cbn; lia.
Qed.

Lemma dof_lookup_by_position_witness :
  table_get (dofKey "n1" "x") (initializeDOF ex_nodes) = Some 3%nat /\
  table_get (dofKey "n1" "y") (initializeDOF ex_nodes) = Some 4%nat /\
  table_get (dofKey "n1" "r") (initializeDOF ex_nodes) = Some 5%nat.
Proof.
  apply (dof_lookup_by_position ex_nodes 1 ex_right).
  - reflexivity.
  - intros j n' Hj Hn'. destruct j as [|[|[|j]]]; try lia; discriminate Hn'.
Defined.

Lemma nodeIndex_defined (nodes : list Node) (id : string) :
  nodeIndex nodes id <> None <-> exists n, In n nodes /\ node_id n = id.
Proof.
  unfold nodeIndex. rewrite lastIndexFrom_none. split.
  - intros H. destruct (findNode nodes id) as [n|] eqn:Hn; [ | contradiction ].
    exists n. now apply findNode_some.
  - intros [n [Hin Hid]] Hnone. unfold findNode in Hnone.
    apply (find_none _ _ Hnone) in Hin. rewrite Hid, String.eqb_refl in Hin.
    discriminate Hin.
Qed.

Lemma nodeIndex_position (nodes : list Node) (k : nat) (n : Node) :
  NoDup (map node_id nodes) -> nth_error nodes k = Some n ->
  nodeIndex nodes (node_id n) = Some k.
Proof.
  intros Hnd Hn. unfold nodeIndex.
  rewrite (lastIndexFrom_last nodes k 0 n Hn); [ reflexivity | ].
  intros j n' Hj Hn' Hid.
  assert (Hk : nth_error (map node_id nodes) k = Some (node_id n))
    by (now rewrite nth_error_map, Hn).
  assert (Hj' : nth_error (map node_id nodes) j = Some (node_id n))
    by (rewrite nth_error_map, Hn'; cbn [option_map]; now rewrite Hid).
  assert (Hlt : (k < List.length (map node_id nodes))%nat)
    by (apply nth_error_Some; rewrite Hk; discriminate).
  pose proof (proj1 (NoDup_nth_error (map node_id nodes)) Hnd k j Hlt) as Heq.
  rewrite Hk, Hj' in Heq. specialize (Heq eq_refl). lia.
Qed.

(** X2.  The numbering of [initializeDOF]: a lookup is defined exactly for
    the identities of the nodes, every index lies below [totalDOF], two
    different (identity, kind) pairs never share an index, and with distinct
    node identities every index below [totalDOF] is used. *)
Theorem dof_numbering (nodes : list Node) :
  let dofMap := initializeDOF nodes in
  (forall id kind, isKind kind ->
     (table_get (dofKey id kind) dofMap <> None <->
      exists n, In n nodes /\ node_id n = id)) /\
  (forall id kind v, isKind kind ->
     table_get (dofKey id kind) dofMap = Some v -> (v < totalDOF nodes)%nat) /\
  (forall id id' kind kind' v, isKind kind -> isKind kind' ->
     table_get (dofKey id kind) dofMap = Some v ->
     table_get (dofKey id' kind') dofMap = Some v ->
     id = id' /\ kind = kind') /\
  (NoDup (map node_id nodes) ->
   forall v, (v < totalDOF nodes)%nat ->
     exists n kind, In n nodes /\ isKind kind /\
       table_get (dofKey (node_id n) kind) dofMap = Some v).
Proof.
  cbv zeta. split; [ | split; [ | split ] ].
  - intros id kind Hk. rewrite dofMap_get by assumption.
    rewrite <- nodeIndex_defined.
    destruct (nodeIndex nodes id); cbn [option_map]; split; congruence.
  - intros id kind v Hk. rewrite dofMap_get by assumption.
    destruct (nodeIndex nodes id) as [k|] eqn:Hi; cbn [option_map]; [ | discriminate ].
    intros [= <-]. apply nodeIndex_bound in Hi. unfold totalDOF.
    destruct (kind_cases kind Hk) as [[_ ->] | [[_ ->] | [_ ->]]]; lia.
  - intros id id' kind kind' v Hk Hk'. rewrite !dofMap_get by assumption.
    destruct (nodeIndex nodes id) as [k|] eqn:Hi; cbn [option_map]; [ | discriminate ].
    destruct (nodeIndex nodes id') as [k'|] eqn:Hi'; cbn [option_map]; [ | discriminate ].
    intros [= <-] [= Hv].
    destruct (kind_cases kind Hk) as [[-> Ho] | [[-> Ho] | [-> Ho]]];
      destruct (kind_cases kind' Hk') as [[-> Ho'] | [[-> Ho'] | [-> Ho']]];
      cbn in Hv; try lia;
      (assert (k' = k) by lia; subst k';
       split; [ apply (nodeIndex_inj nodes _ _ k Hi Hi') | reflexivity ]).
  - intros Hnd v Hv. unfold totalDOF in Hv.
    assert (Hq : (v / 3 < List.length nodes)%nat)
      by (apply Nat.Div0.div_lt_upper_bound; lia).
    destruct (nth_error nodes (v / 3)) as [n|] eqn:Hn.
    2:{ apply nth_error_None in Hn. lia. }
    pose proof (nodeIndex_position nodes (v / 3) n Hnd Hn) as Hi.
    pose proof (Nat.div_mod_eq v 3) as Hdm.
    assert (Hm : (v mod 3 < 3)%nat) by (apply Nat.mod_upper_bound; lia).
    exists n.
    destruct (v mod 3)%nat as [|[|[|o]]] eqn:Ho; try lia;
      [ exists "x" | exists "y" | exists "r" ];
      (split; [ eapply nth_error_In; exact Hn | ]);
      (split; [ apply isKind_x || apply isKind_y || apply isKind_r | ]);
      rewrite dofMap_get by (apply isKind_x || apply isKind_y || apply isKind_r);
      rewrite Hi; cbn [option_map]; f_equal; cbn - [Nat.div Nat.modulo Nat.mul]; lia.
Qed.

(** ** Symmetry and rigid-body motions of the member stiffness *)

Lemma global_stiffness_symmetric (member : Member) (L c s : R) (i j : nat) :
  (i < 6)%nat -> (j < 6)%nat ->
  mget (multiply (multiply (transpose (transformation c s)) (k_local_vals member L))
          (transformation c s)) i j =
  mget (multiply (multiply (transpose (transformation c s)) (k_local_vals member L))
          (transformation c s)) j i.
Proof.
  intros Hi Hj. unfold k_local_vals.
  destruct (startRelease member), (endRelease member);
    do 6 (destruct i as [|i];
          [ do 6 (destruct j as [|j]; [ cbn; ring | ]); lia | ]); lia.
Qed.

(** X3.  The 6x6 global stiffness matrix returned for a member is symmetric,
    for every release combination and every orientation. *)
Theorem member_stiffness_symmetric (member : Member) (startNode endNode : option Node)
    (G : matrix) :
  getMemberGlobalStiffnessMatrix member startNode endNode = Return G ->
  forall i j, (i < 6)%nat -> (j < 6)%nat -> mget G i j = mget G j i.
Proof.
  unfold getMemberGlobalStiffnessMatrix.
  destruct startNode as [sN|], endNode as [eN|]; try discriminate.
  destruct (Req_dec_T _ 0); [ discriminate | ].
  intros [= <-] i j Hi Hj. now apply global_stiffness_symmetric.
Qed.

Lemma member_stiffness_symmetric_witness :
  exists G,
    getMemberGlobalStiffnessMatrix ex_cantilever (Some ex_left) (Some ex_right) = Return G /\
    mget G 1 5 = mget G 5 1.
Proof.
  unfold getMemberGlobalStiffnessMatrix.
  change (sqrt _) with (memberLength ex_left ex_right).
  destruct (Req_dec_T (memberLength ex_left ex_right) 0) as [H | H].
  - exfalso. rewrite ex_unit_length in H. lra.
  - eexists. split; [ reflexivity | ].
    apply (member_stiffness_symmetric ex_cantilever (Some ex_left) (Some ex_right)); try lia.
    unfold getMemberGlobalStiffnessMatrix.
    change (sqrt _) with (memberLength ex_left ex_right).
    destruct (Req_dec_T (memberLength ex_left ex_right) 0); [ contradiction | reflexivity ].
Defined.

Lemma global_stiffness_action (member : Member) (L c s u0 u1 u2 u3 u4 u5 : R) :
  mat_vec (multiply (multiply (transpose (transformation c s)) (k_local_vals member L))
             (transformation c s)) [u0; u1; u2; u3; u4; u5] =
  mat_vec (transpose (transformation c s))
    (mat_vec (k_local_vals member L)
       (mat_vec (transformation c s) [u0; u1; u2; u3; u4; u5])).
Proof.
  unfold k_local_vals.
  destruct (startRelease member), (endRelease member);
    cbn; repeat (apply (f_equal2 (@cons R)); [ ring | ]); reflexivity.
Qed.

Lemma local_stiffness_rigid_rotation (member : Member) (L th : R) :
  L <> 0 ->
  mat_vec (k_local_vals member L) [0; 0; th; 0; th * L; th] = [0; 0; 0; 0; 0; 0].
Proof.
  intros HL. unfold k_local_vals.
  destruct (startRelease member), (endRelease member);
    cbn; repeat (apply (f_equal2 (@cons R)); [ field; exact HL | ]); reflexivity.
Qed.

Lemma local_stiffness_rigid_translation (member : Member) (L p q : R) :
  mat_vec (k_local_vals member L) [p; q; 0; p; q; 0] = [0; 0; 0; 0; 0; 0].
Proof.
  unfold k_local_vals.
  destruct (startRelease member), (endRelease member);
    cbn; repeat (apply (f_equal2 (@cons R)); [ ring | ]); reflexivity.
Qed.

Lemma rotate_back_zero (c s : R) :
  mat_vec (transpose (transformation c s)) [0; 0; 0; 0; 0; 0] = [0; 0; 0; 0; 0; 0].
Proof. cbn. repeat (apply (f_equal2 (@cons R)); [ ring | ]). reflexivity. Qed.

Lemma global_stiffness_rigid_body (member : Member) (dx dy : R) :
  let L := sqrt (dx * dx + dy * dy) in
  let G := multiply (multiply (transpose (transformation (dx / L) (dy / L)))
                       (k_local_vals member L))
             (transformation (dx / L) (dy / L)) in
  L <> 0 ->
  (forall ux uy, mat_vec G [ux; uy; 0; ux; uy; 0] = [0; 0; 0; 0; 0; 0]) /\
  (forall th, mat_vec G [0; 0; th; - th * dy; th * dx; th] = [0; 0; 0; 0; 0; 0]).
Proof.
  intros L G HL. unfold G.
  assert (HLL : L * L = dx * dx + dy * dy).
  { unfold L. apply sqrt_sqrt. nra. }
  split.
  - intros ux uy. rewrite global_stiffness_action.
    replace (mat_vec (transformation (dx / L) (dy / L)) [ux; uy; 0; ux; uy; 0])
      with [dx / L * ux + dy / L * uy; - (dy / L) * ux + dx / L * uy; 0;
            dx / L * ux + dy / L * uy; - (dy / L) * ux + dx / L * uy; 0].
    + rewrite local_stiffness_rigid_translation. apply rotate_back_zero.
    + cbn. repeat (apply (f_equal2 (@cons R)); [ ring | ]). reflexivity.
  - intros th. rewrite global_stiffness_action.
    replace (mat_vec (transformation (dx / L) (dy / L))
               [0; 0; th; - th * dy; th * dx; th])
      with [0; 0; th; 0; th * L; th].
    + rewrite local_stiffness_rigid_rotation by exact HL. apply rotate_back_zero.
    + cbn. repeat (apply (f_equal2 (@cons R)); [ | ]); try reflexivity; try ring.
      * field. exact HL.
      * replace (th * L) with (th * (L * L) / L) by (field; exact HL).
        rewrite HLL. field. exact HL.
Qed.

(** X4.  Rigid-body motions of a member produce no end forces: the returned
    global stiffness matrix maps a common translation of both end nodes, and
    the linearised rotation of the member about its start node, to zero. *)
Theorem member_stiffness_rigid_body (member : Member) (startNode endNode : Node)
    (G : matrix) :
  let dx := node_x endNode - node_x startNode in
  let dy := node_y endNode - node_y startNode in
  getMemberGlobalStiffnessMatrix member (Some startNode) (Some endNode) = Return G ->
  (forall ux uy, mat_vec G [ux; uy; 0; ux; uy; 0] = [0; 0; 0; 0; 0; 0]) /\
  (forall th, mat_vec G [0; 0; th; - th * dy; th * dx; th] = [0; 0; 0; 0; 0; 0]).
Proof.
  intros dx dy. unfold getMemberGlobalStiffnessMatrix. cbv zeta.
  fold dx dy.
  destruct (Req_dec_T (sqrt (dx * dx + dy * dy)) 0) as [| HL]; [ discriminate | ].
  intros HG. apply (f_equal (value [])) in HG. cbn [value] in HG. subst G.
  exact (global_stiffness_rigid_body member dx dy HL).
Qed.

Lemma member_stiffness_rigid_body_witness :
  exists G,
    getMemberGlobalStiffnessMatrix ex_cantilever (Some ex_left) (Some ex_right) = Return G /\
    mat_vec G [2; 3; 0; 2; 3; 0] = [0; 0; 0; 0; 0; 0].
Proof.
  assert (H : exists G,
    getMemberGlobalStiffnessMatrix ex_cantilever (Some ex_left) (Some ex_right) = Return G).
  { unfold getMemberGlobalStiffnessMatrix.
    change (sqrt _) with (memberLength ex_left ex_right).
    destruct (Req_dec_T (memberLength ex_left ex_right) 0) as [H | H].
    - exfalso. rewrite ex_unit_length in H. lra.
    - eexists. reflexivity. }
  destruct H as [G HG]. exists G. split; [ exact HG | ].
  apply (proj1 (member_stiffness_rigid_body ex_cantilever ex_left ex_right G HG)).
Defined.

(** ** Statics of the fixed-end forces *)

Lemma referenceFEF_moment_sum (P a L : R) (sr er : MemberRelease) :
  L <> 0 ->
  vget (referenceFEF P a L sr er) 2 + vget (referenceFEF P a L sr er) 5
  + vget (referenceFEF P a L sr er) 4 * L + P * a = 0.
Proof.
  intros HL. destruct sr, er; unfold referenceFEF, fixedFixedFEF, vget; cbn [nth];
    try replace 1.5 with (3 / 2) by lra; try replace 0.5 with (1 / 2) by lra;
    field; exact HL.
Qed.

(** X5.  The local fixed-end forces of a point load balance it, for every
    release combination and every position (in range or not): no axial
    component, end shears adding up to -P, and zero moment about the start
    node. *)
Theorem local_FEF_equilibrium (member : Member) (load : Load)
    (startNode endNode : Node) (f : vector) :
  let P := magnitude load in
  let a := position load in
  let L := memberLength startNode endNode in
  L <> 0 ->
  calculateLocalFixedEndForces member load (Some startNode) (Some endNode) = Return f ->
  vget f 0 = 0 /\ vget f 3 = 0 /\
  vget f 1 + vget f 4 = - P /\
  vget f 2 + vget f 5 + vget f 4 * L + P * a = 0.
Proof.
  intros P a L HL. rewrite local_FEF_reference. intros [= <-].
  destruct (referenceFEF_shear_sum (magnitude load) (position load)
              (memberLength startNode endNode) (startRelease member) (endRelease member) HL)
    as [H0 [H3 H14]].
  repeat split; try assumption. now apply referenceFEF_moment_sum.
Qed.

Lemma local_FEF_equilibrium_witness :
  exists f,
    calculateLocalFixedEndForces (ex_beam pinned rigid) (ex_load 2) (Some ex_a) (Some ex_b)
      = Return f /\
    vget f 1 + vget f 4 = - (-10) /\
    vget f 2 + vget f 5 + vget f 4 * memberLength ex_a ex_b + (-10) * 2 = 0.
Proof.
  eexists. split; [ reflexivity | ].
  assert (HL : memberLength ex_a ex_b <> 0) by (rewrite ex_length; lra).
  destruct (local_FEF_equilibrium (ex_beam pinned rigid) (ex_load 2) ex_a ex_b _ HL eq_refl)
    as [_ [_ [H1 H2]]].
  split; [ exact H1 | exact H2 ].
Defined.

(** X6.  A point load placed on an end node is passed to that node alone:
    at position 0 the fixed-end forces are [0, -P, 0, 0, 0, 0], at position L
    they are [0, 0, 0, 0, -P, 0], whatever the releases. *)
Theorem local_FEF_at_ends (member : Member) (load : Load) (startNode endNode : Node) :
  let P := magnitude load in
  let L := memberLength startNode endNode in
  L <> 0 ->
  (position load = 0 ->
   calculateLocalFixedEndForces member load (Some startNode) (Some endNode) =
   Return [0; - P; 0; 0; 0; 0]) /\
  (position load = L ->
   calculateLocalFixedEndForces member load (Some startNode) (Some endNode) =
   Return [0; 0; 0; 0; - P; 0]).
Proof.
  intros P L HL. unfold calculateLocalFixedEndForces.
  change (sqrt _) with L. fold P. cbv zeta.
  split; intros ->; destruct (startRelease member), (endRelease member);
    f_equal;
    repeat (apply (f_equal2 (@cons R));
            [ try reflexivity;
              try replace 1.5 with (3 / 2) by lra; try replace 0.5 with (1 / 2) by lra;
              field; exact HL | ]);
    reflexivity.
Qed.

Lemma local_FEF_at_ends_witness :
  calculateLocalFixedEndForces (ex_beam rigid rigid) (ex_load 0) (Some ex_a) (Some ex_b) =
  Return [0; - (-10); 0; 0; 0; 0].
Proof.
  assert (HL : memberLength ex_a ex_b <> 0) by (rewrite ex_length; lra).
  apply (proj1 (local_FEF_at_ends (ex_beam rigid rigid) (ex_load 0) ex_a ex_b HL)).
  reflexivity.
Defined.

Lemma referenceGlobalFEF_balance (P a L : R) (sr er : MemberRelease) (dx dy : R) :
  L <> 0 -> L * L = dx * dx + dy * dy ->
  let g := referenceGlobalFEF P a L sr er (dx / L) (dy / L) in
  g 0%nat + g 3%nat = P * (dy / L) /\
  g 1%nat + g 4%nat = - (P * (dx / L)) /\
  g 2%nat + g 5%nat + (dx * g 4%nat - dy * g 3%nat) + P * a = 0.
Proof.
  intros HL HLL g. unfold g.
  destruct (referenceFEF_shear_sum P a L sr er HL) as [H0 [H3 H14]].
  pose proof (referenceFEF_moment_sum P a L sr er HL) as HM.
  unfold referenceGlobalFEF, sum6. cbn [seq map]. rewrite !Rsum_cons, Rsum_nil.
  cbn [rotationEntry atEnd kindOf Nat.leb Nat.modulo Nat.divmod Bool.eqb fst snd Nat.sub].
  rewrite H0, H3.
  set (f1 := vget _ 1) in *. set (f2 := vget _ 2) in *.
  set (f4 := vget _ 4) in *. set (f5 := vget _ 5) in *.
  assert (E4 : f4 = - P - f1) by lra.
  assert (E5 : f5 = - f2 - f4 * L - P * a) by lra.
  rewrite E5, E4.
  split; [ | split ].
  - field. exact HL.
  - field. exact HL.
  - replace (- f2 - (- P - f1) * L - P * a)
      with (- f2 - (- P - f1) * (L * L) / L - P * a) by (field; exact HL).
    rewrite HLL. field. exact HL.
Qed.

Lemma memberLength_square (startNode endNode : Node) :
  let dx := node_x endNode - node_x startNode in
  let dy := node_y endNode - node_y startNode in
  memberLength startNode endNode * memberLength startNode endNode = dx * dx + dy * dy.
Proof. intros dx dy. unfold memberLength. apply sqrt_sqrt. fold dx dy. nra. Qed.

(** X7.  The global fixed-end forces of a point load balance a force of
    magnitude P along the member's local transverse axis (-dy/L, dx/L),
    applied at distance [a] from the start node: the horizontal components
    add up to P dy/L, the vertical ones to -P dx/L, and the moments about the
    start node cancel. *)
Theorem global_FEF_resultant (member : Member) (load : Load)
    (startNode endNode : Node) (g : vector) :
  let P := magnitude load in
  let a := position load in
  let dx := node_x endNode - node_x startNode in
  let dy := node_y endNode - node_y startNode in
  let L := memberLength startNode endNode in
  L <> 0 ->
  getGlobalFixedEndForces member load (Some startNode) (Some endNode) = Return g ->
  vget g 0 + vget g 3 = P * (dy / L) /\
  vget g 1 + vget g 4 = - (P * (dx / L)) /\
  vget g 2 + vget g 5 + (dx * vget g 4 - dy * vget g 3) + P * a = 0.
Proof.
  intros P a dx dy L HL Hg.
  destruct (global_FEF_reference member load startNode endNode) as [g' [Hg' [_ Hgi]]].
  rewrite Hg in Hg'. injection Hg' as <-.
  rewrite (Hgi 0%nat), (Hgi 1%nat), (Hgi 2%nat), (Hgi 3%nat), (Hgi 4%nat), (Hgi 5%nat)
    by lia.
  destruct (cos_sin_atan2 (node_y endNode - node_y startNode)
              (node_x endNode - node_x startNode) HL) as [Hc Hs].
  rewrite Hc, Hs. change (sqrt _) with L. fold dx dy P a.
  exact (referenceGlobalFEF_balance P a L (startRelease member) (endRelease member)
           dx dy HL (memberLength_square startNode endNode)).
Qed.

Lemma global_FEF_resultant_witness :
  exists g,
    getGlobalFixedEndForces (ex_beam rigid rigid) (ex_load 2) (Some ex_a) (Some ex_b) =
      Return g /\
    vget g 0 + vget g 3 = -10 * ((4 - 0) / memberLength ex_a ex_b) /\
    vget g 1 + vget g 4 = - (-10 * ((3 - 0) / memberLength ex_a ex_b)).
Proof.
  destruct (global_FEF_reference (ex_beam rigid rigid) (ex_load 2) ex_a ex_b)
    as [g [Hg _]].
  exists g. split; [ exact Hg | ].
  assert (HL : memberLength ex_a ex_b <> 0) by (rewrite ex_length; lra).
  destruct (global_FEF_resultant (ex_beam rigid rigid) (ex_load 2) ex_a ex_b g HL Hg)
    as [H1 [H2 _]].
  split; [ exact H1 | exact H2 ].
Defined.

(** ** Which fault [solve] raises *)

Lemma forEachM_app {X S} (f : S -> X -> outcome S) (l1 l2 : list X) (s : S) :
  forEachM f (l1 ++ l2) s = (s' <- forEachM f l1 s ;; forEachM f l2 s').
Proof.
  revert s. induction l1 as [|x l1 IH]; intros s; cbn [app forEachM bind].
  - reflexivity.
  - destruct (f s x) as [s' | e]; cbn [bind]; [ apply IH | reflexivity ].
Qed.

Lemma assembleMember_fault (nodes : list Node) (dofMap : table nat) (K : Matrix)
    (m : Member) :
  ~ memberOk nodes m ->
  assembleMember nodes dofMap K m =
  Throw (Error (match findNode nodes (startNodeId m), findNode nodes (endNodeId m) with
                | Some _, Some _ => zero_length_message m
                | _, _ => missing_nodes_message m
                end)).
Proof.
  intros Hbad. unfold assembleMember, getMemberGlobalStiffnessMatrix.
  destruct (findNode nodes (startNodeId m)) as [sN|] eqn:Hs;
    destruct (findNode nodes (endNodeId m)) as [eN|] eqn:He; try reflexivity.
  change (sqrt _) with (memberLength sN eN).
  destruct (Req_dec_T (memberLength sN eN) 0) as [_ | HL]; [ reflexivity | ].
  exfalso. apply Hbad. exists sN, eN. auto.
Qed.

Section FirstFault.

Variable inv : matrix -> option matrix.

(** X8.  [solve] reports the first member (in list order) that the
    formulator rejects: "Missing node(s)" with both node identities when an
    end node does not resolve, "Length is zero" otherwise; later members,
    the loads, the supports and the inverse play no part. *)
Theorem first_invalid_member_reported (nodes : list Node) (pre post : list Member)
    (m : Member) (supports : list Support) (loads : list Load) :
  nodes <> [] ->
  Forall (memberOk nodes) pre ->
  ~ memberOk nodes m ->
  solve inv nodes (pre ++ m :: post) supports loads =
  Throw (Error (match findNode nodes (startNodeId m), findNode nodes (endNodeId m) with
                | Some _, Some _ => zero_length_message m
                | _, _ => missing_nodes_message m
                end)).
Proof.
  intros Hn Hpre Hbad. destruct nodes as [|n ns]; [ contradiction | ].
  unfold solve, assembleK. rewrite forEachM_app, assembleK_ok by assumption.
  cbn [bind forEachM]. rewrite assembleMember_fault by assumption. reflexivity.
Qed.

End FirstFault.

Lemma first_invalid_member_reported_witness :
  solve inv_small ex_nodes
    ([ex_cantilever] ++ mkMember "m2" "n1" "n9" rigid rigid (mkProperties 1 1 1) :: [])
    ex_supports ex_loads =
  Throw (Error "Invalid member m2: Missing node(s). Start: n1, End: n9").
Proof.
  apply (first_invalid_member_reported inv_small ex_nodes [ex_cantilever] []
           (mkMember "m2" "n1" "n9" rigid rigid (mkProperties 1 1 1))
           ex_supports ex_loads).
  - exact ex_nodes_nonempty.
  - exact ex_members_ok.
  - intros [sN [eN [_ [He _]]]]. discriminate He.
Defined.

(** ** The reduced system and joint equilibrium *)

Section ReducedSystem.

Variable inv : matrix -> option matrix.
Hypothesis inv_sound : invContract inv.

Lemma reduced_system_rows (nodes : list Node) (members : list Member)
    (supports : list Support) (loads : list Load) (d : Column) :
  let K := stabilize (totalDOF nodes) (assembledK nodes members zeros2) in
  let F := assembledF nodes members loads zeros1 in
  let free := finalFreeDOFs nodes (initializeDOF nodes) supports in
  solveDisplacements inv K F free = Return d ->
  (forall r, In r free -> Rsum (map (fun c => K r c * d c) free) = F r) /\
  (forall c, ~ In c free -> d c = 0).
Proof.
  intros K F free Hd.
  assert (Hout : forall c, ~ In c free -> d c = 0).
  { intros c Hc. now apply (solveDisplacements_outside inv K F free d c). }
  split; [ | exact Hout ].
  intros r Hr.
  rewrite <- (free_rows_solved inv inv_sound K F
                (fun dof => negb (includes (constrainedDOFs (initializeDOF nodes) supports) dof))
                (totalDOF nodes) d Hd r Hr).
  unfold free, finalFreeDOFs. symmetry.
  apply (Rsum_restrict
           (fun dof => negb (includes (constrainedDOFs (initializeDOF nodes) supports) dof))
           (fun c => K r c * d c)).
  intros c Hc Hp. rewrite Hout; [ ring | ].
  unfold free, finalFreeDOFs. rewrite filter_In. intros [_ H]. congruence.
Qed.

Lemma free_row_balanced (nodes : list Node) (members : list Member)
    (supports : list Support) (loads : list Load) (d : Column) (r : nat) :
  Forall (memberOk nodes) members -> Forall (loadOk members) loads ->
  NoDup (map member_id members) ->
  solveDisplacements inv
    (stabilize (totalDOF nodes) (assembledK nodes members zeros2))
    (assembledF nodes members loads zeros1)
    (finalFreeDOFs nodes (initializeDOF nodes) supports) = Return d ->
  In r (finalFreeDOFs nodes (initializeDOF nodes) supports) ->
  1e-9 <= Rabs (assembledK nodes members zeros2 r r) ->
  Rsum (map (fun m => rowPick (memberDofs nodes m) r (vget (endForces nodes loads d m)))
          members) = 0.
Proof.
  intros Hms Hls Hnd Hd Hr Hbig.
  set (K := assembledK nodes members zeros2) in *.
  rewrite residual by assumption. fold K.
  pose proof (free_rows_solved inv inv_sound
                (stabilize (totalDOF nodes) K) (assembledF nodes members loads zeros1)
                (fun dof => negb (includes (constrainedDOFs (initializeDOF nodes) supports) dof))
                (totalDOF nodes) d Hd r Hr) as Hrow.
  rewrite <- Hrow.
  match goal with |- ?a - ?b = 0 => cut (a = b); [ lra | ] end.
  apply Rsum_map_ext. intros c _. f_equal.
  rewrite stabilize_spec.
  destruct (Rlt_dec (Rabs (K r r)) 1e-9) as [Hsmall | _]; [ | now rewrite andb_false_r ].
  exfalso. apply (Rlt_not_le _ _ Hsmall Hbig).
Qed.

Lemma solve_stages (nodes : list Node) (members : list Member)
    (supports : list Support) (loads : list Load) (res : AnalysisResult)
    (K0 : Matrix) (F0 : Column) :
  assembleK nodes members (initializeDOF nodes) = Return K0 ->
  assembleF nodes members loads (initializeDOF nodes) = Return F0 ->
  solve inv nodes members supports loads = Return res ->
  Forall (memberOk nodes) members /\ Forall (loadOk members) loads /\
  K0 = assembledK nodes members zeros2 /\ F0 = assembledF nodes members loads zeros1 /\
  exists d,
    solveDisplacements inv (stabilize (totalDOF nodes) K0) F0
      (finalFreeDOFs nodes (initializeDOF nodes) supports) = Return d /\
    nodeDisplacements res = displacementTable nodes d.
Proof.
  intros HK HF Hres.
  apply assembleK_return in HK. destruct HK as [Hms ->].
  apply (assembleF_return nodes members loads F0 Hms) in HF. destruct HF as [Hls ->].
  repeat (split; [ assumption || reflexivity | ]).
  destruct nodes as [|n ns].
  - exists zeros1. cbn in Hres. injection Hres as <-. split; reflexivity.
  - assert (Hn : n :: ns <> []) by discriminate.
    destruct (solve_return inv _ _ _ _ res Hn Hres) as [_ [_ [d [Hd [Hdisp _]]]]].
    exists d. split; assumption.
Qed.

(** X9.  When the inverse honours its contract, the displacements behind a
    returned result satisfy the reduced system K_ff d_f = F_f row by row
    (K being the assembled and regularised stiffness matrix, F the assembled
    load column) and vanish at every constrained unknown. *)
Theorem displacements_solve_reduced_system (nodes : list Node) (members : list Member)
    (supports : list Support) (loads : list Load) (res : AnalysisResult)
    (K0 : Matrix) (F : Column) :
  let K := stabilize (totalDOF nodes) K0 in
  let free := finalFreeDOFs nodes (initializeDOF nodes) supports in
  assembleK nodes members (initializeDOF nodes) = Return K0 ->
  assembleF nodes members loads (initializeDOF nodes) = Return F ->
  solve inv nodes members supports loads = Return res ->
  exists d,
    nodeDisplacements res = displacementTable nodes d /\
    (forall r, In r free -> Rsum (map (fun c => K r c * d c) free) = F r) /\
    (forall c, ~ In c free -> d c = 0).
Proof.
  intros K free HK HF Hres.
  destruct (solve_stages nodes members supports loads res K0 F HK HF Hres)
    as [_ [_ [HK0 [HF0 [d [Hd Hdisp]]]]]].
  exists d. split; [ exact Hdisp | ].
  unfold K, free. subst K0 F.
  exact (reduced_system_rows nodes members supports loads d Hd).
Qed.

(** X10.  Joint equilibrium in a returned result: at every free unknown
    whose diagonal stiffness was not replaced by the regularisation, the end
    forces of the members meeting there add up to zero (forces and moments
    alike), when member identities are unique and the inverse honours its
    contract. *)
Theorem free_joint_equilibrium (nodes : list Node) (members : list Member)
    (supports : list Support) (loads : list Load) (res : AnalysisResult)
    (K0 : Matrix) :
  NoDup (map member_id members) ->
  assembleK nodes members (initializeDOF nodes) = Return K0 ->
  solve inv nodes members supports loads = Return res ->
  exists d,
    nodeDisplacements res = displacementTable nodes d /\
    forall r, In r (finalFreeDOFs nodes (initializeDOF nodes) supports) ->
      1e-9 <= Rabs (K0 r r) ->
      Rsum (map (fun m => rowPick (memberDofs nodes m) r
                            (vget (endForces nodes loads d m))) members) = 0.
Proof.
  intros Hnd HK Hres.
  destruct nodes as [|n ns].
  - exists zeros1. cbn in Hres. injection Hres as <-. split; [ reflexivity | ].
    intros r [].
  - assert (Hn : n :: ns <> []) by discriminate.
    destruct (solve_return inv _ _ _ _ res Hn Hres) as [Hms [Hls [d [Hd [Hdisp _]]]]].
    apply assembleK_return in HK. destruct HK as [_ ->].
    exists d. split; [ exact Hdisp | ].
    intros r Hr Hbig.
    now apply (free_row_balanced (n :: ns) members supports loads d r).
Qed.

End ReducedSystem.

Lemma ex_assembled :
  assembleK ex_nodes ex_members (initializeDOF ex_nodes) =
    Return (assembledK ex_nodes ex_members zeros2) /\
  assembleF ex_nodes ex_members ex_loads (initializeDOF ex_nodes) =
    Return (assembledF ex_nodes ex_members ex_loads zeros1).
Proof.
  split.
  - apply (assembleK_ok ex_nodes ex_members zeros2 ex_members_ok).
  - apply (assembleF_ok ex_nodes ex_members ex_loads zeros1 ex_members_ok ex_loads_ok).
Qed.

Lemma displacements_solve_reduced_system_witness :
  exists res d,
    solve inv_small ex_nodes ex_members ex_supports ex_loads = Return res /\
    nodeDisplacements res = displacementTable ex_nodes d /\
    d 0%nat = 0.
Proof.
  destruct ex_solve_returns as [res Hres]. destruct ex_assembled as [HK HF].
  destruct (displacements_solve_reduced_system inv_small inv_small_contract
              ex_nodes ex_members ex_supports ex_loads res _ _ HK HF Hres)
    as [d [Hdisp [_ Hout]]].
  exists res, d. split; [ exact Hres | ]. split; [ exact Hdisp | ].
  apply Hout. rewrite ex_free. cbn [In]. lia.
Defined.

Lemma free_joint_equilibrium_witness :
  exists res d,
    solve inv_small ex_nodes ex_members ex_supports ex_loads = Return res /\
    nodeDisplacements res = displacementTable ex_nodes d /\
    Rsum (map (fun m => rowPick (memberDofs ex_nodes m) 4
                          (vget (endForces ex_nodes ex_loads d m))) ex_members) = 0.
Proof.
  destruct ex_solve_returns as [res Hres]. destruct ex_assembled as [HK _].
  destruct (free_joint_equilibrium inv_small inv_small_contract
              ex_nodes ex_members ex_supports ex_loads res _
              ex_members_unique HK Hres) as [d [Hdisp Hbal]].
  exists res, d. split; [ exact Hres | ]. split; [ exact Hdisp | ].
  apply Hbal.
  - rewrite ex_free. cbn [In]. auto.
  - rewrite ex_K by lia. cbn [mget beamMatrix nth].
    rewrite Rabs_right; lra.
Defined.

(** ** Structures without free unknowns, structures without loads *)

Lemma clamped_no_free_dof (nodes : list Node) (supports : list Support) :
  NoDup (map node_id nodes) ->
  (forall n, In n nodes ->
     exists s, In s supports /\ nodeId s = node_id n /\ type s = fixed) ->
  finalFreeDOFs nodes (initializeDOF nodes) supports = [].
Proof.
  intros Hnd Hfix.
  destruct (finalFreeDOFs nodes (initializeDOF nodes) supports) as [|dof l] eqn:Hfree;
    [ reflexivity | exfalso ].
  assert (Hin : In dof (finalFreeDOFs nodes (initializeDOF nodes) supports))
    by (rewrite Hfree; now left).
  apply finalFreeDOFs_in in Hin. destruct Hin as [Hlt Hno]. apply Hno.
  unfold totalDOF in Hlt.
  assert (Hq : (dof / 3 < List.length nodes)%nat)
    by (apply Nat.Div0.div_lt_upper_bound; lia).
  destruct (nth_error nodes (dof / 3)) as [n|] eqn:Hn.
  2:{ apply nth_error_None in Hn. lia. }
  destruct (Hfix n (nth_error_In _ _ Hn)) as [s [Hs [Hid Hty]]].
  exists s. split; [ exact Hs | ].
  rewrite (supportConstraints_indexed nodes s (dof / 3)).
  2:{ rewrite Hid. now apply nodeIndex_position. }
  rewrite Hty.
  pose proof (Nat.div_mod_eq dof 3) as Hdm.
  assert (Hm : (dof mod 3 < 3)%nat) by (apply Nat.mod_upper_bound; lia).
  destruct (dof mod 3)%nat as [|[|[|o]]] eqn:Ho; try lia.
  - left. f_equal. lia.
  - right. left. f_equal. lia.
  - right. right. left. f_equal. lia.
Qed.

Section NoFreeUnknowns.

Variable inv : matrix -> option matrix.

(** X11.  A structure whose nodes all carry a fixed support has no free
    unknown: [solve] returns without calling the inverse at all (whatever
    the inverse would do), and every node displacement is zero. *)
Theorem fully_clamped_structure (nodes : list Node) (members : list Member)
    (supports : list Support) (loads : list Load) :
  nodes <> [] ->
  NoDup (map node_id nodes) ->
  Forall (memberOk nodes) members -> Forall (loadOk members) loads ->
  (forall n, In n nodes ->
     exists s, In s supports /\ nodeId s = node_id n /\ type s = fixed) ->
  finalFreeDOFs nodes (initializeDOF nodes) supports = [] /\
  exists r,
    solve inv nodes members supports loads = Return r /\
    forall id disp, table_get id (nodeDisplacements r) = Some disp ->
      disp = {| disp_dx := 0; disp_dy := 0; rotation := 0 |}.
Proof.
  intros Hn Hnd Hms Hls Hfix.
  pose proof (clamped_no_free_dof nodes supports Hnd Hfix) as Hfree.
  split; [ exact Hfree | ].
  rewrite solve_accepted by assumption. rewrite Hfree.
  unfold solveDisplacements. cbn [bind].
  rewrite calculateResults_value by assumption.
  eexists. split; [ reflexivity | ].
  cbn [nodeDisplacements]. intros id disp. rewrite displacementTable_get.
  destruct (nodeIndex nodes id); cbn [option_map]; [ | discriminate ].
  intros [= <-]. reflexivity.
Qed.

End NoFreeUnknowns.

Lemma fully_clamped_structure_witness :
  exists r,
    solve (fun _ => None) ex_reversed_nodes [ex_reversed] ex_clamped ex_loads = Return r /\
    forall id disp, table_get id (nodeDisplacements r) = Some disp ->
      disp = {| disp_dx := 0; disp_dy := 0; rotation := 0 |}.
Proof.
  apply (fully_clamped_structure (fun _ => None) ex_reversed_nodes [ex_reversed]
           ex_clamped ex_loads).
  - discriminate.
  - repeat constructor; cbn; intuition discriminate.
  - exact ex_reversed_ok.
  - constructor; [ discriminate | constructor ].
  - intros n [<- | [<- | []]].
    + exists (mkSupport "s1" "n1" fixed 0). cbn. auto.
    + exists (mkSupport "s2" "n2" fixed 0). cbn. auto.
Defined.

(** ** The unloaded structure *)


Lemma allZero_vget (v : vector) (i : nat) : allZero v -> vget v i = 0.
Proof.
  intros H. unfold vget. destruct (nth_in_or_default i v 0) as [Hin | ->]; [ | reflexivity ].
  unfold allZero in H. rewrite Forall_forall in H. now apply H.
Qed.

Lemma dot_allZero (u v : vector) : allZero v -> dot u v = 0.
Proof.
  unfold dot. revert u. induction v as [|y v IH]; intros u Hz.
  - destruct u; reflexivity.
  - destruct u as [|x u]; [ reflexivity | ].
    inversion Hz as [|? ? Hy Hv]; subst. cbn [combine map fst snd].
    rewrite Rsum_cons, (IH u Hv). ring.
Qed.

Lemma mat_vec_allZero (M : matrix) (v : vector) : allZero v -> allZero (mat_vec M v).
Proof.
  intros Hz. unfold mat_vec, allZero. rewrite Forall_map.
  apply Forall_forall. intros row _. now apply dot_allZero.
Qed.

Lemma vadd_allZero (u v : vector) : allZero u -> allZero v -> allZero (vadd u v).
Proof.
  unfold vadd, allZero. revert v. induction u as [|x u IH]; intros v Hu Hv.
  - constructor.
  - destruct v as [|y v]; [ constructor | ].
    inversion Hu; inversion Hv; subst. cbn [combine map fst snd].
    constructor; [ lra | now apply IH ].
Qed.

Lemma endForces_unloaded (nodes : list Node) (d : Column) (m : Member) :
  (forall c, d c = 0) -> allZero (endForces nodes [] d m).
Proof.
  intros Hd. unfold endForces. apply vadd_allZero.
  - apply mat_vec_allZero. unfold memberDisplacements, allZero.
    rewrite Forall_map. apply Forall_forall. intros c _. apply Hd.
  - unfold fixedForces, loadsOn. cbn [filter fold_left]. repeat constructor.
Qed.

Lemma diagramPoint_unloaded (member : Member) (dx dy : R) (f_local : vector) (x : R) :
  allZero f_local ->
  diagramPoint [] member dx dy f_local 0 0 x = (0, 0, 0).
Proof.
  intros Hf. unfold diagramPoint, loadsOn. cbn [filter fold_left]. cbv beta iota zeta.
  rewrite !(allZero_vget f_local) by assumption.
  f_equal; [ f_equal | ]; unfold Rdiv; ring.
Qed.

Lemma theta_start_unloaded (member : Member) (dx dy L : R) (f_local : vector) :
  allZero f_local ->
  theta_start [] member dx dy L f_local 0 0 0 = 0.
Proof.
  intros Hf. unfold theta_start, loadsOn. cbn [filter fold_left]. cbv beta iota zeta.
  destruct (startRelease member); [ reflexivity | ].
  rewrite !(allZero_vget f_local) by assumption.
  unfold Rdiv. ring.
Qed.

Lemma memberResultOf_unloaded (nodes : list Node) (d : Column) (m : Member) :
  (forall c, d c = 0) ->
  fst (memberResultOf nodes [] d m) =
    {| axial := 0; shearStart := 0; momentStart := 0; shearEnd := 0; momentEnd := 0 |} /\
  allZero (shear (snd (memberResultOf nodes [] d m))) /\
  allZero (moment (snd (memberResultOf nodes [] d m))) /\
  allZero (displacement (snd (memberResultOf nodes [] d m))).
Proof.
  intros Hd. unfold memberResultOf.
  destruct (findNode nodes (startNodeId m)) as [sN|];
    [ destruct (findNode nodes (endNodeId m)) as [eN|] | ];
    cbn [fst snd shear moment displacement];
    try (split; [ reflexivity | repeat split; constructor ]).
  set (T := transformation _ _).
  assert (Hf : allZero (mat_vec T (endForces nodes [] d m)))
    by (apply mat_vec_allZero, endForces_unloaded, Hd).
  assert (Hdl : allZero (mat_vec T (memberDisplacements nodes d m))).
  { apply mat_vec_allZero. unfold memberDisplacements, allZero.
    rewrite Forall_map. apply Forall_forall. intros c _. apply Hd. }
  split.
  - rewrite !(allZero_vget _ _ Hf). now rewrite Ropp_0.
  - unfold memberDiagram. cbn [shear moment displacement].
    rewrite !(allZero_vget _ _ Hdl), theta_start_unloaded by assumption.
    unfold allZero. rewrite !Forall_map.
    repeat split; apply Forall_forall; intros x _;
      now rewrite diagramPoint_unloaded.
Qed.

Lemma memberTables_forces_entries (nodes : list Node) (members : list Member)
    (loads : list Load) (d : Column) (acc : table MemberForce * table Diagram)
    (id : string) (F : MemberForce) :
  In (id, F) (fst (memberTables nodes members loads d acc)) ->
  In (id, F) (fst acc) \/
  exists m, In m members /\ member_id m = id /\ F = fst (memberResultOf nodes loads d m).
Proof.
  unfold memberTables. revert acc.
  induction members as [|m members IH]; intros acc; cbn [fold_left]; [ now left | ].
  intros H. apply IH in H. cbn [fst] in H. destruct H as [H | [m' [Hm' H]]].
  - apply table_set_entries in H. destruct H as [[-> ->] | H]; [ | now left ].
    right. exists m. split; [ now left | now split ].
  - right. exists m'. split; [ now right | exact H ].
Qed.

Lemma reactionSum_unloaded (nodes : list Node) (members : list Member) (d : Column)
    (node : Node) :
  (forall c, d c = 0) -> reactionSum nodes members [] d node = (0, 0, 0).
Proof.
  intros Hd. unfold reactionSum.
  induction (connectedMembers members node) as [|m ms IH]; cbn [fold_left]; [ reflexivity | ].
  rewrite !(allZero_vget _ _ (endForces_unloaded nodes d m Hd)).
  rewrite !Rplus_0_l. destruct (String.eqb _ _); exact IH.
Qed.

Lemma reactionTable_entries (nodes : list Node) (members : list Member)
    (supports : list Support) (loads : list Load) (d : Column) (t : table Reaction)
    (id : string) (v : Reaction) :
  In (id, v) (reactionTable nodes members supports loads d t) ->
  In (id, v) t \/
  exists s node, In s supports /\ findNode nodes (nodeId s) = Some node /\
    id = node_id node /\ v = reactionOf nodes members loads d node.
Proof.
  unfold reactionTable. revert t.
  induction supports as [|s supports IH]; intros t; cbn [fold_left]; [ now left | ].
  intros H. apply IH in H. destruct H as [H | [s' [node [Hs' H]]]].
  - destruct (findNode nodes (nodeId s)) as [node|] eqn:Hnode; [ | now left ].
    apply table_set_entries in H. destruct H as [[-> ->] | H]; [ | now left ].
    right. exists s, node. split; [ now left | auto ].
  - right. exists s', node. split; [ now right | exact H ].
Qed.

Lemma subset1_zeros (rows : list nat) : allZero (subset1 zeros1 rows).
Proof.
  unfold subset1, allZero. rewrite Forall_map. apply Forall_forall. reflexivity.
Qed.

Lemma solveDisplacements_unloaded (inv : matrix -> option matrix) (K : Matrix)
    (free : list nat) (d : Column) :
  NoDup free ->
  solveDisplacements inv K zeros1 free = Return d -> forall c, d c = 0.
Proof.
  intros Hnd Hd c. unfold solveDisplacements in Hd.
  destruct free as [|dof free']; [ injection Hd as <-; reflexivity | ].
  destruct (inv _) as [N|]; [ | discriminate ]. injection Hd as <-.
  destruct (in_dec Nat.eq_dec c (dof :: free')) as [Hin | Hout].
  - destruct (In_nth _ _ 0%nat Hin) as [b [Hb <-]].
    rewrite scatter_inside by assumption.
    apply allZero_vget, mat_vec_allZero. exact (subset1_zeros (dof :: free')).
  - now rewrite scatter_outside.
Qed.

Section Unloaded.

Variable inv : matrix -> option matrix.

(** X12.  Without loads the structure is at rest: whenever [solve] returns
    for an empty load collection, every node displacement, every member
    force, every shear and moment value and every reaction is zero (for any
    inverse, regularised or not), and so is every deflection value of a
    member with E I <> 0, where the factor 1 / (E I) of the deflection
    formula is a number. *)
Theorem unloaded_structure_at_rest (nodes : list Node) (members : list Member)
    (supports : list Support) (r : AnalysisResult) :
  solve inv nodes members supports [] = Return r ->
  (forall id disp, table_get id (nodeDisplacements r) = Some disp ->
     disp = {| disp_dx := 0; disp_dy := 0; rotation := 0 |}) /\
  (forall id F, table_get id (memberForces r) = Some F ->
     F = {| axial := 0; shearStart := 0; momentStart := 0;
            shearEnd := 0; momentEnd := 0 |}) /\
  (forall id D, table_get id (diagrams r) = Some D ->
     allZero (shear D) /\ allZero (moment D) /\
     ((forall m, In m members -> member_id m = id ->
         prop_E (properties m) * prop_I (properties m) <> 0) ->
      allZero (displacement D))) /\
  (forall t id R, reactions r = Some t -> table_get id t = Some R ->
     R = {| Fx := 0; Fy := 0; Mz := 0 |}).
Proof.
  intros Hr. destruct nodes as [|n ns].
  { cbn in Hr. injection Hr as <-. cbn.
    repeat split; intros; discriminate. }
  assert (Hn : n :: ns <> []) by discriminate.
  destruct (solve_return inv _ _ _ _ r Hn Hr) as [Hms [Hls [d [Hd _]]]].
  rewrite solve_accepted, Hd in Hr by assumption. cbn [bind] in Hr.
  rewrite calculateResults_value in Hr by assumption. injection Hr as <-.
  cbn [nodeDisplacements memberForces diagrams reactions].
  assert (Hz : forall c, d c = 0).
  { apply (solveDisplacements_unloaded inv
             (stabilize (totalDOF (n :: ns)) (assembledK (n :: ns) members zeros2))
             (finalFreeDOFs (n :: ns) (initializeDOF (n :: ns)) supports) d).
    - apply finalFreeDOFs_NoDup.
    - exact Hd. }
  split; [ | split; [ | split ] ].
  - intros id disp. rewrite displacementTable_get.
    destruct (nodeIndex (n :: ns) id); cbn [option_map]; [ | discriminate ].
    intros [= <-]. now rewrite !Hz.
  - intros id F HF. apply table_get_in, memberTables_forces_entries in HF.
    destruct HF as [[] | [m [_ [_ ->]]]].
    apply (memberResultOf_unloaded (n :: ns) d m Hz).
  - intros id D HD. apply table_get_in, memberTables_entries in HD.
    destruct HD as [[] | [m [_ [_ ->]]]].
    destruct (memberResultOf_unloaded (n :: ns) d m Hz) as [_ [HV [HM Hdefl]]].
    split; [ exact HV | ]. split; [ exact HM | ]. intros _. exact Hdefl.
  - intros t id R [= <-] HR. apply table_get_in, reactionTable_entries in HR.
    destruct HR as [[] | [s [node [_ [_ [_ ->]]]]]].
    unfold reactionOf. now rewrite reactionSum_unloaded.
Qed.

End Unloaded.

Lemma unloaded_structure_at_rest_witness :
  exists r D,
    solve inv_small ex_nodes ex_members ex_supports [] = Return r /\
    (forall id disp, table_get id (nodeDisplacements r) = Some disp ->
       disp = {| disp_dx := 0; disp_dy := 0; rotation := 0 |}) /\
    table_get "m1" (diagrams r) = Some D /\ allZero (displacement D).
Proof.
  assert (H : exists d, solve inv_small ex_nodes ex_members ex_supports [] =
    Return {| nodeDisplacements := displacementTable ex_nodes d;
              memberForces := fst (memberTables ex_nodes ex_members [] d ([], []));
              diagrams := snd (memberTables ex_nodes ex_members [] d ([], []));
              reactions := Some (reactionTable ex_nodes ex_members ex_supports [] d []) |}).
  { rewrite solve_accepted;
      [ | exact ex_nodes_nonempty | exact ex_members_ok | constructor ].
    rewrite ex_free. unfold solveDisplacements. rewrite ex_Kff. unfold inv_small.
    destruct (Req_dec_T _ 0) as [H | _]; [ lra | ].
    cbn [bind]. rewrite calculateResults_value by exact ex_members_ok.
    eexists. reflexivity. }
  destruct H as [d Hr].
  destruct (unloaded_structure_at_rest inv_small ex_nodes ex_members ex_supports _ Hr)
    as [Hdisp [_ [Hdiag _]]].
  eexists. exists (snd (memberResultOf ex_nodes [] d ex_cantilever)).
  split; [ exact Hr | ]. split; [ exact Hdisp | ].
  assert (HD : table_get "m1" (snd (memberTables ex_nodes ex_members [] d ([], []))) =
               Some (snd (memberResultOf ex_nodes [] d ex_cantilever))) by reflexivity.
  split; [ exact HD | ].
  apply (Hdiag "m1" _ HD).
  intros m [<- | []] _. cbn. lra.
Defined.

(** ** The keys of the result tables *)

Lemma table_get_defined {V} (k : string) (t : table V) :
  table_get k t <> None <-> In k (map fst t).
Proof.
  induction t as [|[k' v'] t IH]; cbn [table_get map fst In].
  - split; [ congruence | intros [] ].
  - destruct (String.eqb_spec k' k) as [-> | Hne].
    + split; [ now left | discriminate ].
    + rewrite IH. split; [ now right | intros [H | H]; [ contradiction | exact H ] ].
Qed.

Lemma displacementTable_keys (nodes : list Node) (d : Column) (id : string) :
  table_get id (displacementTable nodes d) <> None <->
  exists n, In n nodes /\ node_id n = id.
Proof.
  rewrite displacementTable_get, <- nodeIndex_defined.
  destruct (nodeIndex nodes id); cbn [option_map]; split; congruence.
Qed.

Lemma memberTables_keys (nodes : list Node) (members : list Member) (loads : list Load)
    (d : Column) (acc : table MemberForce * table Diagram) (id : string) :
  (In id (map fst (fst (memberTables nodes members loads d acc))) <->
   In id (map fst (fst acc)) \/ exists m, In m members /\ member_id m = id) /\
  (In id (map fst (snd (memberTables nodes members loads d acc))) <->
   In id (map fst (snd acc)) \/ exists m, In m members /\ member_id m = id).
Proof.
  unfold memberTables. revert acc.
  induction members as [|m members IH]; intros acc; cbn [fold_left].
  - split; (split; [ now left | intros [H | [m [[] _]]]; exact H ]).
  - destruct (IH (table_set (member_id m) (fst (memberResultOf nodes loads d m)) (fst acc),
                  table_set (member_id m) (snd (memberResultOf nodes loads d m)) (snd acc)))
      as [H1 H2].
    cbn [fst snd] in H1, H2. rewrite table_set_keys in H1. rewrite table_set_keys in H2.
    split; [ rewrite H1 | rewrite H2 ];
      (split;
       [ intros [[-> | H] | [m' [Hm' Hid]]];
         [ right; exists m; split; [ now left | reflexivity ]
         | now left
         | right; exists m'; split; [ now right | exact Hid ] ]
       | intros [H | [m' [[<- | Hm'] Hid]]];
         [ left; now right
         | left; now left
         | right; exists m'; split; assumption ] ]).
Qed.

Section ResultKeys.

Variable inv : matrix -> option matrix.

(** X13.  The tables of a returned result are keyed exactly by the input:
    node displacements by the node identities, member forces and diagrams by
    the member identities, reactions by the node identities that some
    support names (supports naming no node leave no entry).  This is for
    inputs in which no node and no member is called "__proto__", the one
    key that an assignment to an object does not create. *)
Theorem result_table_keys (nodes : list Node) (members : list Member)
    (supports : list Support) (loads : list Load) (r : AnalysisResult) :
  nodes <> [] ->
  Forall (fun n => node_id n <> "__proto__") nodes ->
  Forall (fun m => member_id m <> "__proto__") members ->
  solve inv nodes members supports loads = Return r ->
  (forall id, table_get id (nodeDisplacements r) <> None <->
     exists n, In n nodes /\ node_id n = id) /\
  (forall id, table_get id (memberForces r) <> None <->
     exists m, In m members /\ member_id m = id) /\
  (forall id, table_get id (diagrams r) <> None <->
     exists m, In m members /\ member_id m = id) /\
  exists t, reactions r = Some t /\
    forall id, table_get id t <> None <->
      exists s n, In s supports /\ In n nodes /\ nodeId s = id /\ node_id n = id.
Proof.
  intros Hn _ _ Hr.
  destruct (solve_return inv _ _ _ _ r Hn Hr) as [Hms [Hls [d [Hd _]]]].
  rewrite solve_accepted, Hd in Hr by assumption. cbn [bind] in Hr.
  rewrite calculateResults_value in Hr by assumption. injection Hr as <-.
  cbn [nodeDisplacements memberForces diagrams reactions].
  split; [ | split; [ | split ] ].
  - intros id. apply displacementTable_keys.
  - intros id. rewrite table_get_defined.
    rewrite (proj1 (memberTables_keys nodes members loads d ([], []) id)).
    cbn [fst map In]. tauto.
  - intros id. rewrite table_get_defined.
    rewrite (proj2 (memberTables_keys nodes members loads d ([], []) id)).
    cbn [snd map In]. tauto.
  - eexists. split; [ reflexivity | ].
    intros id. rewrite table_get_defined.
    destruct (reactionTable_invariant nodes members loads d supports [] Hms)
      as [_ [_ Hkeys]].
    { constructor. }
    { intros ? ? []. }
    rewrite Hkeys. cbn [map In]. split.
    + intros [[] | [s [Hs [Hid Hfound]]]].
      destruct (findNode nodes id) as [n0|] eqn:Hn0; [ | contradiction ].
      apply findNode_some in Hn0. destruct Hn0 as [Hin Hn0].
      exists s, n0. auto.
    + intros [s [n0 [Hs [Hin [Hid Hn0]]]]]. right. exists s.
      split; [ exact Hs | ]. split; [ exact Hid | ].
      intros Hnone. unfold findNode in Hnone.
      apply (find_none _ _ Hnone) in Hin. rewrite Hn0, String.eqb_refl in Hin.
      discriminate Hin.
Qed.

End ResultKeys.

Lemma result_table_keys_witness :
  exists r,
    solve inv_small ex_nodes ex_members ex_supports ex_loads = Return r /\
    table_get "n1" (nodeDisplacements r) <> None /\
    table_get "m1" (diagrams r) <> None.
Proof.
  destruct ex_solve_returns as [r Hr]. exists r. split; [ exact Hr | ].
  assert (Hnodes : Forall (fun n => node_id n <> "__proto__") ex_nodes).
  { repeat constructor; discriminate. }
  assert (Hmembers : Forall (fun m => member_id m <> "__proto__") ex_members).
  { repeat constructor; discriminate. }
  destruct (result_table_keys inv_small ex_nodes ex_members ex_supports ex_loads r
              ex_nodes_nonempty Hnodes Hmembers Hr) as [Hn [_ [Hd _]]].
  split.
  - apply Hn. exists ex_right. split; [ right; now left | reflexivity ].
  - apply Hd. exists ex_cantilever. split; [ now left | reflexivity ].
Defined.

(** ** The evaluation points of a diagram *)

Lemma Set_add_NoDup (x : R) (s : list R) : NoDup s -> NoDup (Set_add x s).
Proof.
  induction s as [|y s IH]; intros Hnd; cbn [Set_add].
  - constructor; [ intros [] | constructor ].
  - destruct (Req_dec_T y x) as [_ | Hne]; [ exact Hnd | ].
    inversion Hnd as [|? ? Hy Hs]; subst. constructor; [ | now apply IH ].
    rewrite Set_add_in. intros [-> | H]; [ now apply Hne | contradiction ].
Qed.

Lemma Set_add_length (x : R) (s : list R) :
  (List.length s <= List.length (Set_add x s) <= S (List.length s))%nat.
Proof.
  induction s as [|y s IH]; cbn [Set_add List.length]; [ lia | ].
  destruct (Req_dec_T y x); cbn [List.length]; lia.
Qed.

Lemma Set_add_fresh (x : R) (s : list R) : ~ In x s -> Set_add x s = (s ++ [x])%list.
Proof.
  induction s as [|y s IH]; intros Hx; cbn [Set_add app]; [ reflexivity | ].
  destruct (Req_dec_T y x) as [-> | _].
  - exfalso. apply Hx. now left.
  - f_equal. apply IH. intros H. apply Hx. now right.
Qed.

Lemma grid_fold_fresh (f : nat -> R) (l : list nat) (s : list R) :
  NoDup (s ++ map f l)%list ->
  fold_left (fun s i => Set_add (f i) s) l s = (s ++ map f l)%list.
Proof.
  revert s. induction l as [|i l IH]; intros s Hnd; cbn [fold_left map].
  - now rewrite app_nil_r.
  - cbn [map] in Hnd.
    rewrite Set_add_fresh.
    + rewrite IH; rewrite <- app_assoc; [ reflexivity | exact Hnd ].
    + intros Hin. apply NoDup_remove_2 in Hnd. apply Hnd.
      apply in_or_app. now left.
Qed.

Lemma grid_injective (L : R) (i j : nat) :
  L <> 0 -> (INR i / INR numPoints) * L = (INR j / INR numPoints) * L -> i = j.
Proof.
  intros HL H. apply Rmult_eq_reg_r in H; [ | exact HL ].
  apply INR_eq. unfold Rdiv in H.
  apply Rmult_eq_reg_r in H; [ exact H | ].
  apply Rinv_neq_0_compat. unfold numPoints. apply not_0_INR. discriminate.
Qed.

Lemma grid_points (L : R) :
  L <> 0 ->
  fold_left (fun s i => Set_add ((INR i / INR numPoints) * L) s)
    (seq 0 (numPoints + 1)) [] =
  map (fun i => (INR i / INR numPoints) * L) (seq 0 (numPoints + 1)) /\
  NoDup (map (fun i => (INR i / INR numPoints) * L) (seq 0 (numPoints + 1))).
Proof.
  intros HL.
  assert (Hnd : NoDup (map (fun i => (INR i / INR numPoints) * L) (seq 0 (numPoints + 1)))).
  { apply NoDup_map_injective; [ | apply seq_NoDup ].
    intros a b _ _. now apply grid_injective. }
  split; [ | exact Hnd ].
  now rewrite (grid_fold_fresh (fun i => (INR i / INR numPoints) * L)).
Qed.

Lemma loads_fold_shape (L : R) (l : list Load) (s : list R) :
  NoDup s ->
  let s' :=
    fold_left
      (fun s l =>
         if Rle_dec 0 (position l) then
           if Rle_dec (position l) L then Set_add (position l) s else s
         else s) l s in
  NoDup s' /\ (List.length s <= List.length s' <= List.length s + List.length l)%nat.
Proof.
  revert s. induction l as [|ld l IH]; intros s Hnd; cbn [fold_left List.length].
  - split; [ exact Hnd | lia ].
  - destruct (Rle_dec 0 (position ld)); [ destruct (Rle_dec (position ld) L) | ].
    + destruct (IH (Set_add (position ld) s) (Set_add_NoDup _ _ Hnd)) as [H1 H2].
      pose proof (Set_add_length (position ld) s).
      split; [ exact H1 | lia ].
    + destruct (IH s Hnd) as [H1 H2]. split; [ exact H1 | lia ].
    + destruct (IH s Hnd) as [H1 H2]. split; [ exact H1 | lia ].
Qed.

Lemma insert_sorted_perm (x : R) (l : list R) : Permutation (insert_sorted x l) (x :: l).
Proof.
  induction l as [|y l IH]; cbn [insert_sorted]; [ reflexivity | ].
  destruct (Rle_dec x y); [ reflexivity | ].
  rewrite IH. apply perm_swap.
Qed.

Lemma sort_numeric_perm (l : list R) : Permutation (sort_numeric l) l.
Proof.
  induction l as [|x l IH]; cbn [sort_numeric fold_right]; [ reflexivity | ].
  fold (sort_numeric l). rewrite insert_sorted_perm. now constructor.
Qed.

Lemma insert_sorted_sorted (x : R) (l : list R) :
  StronglySorted Rle l -> StronglySorted Rle (insert_sorted x l).
Proof.
  induction l as [|y l IH]; intros Hs; cbn [insert_sorted].
  - constructor; [ constructor | constructor ].
  - inversion Hs as [|? ? Hl Hy]; subst.
    destruct (Rle_dec x y) as [Hxy | Hxy].
    + constructor; [ exact Hs | ].
      constructor; [ exact Hxy | ].
      rewrite Forall_forall in Hy |- *. intros z Hz. specialize (Hy z Hz). lra.
    + constructor; [ now apply IH | ].
      rewrite Forall_forall in Hy |- *. intros z Hz.
      apply insert_sorted_in in Hz. destruct Hz as [-> | Hz]; [ lra | now apply Hy ].
Qed.

Lemma sort_numeric_sorted (l : list R) : StronglySorted Rle (sort_numeric l).
Proof.
  induction l as [|x l IH]; cbn [sort_numeric fold_right]; [ constructor | ].
  now apply insert_sorted_sorted.
Qed.

Lemma sorted_strict (l : list R) :
  StronglySorted Rle l -> NoDup l -> StronglySorted Rlt l.
Proof.
  induction l as [|x l IH]; intros Hs Hnd; [ constructor | ].
  inversion Hs as [|? ? Hl Hx]; inversion Hnd as [|? ? Hnx Hnl]; subst.
  constructor; [ now apply IH | ].
  rewrite Forall_forall in Hx |- *. intros z Hz. specialize (Hx z Hz).
  destruct (Req_dec_T x z) as [-> | Hne]; [ contradiction | lra ].
Qed.

Lemma sorted_hd_min (l : list R) (m : R) :
  StronglySorted Rle l -> In m l -> (forall z, In z l -> m <= z) -> hd 0 l = m.
Proof.
  intros Hs Hm Hmin. destruct l as [|x l]; [ contradiction | ].
  cbn [hd]. inversion Hs as [|? ? _ Hx]; subst.
  destruct Hm as [-> | Hm]; [ reflexivity | ].
  rewrite Forall_forall in Hx. specialize (Hx m Hm).
  specialize (Hmin x (or_introl eq_refl)). lra.
Qed.

Lemma sorted_last_max (l : list R) (m : R) :
  StronglySorted Rle l -> In m l -> (forall z, In z l -> z <= m) -> last l 0 = m.
Proof.
  induction l as [|x l IH]; intros Hs Hm Hmax; [ contradiction | ].
  inversion Hs as [|? ? Hl Hx]; subst.
  destruct l as [|y l].
  - cbn [last]. destruct Hm as [-> | []]. reflexivity.
  - change (last (x :: y :: l) 0) with (last (y :: l) 0).
    apply IH; [ exact Hl | | intros z Hz; apply Hmax; now right ].
    destruct Hm as [<- | Hm]; [ | exact Hm ].
    rewrite Forall_forall in Hx.
    assert (Hxy : x <= y) by (apply Hx; now left).
    assert (Hyx : y <= x) by (apply Hmax; right; now left).
    left. lra.
Qed.

Lemma sortedPoints_shape (loads : list Load) (member : Member) (L : R) :
  0 < L ->
  StronglySorted Rlt (sortedPoints loads member L) /\
  hd 0 (sortedPoints loads member L) = 0 /\
  last (sortedPoints loads member L) 0 = L /\
  (numPoints + 1 <= List.length (sortedPoints loads member L)
     <= numPoints + 1 + List.length (loadsOn loads member))%nat.
Proof.
  intros HL.
  assert (HL0 : L <> 0) by lra.
  destruct (grid_points L HL0) as [Hgrid Hnd].
  pose proof (loads_fold_shape L (loadsOn loads member) _ Hnd) as Hshape.
  cbv zeta in Hshape. destruct Hshape as [Hnd' Hlen].
  rewrite length_map, length_seq in Hlen.
  assert (Hsorted : StronglySorted Rle (sortedPoints loads member L))
    by apply sort_numeric_sorted.
  assert (Hperm : Permutation (sortedPoints loads member L)
            (fold_left
               (fun s l =>
                  if Rle_dec 0 (position l) then
                    if Rle_dec (position l) L then Set_add (position l) s else s
                  else s)
               (loadsOn loads member)
               (map (fun i => (INR i / INR numPoints) * L) (seq 0 (numPoints + 1))))).
  { unfold sortedPoints. rewrite Hgrid. apply sort_numeric_perm. }
  split; [ | split; [ | split ] ].
  - apply sorted_strict; [ exact Hsorted | ].
    apply (Permutation_NoDup (Permutation_sym Hperm) Hnd').
  - apply sorted_hd_min; [ exact Hsorted | | ].
    + apply sortedPoints_in. left. exists 0%nat. split; [ unfold numPoints; lia | ].
      cbn [INR]. unfold Rdiv. ring.
    + intros z Hz. apply (sortedPoints_range loads member L z); [ lra | exact Hz ].
  - apply sorted_last_max; [ exact Hsorted | apply sortedPoints_end | ].
    intros z Hz. apply (sortedPoints_range loads member L z); [ lra | exact Hz ].
  - rewrite (Permutation_length Hperm). exact Hlen.
Qed.

Section DiagramShape.

Variable inv : matrix -> option matrix.

(** X14.  Every diagram of a returned result has four arrays of one length;
    its evaluation points are strictly increasing, start at 0 and end at the
    member's length, and number at least 51 (the grid) and at most 51 plus
    the number of loads on the member. *)
Theorem diagram_shape (nodes : list Node) (members : list Member)
    (supports : list Support) (loads : list Load)
    (r : AnalysisResult) (id : string) (D : Diagram) :
  solve inv nodes members supports loads = Return r ->
  table_get id (diagrams r) = Some D ->
  exists m startNode endNode,
    In m members /\ member_id m = id /\
    findNode nodes (startNodeId m) = Some startNode /\
    findNode nodes (endNodeId m) = Some endNode /\
    0 < memberLength startNode endNode /\
    List.length (shear D) = List.length (diag_x D) /\
    List.length (moment D) = List.length (diag_x D) /\
    List.length (displacement D) = List.length (diag_x D) /\
    StronglySorted Rlt (diag_x D) /\
    hd 0 (diag_x D) = 0 /\
    last (diag_x D) 0 = memberLength startNode endNode /\
    (51 <= List.length (diag_x D) <= 51 + List.length (loadsOn loads m))%nat.
Proof.
  intros Hr HD.
  destruct nodes as [|n ns].
  { cbn in Hr. injection Hr as <-. discriminate HD. }
  assert (Hn : n :: ns <> []) by discriminate.
  destruct (solve_return inv _ _ _ _ r Hn Hr) as [Hms [Hls [d [Hd _]]]].
  rewrite solve_accepted, Hd in Hr by assumption. cbn [bind] in Hr.
  rewrite calculateResults_value in Hr by assumption. injection Hr as <-.
  cbn [diagrams] in HD. apply table_get_in, memberTables_entries in HD.
  destruct HD as [[] | [m [Hm [Hid HD]]]].
  rewrite Forall_forall in Hms. destruct (Hms m Hm) as [sN [eN [Hs [He HL]]]].
  exists m, sN, eN.
  split; [ exact Hm | ]. split; [ exact Hid | ]. split; [ exact Hs | ].
  split; [ exact He | ].
  assert (HLpos : 0 < memberLength sN eN).
  { pose proof (memberLength_nonneg sN eN). lra. }
  split; [ exact HLpos | ].
  unfold memberResultOf in HD. rewrite Hs, He in HD. cbn [snd] in HD.
  change (sqrt _) with (memberLength sN eN) in HD.
  subst D. unfold memberDiagram. cbn [diag_x shear moment displacement].
  rewrite !length_map.
  destruct (sortedPoints_shape loads m (memberLength sN eN) HLpos)
    as [H1 [H2 [H3 H4]]].
  repeat split; try reflexivity; try assumption; unfold numPoints in H4; lia.
Qed.

End DiagramShape.

Lemma diagram_shape_witness :
  exists r D,
    solve inv_small ex_nodes ex_members ex_supports ex_loads = Return r /\
    table_get "m1" (diagrams r) = Some D /\
    StronglySorted Rlt (diag_x D) /\ hd 0 (diag_x D) = 0.
Proof.
  destruct ex_solve_returns as [r Hr].
  destruct (table_get "m1" (diagrams r)) as [D|] eqn:HD.
  - exists r, D. split; [ exact Hr | ]. split; [ exact HD | ].
    destruct (diagram_shape inv_small ex_nodes ex_members ex_supports ex_loads r "m1" D Hr HD)
      as [m [sN [eN [_ [_ [_ [_ [_ [_ [_ [_ [H1 [H2 _]]]]]]]]]]]]].
    split; assumption.
  - exfalso.
    destruct (solve_return inv_small _ _ _ _ r ex_nodes_nonempty Hr)
      as [Hms [Hls [d [Hd _]]]].
    rewrite (solve_accepted inv_small _ _ _ _ ex_nodes_nonempty Hms Hls), Hd in Hr.
    cbn [bind] in Hr.
    rewrite (calculateResults_value _ _ _ _ d Hms) in Hr. injection Hr as <-.
    change (Some (snd (memberResultOf ex_nodes ex_loads d ex_cantilever)) = None) in HD.
    discriminate HD.
Defined.

(** ** Statics of a member's end forces *)

Lemma memberStiffness_value (nodes : list Node) (m : Member) (sN eN : Node) :
  findNode nodes (startNodeId m) = Some sN ->
  findNode nodes (endNodeId m) = Some eN ->
  memberLength sN eN <> 0 ->
  let dx := node_x eN - node_x sN in
  let dy := node_y eN - node_y sN in
  let L := sqrt (dx * dx + dy * dy) in
  memberStiffness nodes m =
  multiply (multiply (transpose (transformation (dx / L) (dy / L))) (k_local_vals m L))
    (transformation (dx / L) (dy / L)).
Proof.
  intros Hs He HL dx dy L. unfold memberStiffness. rewrite Hs, He.
  unfold getMemberGlobalStiffnessMatrix. fold dx dy L.
  destruct (Req_dec_T L 0) as [H0 | _]; [ contradiction | reflexivity ].
Qed.

Lemma mat_vec6_entry (G : matrix) (u0 u1 u2 u3 u4 u5 : R) (i : nat) :
  (i < List.length G)%nat ->
  Forall (fun row => List.length row = 6%nat) G ->
  vget (mat_vec G [u0; u1; u2; u3; u4; u5]) i =
  mget G i 0 * u0 + mget G i 1 * u1 + mget G i 2 * u2
  + mget G i 3 * u3 + mget G i 4 * u4 + mget G i 5 * u5.
Proof.
  intros Hi Hrows. rewrite mat_vec_entry; [ | exact Hi | exact Hrows ].
  cbn [List.length seq map]. rewrite !Rsum_cons, Rsum_nil.
  unfold vget at 1 2 3 4 5 6. cbn [nth]. ring.
Qed.

(** The columns of a member's global stiffness matrix are in equilibrium:
    horizontal and vertical entries of the two ends cancel, and so do the
    moments about the start node. *)
Lemma memberStiffness_columns (nodes : list Node) (m : Member) (sN eN : Node) (j : nat) :
  findNode nodes (startNodeId m) = Some sN ->
  findNode nodes (endNodeId m) = Some eN ->
  memberLength sN eN <> 0 ->
  (j < 6)%nat ->
  let dx := node_x eN - node_x sN in
  let dy := node_y eN - node_y sN in
  let G := memberStiffness nodes m in
  mget G 0 j + mget G 3 j = 0 /\
  mget G 1 j + mget G 4 j = 0 /\
  mget G 2 j + mget G 5 j + (dx * mget G 4 j - dy * mget G 3 j) = 0.
Proof.
  intros Hs He HL Hj dx dy G.
  assert (Hok : memberOk nodes m) by (exists sN, eN; auto).
  destruct (memberStiffness_shape nodes m Hok) as [Hlen Hrows].
  pose proof (memberStiffness_value nodes m sN eN Hs He HL) as HG. cbv zeta in HG.
  fold dx dy in HG. fold G in HG, Hlen, Hrows.
  assert (Hsym : forall i, (i < 6)%nat -> mget G i j = mget G j i).
  { intros i Hi. rewrite HG. now apply global_stiffness_symmetric. }
  destruct (global_stiffness_rigid_body m dx dy HL) as [Htr Hrot].
  cbv zeta in Htr, Hrot. rewrite <- HG in Htr, Hrot.
  assert (Hj' : (j < List.length G)%nat) by lia.
  rewrite !Hsym by lia.
  pose proof (f_equal (fun v => vget v j) (Htr 1 0)) as Hx.
  pose proof (f_equal (fun v => vget v j) (Htr 0 1)) as Hy.
  pose proof (f_equal (fun v => vget v j) (Hrot 1)) as Hr.
  cbv beta in Hx, Hy, Hr.
  rewrite mat_vec6_entry in Hx, Hy, Hr by assumption.
  replace (vget [0; 0; 0; 0; 0; 0] j) with 0 in Hx, Hy, Hr
    by (do 6 (destruct j as [|j]; [ reflexivity | ]); lia).
  repeat split; lra.
Qed.

Lemma loadForces_resultant (nodes : list Node) (m : Member) (l : Load) (sN eN : Node) :
  findNode nodes (startNodeId m) = Some sN ->
  findNode nodes (endNodeId m) = Some eN ->
  memberLength sN eN <> 0 ->
  let dx := node_x eN - node_x sN in
  let dy := node_y eN - node_y sN in
  let L := memberLength sN eN in
  let g := loadForces nodes m l in
  vget g 0 + vget g 3 = magnitude l * (dy / L) /\
  vget g 1 + vget g 4 = - (magnitude l * (dx / L)) /\
  vget g 2 + vget g 5 + (dx * vget g 4 - dy * vget g 3) + magnitude l * position l = 0.
Proof.
  intros Hs He HL dx dy L g. unfold g, loadForces. rewrite Hs, He.
  destruct (global_FEF_reference m l sN eN) as [g' [Hg' [_ Hgi]]].
  rewrite Hg'. cbn [value].
  rewrite (Hgi 0%nat), (Hgi 1%nat), (Hgi 2%nat), (Hgi 3%nat), (Hgi 4%nat), (Hgi 5%nat)
    by lia.
  destruct (cos_sin_atan2 (node_y eN - node_y sN) (node_x eN - node_x sN) HL) as [Hc Hsn].
  rewrite Hc, Hsn. change (sqrt _) with L. fold dx dy.
  exact (referenceGlobalFEF_balance (magnitude l) (position l) L
           (startRelease m) (endRelease m) dx dy HL (memberLength_square sN eN)).
Qed.

Lemma endForces_resultant (nodes : list Node) (loads : list Load) (d : Column)
    (m : Member) (sN eN : Node) :
  findNode nodes (startNodeId m) = Some sN ->
  findNode nodes (endNodeId m) = Some eN ->
  memberLength sN eN <> 0 ->
  let dx := node_x eN - node_x sN in
  let dy := node_y eN - node_y sN in
  let L := memberLength sN eN in
  let g := endForces nodes loads d m in
  vget g 0 + vget g 3 = Rsum (map (fun l => magnitude l * (dy / L)) (loadsOn loads m)) /\
  vget g 1 + vget g 4 = - Rsum (map (fun l => magnitude l * (dx / L)) (loadsOn loads m)) /\
  vget g 2 + vget g 5 + (dx * vget g 4 - dy * vget g 3) =
    - Rsum (map (fun l => magnitude l * position l) (loadsOn loads m)).
Proof.
  intros Hs He HL dx dy L g.
  assert (Hok : memberOk nodes m) by (exists sN, eN; auto).
  unfold g. rewrite !endForces_entry by (assumption || lia).
  set (G := memberStiffness nodes m).
  set (idx := memberDofs nodes m).
  set (ls := loadsOn loads m).
  assert (Hcol : forall j, (j < 6)%nat ->
            mget G 0 j + mget G 3 j = 0 /\
            mget G 1 j + mget G 4 j = 0 /\
            mget G 2 j + mget G 5 j + (dx * mget G 4 j - dy * mget G 3 j) = 0).
  { intros j Hj. exact (memberStiffness_columns nodes m sN eN j Hs He HL Hj). }
  assert (Hload : forall l,
            vget (loadForces nodes m l) 0 + vget (loadForces nodes m l) 3 =
              magnitude l * (dy / L) /\
            vget (loadForces nodes m l) 1 + vget (loadForces nodes m l) 4 =
              - (magnitude l * (dx / L)) /\
            vget (loadForces nodes m l) 2 + vget (loadForces nodes m l) 5
            + (dx * vget (loadForces nodes m l) 4 - dy * vget (loadForces nodes m l) 3)
            + magnitude l * position l = 0).
  { intros l. exact (loadForces_resultant nodes m l sN eN Hs He HL). }
  assert (Hk : forall (u0 u1 u2 u3 u4 u5 : R),
            (forall j, (j < 6)%nat ->
               u0 * mget G 0 j + u1 * mget G 1 j + u2 * mget G 2 j
               + u3 * mget G 3 j + u4 * mget G 4 j + u5 * mget G 5 j = 0) ->
            u0 * sum6 (fun j => mget G 0 j * d (nth j idx 0%nat))
            + u1 * sum6 (fun j => mget G 1 j * d (nth j idx 0%nat))
            + u2 * sum6 (fun j => mget G 2 j * d (nth j idx 0%nat))
            + u3 * sum6 (fun j => mget G 3 j * d (nth j idx 0%nat))
            + u4 * sum6 (fun j => mget G 4 j * d (nth j idx 0%nat))
            + u5 * sum6 (fun j => mget G 5 j * d (nth j idx 0%nat)) = 0).
  { intros u0 u1 u2 u3 u4 u5 Hu. unfold sum6. rewrite <- !Rsum_map_scal_l.
    rewrite <- !Rsum_map_plus. rewrite (Rsum_map_ext _ (fun _ => 0)).
    - apply Rsum_map_zero.
    - intros j Hj. apply in_seq in Hj.
      replace (u0 * (mget G 0 j * d (nth j idx 0%nat))
               + u1 * (mget G 1 j * d (nth j idx 0%nat))
               + u2 * (mget G 2 j * d (nth j idx 0%nat))
               + u3 * (mget G 3 j * d (nth j idx 0%nat))
               + u4 * (mget G 4 j * d (nth j idx 0%nat))
               + u5 * (mget G 5 j * d (nth j idx 0%nat)))
        with ((u0 * mget G 0 j + u1 * mget G 1 j + u2 * mget G 2 j
               + u3 * mget G 3 j + u4 * mget G 4 j + u5 * mget G 5 j)
              * d (nth j idx 0%nat)) by ring.
      rewrite Hu by lia. ring. }
  pose proof (Hk 1 0 0 1 0 0) as Hx.
  pose proof (Hk 0 1 0 0 1 0) as Hy.
  pose proof (Hk 0 0 1 (- dy) dx 1) as Hr.
  split; [ | split ].
  - rewrite (Rsum_map_ext (fun l => magnitude l * (dy / L))
               (fun l => vget (loadForces nodes m l) 0 + vget (loadForces nodes m l) 3)).
    2:{ intros l _. symmetry. apply Hload. }
    rewrite Rsum_map_plus.
    assert (H0 : forall j, (j < 6)%nat ->
              1 * mget G 0 j + 0 * mget G 1 j + 0 * mget G 2 j
              + 1 * mget G 3 j + 0 * mget G 4 j + 0 * mget G 5 j = 0).
    { intros j Hj. destruct (Hcol j Hj) as [H _]. lra. }
    specialize (Hx H0). lra.
  - rewrite (Rsum_map_ext (fun l => magnitude l * (dx / L))
               (fun l => - (vget (loadForces nodes m l) 1 + vget (loadForces nodes m l) 4))).
    2:{ intros l _. destruct (Hload l) as [_ [H _]]. lra. }
    rewrite Rsum_map_opp, Rsum_map_plus.
    assert (H0 : forall j, (j < 6)%nat ->
              0 * mget G 0 j + 1 * mget G 1 j + 0 * mget G 2 j
              + 0 * mget G 3 j + 1 * mget G 4 j + 0 * mget G 5 j = 0).
    { intros j Hj. destruct (Hcol j Hj) as [_ [H _]]. lra. }
    specialize (Hy H0). lra.
  - rewrite (Rsum_map_ext (fun l => magnitude l * position l)
               (fun l => - (vget (loadForces nodes m l) 2 + vget (loadForces nodes m l) 5
                            + (dx * vget (loadForces nodes m l) 4
                               - dy * vget (loadForces nodes m l) 3)))).
    2:{ intros l _. destruct (Hload l) as [_ [_ H]]. lra. }
    rewrite Rsum_map_opp.
    rewrite (Rsum_map_ext
               (fun l => vget (loadForces nodes m l) 2 + vget (loadForces nodes m l) 5
                         + (dx * vget (loadForces nodes m l) 4
                            - dy * vget (loadForces nodes m l) 3))
               (fun l => (vget (loadForces nodes m l) 2 + vget (loadForces nodes m l) 5)
                         + (dx * vget (loadForces nodes m l) 4
                            + - dy * vget (loadForces nodes m l) 3))).
    2:{ intros l _. ring. }
    rewrite !Rsum_map_plus, !Rsum_map_scal_l.
    assert (H0 : forall j, (j < 6)%nat ->
              0 * mget G 0 j + 0 * mget G 1 j + 1 * mget G 2 j
              + - dy * mget G 3 j + dx * mget G 4 j + 1 * mget G 5 j = 0).
    { intros j Hj. destruct (Hcol j Hj) as [_ [_ H]]. lra. }
    specialize (Hr H0). lra.
Qed.

Lemma list6 (v : vector) :
  List.length v = 6%nat ->
  v = [vget v 0; vget v 1; vget v 2; vget v 3; vget v 4; vget v 5].
Proof.
  intros H. do 6 (destruct v as [|? v]; [ discriminate H | ]).
  destruct v; [ reflexivity | discriminate H ].
Qed.

Lemma rotate_to_local (c s : R) (g : vector) :
  List.length g = 6%nat ->
  mat_vec (transformation c s) g =
  [ c * vget g 0 + s * vget g 1; - s * vget g 0 + c * vget g 1; vget g 2;
    c * vget g 3 + s * vget g 4; - s * vget g 3 + c * vget g 4; vget g 5 ].
Proof.
  intros H. rewrite (list6 g H) at 1.
  cbn. repeat (apply (f_equal2 (@cons R)); [ ring | ]). reflexivity.
Qed.

Lemma memberTables_pair (nodes : list Node) (members : list Member) (loads : list Load)
    (d : Column) (acc : table MemberForce * table Diagram)
    (id : string) (F : MemberForce) (D : Diagram) :
  table_get id (fst (memberTables nodes members loads d acc)) = Some F ->
  table_get id (snd (memberTables nodes members loads d acc)) = Some D ->
  (table_get id (fst acc) = Some F /\ table_get id (snd acc) = Some D) \/
  exists m, In m members /\ member_id m = id /\
    F = fst (memberResultOf nodes loads d m) /\ D = snd (memberResultOf nodes loads d m).
Proof.
  unfold memberTables. revert acc.
  induction members as [|m members IH]; intros acc; cbn [fold_left]; [ now left | ].
  intros HF HD. destruct (IH _ HF HD) as [[HF' HD'] | [m' [Hm' H]]].
  - cbn [fst snd] in HF', HD'.
    destruct (String.eqb_spec id (member_id m)) as [-> | Hne].
    + rewrite table_get_set_same in HF'. rewrite table_get_set_same in HD'.
      injection HF' as <-. injection HD' as <-.
      right. exists m. split; [ now left | auto ].
    + rewrite table_get_set_other in HF' by assumption.
      rewrite table_get_set_other in HD' by assumption. now left.
  - right. exists m'. split; [ now right | exact H ].
Qed.

Section MemberStatics.

Variable inv : matrix -> option matrix.

(** X15.  The member forces of a returned result satisfy the statics of the
    member: the end shear is the start shear plus the magnitudes of all
    loads on the member (in range or not), and the end moment follows from
    the moments about the start node. *)
Theorem member_force_statics (nodes : list Node) (members : list Member)
    (supports : list Support) (loads : list Load)
    (r : AnalysisResult) (id : string) (F : MemberForce) :
  solve inv nodes members supports loads = Return r ->
  table_get id (memberForces r) = Some F ->
  exists m startNode endNode,
    In m members /\ member_id m = id /\
    findNode nodes (startNodeId m) = Some startNode /\
    findNode nodes (endNodeId m) = Some endNode /\
    memberLength startNode endNode <> 0 /\
    shearEnd F = shearStart F + Rsum (map magnitude (loadsOn loads m)) /\
    momentEnd F =
      momentStart F - shearEnd F * memberLength startNode endNode
      + Rsum (map (fun l => magnitude l * position l) (loadsOn loads m)).
Proof.
  intros Hr HF.
  destruct nodes as [|n ns].
  { cbn in Hr. injection Hr as <-. discriminate HF. }
  assert (Hn : n :: ns <> []) by discriminate.
  destruct (solve_return inv _ _ _ _ r Hn Hr) as [Hms [Hls [d [Hd _]]]].
  rewrite solve_accepted, Hd in Hr by assumption. cbn [bind] in Hr.
  rewrite calculateResults_value in Hr by assumption. injection Hr as <-.
  cbn [memberForces] in HF. apply table_get_in, memberTables_forces_entries in HF.
  destruct HF as [[] | [m [Hm [Hid HF]]]].
  rewrite Forall_forall in Hms. pose proof (Hms m Hm) as Hok.
  destruct Hok as [sN [eN [Hs [He HL]]]].
  exists m, sN, eN.
  split; [ exact Hm | ]. split; [ exact Hid | ]. split; [ exact Hs | ].
  split; [ exact He | ]. split; [ exact HL | ].
  unfold memberResultOf in HF. rewrite Hs, He in HF. cbn [fst] in HF.
  change (sqrt _) with (memberLength sN eN) in HF.
  set (dx := node_x eN - node_x sN) in *. set (dy := node_y eN - node_y sN) in *.
  set (L := memberLength sN eN) in *.
  rewrite (rotate_to_local (dx / L) (dy / L)) in HF
    by (apply endForces_length; exists sN, eN; auto).
  subst F. cbn [shearEnd shearStart momentEnd momentStart].
  destruct (endForces_resultant (n :: ns) loads d m sN eN Hs He HL) as [Hx [Hy Hmom]].
  fold dx dy L in Hx, Hy, Hmom.
  set (g := endForces (n :: ns) loads d m) in *.
  rewrite Rsum_map_scal_r in Hx, Hy.
  pose proof (memberLength_square sN eN) as HLL. cbv zeta in HLL. fold dx dy L in HLL.
  set (SP := Rsum (map magnitude (loadsOn loads m))) in *.
  set (SM := Rsum (map (fun l => magnitude l * position l) (loadsOn loads m))) in *.
  assert (E3 : vget g 3 = SP * (dy / L) - vget g 0) by lra.
  assert (E4 : vget g 4 = - (SP * (dx / L)) - vget g 1) by lra.
  assert (Hcs : dx / L * (dx / L) + dy / L * (dy / L) = 1).
  { replace (dx / L * (dx / L) + dy / L * (dy / L))
      with ((dx * dx + dy * dy) / (L * L)) by (field; exact HL).
    rewrite <- HLL. field. exact HL. }
  assert (HdxL : dx / L * L = dx) by (field; exact HL).
  assert (HdyL : dy / L * L = dy) by (field; exact HL).
  set (c := dx / L) in *. set (s := dy / L) in *.
  set (g0 := vget g 0) in *. set (g1 := vget g 1) in *. set (g2 := vget g 2) in *.
  set (g3 := vget g 3) in *. set (g4 := vget g 4) in *. set (g5 := vget g 5) in *.
  unfold vget. cbn [nth].
  split.
  - rewrite E3, E4.
    replace (- (- s * (SP * s - g0) + c * (- (SP * c) - g1)))
      with (- s * g0 + c * g1 + SP * (c * c + s * s)) by ring.
    rewrite Hcs. ring.
  - replace (- g5) with (g2 + (dx * g4 - dy * g3) + SM) by lra.
    rewrite <- HdxL, <- HdyL. ring.
Qed.

End MemberStatics.

Lemma ex_member_forces :
  exists r F,
    solve inv_small ex_nodes ex_members ex_supports ex_loads = Return r /\
    table_get "m1" (memberForces r) = Some F.
Proof.
  destruct ex_solve_returns as [r Hr].
  destruct (solve_return inv_small _ _ _ _ r ex_nodes_nonempty Hr)
    as [Hms [Hls [d [Hd _]]]].
  pose proof Hr as Hr'.
  rewrite (solve_accepted inv_small _ _ _ _ ex_nodes_nonempty Hms Hls), Hd in Hr'.
  cbn [bind] in Hr'.
  rewrite (calculateResults_value _ _ _ _ d Hms) in Hr'. injection Hr' as Hr'.
  exists r, (fst (memberResultOf ex_nodes ex_loads d ex_cantilever)).
  split; [ exact Hr | ]. rewrite <- Hr'. reflexivity.
Qed.

Lemma member_force_statics_witness :
  exists r F,
    solve inv_small ex_nodes ex_members ex_supports ex_loads = Return r /\
    table_get "m1" (memberForces r) = Some F /\
    exists m, In m ex_members /\
      shearEnd F = shearStart F + Rsum (map magnitude (loadsOn ex_loads m)).
Proof.
  destruct ex_member_forces as [r [F [Hr HF]]].
  exists r, F. split; [ exact Hr | ]. split; [ exact HF | ].
  destruct (member_force_statics inv_small ex_nodes ex_members ex_supports ex_loads
              r "m1" F Hr HF) as [m [sN [eN [Hm [_ [_ [_ [_ [H _]]]]]]]]].
  exists m. split; assumption.
Defined.

Lemma filter_none {X} (p : X -> bool) (l : list X) :
  (forall x, In x l -> p x = false) -> filter p l = [].
Proof.
  induction l as [|x l IH]; intros H; cbn [filter]; [ reflexivity | ].
  rewrite (H x (or_introl eq_refl)). apply IH. intros y Hy. apply H. now right.
Qed.

Section DiagramValues.

Variable inv : matrix -> option matrix.

(** X16.  In a returned result the shear and moment diagrams of a member are
    built from its reported start forces: at every evaluation point x the
    shear is the start shear plus P dx/L for each load of the member placed
    before x, and the moment is minus the start moment plus the moments of
    these forces about x.  When no load of the member has a negative
    position, the diagrams start at the start shear and at minus the start
    moment. *)
Theorem diagram_values (nodes : list Node) (members : list Member)
    (supports : list Support) (loads : list Load)
    (r : AnalysisResult) (id : string) (F : MemberForce) (D : Diagram) :
  solve inv nodes members supports loads = Return r ->
  table_get id (memberForces r) = Some F ->
  table_get id (diagrams r) = Some D ->
  exists m startNode endNode,
    In m members /\ member_id m = id /\
    findNode nodes (startNodeId m) = Some startNode /\
    findNode nodes (endNodeId m) = Some endNode /\
    let dx := node_x endNode - node_x startNode in
    let L := memberLength startNode endNode in
    (forall k, (k < List.length (diag_x D))%nat ->
       let x := nth k (diag_x D) 0 in
       let crossed :=
         filter (fun l => if Rlt_dec (position l) x then true else false)
           (loadsOn loads m) in
       nth k (shear D) 0 =
         shearStart F + Rsum (map (fun l => magnitude l * (dx / L)) crossed) /\
       nth k (moment D) 0 =
         - momentStart F + shearStart F * x
         + Rsum (map (fun l => magnitude l * (dx / L) * (x - position l)) crossed)) /\
    ((forall l, In l (loadsOn loads m) -> 0 <= position l) ->
     nth 0 (shear D) 0 = shearStart F /\ nth 0 (moment D) 0 = - momentStart F).
Proof.
  intros Hr HF HD.
  destruct nodes as [|n ns].
  { cbn in Hr. injection Hr as <-. discriminate HF. }
  assert (Hn : n :: ns <> []) by discriminate.
  destruct (solve_return inv _ _ _ _ r Hn Hr) as [Hms [Hls [d [Hd _]]]].
  rewrite solve_accepted, Hd in Hr by assumption. cbn [bind] in Hr.
  rewrite calculateResults_value in Hr by assumption. injection Hr as <-.
  cbn [memberForces diagrams] in HF, HD.
  destruct (memberTables_pair _ _ _ _ _ _ _ _ HF HD) as [[H _] | [m [Hm [Hid [HFm HDm]]]]];
    [ discriminate H | ].
  rewrite Forall_forall in Hms. destruct (Hms m Hm) as [sN [eN [Hs [He HL]]]].
  exists m, sN, eN.
  split; [ exact Hm | ]. split; [ exact Hid | ]. split; [ exact Hs | ].
  split; [ exact He | ].
  unfold memberResultOf in HFm, HDm. rewrite Hs, He in HFm, HDm.
  cbn [fst snd] in HFm, HDm.
  change (sqrt _) with (memberLength sN eN) in HFm, HDm.
  set (dx := node_x eN - node_x sN) in *. set (dy := node_y eN - node_y sN) in *.
  set (L := memberLength sN eN) in *.
  set (f_local := mat_vec (transformation (dx / L) (dy / L))
                    (endForces (n :: ns) loads d m)) in *.
  set (d_local := mat_vec (transformation (dx / L) (dy / L))
                    (memberDisplacements (n :: ns) d m)) in *.
  cbv zeta.
  assert (Hcos : cos (atan2 dy dx) = dx / L).
  { destruct (cos_sin_atan2 dy dx HL) as [Hc _]. exact Hc. }
  assert (Hpoint : forall k, (k < List.length (diag_x D))%nat ->
    nth k (shear D) 0 =
      shearStart F
      + Rsum (map (fun l => magnitude l * (dx / L))
                (filter (fun l => if Rlt_dec (position l) (nth k (diag_x D) 0)
                                  then true else false) (loadsOn loads m))) /\
    nth k (moment D) 0 =
      - momentStart F + shearStart F * nth k (diag_x D) 0
      + Rsum (map (fun l => magnitude l * (dx / L) * (nth k (diag_x D) 0 - position l))
                (filter (fun l => if Rlt_dec (position l) (nth k (diag_x D) 0)
                                  then true else false) (loadsOn loads m)))).
  { intros k Hk. subst D F. unfold memberDiagram in *.
    cbn [diag_x shear moment shearStart momentStart] in *.
    set (th := theta_start _ _ _ _ _ _ _ _ _).
    set (v1 := vget d_local 1).
    set (points := sortedPoints loads m L) in *.
    rewrite !map_map.
    rewrite (nth_indep _ 0
               (fst (fst (diagramPoint loads m dx dy f_local v1 th 0))))
      by (now rewrite length_map).
    rewrite (map_nth (fun x => fst (fst (diagramPoint loads m dx dy f_local v1 th x)))).
    rewrite (nth_indep (map _ points) 0
               (snd (fst (diagramPoint loads m dx dy f_local v1 th 0))))
      by (now rewrite length_map).
    rewrite (map_nth (fun x => snd (fst (diagramPoint loads m dx dy f_local v1 th x)))).
    destruct (diagramPoint_shear_moment loads m dx dy f_local v1 th (nth k points 0))
      as [HV HM].
    cbv zeta in HV, HM. rewrite HV, HM, Hcos. split; reflexivity. }
  split; [ exact Hpoint | ].
  intros Hpos.
  assert (HLpos : 0 < L) by (pose proof (memberLength_nonneg sN eN) as Hnn; unfold L in *; lra).
  assert (Hlen : (0 < List.length (diag_x D))%nat).
  { subst D. unfold memberDiagram. cbn [diag_x].
    destruct (sortedPoints_shape loads m L HLpos) as [_ [_ [_ Hl]]]. lia. }
  assert (Hx0 : nth 0 (diag_x D) 0 = 0).
  { subst D. unfold memberDiagram. cbn [diag_x].
    destruct (sortedPoints_shape loads m L HLpos) as [_ [H0 _]].
    destruct (sortedPoints loads m L); [ reflexivity | exact H0 ]. }
  destruct (Hpoint 0%nat Hlen) as [HV HM]. rewrite HV, HM, Hx0.
  assert (Hnone : filter (fun l => if Rlt_dec (position l) 0 then true else false)
                    (loadsOn loads m) = []).
  { apply filter_none. intros l Hl. specialize (Hpos l Hl).
    destruct (Rlt_dec (position l) 0); [ lra | reflexivity ]. }
  rewrite Hnone. cbn [map]. rewrite Rsum_nil. split; ring.
Qed.

End DiagramValues.

Lemma ex_forces_and_diagram :
  exists r F D,
    solve inv_small ex_nodes ex_members ex_supports ex_loads = Return r /\
    table_get "m1" (memberForces r) = Some F /\
    table_get "m1" (diagrams r) = Some D.
Proof.
  destruct ex_solve_returns as [r Hr].
  destruct (solve_return inv_small _ _ _ _ r ex_nodes_nonempty Hr)
    as [Hms [Hls [d [Hd _]]]].
  pose proof Hr as Hr'.
  rewrite (solve_accepted inv_small _ _ _ _ ex_nodes_nonempty Hms Hls), Hd in Hr'.
  cbn [bind] in Hr'.
  rewrite (calculateResults_value _ _ _ _ d Hms) in Hr'. injection Hr' as Hr'.
  exists r, (fst (memberResultOf ex_nodes ex_loads d ex_cantilever)),
    (snd (memberResultOf ex_nodes ex_loads d ex_cantilever)).
  split; [ exact Hr | ]. rewrite <- Hr'. split; reflexivity.
Qed.

Lemma diagram_values_witness :
  exists r F D,
    solve inv_small ex_nodes ex_members ex_supports ex_loads = Return r /\
    table_get "m1" (memberForces r) = Some F /\
    table_get "m1" (diagrams r) = Some D /\
    nth 0 (shear D) 0 = shearStart F /\ nth 0 (moment D) 0 = - momentStart F.
Proof.
  destruct ex_forces_and_diagram as [r [F [D [Hr [HF HD]]]]].
  exists r, F, D. split; [ exact Hr | ]. split; [ exact HF | ]. split; [ exact HD | ].
  destruct (diagram_values inv_small ex_nodes ex_members ex_supports ex_loads
              r "m1" F D Hr HF HD) as [m [sN [eN [Hm [_ [_ [_ [_ Hstart]]]]]]]].
  cbv zeta in Hstart. apply Hstart.
  destruct Hm as [<- | []].
  intros l [<- | []]. cbn [position ex_mid_load]. lra.
Defined.

(** ** Global horizontal equilibrium *)

Lemma rowPick_horizontal (i j k : nat) (f : nat -> R) :
  rowPick (nodeDofs i j) (k * 3) f =
  (if (k =? i)%nat then f 0%nat else 0) + (if (k =? j)%nat then f 3%nat else 0).
Proof.
  unfold rowPick, sum6, nodeDofs. cbn [seq map nth].
  rewrite !Rsum_cons, Rsum_nil.
  replace (k * 3 =? i * 3 + 1)%nat with false by (symmetry; apply Nat.eqb_neq; lia).
  replace (k * 3 =? i * 3 + 2)%nat with false by (symmetry; apply Nat.eqb_neq; lia).
  replace (k * 3 =? j * 3 + 1)%nat with false by (symmetry; apply Nat.eqb_neq; lia).
  replace (k * 3 =? j * 3 + 2)%nat with false by (symmetry; apply Nat.eqb_neq; lia).
  replace (k * 3 =? i * 3 + 0)%nat with (k =? i)%nat.
  2:{ destruct (Nat.eqb_spec k i); symmetry; [ apply Nat.eqb_eq | apply Nat.eqb_neq ]; lia. }
  replace (k * 3 =? j * 3 + 0)%nat with (k =? j)%nat.
  2:{ destruct (Nat.eqb_spec k j); symmetry; [ apply Nat.eqb_eq | apply Nat.eqb_neq ]; lia. }
  lra.
Qed.

Lemma reaction_fold_Fx (nodes : list Node) (loads : list Load) (d : Column)
    (id : string) (ms : list Member) (Rx Ry Mz : R) :
  fst (fst
    (fold_left
       (fun (acc : R * R * R) m =>
          let '(Rx, Ry, Mz) := acc in
          let f_global := endForces nodes loads d m in
          if String.eqb (startNodeId m) id then
            (Rx + vget f_global 0, Ry + vget f_global 1, Mz + vget f_global 2)
          else
            (Rx + vget f_global 3, Ry + vget f_global 4, Mz + vget f_global 5))
       ms (Rx, Ry, Mz))) =
  Rx + Rsum (map (fun m => if String.eqb (startNodeId m) id
                           then vget (endForces nodes loads d m) 0
                           else vget (endForces nodes loads d m) 3) ms).
Proof.
  revert Rx Ry Mz. induction ms as [|m ms IH]; intros Rx Ry Mz; cbn [fold_left map].
  - rewrite Rsum_nil. cbn. lra.
  - rewrite Rsum_cons. destruct (String.eqb (startNodeId m) id); rewrite IH; lra.
Qed.

Lemma reactionOf_Fx (nodes : list Node) (members : list Member) (loads : list Load)
    (d : Column) (node : Node) (k : nat) :
  Forall (memberOk nodes) members ->
  nodeIndex nodes (node_id node) = Some k ->
  Fx (reactionOf nodes members loads d node) = nodeHorizontal nodes members loads d k.
Proof.
  intros Hms Hk. unfold reactionOf, nodeHorizontal.
  assert (Hf : fst (fst (reactionSum nodes members loads d node)) =
               0 + Rsum (map (fun m => if String.eqb (startNodeId m) (node_id node)
                                       then vget (endForces nodes loads d m) 0
                                       else vget (endForces nodes loads d m) 3)
                           (connectedMembers members node))).
  { apply reaction_fold_Fx. }
  destruct (reactionSum nodes members loads d node) as [[Rx Ry] Mz].
  cbn [fst snd Fx] in *. rewrite Hf, Rplus_0_l.
  unfold connectedMembers. rewrite Rsum_filter. apply Rsum_map_ext.
  intros m Hm. rewrite Forall_forall in Hms. specialize (Hms m Hm).
  destruct (memberOk_dofs nodes m Hms)
    as [sN [eN [i [j [_ [_ [_ [Hi [Hj [_ [_ [Hd _]]]]]]]]]]]].
  rewrite Hd, rowPick_horizontal.
  pose proof (memberOk_distinct_ends nodes m i j Hms Hi Hj) as Hij.
  destruct (String.eqb_spec (startNodeId m) (node_id node)) as [Hs | Hs]; cbn [orb].
  - assert (k = i) by (rewrite Hs in Hi; congruence). subst k.
    rewrite Nat.eqb_refl. destruct (Nat.eqb_spec i j); [ contradiction | lra ].
  - assert (Hki : k <> i).
    { intros ->. apply Hs. apply (nodeIndex_inj nodes _ _ i Hi Hk). }
    destruct (Nat.eqb_spec k i); [ contradiction | ].
    destruct (String.eqb_spec (endNodeId m) (node_id node)) as [He | He].
    + assert (k = j) by (rewrite He in Hj; congruence). subst k.
      rewrite Nat.eqb_refl. lra.
    + destruct (Nat.eqb_spec k j) as [-> | _]; [ | lra ].
      exfalso. apply He. apply (nodeIndex_inj nodes _ _ j Hj Hk).
Qed.

Lemma member_horizontal_resultant (nodes : list Node) (loads : list Load) (d : Column)
    (m : Member) :
  memberOk nodes m ->
  vget (endForces nodes loads d m) 0 + vget (endForces nodes loads d m) 3 =
  Rsum (map (fun l => magnitude l * memberSine nodes m) (loadsOn loads m)).
Proof.
  intros [sN [eN [Hs [He HL]]]].
  destruct (endForces_resultant nodes loads d m sN eN Hs He HL) as [Hx _].
  rewrite Hx. unfold memberSine. now rewrite Hs, He.
Qed.

Lemma horizontal_rows_total (nodes : list Node) (members : list Member)
    (loads : list Load) (d : Column) :
  Forall (memberOk nodes) members -> Forall (loadOk members) loads ->
  NoDup (map member_id members) ->
  Rsum (map (nodeHorizontal nodes members loads d) (seq 0 (List.length nodes))) =
  - Rsum (map (loadHorizontal nodes members) loads).
Proof.
  intros Hms Hls Hnd. unfold nodeHorizontal. rewrite Rsum_swap.
  rewrite (Rsum_map_ext _
    (fun m => Rsum (map (fun l => magnitude l * memberSine nodes m) (loadsOn loads m)))).
  - rewrite (loads_by_member members loads
      (fun m l => magnitude l * memberSine nodes m)) by assumption.
    unfold loadHorizontal. rewrite Rsum_map_opp. lra.
  - intros m Hm. rewrite Forall_forall in Hms. specialize (Hms m Hm).
    rewrite <- (member_horizontal_resultant nodes loads d m Hms).
    destruct (memberOk_dofs nodes m Hms)
      as [sN [eN [i [j [_ [_ [_ [_ [_ [Hi [Hj [Hd _]]]]]]]]]]]].
    rewrite Hd.
    rewrite (Rsum_map_ext _
      (fun k => (if (k =? i)%nat then vget (endForces nodes loads d m) 0 else 0)
                + (if (k =? j)%nat then vget (endForces nodes loads d m) 3 else 0))).
    2:{ intros k _. apply rowPick_horizontal. }
    rewrite Rsum_map_plus.
    rewrite (Rsum_pick (fun _ => vget (endForces nodes loads d m) 0)).
    rewrite (Rsum_pick (fun _ => vget (endForces nodes loads d m) 3)).
    cbn [Nat.leb andb].
    destruct (Nat.ltb_spec i (0 + List.length nodes)); [ | lia ].
    destruct (Nat.ltb_spec j (0 + List.length nodes)); [ | lia ].
    reflexivity.
Qed.

Lemma reactionTable_sumFx (nodes : list Node) (members : list Member)
    (supports : list Support) (loads : list Load) (d : Column) :
  Forall (memberOk nodes) members ->
  sumFx (reactionTable nodes members supports loads d []) =
  Rsum (map (fun k => if supportedIndex nodes supports k
                      then nodeHorizontal nodes members loads d k else 0)
          (seq 0 (List.length nodes))).
Proof.
  intros Hms.
  destruct (reactionTable_invariant nodes members loads d supports [] Hms)
    as [Hnd [_ Hkeys]].
  { constructor. }
  { intros id v []. }
  assert (Hent : forall id v,
            In (id, v) (reactionTable nodes members supports loads d []) ->
            exists k, nodeIndex nodes id = Some k /\
                      Fx v = nodeHorizontal nodes members loads d k).
  { intros id v Hin. apply reactionTable_entries in Hin.
    destruct Hin as [[] | [s [node [_ [Hnode [-> ->]]]]]].
    pose proof (findNode_some _ _ _ Hnode) as [_ Hid].
    destruct (findNode_nodeIndex _ _ _ Hnode) as [k [Hk _]].
    exists k. rewrite Hid. split; [ exact Hk | ].
    apply reactionOf_Fx; [ exact Hms | now rewrite Hid ]. }
  set (t := reactionTable nodes members supports loads d []) in *.
  rewrite <- Rsum_filter.
  assert (Hsum : sumFx t =
            Rsum (map (nodeHorizontal nodes members loads d)
                    (map (indexOr0 nodes) (map fst t)))).
  { unfold sumFx. rewrite !map_map. apply Rsum_map_ext. intros [id v] Hin. cbn [fst snd].
    destruct (Hent id v Hin) as [k [Hk ->]]. unfold indexOr0. now rewrite Hk. }
  rewrite Hsum. apply Rsum_permutation, Permutation_map. apply NoDup_Permutation.
  - apply NoDup_map_injective; [ | exact Hnd ].
    intros a b Ha Hb Hab.
    apply Hkeys in Ha, Hb.
    destruct Ha as [[] | [sa [_ [_ Ha]]]]. destruct Hb as [[] | [sb [_ [_ Hb]]]].
    apply findNode_resolved_index in Ha, Hb.
    destruct Ha as [ka Ha], Hb as [kb Hb]. unfold indexOr0 in Hab.
    rewrite Ha, Hb in Hab. subst kb. apply (nodeIndex_inj nodes a b ka Ha Hb).
  - apply NoDup_filter, seq_NoDup.
  - intros k. rewrite in_map_iff, filter_In, in_seq, supportedIndex_spec. split.
    + intros [id [Hk Hin]]. apply Hkeys in Hin.
      destruct Hin as [[] | [s [Hs [Hid Hr]]]].
      apply findNode_resolved_index in Hr. destruct Hr as [k' Hk'].
      unfold indexOr0 in Hk. rewrite Hk' in Hk. subst k'.
      split; [ apply nodeIndex_bound in Hk'; lia | ].
      exists s. split; [ exact Hs | now rewrite Hid ].
    + intros [_ [s [Hs Hk]]]. exists (nodeId s). split.
      * unfold indexOr0. now rewrite Hk.
      * apply Hkeys. right. exists s. split; [ exact Hs | ]. split; [ reflexivity | ].
        apply findNode_resolved_index. now exists k.
Qed.

Lemma horizontal_row_free (nodes : list Node) (supports : list Support) (k : nat) :
  (k < List.length nodes)%nat ->
  supportedIndex nodes supports k = false ->
  In (k * 3)%nat (finalFreeDOFs nodes (initializeDOF nodes) supports).
Proof.
  intros Hk Hun. apply finalFreeDOFs_in. split; [ unfold totalDOF; lia | ].
  intros [s [Hs Hin]].
  destruct (nodeIndex nodes (nodeId s)) as [k'|] eqn:Hk'.
  - rewrite (supportConstraints_indexed nodes s k' Hk') in Hin.
    assert (k' = k).
    { destruct (type s); cbn [In] in Hin;
        repeat match goal with
               | H : _ \/ _ |- _ => destruct H
               | H : Some _ = Some _ |- _ => injection H as H
               | H : False |- _ => contradiction
               end; lia. }
    subst k'.
    assert (Hsup : supportedIndex nodes supports k = true).
    { apply supportedIndex_spec. now exists s. }
    congruence.
  - apply (lastIndexFrom_none _ _ 0%nat) in Hk'.
    apply (supportConstraints_unresolved nodes s _ Hk') in Hin. discriminate.
Qed.

Section HorizontalEquilibrium.

Variable inv : matrix -> option matrix.
Hypothesis inv_sound : invContract inv.

Lemma unsupported_node_balanced_x (nodes : list Node) (members : list Member)
    (supports : list Support) (loads : list Load) (d : Column) (k : nat) :
  Forall (memberOk nodes) members -> Forall (loadOk members) loads ->
  NoDup (map member_id members) ->
  solveDisplacements inv
    (stabilize (totalDOF nodes) (assembledK nodes members zeros2))
    (assembledF nodes members loads zeros1)
    (finalFreeDOFs nodes (initializeDOF nodes) supports) = Return d ->
  (forall id k, nodeIndex nodes id = Some k ->
     (forall s, In s supports -> nodeId s <> id) ->
     (exists m, In m members /\ (startNodeId m = id \/ endNodeId m = id)) ->
     1e-9 <= Rabs (assembledK nodes members zeros2 (k * 3)%nat (k * 3)%nat)) ->
  (k < List.length nodes)%nat ->
  supportedIndex nodes supports k = false ->
  nodeHorizontal nodes members loads d k = 0.
Proof.
  intros Hms Hls Hnd Hd Hreg Hk Hun.
  set (K := assembledK nodes members zeros2) in *.
  set (r := (k * 3)%nat).
  assert (Hunsup : forall id, nodeIndex nodes id = Some k ->
                     forall s, In s supports -> nodeId s <> id).
  { intros id Hid s Hs Heq.
    assert (supportedIndex nodes supports k = true).
    { apply supportedIndex_spec. exists s. split; [ exact Hs | now rewrite Heq ]. }
    congruence. }
  destruct (Rlt_dec (Rabs (K r r)) 1e-9) as [Hsmall | Hbig].
  - unfold nodeHorizontal. rewrite (Rsum_map_ext _ (fun _ => 0)); [ apply Rsum_map_zero | ].
    intros m Hm. rewrite Forall_forall in Hms.
    destruct (memberOk_dofs nodes m (Hms m Hm))
      as [sN [eN [i [j [_ [_ [_ [Hi [Hj [_ [_ [Hdofs _]]]]]]]]]]]].
    rewrite Hdofs, rowPick_horizontal.
    destruct (Nat.eqb_spec k i) as [-> | _].
    { exfalso. apply (Rlt_not_le _ _ Hsmall).
      apply (Hreg (startNodeId m) i Hi (Hunsup _ Hi)). exists m. auto. }
    destruct (Nat.eqb_spec k j) as [-> | _].
    { exfalso. apply (Rlt_not_le _ _ Hsmall).
      apply (Hreg (endNodeId m) j Hj (Hunsup _ Hj)). exists m. auto. }
    lra.
  - unfold nodeHorizontal. fold r.
    apply (free_row_balanced inv inv_sound nodes members supports loads d r);
      try assumption.
    + now apply horizontal_row_free.
    + fold K. lra.
Qed.

(** X17.  Global horizontal equilibrium, under the conditions of the vertical
    one: with unique member identities, an inverse that honours its
    contract, and no regularised horizontal stiffness at an unsupported node
    that carries a member, the horizontal reactions of a returned result add
    up to minus the horizontal components (-P dy/L) of the applied loads. *)
Theorem horizontal_equilibrium (nodes : list Node) (members : list Member)
    (supports : list Support) (loads : list Load)
    (r : AnalysisResult) (t : table Reaction) (K : Matrix) :
  NoDup (map member_id members) ->
  solve inv nodes members supports loads = Return r ->
  reactions r = Some t ->
  assembleK nodes members (initializeDOF nodes) = Return K ->
  (forall id k, nodeIndex nodes id = Some k ->
     (forall s, In s supports -> nodeId s <> id) ->
     (exists m, In m members /\ (startNodeId m = id \/ endNodeId m = id)) ->
     1e-9 <= Rabs (K (k * 3)%nat (k * 3)%nat)) ->
  sumFx t = - Rsum (map (loadHorizontal nodes members) loads).
Proof.
  intros Hnd Hr Ht HK Hreg.
  destruct nodes as [|n ns].
  { cbn in Hr. injection Hr as <-. discriminate Ht. }
  assert (Hn : n :: ns <> []) by discriminate.
  destruct (solve_return inv _ _ _ _ r Hn Hr) as [Hms [Hls [d [Hd [_ Hreact]]]]].
  rewrite Hreact in Ht. injection Ht as <-.
  apply assembleK_return in HK. destruct HK as [_ ->].
  rewrite reactionTable_sumFx by assumption.
  rewrite <- (horizontal_rows_total (n :: ns) members loads d) by assumption.
  apply Rsum_map_ext. intros k Hk. apply in_seq in Hk.
  destruct (supportedIndex (n :: ns) supports k) eqn:Hsup; [ reflexivity | ].
  symmetry. apply (unsupported_node_balanced_x (n :: ns) members supports loads d k);
    try assumption. lia.
Qed.

End HorizontalEquilibrium.

Lemma ex_unsupported_not_regularised_x (id : string) (k : nat) :
  nodeIndex ex_nodes id = Some k ->
  (forall s, In s ex_supports -> nodeId s <> id) ->
  1e-9 <= Rabs (assembledK ex_nodes ex_members zeros2 (k * 3)%nat (k * 3)%nat).
Proof.
  intros Hk Hs. pose proof (nodeIndex_bound _ _ _ Hk) as Hlt. cbn in Hlt.
  destruct k as [|[|k]]; [ | | lia ].
  - exfalso. apply (Hs (mkSupport "s1" "n2" fixed 30)); [ now left | ].
    symmetry. apply (nodeIndex_inj ex_nodes id "n2" 0 Hk). reflexivity.
  - rewrite ex_K by (cbn; lia). cbn [beamMatrix mget nth Nat.mul Nat.add].
    rewrite Rabs_pos_eq; lra.
Qed.

Lemma horizontal_equilibrium_witness :
  exists r t,
    solve inv_small ex_nodes ex_members ex_supports ex_loads = Return r /\
    reactions r = Some t /\
    sumFx t = - Rsum (map (loadHorizontal ex_nodes ex_members) ex_loads).
Proof.
  destruct ex_solve_returns as [r Hr].
  destruct (solve_return inv_small ex_nodes ex_members ex_supports ex_loads r
              ex_nodes_nonempty Hr) as [_ [_ [d [_ [_ Ht]]]]].
  exists r. eexists. split; [ exact Hr | ]. split; [ exact Ht | ].
  refine (horizontal_equilibrium inv_small inv_small_contract ex_nodes ex_members
            ex_supports ex_loads r _ _ ex_members_unique Hr Ht
            (assembleK_ok ex_nodes ex_members zeros2 ex_members_ok) _).
  intros id k Hk Hs _. exact (ex_unsupported_not_regularised_x id k Hk Hs).
Defined.

(** ** The regularised global stiffness matrix *)

(** X18.  The diagonal regularisation touches nothing but near-zero diagonal
    entries below [totalDOF]: off-diagonal entries and diagonal entries of
    magnitude at least 1e-9 are kept, afterwards every diagonal entry below
    the bound has magnitude at least 1e-9, and a second pass changes
    nothing. *)
Theorem stabilize_properties (n : nat) (K : Matrix) :
  (forall r c, r <> c -> stabilize n K r c = K r c) /\
  (forall i, 1e-9 <= Rabs (K i i) -> stabilize n K i i = K i i) /\
  (forall i, (n <= i)%nat -> stabilize n K i i = K i i) /\
  (forall i, (i < n)%nat -> Rabs (K i i) < 1e-9 -> stabilize n K i i = 1) /\
  (forall i, (i < n)%nat -> 1e-9 <= Rabs (stabilize n K i i)) /\
  (forall r c, stabilize n (stabilize n K) r c = stabilize n K r c).
Proof.
  assert (Hoff : forall r c, r <> c -> stabilize n K r c = K r c).
  { intros r c Hrc. rewrite stabilize_spec.
    destruct (Nat.eqb_spec r c); [ contradiction | reflexivity ]. }
  assert (Hbig : forall i, 1e-9 <= Rabs (K i i) -> stabilize n K i i = K i i).
  { intros i Hi. rewrite stabilize_spec.
    destruct (Rlt_dec (Rabs (K i i)) 1e-9); [ lra | now rewrite andb_false_r ]. }
  assert (Hout : forall i, (n <= i)%nat -> stabilize n K i i = K i i).
  { intros i Hi. rewrite stabilize_spec.
    destruct (Nat.ltb_spec i n); [ lia | ]. now rewrite andb_false_r. }
  assert (Hsmall : forall i, (i < n)%nat -> Rabs (K i i) < 1e-9 -> stabilize n K i i = 1).
  { intros i Hi Hs. rewrite stabilize_spec, Nat.eqb_refl.
    destruct (Nat.ltb_spec i n); [ | lia ].
    destruct (Rlt_dec (Rabs (K i i)) 1e-9); [ reflexivity | contradiction ]. }
  assert (Hdiag : forall i, (i < n)%nat -> 1e-9 <= Rabs (stabilize n K i i)).
  { intros i Hi. destruct (Rlt_dec (Rabs (K i i)) 1e-9) as [Hs | Hb].
    - rewrite (Hsmall i Hi Hs). rewrite Rabs_R1. lra.
    - rewrite Hbig; lra. }
  repeat split; try assumption.
  intros r c. rewrite (stabilize_spec n (stabilize n K)).
  destruct (Nat.eqb_spec r c) as [<- | _]; [ | reflexivity ].
  destruct (Nat.ltb_spec r n) as [Hr | _]; [ | reflexivity ].
  destruct (Rlt_dec (Rabs (stabilize n K r r)) 1e-9) as [Hs | _]; [ | reflexivity ].
  exfalso. specialize (Hdiag r Hr). lra.
Qed.

Lemma sum6_swap (h : nat -> nat -> R) :
  sum6 (fun i => sum6 (fun j => h i j)) = sum6 (fun j => sum6 (fun i => h i j)).
Proof. unfold sum6. apply Rsum_swap. Qed.

Lemma memberStiffness_symmetric (nodes : list Node) (m : Member) (i j : nat) :
  memberOk nodes m -> (i < 6)%nat -> (j < 6)%nat ->
  mget (memberStiffness nodes m) i j = mget (memberStiffness nodes m) j i.
Proof.
  intros [sN [eN [Hs [He HL]]]] Hi Hj.
  rewrite (memberStiffness_value nodes m sN eN Hs He HL).
  now apply global_stiffness_symmetric.
Qed.

Lemma assembledK_symmetric (nodes : list Node) (members : list Member) (r c : nat) :
  Forall (memberOk nodes) members ->
  assembledK nodes members zeros2 r c = assembledK nodes members zeros2 c r.
Proof.
  intros Hms. rewrite !assembledK_entry. unfold zeros2. f_equal.
  apply Rsum_map_ext. intros m Hm. rewrite Forall_forall in Hms. specialize (Hms m Hm).
  rewrite sum6_swap. apply sum6_ext. intros i Hi. apply sum6_ext. intros j Hj.
  rewrite (memberStiffness_symmetric nodes m i j Hms Hi Hj).
  destruct (r =? nth j (memberDofs nodes m) 0)%nat,
           (c =? nth i (memberDofs nodes m) 0)%nat; reflexivity.
Qed.

(** X19.  The assembled global stiffness matrix is symmetric, it stays
    symmetric under the regularisation, and so is the block K_ff handed to
    the inverse. *)
Theorem global_stiffness_symmetric_after_assembly (nodes : list Node)
    (members : list Member) (supports : list Support) (K : Matrix) :
  assembleK nodes members (initializeDOF nodes) = Return K ->
  let K' := stabilize (totalDOF nodes) K in
  let free := finalFreeDOFs nodes (initializeDOF nodes) supports in
  (forall r c, K r c = K c r) /\
  (forall r c, K' r c = K' c r) /\
  (forall i j, (i < List.length free)%nat -> (j < List.length free)%nat ->
     mget (subset2 K' free free) i j = mget (subset2 K' free free) j i).
Proof.
  intros HK K' free. apply assembleK_return in HK. destruct HK as [Hms ->].
  assert (Hsym : forall r c,
            assembledK nodes members zeros2 r c = assembledK nodes members zeros2 c r).
  { intros r c. now apply assembledK_symmetric. }
  assert (Hsym' : forall r c, K' r c = K' c r).
  { intros r c. unfold K'. destruct (Nat.eq_dec r c) as [-> | Hrc]; [ reflexivity | ].
    rewrite !stabilize_spec.
    destruct (Nat.eqb_spec r c) as [-> | _]; [ contradiction | ].
    destruct (Nat.eqb_spec c r) as [-> | _]; [ contradiction | ].
    cbn [andb]. apply Hsym. }
  split; [ exact Hsym | ]. split; [ exact Hsym' | ].
  intros i j Hi Hj. rewrite !subset2_entry by assumption. apply Hsym'.
Qed.

Lemma global_stiffness_symmetric_after_assembly_witness :
  assembledK ex_nodes ex_members zeros2 1%nat 5%nat =
  assembledK ex_nodes ex_members zeros2 5%nat 1%nat.
Proof.
  apply (global_stiffness_symmetric_after_assembly ex_nodes ex_members ex_supports
           (assembledK ex_nodes ex_members zeros2)
           (assembleK_ok ex_nodes ex_members zeros2 ex_members_ok)).
Defined.

(** ** Running the analysis from the editor *)

Lemma members_first_bad (nodes : list Node) (members : list Member) :
  ~ Forall (memberOk nodes) members ->
  exists pre m post,
    members = (pre ++ m :: post)%list /\ Forall (memberOk nodes) pre /\ ~ memberOk nodes m.
Proof.
  induction members as [|m members IH]; intros Hbad.
  - exfalso. apply Hbad. constructor.
  - destruct (memberOk_cases nodes m) as [Hok | [Hno _]].
    + destruct IH as [pre [m' [post [-> [Hpre Hm']]]]].
      { intros Hall. apply Hbad. now constructor. }
      exists (m :: pre), m', post. split; [ reflexivity | ].
      split; [ now constructor | exact Hm' ].
    + exists [], m, members. split; [ reflexivity | ]. split; [ constructor | exact Hno ].
Qed.

Lemma validMembers_resolved (nodes : list Node) (members : list Member) (m : Member) :
  In m (validMembers nodes members) <->
  In m members /\
  exists startNode endNode,
    findNode nodes (startNodeId m) = Some startNode /\
    findNode nodes (endNodeId m) = Some endNode.
Proof.
  unfold validMembers. rewrite filter_In. split; intros [Hin H]; (split; [ exact Hin | ]).
  - destruct (findNode nodes (startNodeId m)) as [sN|]; [ | discriminate ].
    destruct (findNode nodes (endNodeId m)) as [eN|]; [ | discriminate ].
    now exists sN, eN.
  - destruct H as [sN [eN [-> ->]]]. reflexivity.
Qed.

Lemma validMembers_all (nodes : list Node) (members : list Member) :
  List.length (validMembers nodes members) = List.length members ->
  validMembers nodes members = members.
Proof.
  unfold validMembers. induction members as [|m members IH]; intros Hlen; [ reflexivity | ].
  cbn [filter List.length] in *.
  destruct (match findNode nodes (startNodeId m) with Some _ => _ | None => _ end).
  - cbn [List.length] in Hlen. f_equal. apply IH. lia.
  - exfalso.
    pose proof (filter_length_le
                  (fun m => match findNode nodes (startNodeId m), findNode nodes (endNodeId m) with
                            | Some _, Some _ => true
                            | _, _ => false
                            end) members) as Hle.
    lia.
Qed.

Section RunAnalysis.

Variable inv : matrix -> option matrix.

Lemma solve_fault_cases (nodes : list Node) (members : list Member)
    (supports : list Support) (loads : list Load) (e : exn) :
  solve inv nodes members supports loads = Throw e ->
  (exists m, In m members /\ ~ memberOk nodes m /\
     e = Error (match findNode nodes (startNodeId m), findNode nodes (endNodeId m) with
                | Some _, Some _ => zero_length_message m
                | _, _ => missing_nodes_message m
                end)) \/
  (e = TypeError /\ exists l, In l loads /\ findMember members (memberId l) = None) \/
  e = Error singular_message.
Proof.
  intros He. destruct nodes as [|n ns]; [ discriminate He | ].
  assert (Hn : n :: ns <> []) by discriminate.
  destruct (members_cases (n :: ns) members) as [Hms | Hms].
  - destruct (loads_cases members loads) as [Hls | Hls].
    + right. right. rewrite solve_accepted in He by assumption.
      destruct (solveDisplacements inv _ _ _) as [d | e'] eqn:Hd; cbn [bind] in He.
      * rewrite calculateResults_value in He by assumption. discriminate He.
      * injection He as <-. unfold solveDisplacements in Hd.
        destruct (finalFreeDOFs _ _ _); [ discriminate Hd | ].
        destruct (inv _); [ discriminate Hd | ]. now injection Hd as <-.
    + right. left. rewrite (solve_loads_bad inv _ _ _ _ Hn Hms Hls) in He.
      injection He as <-. split; [ reflexivity | ].
      apply Exists_Forall_neg in Hls; [ | intros l; apply loadOk_cases ].
      apply Exists_exists in Hls. destruct Hls as [l [Hl Hbad]].
      exists l. split; [ exact Hl | ].
      unfold loadOk in Hbad. destruct (findMember members (memberId l)); [ | reflexivity ].
      exfalso. apply Hbad. discriminate.
  - left. destruct (members_first_bad _ _ Hms) as [pre [m [post [-> [Hpre Hbad]]]]].
    exists m. split; [ apply in_elt | ]. split; [ exact Hbad | ].
    unfold solve, assembleK in He.
    rewrite forEachM_app, assembleK_ok in He by assumption.
    cbn [bind forEachM] in He. rewrite assembleMember_fault in He by assumption.
    cbn [bind] in He. now injection He as <-.
Qed.

(** X20.  [handleRunAnalysis] hands the solver only the members whose two
    end nodes resolve, and keeps exactly those in the editor state.  So the
    only errors it can alert are "Length is zero" for one of these members,
    the singular-matrix error, or the [TypeError] of a load whose member is
    not among them; on success it stores the result and switches to the
    deflected view. *)
Theorem handleRunAnalysis_outcomes (st : EditorState) :
  let st' := fst (handleRunAnalysis inv st) in
  let alerted := snd (handleRunAnalysis inv st) in
  ed_members st' = validMembers (ed_nodes st) (ed_members st) /\
  ed_nodes st' = ed_nodes st /\ ed_supports st' = ed_supports st /\
  ed_loads st' = ed_loads st /\
  (forall m, In m (ed_members st') ->
     findNode (ed_nodes st) (startNodeId m) <> None /\
     findNode (ed_nodes st) (endNodeId m) <> None) /\
  (alerted = None ->
     viewMode st' = view_deflected /\
     exists r, analysisResults st' = Some r /\
       solve inv (ed_nodes st) (ed_members st') (ed_supports st) (ed_loads st) = Return r) /\
  (forall e, alerted = Some e ->
     analysisResults st' = analysisResults st /\ viewMode st' = viewMode st /\
     ((exists m, In m (ed_members st') /\ e = Error (zero_length_message m)) \/
      (e = TypeError /\
       exists l, In l (ed_loads st) /\ findMember (ed_members st') (memberId l) = None) \/
      e = Error singular_message)).
Proof.
  cbv zeta.
  assert (Hmem : ed_members (fst (handleRunAnalysis inv st)) =
                 validMembers (ed_nodes st) (ed_members st)).
  { unfold handleRunAnalysis. cbv zeta.
    destruct (Nat.eqb_spec (List.length (validMembers (ed_nodes st) (ed_members st)))
                (List.length (ed_members st))) as [Heq | _];
      destruct (solve inv _ _ _ _); cbn [fst ed_members];
      try reflexivity; symmetry; now apply validMembers_all. }
  split; [ exact Hmem | ].
  rewrite Hmem.
  assert (Hres : forall m, In m (validMembers (ed_nodes st) (ed_members st)) ->
            findNode (ed_nodes st) (startNodeId m) <> None /\
            findNode (ed_nodes st) (endNodeId m) <> None).
  { intros m Hm. apply validMembers_resolved in Hm.
    destruct Hm as [_ [sN [eN [Hs He]]]]. split; congruence. }
  unfold handleRunAnalysis. cbv zeta.
  destruct (solve inv (ed_nodes st) (validMembers (ed_nodes st) (ed_members st))
              (ed_supports st) (ed_loads st)) as [r | e] eqn:Hsolve;
    cbn [fst snd ed_nodes ed_supports ed_loads analysisResults viewMode].
  - split; [ reflexivity | ]. split; [ reflexivity | ]. split; [ reflexivity | ].
    split; [ exact Hres | ]. split.
    + intros _. split; [ reflexivity | ]. exists r. split; reflexivity.
    + intros e He. discriminate He.
  - split; [ reflexivity | ]. split; [ reflexivity | ]. split; [ reflexivity | ].
    split; [ exact Hres | ]. split.
    + intros H. discriminate H.
    + intros e' He'. injection He' as <-.
      split; [ reflexivity | ]. split; [ reflexivity | ].
      destruct (solve_fault_cases _ _ _ _ e Hsolve) as [[m [Hm [_ He]]] | [H | H]].
      * left. exists m. split; [ exact Hm | ].
        apply validMembers_resolved in Hm. destruct Hm as [_ [sN [eN [Hs Hen]]]].
        rewrite Hs, Hen in He. exact He.
      * right. left. exact H.
      * right. right. exact H.
Qed.

End RunAnalysis.

(** ** The canvas: coordinates, diagram scale, placing supports and loads *)

(** X21.  Screen and world coordinates are inverse to each other for every
    non-zero scale. *)
Theorem screen_world_round_trip (s : R) (o : Point) (x y : R) :
  s <> 0 ->
  (let w := screenToWorld s o x y in worldToScreen s o (pt_x w) (pt_y w) = mkPoint x y) /\
  (let p := worldToScreen s o x y in screenToWorld s o (pt_x p) (pt_y p) = mkPoint x y).
Proof.
  intros Hs. unfold screenToWorld, worldToScreen. cbn [pt_x pt_y].
  split; f_equal; field; exact Hs.
Qed.

Lemma screen_world_round_trip_witness :
  worldToScreen 2 (mkPoint 10 20)
    (pt_x (screenToWorld 2 (mkPoint 10 20) 30 40))
    (pt_y (screenToWorld 2 (mkPoint 10 20) 30 40)) = mkPoint 30 40.
Proof.
  apply (screen_world_round_trip 2 (mkPoint 10 20) 30 40). lra.
Defined.

Lemma max_fold_spec (l : list R) (m0 : R) :
  let m := fold_left (fun maxVal v => Rmax maxVal (Rabs v)) l m0 in
  m0 <= m /\ (forall v, In v l -> Rabs v <= m) /\
  (m = m0 \/ exists v, In v l /\ m = Rabs v).
Proof.
  revert m0. induction l as [|x l IH]; intros m0; cbn [fold_left].
  - split; [ lra | ]. split; [ intros v [] | now left ].
  - destruct (IH (Rmax m0 (Rabs x))) as [H1 [H2 H3]]. cbv zeta in *.
    pose proof (Rmax_l m0 (Rabs x)). pose proof (Rmax_r m0 (Rabs x)).
    split; [ lra | ]. split.
    + intros v [<- | Hv]; [ lra | now apply H2 ].
    + destruct H3 as [H3 | [v [Hv H3]]].
      * rewrite H3. unfold Rmax. destruct (Rle_dec m0 (Rabs x)).
        -- right. exists x. split; [ now left | reflexivity ].
        -- now left.
      * right. exists v. split; [ now right | exact H3 ].
Qed.

Lemma max_table_spec (type : DiagramKind) (t : table Diagram) (m0 : R) :
  let m :=
    fold_left
      (fun maxVal (entry : string * Diagram) =>
         fold_left (fun maxVal v => Rmax maxVal (Rabs v))
           (diagramValues type (snd entry)) maxVal) t m0 in
  m0 <= m /\
  (forall id D v, In (id, D) t -> In v (diagramValues type D) -> Rabs v <= m) /\
  (m = m0 \/ exists id D v, In (id, D) t /\ In v (diagramValues type D) /\ m = Rabs v).
Proof.
  revert m0. induction t as [|[id0 D0] t IH]; intros m0; cbn [fold_left snd].
  - split; [ lra | ]. split; [ intros ? ? ? [] | now left ].
  - destruct (max_fold_spec (diagramValues type D0) m0) as [G1 [G2 G3]].
    cbv zeta in *.
    set (m1 := fold_left (fun maxVal v => Rmax maxVal (Rabs v)) (diagramValues type D0) m0)
      in *.
    destruct (IH m1) as [H1 [H2 H3]].
    split; [ lra | ]. split.
    + intros id D v [[= <- <-] | Hin] Hv.
      * specialize (G2 v Hv). lra.
      * now apply (H2 id D v).
    + destruct H3 as [H3 | [id [D [v [Hin [Hv H3]]]]]].
      * rewrite H3. destruct G3 as [G3 | [v [Hv G3]]].
        -- now left.
        -- right. exists id0, D0, v. split; [ now left | auto ].
      * right. exists id, D, v. split; [ now right | auto ].
Qed.

(** X22.  The scale that [getDiagramScale] returns is positive and brings
    every value of the chosen diagram kind within the target height 5/3 (so
    no drawn ordinate exceeds it); unless all values vanish, the largest
    one is drawn at exactly that height. *)
Theorem diagram_scale_fits (results : AnalysisResult) (type : DiagramKind) :
  let scale := getDiagramScale (Some results) type in
  0 < scale /\
  (forall id D v, In (id, D) (diagrams results) -> In v (diagramValues type D) ->
     Rabs (v * scale) <= 5 / 3) /\
  ((exists id D v, In (id, D) (diagrams results) /\ In v (diagramValues type D) /\ v <> 0) ->
   exists id D v, In (id, D) (diagrams results) /\ In v (diagramValues type D) /\
     Rabs (v * scale) = 5 / 3).
Proof.
  cbv zeta. unfold getDiagramScale.
  destruct (max_table_spec type (diagrams results) 0) as [H1 [H2 H3]]. cbv zeta in *.
  set (m := fold_left _ (diagrams results) 0) in *.
  destruct (Req_dec_T m 0) as [Hm | Hm].
  - split; [ lra | ]. split.
    + intros id D v Hin Hv. specialize (H2 id D v Hin Hv).
      pose proof (Rabs_pos v). rewrite Rmult_1_r. lra.
    + intros [id [D [v [Hin [Hv Hne]]]]]. exfalso.
      specialize (H2 id D v Hin Hv). apply Rabs_pos_lt in Hne. lra.
  - assert (Hpos : 0 < m) by lra.
    assert (Hs : 0 < 5 / 3 / m) by (apply Rdiv_lt_0_compat; lra).
    split; [ exact Hs | ]. split.
    + intros id D v Hin Hv. specialize (H2 id D v Hin Hv).
      rewrite Rabs_mult, (Rabs_pos_eq (5 / 3 / m)) by lra.
      replace (5 / 3) with (m * (5 / 3 / m)) at 2 by (field; lra).
      apply Rmult_le_compat_r; lra.
    + intros _. destruct H3 as [H3 | [id [D [v [Hin [Hv H3]]]]]]; [ contradiction | ].
      exists id, D, v. split; [ exact Hin | ]. split; [ exact Hv | ].
      rewrite Rabs_mult, (Rabs_pos_eq (5 / 3 / m)) by lra.
      rewrite <- H3. field. lra.
Qed.

Lemma closestMember_fold (nodes : list Node) (world : Point) (members : list Member)
    (acc : option Member * R * R) :
  let good (a : option Member * R * R) (ms : list Member) :=
    match fst (fst a) with
    | None => True
    | Some m =>
        In m ms /\
        exists startNode endNode,
          findNode nodes (startNodeId m) = Some startNode /\
          findNode nodes (endNodeId m) = Some endNode /\
          memberLength startNode endNode <> 0 /\
          0 <= snd a <= memberLength startNode endNode
    end in
  fst (fst acc) = None ->
  good (fold_left (closestMemberStep nodes world) members acc) members.
Proof.
  intros good.
  assert (Hgen : forall ms ms0 a,
            (forall m, In m ms -> In m ms0) ->
            good a ms0 -> good (fold_left (closestMemberStep nodes world) ms a) ms0).
  { induction ms as [|m ms IH]; intros ms0 a Hsub Ha; cbn [fold_left]; [ exact Ha | ].
    apply IH; [ intros m' Hm'; apply Hsub; now right | ].
    destruct a as [[cm minDist] pos]. unfold closestMemberStep.
    destruct (findNode nodes (startNodeId m)) as [sN|] eqn:Hs; [ | exact Ha ].
    destruct (findNode nodes (endNodeId m)) as [eN|] eqn:He; [ | exact Ha ].
    cbv zeta.
    destruct (Req_dec_T _ 0) as [_ | Hl2]; [ exact Ha | ].
    destruct (Rlt_dec _ minDist) as [_ | _]; [ | exact Ha ].
    unfold good. cbn [fst snd]. split; [ apply Hsub; now left | ].
    exists sN, eN. split; [ exact Hs | ]. split; [ exact He | ].
    change (dist (node_x sN) (node_y sN) (node_x eN) (node_y eN))
      with (memberLength sN eN) in *.
    pose proof (memberLength_nonneg sN eN) as Hnn.
    assert (HL : memberLength sN eN <> 0).
    { intros H0. apply Hl2. rewrite H0. ring. }
    split; [ exact HL | ].
    replace (sqrt (memberLength sN eN ^ 2)) with (memberLength sN eN).
    2:{ symmetry. replace (memberLength sN eN ^ 2)
          with (memberLength sN eN * memberLength sN eN) by ring.
        now apply sqrt_square. }
    set (t := Rmax 0 (Rmin 1 _)).
    assert (Ht0 : 0 <= t) by apply Rmax_l.
    assert (Ht1 : t <= 1).
    { unfold t. apply Rmax_lub; [ lra | apply Rmin_l ]. }
    split; [ apply Rmult_le_pos; assumption | ].
    replace (memberLength sN eN) with (1 * memberLength sN eN) at 2 by ring.
    apply Rmult_le_compat_r; assumption. }
  intros Hacc. apply Hgen; [ auto | ]. unfold good. now rewrite Hacc.
Qed.

(** X23.  A click in the "loads" step adds at most one load, and the load it
    adds sits on a member of the model whose end nodes resolve and whose
    length is not zero, at a position between 0 and the member's length:
    the canvas never produces an out-of-range load position. *)
Theorem pressLoads_in_range (s : R) (nodes : list Node) (members : list Member)
    (loadMagnitude : R) (world : Point) (uuid : string) (loads : list Load) :
  pressLoads s nodes members loadMagnitude world uuid loads = loads \/
  exists l m startNode endNode,
    pressLoads s nodes members loadMagnitude world uuid loads = (loads ++ [l])%list /\
    load_id l = uuid /\ magnitude l = loadMagnitude /\ memberId l = member_id m /\
    In m members /\
    findNode nodes (startNodeId m) = Some startNode /\
    findNode nodes (endNodeId m) = Some endNode /\
    memberLength startNode endNode <> 0 /\
    0 <= position l <= memberLength startNode endNode.
Proof.
  unfold pressLoads.
  pose proof (closestMember_fold nodes world members (None, 20 / s, 0) eq_refl) as H.
  cbv zeta in H.
  destruct (fold_left (closestMemberStep nodes world) members (None, 20 / s, 0))
    as [[cm minDist] pos].
  cbn [fst snd] in H. destruct cm as [m|]; [ | now left ].
  right. destruct H as [Hm [sN [eN [Hs [He [HL Hpos]]]]]].
  exists (mkLoad uuid (member_id m) loadMagnitude pos), m, sN, eN.
  repeat split; try reflexivity; try assumption; apply Hpos.
Qed.

Lemma supports_update_nodeIds (supports : list Support) (p : Support -> bool)
    (supportType : SupportType) :
  map nodeId
    (map (fun s => if p s then mkSupport (support_id s) (nodeId s) supportType (angle s)
                   else s) supports) =
  map nodeId supports.
Proof.
  rewrite map_map. apply map_ext. intros s. now destruct (p s).
Qed.

(** X24.  A click in the "supports" step keeps at most one support per
    node: when no two supports share a node before the click, none do after
    it; and if the click snapped to a node, the support found for that node
    afterwards has the chosen type. *)
Theorem pressSupports_one_per_node (s : R) (nodes : list Node)
    (supportType : SupportType) (world : Point) (uuid : string)
    (members : list Member) (supports : list Support) :
  NoDup (map nodeId supports) ->
  let supports' := snd (pressSupports s nodes supportType world uuid members supports) in
  NoDup (map nodeId supports') /\
  (forall node,
     snd (getSnappedPoint s nodes (pt_x world) (pt_y world)) = Some node ->
     exists s', find (fun s => String.eqb (nodeId s) (node_id node)) supports' = Some s' /\
       type s' = supportType) /\
  (snd (getSnappedPoint s nodes (pt_x world) (pt_y world)) = None ->
   supports' = supports).
Proof.
  intros Hnd. cbv zeta. unfold pressSupports.
  destruct (snd (getSnappedPoint s nodes (pt_x world) (pt_y world))) as [node|].
  2:{ cbn [snd]. split; [ exact Hnd | ]. split; [ intros ? H; discriminate H | reflexivity ]. }
  cbn [snd].
  destruct (find (fun s0 => String.eqb (nodeId s0) (node_id node)) supports)
    as [existing|] eqn:Hfind.
  - split; [ now rewrite supports_update_nodeIds | ].
    split; [ | intros H; discriminate H ].
    intros node' [= <-].
    pose proof (find_some _ _ Hfind) as [Hin Hid].
    clear Hnd. induction supports as [|s0 supports IH]; [ discriminate Hfind | ].
    cbn [find map] in *.
    destruct (String.eqb (nodeId s0) (node_id node)) eqn:Hs0.
    + injection Hfind as ->. rewrite String.eqb_refl. cbn [nodeId]. rewrite Hs0.
      eexists. split; [ reflexivity | reflexivity ].
    + destruct (String.eqb (support_id s0) (support_id existing)); cbn [nodeId];
        rewrite Hs0; apply IH; try assumption;
        destruct Hin as [-> | Hin]; try assumption;
        rewrite Hid in Hs0; discriminate Hs0.
  - split.
    + rewrite map_app. cbn [map nodeId].
      apply NoDup_app_iff || idtac.
      assert (Hfresh : ~ In (node_id node) (map nodeId supports)).
      { intros Hin. apply in_map_iff in Hin. destruct Hin as [s0 [Hid Hin]].
        apply (find_none _ _ Hfind) in Hin. rewrite Hid, String.eqb_refl in Hin.
        discriminate Hin. }
      clear Hfind. induction supports as [|s0 supports IH]; cbn [map app].
      * constructor; [ intros [] | constructor ].
      * inversion Hnd as [|? ? Hx Hrest]; subst. constructor.
        -- rewrite in_app_iff. intros [H | [H | []]]; [ contradiction | ].
           apply Hfresh. left. now symmetry.
        -- apply IH; [ exact Hrest | ]. intros H. apply Hfresh. now right.
    + split; [ | intros H; discriminate H ].
      intros node' [= <-].
      exists (mkSupport uuid (node_id node) supportType 0).
      split; [ | reflexivity ].
      induction supports as [|s0 supports IH]; cbn [app find] in *.
      * cbn [nodeId]. now rewrite String.eqb_refl.
      * destruct (String.eqb (nodeId s0) (node_id node)); [ discriminate Hfind | ].
        apply IH; [ | exact Hfind ]. inversion Hnd; assumption.
Qed.

Lemma pressSupports_one_per_node_witness :
  NoDup (map nodeId
           (snd (pressSupports 1 ex_nodes pin (mkPoint 0 0) "s2" ex_members ex_supports))).
Proof.
  apply (pressSupports_one_per_node 1 ex_nodes pin (mkPoint 0 0) "s2" ex_members ex_supports).
  repeat constructor. intros [].
Defined.

(** ** The end-loaded cantilever in closed form *)

Lemma last_map {X Y} (f : X -> Y) (l : list X) (dx : X) (dy : Y) :
  l <> [] -> last (map f l) dy = f (last l dx).
Proof.
  induction l as [|x l IH]; intros Hne; [ contradiction | ].
  destruct l as [|y l]; [ reflexivity | ].
  change (last (map f (x :: y :: l)) dy) with (last (map f (y :: l)) dy).
  change (last (x :: y :: l) dx) with (last (y :: l) dx).
  apply IH. discriminate.
Qed.

Section Cantilever.

Variables E I A L P : R.
Hypothesis L_pos : 0 < L.

Let nodes := cant_nodes L.
Let member := cant_member E I A.
Let members := [cant_member E I A].
Let loads := [cant_load P L].

Lemma cant_length : memberLength (mkNode "n1" 0 0) (mkNode "n2" L 0) = L.
Proof.
  unfold memberLength. cbn [node_x node_y].
  replace ((L - 0) * (L - 0) + (0 - 0) * (0 - 0)) with (L * L) by ring.
  apply sqrt_square. lra.
Qed.

Lemma cant_members_ok : Forall (memberOk nodes) members.
Proof.
  constructor; [ | constructor ].
  exists (mkNode "n1" 0 0), (mkNode "n2" L 0).
  split; [ reflexivity | ]. split; [ reflexivity | ].
  rewrite cant_length. lra.
Qed.

Lemma cant_loads_ok : Forall (loadOk members) loads.
Proof. constructor; [ discriminate | constructor ]. Qed.

Lemma cant_stiffness (i j : nat) :
  (i < 6)%nat -> (j < 6)%nat ->
  mget (memberStiffness nodes member) i j = mget (cantMatrix E I A L) i j.
Proof.
  intros Hi Hj. unfold memberStiffness.
  change (findNode nodes (startNodeId member)) with (Some (mkNode "n1" 0 0)).
  change (findNode nodes (endNodeId member)) with (Some (mkNode "n2" L 0)).
  unfold getMemberGlobalStiffnessMatrix.
  change (sqrt _) with (memberLength (mkNode "n1" 0 0) (mkNode "n2" L 0)).
  rewrite cant_length.
  destruct (Req_dec_T L 0) as [H | _]; [ lra | ]. cbn [value node_x node_y].
  replace ((L - 0) / L) with 1 by (field; lra).
  replace ((0 - 0) / L) with 0 by (field; lra).
  unfold k_local_vals, member, cant_member, cantMatrix.
  cbn [startRelease endRelease properties prop_E prop_I prop_A].
  do 6 (destruct i as [|i]; [ do 6 (destruct j as [|j]; [ cbn; ring | ]); lia | ]). lia.
Qed.

Lemma cant_K (r c : nat) :
  (r < 6)%nat -> (c < 6)%nat ->
  assembledK nodes members zeros2 r c = mget (cantMatrix E I A L) r c.
Proof.
  intros Hr Hc. unfold assembledK, members. cbn [fold_left].
  rewrite addStiffness_spec.
  change (memberDofs nodes (cant_member E I A)) with (nodeDofs 0 1).
  unfold zeros2, sum6. cbn [seq map]. rewrite !Rsum_cons, !Rsum_nil.
  do 6 (destruct r as [|r];
        [ do 6 (destruct c as [|c];
                [ cbn [nodeDofs nth Nat.eqb Nat.mul Nat.add andb];
                  fold member; rewrite ?cant_stiffness by lia; lra | ]);
          lia | ]).
  lia.
Qed.

Lemma cant_free :
  finalFreeDOFs nodes (initializeDOF nodes) cant_supports = [3; 4; 5]%nat.
Proof. reflexivity. Qed.

Lemma cant_loadForces (i : nat) :
  (i < 6)%nat ->
  vget (loadForces nodes member (cant_load P L)) i = vget [0; 0; 0; 0; - P; 0] i.
Proof.
  intros Hi. unfold loadForces.
  change (findNode nodes (startNodeId member)) with (Some (mkNode "n1" 0 0)).
  change (findNode nodes (endNodeId member)) with (Some (mkNode "n2" L 0)).
  destruct (global_FEF_reference member (cant_load P L) (mkNode "n1" 0 0) (mkNode "n2" L 0))
    as [g [Hg [_ Hgi]]].
  rewrite Hg. cbn [value]. rewrite Hgi by assumption.
  assert (HL : sqrt ((node_x (mkNode "n2" L 0) - node_x (mkNode "n1" 0 0))
                     * (node_x (mkNode "n2" L 0) - node_x (mkNode "n1" 0 0))
                     + (node_y (mkNode "n2" L 0) - node_y (mkNode "n1" 0 0))
                       * (node_y (mkNode "n2" L 0) - node_y (mkNode "n1" 0 0))) <> 0).
  { change (sqrt _) with (memberLength (mkNode "n1" 0 0) (mkNode "n2" L 0)).
    rewrite cant_length. lra. }
  destruct (cos_sin_atan2 _ _ HL) as [Hc Hs]. rewrite Hc, Hs.
  change (sqrt _) with (memberLength (mkNode "n1" 0 0) (mkNode "n2" L 0)).
  rewrite cant_length. cbn [node_x node_y magnitude position cant_load
                            startRelease endRelease member cant_member].
  unfold referenceGlobalFEF, sum6, referenceFEF, fixedFixedFEF.
  do 6 (destruct i as [|i]; [ cbn; field; lra | ]). lia.
Qed.

Lemma cant_F (r : nat) :
  (r < 6)%nat ->
  assembledF nodes members loads zeros1 r = vget [0; 0; 0; 0; P; 0] r.
Proof.
  intros Hr. rewrite assembledF_entry. unfold loads. cbn [map].
  rewrite Rsum_cons, Rsum_nil.
  change (memberOfLoad members (cant_load P L)) with member.
  change (memberDofs nodes member) with (nodeDofs 0 1).
  unfold rowPick, sum6, zeros1. cbn [seq map]. rewrite !Rsum_cons, Rsum_nil.
  rewrite !cant_loadForces by lia.
  do 6 (destruct r as [|r];
        [ cbn [nodeDofs nth Nat.eqb Nat.mul Nat.add vget]; lra | ]).
  lia.
Qed.

Variable inv : matrix -> option matrix.
Hypothesis inv_sound : invContract inv.

(** The regularisation leaves the stiffness of the free node as assembled. *)
Hypothesis axial_stiff : 1e-9 <= Rabs (E * A / L).
Hypothesis shear_stiff : 1e-9 <= Rabs (12 * E * I / L ^ 3).
Hypothesis bending_stiff : 1e-9 <= Rabs (4 * E * I / L).

Lemma cant_EA : E * A <> 0.
Proof.
  intros H0. rewrite H0 in axial_stiff. unfold Rdiv in axial_stiff.
  rewrite Rmult_0_l, Rabs_R0 in axial_stiff. lra.
Qed.

Lemma cant_EI : E * I <> 0.
Proof.
  intros H0. replace (4 * E * I / L) with (4 * (E * I) / L) in bending_stiff by (field; lra).
  rewrite H0 in bending_stiff. unfold Rdiv in bending_stiff.
  rewrite Rmult_0_r, Rmult_0_l, Rabs_R0 in bending_stiff. lra.
Qed.

Lemma cant_stabilized (r c : nat) :
  (3 <= r < 6)%nat -> (3 <= c < 6)%nat ->
  stabilize (totalDOF nodes) (assembledK nodes members zeros2) r c =
  mget (cantMatrix E I A L) r c.
Proof.
  intros Hr Hc. rewrite stabilize_spec, !cant_K by lia.
  destruct (Nat.eqb_spec r c) as [<- | _]; cbn [andb]; [ | reflexivity ].
  assert (Hbig : (if Rlt_dec (Rabs (mget (cantMatrix E I A L) r r)) 1e-9
                  then true else false) = false).
  { destruct r as [|[|[|[|[|[|r]]]]]]; try lia;
      cbn [cantMatrix mget nth];
      match goal with |- (if Rlt_dec ?x _ then _ else _) = _ =>
        destruct (Rlt_dec x 1e-9) as [Hlt | _]; [ exfalso | reflexivity ] end;
      lra. }
  rewrite Hbig. now rewrite andb_false_r.
Qed.

Lemma cant_displacements (d : Column) :
  solveDisplacements inv
    (stabilize (totalDOF nodes) (assembledK nodes members zeros2))
    (assembledF nodes members loads zeros1)
    (finalFreeDOFs nodes (initializeDOF nodes) cant_supports) = Return d ->
  d 0%nat = 0 /\ d 1%nat = 0 /\ d 2%nat = 0 /\ d 3%nat = 0 /\
  d 4%nat = P * L ^ 3 / (3 * E * I) /\ d 5%nat = P * L ^ 2 / (2 * E * I).
Proof.
  intros Hd.
  destruct (reduced_system_rows inv inv_sound nodes members cant_supports loads d Hd)
    as [Hrows Hout].
  rewrite cant_free in Hrows, Hout.
  assert (H0 : d 0%nat = 0) by (apply Hout; cbn [In]; lia).
  assert (H1 : d 1%nat = 0) by (apply Hout; cbn [In]; lia).
  assert (H2 : d 2%nat = 0) by (apply Hout; cbn [In]; lia).
  pose proof (Hrows 3%nat ltac:(cbn [In]; auto)) as E3.
  pose proof (Hrows 4%nat ltac:(cbn [In]; auto)) as E4.
  pose proof (Hrows 5%nat ltac:(cbn [In]; auto)) as E5.
  cbn [map] in E3, E4, E5. rewrite !Rsum_cons, Rsum_nil in E3, E4, E5.
  rewrite !cant_stabilized, !cant_F in E3, E4, E5 by lia.
  cbn [cantMatrix mget vget nth] in E3, E4, E5.
  pose proof cant_EA as HEA. pose proof cant_EI as HEI.
  assert (HE : E <> 0) by (intros ->; apply HEI; ring).
  assert (HI : I <> 0) by (intros ->; apply HEI; ring).
  assert (HA : A <> 0) by (intros ->; apply HEA; ring).
  assert (HL : L <> 0) by lra.
  set (d3 := d 3%nat) in *. set (d4 := d 4%nat) in *. set (d5 := d 5%nat) in *.
  assert (G3 : d3 = 0).
  { apply (Rmult_eq_reg_l (E * A / L)).
    - lra.
    - unfold Rdiv. apply Rmult_integral_contrapositive_currified;
        [ exact HEA | now apply Rinv_neq_0_compat ]. }
  assert (G5 : d5 = 3 * d4 / (2 * L)).
  { apply (Rmult_eq_reg_l (4 * E * I / L)).
    - transitivity (6 * E * I / L ^ 2 * d4); [ lra | field; auto ].
    - unfold Rdiv. apply Rmult_integral_contrapositive_currified;
        [ | now apply Rinv_neq_0_compat ].
      replace (4 * E * I) with (4 * (E * I)) by ring. lra. }
  assert (G4 : d4 = P * L ^ 3 / (3 * E * I)).
  { apply (Rmult_eq_reg_l (3 * E * I / L ^ 3)).
    - transitivity P; [ | field; auto ].
      rewrite <- E4. rewrite G5. field. auto.
    - unfold Rdiv. apply Rmult_integral_contrapositive_currified;
        [ | apply Rinv_neq_0_compat, pow_nonzero; exact HL ].
      replace (3 * E * I) with (3 * (E * I)) by ring. lra. }
  repeat split; try assumption.
  rewrite G5, G4. field. auto.
Qed.

Lemma cant_endForces (d : Column) (i : nat) :
  d 0%nat = 0 -> d 1%nat = 0 -> d 2%nat = 0 -> d 3%nat = 0 ->
  d 4%nat = P * L ^ 3 / (3 * E * I) -> d 5%nat = P * L ^ 2 / (2 * E * I) ->
  (i < 6)%nat ->
  vget (endForces nodes loads d member) i = vget [0; - P; - (P * L); 0; 0; 0] i.
Proof.
  intros H0 H1 H2 H3 H4 H5 Hi.
  pose proof cant_EI as HEI.
  assert (HE : E <> 0) by (intros ->; apply HEI; ring).
  assert (HI : I <> 0) by (intros ->; apply HEI; ring).
  assert (HL : L <> 0) by lra.
  rewrite endForces_entry by (apply (Forall_inv cant_members_ok) || exact Hi).
  change (loadsOn loads member) with [cant_load P L].
  change (memberDofs nodes member) with (nodeDofs 0 1).
  cbn [map]. rewrite Rsum_cons, Rsum_nil, cant_loadForces by exact Hi.
  unfold sum6. cbn [seq map nodeDofs nth Nat.mul Nat.add].
  rewrite !Rsum_cons, Rsum_nil, !cant_stiffness by lia.
  rewrite H0, H1, H2, H3, H4, H5.
  do 6 (destruct i as [|i]; [ cbn [cantMatrix mget vget nth]; field; auto | ]). lia.
Qed.

Lemma cant_local (d : Column) :
  d 0%nat = 0 -> d 1%nat = 0 -> d 2%nat = 0 -> d 3%nat = 0 ->
  d 4%nat = P * L ^ 3 / (3 * E * I) -> d 5%nat = P * L ^ 2 / (2 * E * I) ->
  let T := transformation ((L - 0) / L) ((0 - 0) / L) in
  mat_vec T (endForces nodes loads d member) = [0; - P; - (P * L); 0; 0; 0] /\
  mat_vec T (memberDisplacements nodes d member) =
    [0; 0; 0; 0; P * L ^ 3 / (3 * E * I); P * L ^ 2 / (2 * E * I)].
Proof.
  intros H0 H1 H2 H3 H4 H5 T. unfold T.
  assert (HL : L <> 0) by lra.
  replace ((L - 0) / L) with 1 by (field; lra).
  replace ((0 - 0) / L) with 0 by (field; lra).
  split.
  - rewrite rotate_to_local by (apply endForces_length, (Forall_inv cant_members_ok)).
    rewrite !cant_endForces by (assumption || lia).
    cbn [vget nth]. repeat (apply (f_equal2 (@cons R)); [ ring | ]). reflexivity.
  - unfold memberDisplacements.
    change (memberDofs nodes member) with (nodeDofs 0 1).
    cbn [map nodeDofs Nat.mul Nat.add]. rewrite H0, H1, H2, H3, H4, H5.
    cbn. repeat (apply (f_equal2 (@cons R)); [ ring | ]). reflexivity.
Qed.

Lemma cant_diagramPoint (x : R) :
  x <= L ->
  diagramPoint loads member (L - 0) (0 - 0) [0; - P; - (P * L); 0; 0; 0] 0 0 x =
  (- P, P * (L - x), P * x ^ 2 * (3 * L - x) / (6 * E * I)).
Proof.
  intros Hx. unfold diagramPoint.
  change (loadsOn loads member) with [cant_load P L].
  cbn [fold_left position magnitude cant_load vget nth].
  destruct (Rlt_dec L x) as [Hlt | _]; [ lra | ].
  cbn [member cant_member properties prop_E prop_I].
  pose proof cant_EI as HEI.
  assert (HE : E <> 0) by (intros ->; apply HEI; ring).
  assert (HI : I <> 0) by (intros ->; apply HEI; ring).
  f_equal; [ f_equal; ring | field; auto ].
Qed.

(** X25.  The cantilever of the debug script, for any length, section and
    end load: when the regularisation leaves the free node's stiffness as
    assembled and the inverse honours its contract, a returned result is the
    closed-form solution.  The free end moves by P L^3 / (3 E I) and turns by
    P L^2 / (2 E I); the clamped node reacts with Fy = -P and Mz = -P L; the
    shear diagram is the constant -P, the moment diagram is P (L - x), and
    the deflection diagram is P x^2 (3 L - x) / (6 E I), which ends at the
    script's expected end deflection. *)
Theorem cantilever_end_load (r : AnalysisResult) :
  solve inv nodes members cant_supports loads = Return r ->
  table_get "n2" (nodeDisplacements r) =
    Some {| disp_dx := 0; disp_dy := P * L ^ 3 / (3 * E * I);
            rotation := P * L ^ 2 / (2 * E * I) |} /\
  (exists F, table_get "m1" (memberForces r) = Some F /\
     axial F = 0 /\ shearStart F = - P /\ momentStart F = - (P * L) /\
     shearEnd F = 0 /\ momentEnd F = 0) /\
  (exists D, table_get "m1" (diagrams r) = Some D /\
     (forall k, (k < List.length (diag_x D))%nat ->
        let x := nth k (diag_x D) 0 in
        nth k (shear D) 0 = - P /\
        nth k (moment D) 0 = P * (L - x) /\
        nth k (displacement D) 0 = P * x ^ 2 * (3 * L - x) / (6 * E * I)) /\
     last (diag_x D) 0 = L /\
     last (displacement D) 0 = P * L ^ 3 / (3 * E * I)) /\
  (exists t, reactions r = Some t /\
     table_get "n1" t = Some {| Fx := 0; Fy := - P; Mz := - (P * L) |}).
Proof.
  intros Hr.
  assert (Hn : nodes <> []) by discriminate.
  destruct (solve_return inv _ _ _ _ r Hn Hr) as [Hms [Hls [d [Hd _]]]].
  rewrite (solve_accepted inv _ _ _ _ Hn Hms Hls), Hd in Hr. cbn [bind] in Hr.
  rewrite (calculateResults_value _ _ _ _ d Hms) in Hr. injection Hr as <-.
  cbn [nodeDisplacements memberForces diagrams reactions].
  destruct (cant_displacements d Hd) as [H0 [H1 [H2 [H3 [H4 H5]]]]].
  destruct (cant_local d H0 H1 H2 H3 H4 H5) as [Hf Hdl]. cbv zeta in Hf, Hdl.
  pose proof cant_EI as HEI.
  assert (HE : E <> 0) by (intros ->; apply HEI; ring).
  assert (HI : I <> 0) by (intros ->; apply HEI; ring).
  assert (Hres : memberResultOf nodes loads d member =
    ({| axial := 0; shearStart := - P; momentStart := - (P * L);
        shearEnd := - 0; momentEnd := - 0 |},
     memberDiagram loads member (L - 0) (0 - 0) L
       [0; - P; - (P * L); 0; 0; 0]
       [0; 0; 0; 0; P * L ^ 3 / (3 * E * I); P * L ^ 2 / (2 * E * I)])).
  { unfold memberResultOf.
    change (findNode nodes (startNodeId member)) with (Some (mkNode "n1" 0 0)).
    change (findNode nodes (endNodeId member)) with (Some (mkNode "n2" L 0)).
    cbv beta iota zeta.
    change (sqrt _) with (memberLength (mkNode "n1" 0 0) (mkNode "n2" L 0)).
    rewrite cant_length. cbn [node_x node_y]. rewrite Hf, Hdl. reflexivity. }
  split; [ | split; [ | split ] ].
  - rewrite displacementTable_get.
    change (nodeIndex nodes "n2") with (Some 1%nat). cbn [option_map Nat.mul Nat.add].
    now rewrite H3, H4, H5.
  - exists (fst (memberResultOf nodes loads d member)).
    split; [ reflexivity | ]. rewrite Hres. cbn [fst axial shearStart momentStart shearEnd momentEnd].
    repeat split; try reflexivity; apply Ropp_0.
  - exists (snd (memberResultOf nodes loads d member)).
    split; [ reflexivity | ]. rewrite Hres. cbn [snd].
    unfold memberDiagram. cbn [diag_x shear moment displacement vget nth].
    change (theta_start loads member (L - 0) (0 - 0) L [0; - P; - (P * L); 0; 0; 0] 0 0
              (P * L ^ 3 / (3 * E * I))) with 0.
    destruct (sortedPoints_shape loads member L L_pos) as [_ [_ [Hlast Hlen]]].
    set (points := sortedPoints loads member L) in *.
    assert (Hle : forall x, In x points -> x <= L).
    { intros x Hx. apply (sortedPoints_range loads member L x); [ lra | exact Hx ]. }
    assert (Hne : points <> []).
    { intros Hnil. rewrite Hnil in Hlen. cbn in Hlen. lia. }
    split; [ | split; [ exact Hlast | ] ].
    + intros k Hk. cbv zeta. rewrite !map_map.
      rewrite (nth_indep (map (fun x => fst (fst _)) points) 0
                 (fst (fst (diagramPoint loads member (L - 0) (0 - 0)
                              [0; - P; - (P * L); 0; 0; 0] 0 0 0))))
        by (now rewrite length_map).
      rewrite (nth_indep (map (fun x => snd (fst _)) points) 0
                 (snd (fst (diagramPoint loads member (L - 0) (0 - 0)
                              [0; - P; - (P * L); 0; 0; 0] 0 0 0))))
        by (now rewrite length_map).
      rewrite (nth_indep (map (fun x => snd _) points) 0
                 (snd (diagramPoint loads member (L - 0) (0 - 0)
                         [0; - P; - (P * L); 0; 0; 0] 0 0 0)))
        by (now rewrite length_map).
      rewrite (map_nth (fun x => fst (fst (diagramPoint loads member (L - 0) (0 - 0)
                                             [0; - P; - (P * L); 0; 0; 0] 0 0 x)))).
      rewrite (map_nth (fun x => snd (fst (diagramPoint loads member (L - 0) (0 - 0)
                                             [0; - P; - (P * L); 0; 0; 0] 0 0 x)))).
      rewrite (map_nth (fun x => snd (diagramPoint loads member (L - 0) (0 - 0)
                                        [0; - P; - (P * L); 0; 0; 0] 0 0 x))).
      rewrite cant_diagramPoint by (apply Hle, nth_In; exact Hk).
      cbn [fst snd]. repeat split; reflexivity.
    + rewrite map_map.
      rewrite (last_map (fun x => snd (diagramPoint loads member (L - 0) (0 - 0)
                                         [0; - P; - (P * L); 0; 0; 0] 0 0 x))
                 points 0 0 Hne).
      rewrite Hlast, cant_diagramPoint by lra. cbn [snd]. field. auto.
  - eexists. split; [ reflexivity | ].
    unfold reactionTable, cant_supports. cbn [fold_left].
    change (findNode nodes (nodeId (mkSupport "s1" "n1" fixed 0)))
      with (Some (mkNode "n1" 0 0)).
    cbn [table_set table_get node_id]. rewrite String.eqb_refl. f_equal.
    unfold reactionOf, reactionSum.
    change (connectedMembers members (mkNode "n1" 0 0)) with [member].
    cbn [fold_left].
    change (String.eqb (startNodeId member) (node_id (mkNode "n1" 0 0))) with true.
    cbv beta iota.
    rewrite !cant_endForces by (assumption || lia).
    cbn [vget nth]. f_equal; ring.
Qed.

End Cantilever.

Lemma cantilever_end_load_witness :
  exists r,
    solve inv_small (cant_nodes 10) [cant_member 200e9 1e-4 0.01] cant_supports
      [cant_load (-10) 10] = Return r /\
    table_get "n2" (nodeDisplacements r) =
      Some {| disp_dx := 0; disp_dy := -10 * 10 ^ 3 / (3 * 200e9 * 1e-4);
              rotation := -10 * 10 ^ 2 / (2 * 200e9 * 1e-4) |}.
Proof.
  assert (Hpos : 0 < 10) by lra.
  assert (Hbig : forall x, 1 <= x -> 1e-9 <= Rabs x).
  { intros x Hx. rewrite Rabs_pos_eq; lra. }
  assert (H1 : 1e-9 <= Rabs (200e9 * 0.01 / 10)) by (apply Hbig; lra).
  assert (H2 : 1e-9 <= Rabs (12 * 200e9 * 1e-4 / 10 ^ 3)) by (apply Hbig; lra).
  assert (H3 : 1e-9 <= Rabs (4 * 200e9 * 1e-4 / 10)) by (apply Hbig; lra).
  assert (Hret : exists r,
    solve inv_small (cant_nodes 10) [cant_member 200e9 1e-4 0.01] cant_supports
      [cant_load (-10) 10] = Return r).
  { rewrite solve_accepted;
      [ | discriminate | exact (cant_members_ok 200e9 1e-4 0.01 10 Hpos)
        | exact (cant_loads_ok 200e9 1e-4 0.01 10 (-10)) ].
    rewrite cant_free. unfold solveDisplacements, subset2. cbn [map].
    rewrite !(cant_stabilized 200e9 1e-4 0.01 10 Hpos H1 H2 H3) by lia.
    cbn [cantMatrix mget nth]. unfold inv_small.
    destruct (Req_dec_T _ 0) as [H0 | _]; [ exfalso; lra | ].
    cbn [bind]. rewrite calculateResults_value
      by exact (cant_members_ok 200e9 1e-4 0.01 10 Hpos).
    eexists. reflexivity. }
  destruct Hret as [r Hr]. exists r. split; [ exact Hr | ].
  exact (proj1 (cantilever_end_load 200e9 1e-4 0.01 10 (-10) Hpos inv_small inv_small_contract
                  H1 H2 H3 r Hr)).
Defined.
